(** * parallel-malloc: a shallow embedding of the allocator and its thread cache

    The development follows the C sources:
    - [pack], [extract_size], [get_size]            (block metadata codec)
    - [cache_init], [cache_add], [cache_evict], [cache_query]
                                                    (thread_cache.c)
    - [extend_arena], [get_arena], [find_arena]     (arena registry)
    - the segregated-list heap: [write_block], [coalesce_block],
      [search_list], [find_fit], [_malloc], ...     (naive / arena / cached)

    Machine integers are [Z] with the wrap-around written out: [size_t],
    [word_t] and addresses are 64-bit ([Word.wrap]), [int] is 32-bit two's
    complement ([Word.wrap_int]), [intptr_t] is 64-bit two's complement
    ([Word.wrap_intptr]).  Memory is a finite map from word
    addresses to 64-bit words; a word that was never written reads as 0,
    as in a fresh anonymous mapping. *)

From Stdlib Require Import ZArith QArith Lia Bool.
From stdpp Require Import base option list gmap.

Open Scope Z_scope.

(** ** Machine arithmetic *)

Module Word.

Definition modulus : Z := 2 ^ 64.

(** arithmetic on [size_t], [word_t] and addresses *)
Definition wrap (z : Z) : Z := z mod modulus.

Definition int_min : Z := - 2 ^ 31.
Definition int_max : Z := 2 ^ 31 - 1.

(** arithmetic on [int]: two's complement on 32 bits *)
Definition wrap_int (z : Z) : Z := (z + 2 ^ 31) mod 2 ^ 32 - 2 ^ 31.

Definition intptr_max : Z := 2 ^ 63 - 1.

(** conversion to [intptr_t]: two's complement on 64 bits *)
Definition wrap_intptr (z : Z) : Z := (z + 2 ^ 63) mod 2 ^ 64 - 2 ^ 63.

End Word.

(** ** Faults: what the C program does when it leaves defined behaviour *)

Inductive fault : Type :=
  | AssertionFailed   (* an [assert] that is compiled in fails *)
  | OutOfBounds       (* an array is indexed outside its bounds *)
  | NullDereference.  (* a field of the NULL pointer is accessed *)

Inductive result (A : Type) : Type :=
  | Ok (a : A)
  | Fault (f : fault).

Arguments Ok {A} a.
Arguments Fault {A} f.

Definition bind {A B : Type} (r : result A) (k : A -> result B) : result B :=
  match r with
  | Ok a => k a
  | Fault f => Fault f
  end.

Notation "'let*' x ':=' r 'in' k" := (bind r (fun x => k))
  (at level 10, x pattern, r at level 200, k at level 200).

Definition NULL : Z := 0.

(** ** Constants of malloc.h and thread_cache.h *)

Definition wsize : Z := 8.
Definition dsize : Z := 2 * wsize.
Definition min_block_size : Z := 2 * dsize.
Definition CHUNK_SIZE : Z := Z.shiftl 1 12.
Definition ARENA_MAX_SIZE : Z := Z.shiftl CHUNK_SIZE 15.
Definition MAXLISTS : Z := 15.
Definition SEARCHCOUNT : Z := 2.
Definition MAX_SEGLIST_SEARCH : Z := 15.
Definition alloc_mask : Z := 1.
Definition prev_alloc_mask : Z := 2.
Definition size_mask : Z := Word.modulus - 16.   (* ~(word_t)0xF *)

Definition CACHE_MAX_ENTRIES : Z := 8.
Definition CACHE_MAX_SIZE : Z := Z.shiftl 1 20.

(** ** Block metadata codec *)

Definition pack (size : Z) (alloc prev_alloc : bool) : Z :=
  let word := size in
  let word := if alloc then Z.lor word alloc_mask else word in
  let word := if prev_alloc then Z.lor word prev_alloc_mask else word in
  word.

Definition extract_size (word : Z) : Z := Z.land word size_mask.

Definition extract_alloc (word : Z) : bool :=
  negb (Z.land word alloc_mask =? 0).

Definition extract_prev_alloc (word : Z) : bool :=
  negb (Z.land word prev_alloc_mask =? 0).

Definition round_up (size n : Z) : Z :=
  if size <=? n then Word.wrap (2 * n)
  else Word.wrap (n * (Word.wrap (size + (n - 1)) / n)).

(** ** Memory: word-addressed, zero-initialised *)

Abbreviation mem := (gmap Z Z).

Definition load (m : mem) (a : Z) : Z := default 0 (m !! a).
Definition store (m : mem) (a v : Z) : mem := <[a := v]> m.

(** address arithmetic *)
Definition padd (p n : Z) : Z := Word.wrap (p + n).
Definition psub (p n : Z) : Z := Word.wrap (p - n).

Definition get_size (m : mem) (block : Z) : Z := extract_size (load m block).
Definition get_alloc (m : mem) (block : Z) : bool := extract_alloc (load m block).
Definition get_prev_alloc (m : mem) (block : Z) : bool :=
  extract_prev_alloc (load m block).

(** [offsetof(block_t, payload)] is one word; the two list links overlay the
    first two payload words. *)
Definition payload_to_header (bp : Z) : Z := psub bp wsize.
Definition header_to_payload (block : Z) : Z := padd block wsize.
Definition prev_link (block : Z) : Z := padd block wsize.
Definition next_link (block : Z) : Z := padd block (2 * wsize).

(** ** The thread cache (thread_cache.c) *)

Record cache_t : Type := mk_cache {
  elems : list Z;        (* block_t *elems[CACHE_MAX_ENTRIES] *)
  num_entries : Z;       (* size_t *)
  total_size : Z;        (* size_t *)
  front : Z              (* int *)
}.

(** [c->elems[i]] *)
Definition slot (es : list Z) (i : Z) : result Z :=
  if (0 <=? i) && (i <? CACHE_MAX_ENTRIES) then
    match es !! Z.to_nat i with
    | Some b => Ok b
    | None => Fault OutOfBounds
    end
  else Fault OutOfBounds.

Definition cache_init : cache_t :=
  {| elems := replicate (Z.to_nat CACHE_MAX_ENTRIES) NULL;
     num_entries := 0;
     total_size := 0;
     front := CACHE_MAX_ENTRIES |}.

(** the [for] loop of [cache_add]: [n] iterations remain, starting at [i] *)
Fixpoint cache_add_scan (n : nat) (i : Z) (c : cache_t) (block bsize : Z)
  : result cache_t :=
  match n with
  | O => Ok c
  | S n' =>
      let* b := slot (elems c) i in
      if b =? NULL then
        Ok {| elems := <[Z.to_nat i := block]> (elems c);
              num_entries := Word.wrap (num_entries c + 1);
              total_size := Word.wrap (total_size c + bsize);
              front := if i <? front c then i else front c |}
      else cache_add_scan n' (i + 1) c block bsize
  end.

Definition cache_add (m : mem) (c : cache_t) (block : Z) : result (bool * cache_t) :=
  if num_entries c =? CACHE_MAX_ENTRIES then Ok (false, c)
  else
    let bsize := get_size m block in
    if Word.wrap (total_size c + bsize) >? CACHE_MAX_SIZE then Ok (false, c)
    else
      let* c' := cache_add_scan (Z.to_nat CACHE_MAX_ENTRIES) 0 c block bsize in
      Ok (true, c').

(** [while (c->front < CACHE_MAX_ENTRIES && !c->elems[c->front]) c->front++;]
    The loop runs at most [CACHE_MAX_ENTRIES - f] times, which is the fuel
    [advance_front] passes. *)
Fixpoint advance_front_loop (n : nat) (es : list Z) (f : Z) : result Z :=
  match n with
  | O => Ok f
  | S n' =>
      if f <? CACHE_MAX_ENTRIES then
        let* b := slot es f in
        if b =? NULL then advance_front_loop n' es (f + 1)
        else Ok f
      else Ok f
  end.

Definition advance_front (es : list Z) (f : Z) : result Z :=
  if f <? 0 then Fault OutOfBounds
  else advance_front_loop (Z.to_nat (CACHE_MAX_ENTRIES - f)) es f.

Definition cache_evict (m : mem) (c : cache_t) : result (Z * cache_t) :=
  if negb (num_entries c >? 0) then Fault AssertionFailed
  else
    let* b := slot (elems c) (front c) in
    let total := Word.wrap (total_size c - get_size m b) in
    let num := Word.wrap (num_entries c - 1) in
    let es := <[Z.to_nat (front c) := NULL]> (elems c) in
    let* f := advance_front es (front c) in
    Ok (b, {| elems := es; num_entries := num; total_size := total; front := f |}).

(** the [for] loop of [cache_query] *)
Fixpoint cache_query_scan (m : mem) (n : nat) (i : Z) (c : cache_t) (size : Z)
  : result (Z * cache_t) :=
  match n with
  | O => Ok (NULL, c)
  | S n' =>
      let* b := slot (elems c) i in
      if b =? NULL then cache_query_scan m n' (i + 1) c size
      else
        let bsize := get_size m b in
        if bsize >=? size then
          let es := <[Z.to_nat i := NULL]> (elems c) in
          let total := Word.wrap (total_size c - bsize) in
          let num := Word.wrap (num_entries c - 1) in
          let* f := (if i =? front c then advance_front es (front c)
                   else Ok (front c)) in
          Ok (b, {| elems := es; num_entries := num; total_size := total;
                    front := f |})
        else cache_query_scan m n' (i + 1) c size
  end.

Definition cache_query (m : mem) (c : cache_t) (size : Z) : result (Z * cache_t) :=
  if front c <? CACHE_MAX_ENTRIES then
    cache_query_scan m (Z.to_nat (CACHE_MAX_ENTRIES - front c)) (front c) c size
  else Ok (NULL, c).

(** ** The state invariant of the thread cache *)

(** number of non-NULL slots *)
Fixpoint occupied (es : list Z) : Z :=
  match es with
  | [] => 0
  | b :: es' => (if b =? NULL then 0 else 1) + occupied es'
  end.

(** sum of [get_size] over the blocks held in the slots, as a [size_t] *)
Fixpoint sum_sizes (m : mem) (es : list Z) : Z :=
  match es with
  | [] => 0
  | b :: es' =>
      if b =? NULL then sum_sizes m es'
      else Word.wrap (get_size m b + sum_sizes m es')
  end.

(** smallest index of a non-NULL slot; the length when there is none *)
Fixpoint first_occupied (es : list Z) : Z :=
  match es with
  | [] => 0
  | b :: es' => if b =? NULL then 1 + first_occupied es' else 0
  end.

(** the invariant as the code keeps it: [total_size] is the sum computed
    in [size_t], that is modulo [2 ^ 64] ([cache_exact] below has the sum as
    a number) *)
Record cache_inv (m : mem) (c : cache_t) : Prop := mk_cache_inv {
  inv_slots : length (elems c) = Z.to_nat CACHE_MAX_ENTRIES;
  inv_num : num_entries c = occupied (elems c);
  inv_total : total_size c = sum_sizes m (elems c);
  inv_front : front c = first_occupied (elems c)
}.


(** ** Blocks on the heap (shared by the naive, arena and cached variants) *)

Definition header_to_footer (m : mem) (block : Z) : Z :=
  psub (padd (header_to_payload block) (get_size m block)) dsize.

Definition footer_to_header (m : mem) (footer : Z) : Z :=
  let size := extract_size (load m footer) in
  psub (padd footer wsize) size.

Definition write_epilogue (m : mem) (block : Z) (prev_alloc : bool) : mem :=
  store m block (pack 0 true prev_alloc).

Definition write_block (m : mem) (block size : Z) (alloc prev_alloc : bool) : mem :=
  if negb alloc then
    let m := store m block (pack size alloc prev_alloc) in
    let footerp := header_to_footer m block in
    store m footerp (pack size alloc prev_alloc)
  else
    store m block (pack size alloc prev_alloc).

Definition find_next (m : mem) (block : Z) : Z := padd block (get_size m block).

Definition find_prev_footer (block : Z) : Z := psub block wsize.

Definition find_prev (m : mem) (block : Z) : Z :=
  footer_to_header m (find_prev_footer block).

(** *** Size classes *)

(** [while (size != 0 && list_ind < MAXLISTS - 1) { size >>= 1; list_ind++; }]
    [list_ind] grows from 0 and stops at [MAXLISTS - 1]: 14 rounds of fuel
    are never exhausted. *)
Fixpoint class_loop (n : nat) (size list_ind : Z) : Z :=
  match n with
  | O => list_ind
  | S n' =>
      if negb (size =? 0) && (list_ind <? MAXLISTS - 1)
      then class_loop n' (Z.shiftr size 1) (list_ind + 1)
      else list_ind
  end.

Definition find_list_for_block (m : mem) (block : Z) : Z :=
  class_loop (Z.to_nat (MAXLISTS - 1)) (Z.shiftr (get_size m block) 6) 0.

(** [while (size != 0) { size >>= 1; min_list_ind++; }] on a 64-bit [size]:
    64 shifts clear every bit. *)
Fixpoint min_list_loop (n : nat) (size min_list_ind : Z) : Z :=
  match n with
  | O => min_list_ind
  | S n' =>
      if negb (size =? 0)
      then min_list_loop n' (Z.shiftr size 1) (min_list_ind + 1)
      else min_list_ind
  end.

(** the first lines of [find_fit], the same in every variant *)
Definition min_list_index (asize : Z) : Z :=
  let min_list_ind := min_list_loop 64 (Z.shiftr asize 6) 0 in
  if min_list_ind >? MAXLISTS - 1 then MAXLISTS - 1 else min_list_ind.

(** *** Segregated free lists *)

(** [seglists[i]] and [seglists[i] = v]; every index the code computes is
    below [MAXLISTS] *)
Definition seglist (sl : list Z) (i : Z) : Z := sl !!! Z.to_nat i.
Definition set_seglist (sl : list Z) (i v : Z) : list Z := <[Z.to_nat i := v]> sl.

Definition add_to_free_list (m : mem) (sl : list Z) (block : Z) : mem * list Z :=
  let list_ind := find_list_for_block m block in
  if seglist sl list_ind =? block then (m, sl)
  else if seglist sl list_ind =? NULL then
    let sl := set_seglist sl list_ind block in
    let m := store m (prev_link (seglist sl list_ind)) NULL in
    let m := store m (next_link (seglist sl list_ind)) NULL in
    (m, sl)
  else
    let oldStart := seglist sl list_ind in
    let m := store m (next_link block) (seglist sl list_ind) in
    let m := store m (prev_link oldStart) block in
    let m := store m (prev_link block) NULL in
    let sl := set_seglist sl list_ind block in
    (m, sl).

Definition delete_from_free_list (m : mem) (sl : list Z) (block : Z) : mem * list Z :=
  let list_ind := find_list_for_block m block in
  if seglist sl list_ind =? NULL then (m, sl)
  else
    let next := load m (next_link block) in
    let prev := load m (prev_link block) in
    if negb (prev =? NULL) && negb (next =? NULL) then
      let m := store m (next_link prev) next in
      let m := store m (prev_link next) prev in
      let m := store m (prev_link block) NULL in
      let m := store m (next_link block) NULL in
      (m, sl)
    else if negb (prev =? NULL) && (next =? NULL) then
      (store m (next_link prev) NULL, sl)
    else if (prev =? NULL) && negb (next =? NULL) then
      let sl := set_seglist sl list_ind next in
      (store m (prev_link next) NULL, sl)
    else
      (m, set_seglist sl list_ind NULL).

(** *** Coalescing *)

Definition coalesce_block (m : mem) (sl : list Z) (block : Z)
  : result (Z * (mem * list Z)) :=
  let next := find_next m block in
  let prevAlloc := get_prev_alloc m block in
  let nextAlloc := get_alloc m next in
  let currSize := get_size m block in
  let nextSize := get_size m next in
  if prevAlloc && nextAlloc then Ok (block, (m, sl))
  else
    let* (block, (m, sl)) :=
      if prevAlloc && negb nextAlloc then
        let '(m, sl) := delete_from_free_list m sl next in
        let m := write_block m block (Word.wrap (currSize + nextSize)) false true in
        Ok (block, (m, sl))
      else if negb prevAlloc && nextAlloc then
        let prev := find_prev m block in
        if prev =? block then Fault AssertionFailed
        else
          let prevSize := get_size m prev in
          let '(m, sl) := delete_from_free_list m sl prev in
          let m := write_block m prev (Word.wrap (currSize + prevSize)) false
                     (get_prev_alloc m prev) in
          Ok (prev, (m, sl))
      else
        let prev := find_prev m block in
        let prevSize := get_size m prev in
        if prev =? block then Fault AssertionFailed
        else
          let '(m, sl) := delete_from_free_list m sl next in
          let '(m, sl) := delete_from_free_list m sl prev in
          let m := write_block m prev
                     (Word.wrap (Word.wrap (currSize + prevSize) + nextSize)) false
                     (get_prev_alloc m prev) in
          Ok (prev, (m, sl))
    in
    if block =? NULL then Fault AssertionFailed
    else
      let next := find_next m block in
      let m := write_block m next (get_size m next) (get_alloc m next) false in
      Ok (block, (m, sl)).

Definition split_block (m : mem) (sl : list Z) (block asize : Z) : mem * list Z :=
  let block_size := get_size m block in
  if Word.wrap (block_size - asize) >=? min_block_size then
    let m := write_block m block asize true (get_prev_alloc m block) in
    let block_next := find_next m block in
    let m := write_block m block_next (Word.wrap (block_size - asize)) false true in
    add_to_free_list m sl block_next
  else (m, sl).

(** *** Searching one list: best fit among the first [MAX_SEGLIST_SEARCH] *)

(** one round per visited block; [count] breaks the loop on its 16th round *)
Fixpoint search_list_loop (m : mem) (n : nat)
    (block count best_fit fit_error asize : Z) : Z :=
  match n with
  | O => best_fit
  | S n' =>
      if block =? NULL then best_fit
      else
        let count := count + 1 in
        if count >? MAX_SEGLIST_SEARCH then best_fit
        else
          let block_size := get_size m block in
          if block_size >=? asize then
            let '(best_fit, fit_error) :=
              if best_fit =? NULL then (block, Word.wrap (block_size - asize))
              else if Word.wrap (block_size - asize) <? fit_error
                   then (block, Word.wrap (block_size - asize))
                   else (best_fit, fit_error) in
            if fit_error =? 0 then best_fit
            else search_list_loop m n' (load m (next_link block)) count
                   best_fit fit_error asize
          else search_list_loop m n' (load m (next_link block)) count
                 best_fit fit_error asize
  end.

Definition search_list (m : mem) (list_start asize : Z) : Z :=
  if list_start =? NULL then NULL
  else search_list_loop m (Z.to_nat (MAX_SEGLIST_SEARCH + 1))
         list_start 0 NULL asize asize.

(** ** The arena registry *)

Record arena_t : Type := mk_arena {
  arena_low : Z;            (* void *low *)
  arena_size : Z;           (* size_t size *)
  arena_heap_start : Z;     (* void *heap_start *)
  arena_heap_end : Z;       (* void *heap_end *)
  arena_seglists : list Z   (* block_t *seglists[MAXLISTS] *)
}.

Definition set_heap_end (a : arena_t) (e : Z) : arena_t :=
  {| arena_low := arena_low a; arena_size := arena_size a;
     arena_heap_start := arena_heap_start a; arena_heap_end := e;
     arena_seglists := arena_seglists a |}.

Definition set_seglists (a : arena_t) (sl : list Z) : arena_t :=
  {| arena_low := arena_low a; arena_size := arena_size a;
     arena_heap_start := arena_heap_start a; arena_heap_end := arena_heap_end a;
     arena_seglists := sl |}.

Definition extend_arena (arena : arena_t) (length : Z) : Z * arena_t :=
  let result := arena_heap_end arena in
  let new_end := padd (arena_heap_end arena) length in
  if new_end >? padd (arena_low arena) (arena_size arena) then (NULL, arena)
  else (result, set_heap_end arena new_end).

(** The process-wide state: the memory, the arena array with its length and
    the dispatch counter, and the calling thread's cache. *)
Record state : Type := mk_state {
  heap : mem;
  arenas : list arena_t;
  max_arenas : Z;          (* static int max_arenas *)
  last_used : Z;           (* static int last_used *)
  local_cache : cache_t    (* static __thread cache_t local_cache *)
}.

Definition set_heap (st : state) (m : mem) : state :=
  {| heap := m; arenas := arenas st; max_arenas := max_arenas st;
     last_used := last_used st; local_cache := local_cache st |}.

Definition set_arena (st : state) (i : Z) (a : arena_t) : state :=
  {| heap := heap st; arenas := <[Z.to_nat i := a]> (arenas st);
     max_arenas := max_arenas st; last_used := last_used st;
     local_cache := local_cache st |}.

Definition set_last_used (st : state) (n : Z) : state :=
  {| heap := heap st; arenas := arenas st; max_arenas := max_arenas st;
     last_used := n; local_cache := local_cache st |}.

Definition set_local_cache (st : state) (c : cache_t) : state :=
  {| heap := heap st; arenas := arenas st; max_arenas := max_arenas st;
     last_used := last_used st; local_cache := c |}.

(** [&arenas[i]]: arenas are named by their index in the array *)
Definition arena_at (st : state) (i : Z) : result arena_t :=
  if (0 <=? i) && (i <? max_arenas st) then
    match arenas st !! Z.to_nat i with
    | Some a => Ok a
    | None => Fault OutOfBounds
    end
  else Fault OutOfBounds.

(** [__atomic_fetch_add(&last_used, 1, __ATOMIC_SEQ_CST) % max_arenas]:
    the fetched value, with C's remainder (sign of the dividend) *)
Definition get_arena_index (st : state) : Z :=
  Z.rem (last_used st) (max_arenas st).

Definition get_arena (st : state) : result (Z * state) :=
  if negb (max_arenas st >? 0) then Fault AssertionFailed
  else
    let index := get_arena_index st in
    let st := set_last_used st (Word.wrap_int (last_used st + 1)) in
    let* _ := arena_at st index in   (* pthread_mutex_lock(&arenas[index].lock) *)
    Ok (index, st).

(** [find_arena]: [None] stands for the NULL arena *)
Fixpoint find_arena_loop (st : state) (n : nat) (i : Z) (address : Z)
  : result (option Z) :=
  match n with
  | O => Ok None
  | S n' =>
      let* a := arena_at st i in
      if (address >=? arena_heap_start a) && (address <=? arena_heap_end a)
      then Ok (Some i)
      else find_arena_loop st n' (i + 1) address
  end.

Definition find_arena (st : state) (address : Z) : result (option Z) :=
  find_arena_loop st (Z.to_nat (max_arenas st)) 0 address.

Definition mem_heap_lo (arena : arena_t) : Z := arena_heap_start arena.
Definition mem_heap_hi (arena : arena_t) : Z := psub (arena_heap_end arena) 1.

Definition MAP_FAILED : Z := Word.wrap (-1).

(** ** The multi-arena allocator *)

Module Arena.

(** [for (int list_ind = min_list_ind;
          list_ind < MAXLISTS && list_ind <= min_list_ind + 1; list_ind++)] *)
Fixpoint find_fit_loop (m : mem) (sl : list Z) (n : nat)
    (list_ind min_list_ind asize : Z) : Z :=
  match n with
  | O => NULL
  | S n' =>
      if (list_ind <? MAXLISTS) && (list_ind <=? Word.wrap (min_list_ind + 1))
      then
        let block := search_list m (seglist sl list_ind) asize in
        if negb (block =? NULL) then block
        else find_fit_loop m sl n' (list_ind + 1) min_list_ind asize
      else NULL
  end.

Definition find_fit (m : mem) (arena : arena_t) (asize : Z) : Z :=
  let min_list_ind := min_list_index asize in
  find_fit_loop m (arena_seglists arena) (Z.to_nat (MAXLISTS + 1))
    min_list_ind min_list_ind asize.

Definition extend_arena_heap (m : mem) (arena : arena_t) (size : Z)
    (prev_alloc : bool) : result (Z * (mem * arena_t)) :=
  let size := round_up size dsize in
  let '(bp, arena) := extend_arena arena size in
  if bp =? NULL then Ok (NULL, (m, arena))
  else
    let block := payload_to_header bp in
    let m := write_block m block size false prev_alloc in
    let block_next := find_next m block in
    let m := write_epilogue m block_next false in
    let* (block, (m, sl)) := coalesce_block m (arena_seglists arena) block in
    let '(m, sl) := add_to_free_list m sl block in
    Ok (block, (m, set_seglists arena sl)).

Definition _malloc (m : mem) (arena : arena_t) (size : Z)
  : result (Z * (mem * arena_t)) :=
  let bp := NULL in
  if size =? 0 then Ok (bp, (m, arena))
  else
    let asize := round_up (Word.wrap (size + wsize)) dsize in
    let block := find_fit m arena asize in
    let* (block, (m, arena)) :=
      if block =? NULL then
        let extendsize := Z.max asize CHUNK_SIZE in
        extend_arena_heap m arena extendsize
          (extract_prev_alloc (load m (psub (mem_heap_hi arena) 7)))
      else Ok (block, (m, arena)) in
    if block =? NULL then Ok (bp, (m, arena))
    else
      let block_size := get_size m block in
      let m := write_block m block block_size true (get_prev_alloc m block) in
      let '(m, sl) := delete_from_free_list m (arena_seglists arena) block in
      let '(m, sl) := split_block m sl block asize in
      let next := find_next m block in
      let m := write_block m next (get_size m next) (get_alloc m next) true in
      Ok (header_to_payload block, (m, set_seglists arena sl)).

Definition _free (m : mem) (arena : arena_t) (bp : Z)
  : result (mem * arena_t) :=
  if bp =? NULL then Ok (m, arena)
  else
    let block := payload_to_header bp in
    let size := get_size m block in
    let m := write_block m block size false (get_prev_alloc m block) in
    let next := find_next m block in
    let m := write_block m next (get_size m next) (get_alloc m next) false in
    let* (block, (m, sl)) := coalesce_block m (arena_seglists arena) block in
    let '(m, sl) := add_to_free_list m sl block in
    Ok (m, set_seglists arena sl).

(** the lazy set-up in [arena_malloc]; [mmap] is the address the operating
    system hands out for the mapping, or [MAP_FAILED] *)
Definition arena_setup (m : mem) (arena : arena_t) (mmap : Z)
  : result (option (mem * arena_t)) :=
  if negb (arena_low arena =? NULL) then Fault AssertionFailed
  else if mmap =? MAP_FAILED then Ok None
  else
    let start := mmap in
    let m := store m start (pack 0 true true) in
    let m := store m (padd start wsize) (pack 0 true true) in
    let arena :=
      {| arena_low := mmap; arena_size := ARENA_MAX_SIZE;
         arena_heap_start := padd start wsize;
         arena_heap_end := padd start (2 * wsize);
         arena_seglists := arena_seglists arena |} in
    let* (block, (m, arena)) := extend_arena_heap m arena CHUNK_SIZE true in
    if block =? NULL then Fault AssertionFailed
    else Ok (Some (m, arena)).

Definition arena_malloc (st : state) (size : Z) (mmap : Z) : result (Z * state) :=
  let* (i, st) := get_arena st in
  let* arena := arena_at st i in
  let* ready :=
    if arena_heap_start arena =? NULL then arena_setup (heap st) arena mmap
    else Ok (Some (heap st, arena)) in
  match ready with
  | None =>
      Ok (NULL, set_arena st i
            {| arena_low := NULL; arena_size := ARENA_MAX_SIZE;
               arena_heap_start := arena_heap_start arena;
               arena_heap_end := arena_heap_end arena;
               arena_seglists := arena_seglists arena |})
  | Some (m, arena) =>
      let* (output, (m, arena)) := _malloc m arena size in
      Ok (output, set_arena (set_heap st m) i arena)
  end.

Definition arena_free (st : state) (ptr : Z) : result state :=
  let* found := find_arena st ptr in
  match found with
  | None => Fault AssertionFailed
  | Some i =>
      let* arena := arena_at st i in
      let* (m, arena) := _free (heap st) arena ptr in
      Ok (set_arena (set_heap st m) i arena)
  end.

End Arena.

(** [arenas_init]: the arena array is a fresh zeroed mapping; [bases] are the
    addresses the operating system returns for the arenas' own mappings, in
    order ([MAP_FAILED] or a missing one makes the [assert] fail).  The
    thread cache is static storage, all zero until [init_tcache] runs. *)
Definition zero_arena : arena_t :=
  {| arena_low := NULL; arena_size := 0; arena_heap_start := NULL;
     arena_heap_end := NULL;
     arena_seglists := replicate (Z.to_nat MAXLISTS) NULL |}.

Fixpoint arenas_init_loop (m : mem) (bases : list Z) (n : nat)
  : result (mem * list arena_t) :=
  match n with
  | O => Ok (m, [])
  | S n' =>
      match bases with
      | [] => Fault AssertionFailed
      | low :: bases' =>
          if low =? MAP_FAILED then Fault AssertionFailed
          else
            let start := low in
            let m := store m start (pack 0 true true) in
            let m := store m (padd start wsize) (pack 0 true true) in
            let arena :=
              {| arena_low := low; arena_size := ARENA_MAX_SIZE;
                 arena_heap_start := padd start wsize;
                 arena_heap_end := padd start (2 * wsize);
                 arena_seglists := arena_seglists zero_arena |} in
            let* (block, (m, arena)) :=
              Arena.extend_arena_heap m arena CHUNK_SIZE true in
            if block =? NULL then Fault AssertionFailed
            else
              let* (m, rest) := arenas_init_loop m bases' n' in
              Ok (m, arena :: rest)
      end
  end.

Definition arenas_init (m : mem) (num_arenas : Z) (bases : list Z) : result state :=
  if negb (num_arenas >? 0) then Fault AssertionFailed
  else
    let* (m, l) := arenas_init_loop m bases (Z.to_nat num_arenas) in
    Ok {| heap := m; arenas := l; max_arenas := num_arenas; last_used := 0;
          local_cache := {| elems := replicate (Z.to_nat CACHE_MAX_ENTRIES) NULL;
                            num_entries := 0; total_size := 0; front := 0 |} |}.

(** ** The naive allocator: one heap grown with [sbrk] *)

Module Naive.

Record heap_t : Type := mk_heap {
  memory : mem;
  heap_start : Z;
  heap_end : Z;
  seglists : list Z;
  brk : Z;            (* the program break *)
  brk_limit : Z       (* where [sbrk] starts to fail *)
}.

Definition set_memory (h : heap_t) (m : mem) (sl : list Z) : heap_t :=
  {| memory := m; heap_start := heap_start h; heap_end := heap_end h;
     seglists := sl; brk := brk h; brk_limit := brk_limit h |}.

(** [void *sbrk(intptr_t increment)].  The callers pass a [size_t], which
    the call converts to [intptr_t]: an argument of [2 ^ 63] or more is a
    negative increment and moves the break down.  The break cannot pass
    [brk_limit], nor leave the address space at its lower end. *)
Definition sbrk (h : heap_t) (incr : Z) : Z * heap_t :=
  let incr := Word.wrap_intptr incr in
  if (brk h + incr >? brk_limit h) || (brk h + incr <? 0) then (MAP_FAILED, h)
  else (brk h,
        {| memory := memory h; heap_start := heap_start h;
           heap_end := heap_end h; seglists := seglists h;
           brk := brk h + incr; brk_limit := brk_limit h |}).

Definition set_heap_end (h : heap_t) (e : Z) : heap_t :=
  {| memory := memory h; heap_start := heap_start h; heap_end := e;
     seglists := seglists h; brk := brk h; brk_limit := brk_limit h |}.

(** [for (int list_ind = min_list_ind;
          (list_ind < MAXLISTS) && (min_list_ind + SEARCHCOUNT); list_ind++)] *)
Fixpoint find_fit_loop (m : mem) (sl : list Z) (n : nat)
    (list_ind min_list_ind asize : Z) : Z :=
  match n with
  | O => NULL
  | S n' =>
      if (list_ind <? MAXLISTS)
         && negb (Word.wrap (min_list_ind + SEARCHCOUNT) =? 0)
      then
        let block := search_list m (seglist sl list_ind) asize in
        if negb (block =? NULL) then block
        else find_fit_loop m sl n' (list_ind + 1) min_list_ind asize
      else NULL
  end.

Definition find_fit (h : heap_t) (asize : Z) : Z :=
  let min_list_ind := min_list_index asize in
  find_fit_loop (memory h) (seglists h) (Z.to_nat (MAXLISTS + 1))
    min_list_ind min_list_ind asize.

Definition extend_heap (h : heap_t) (size : Z) (prev_alloc : bool)
  : result (Z * heap_t) :=
  let size := round_up size dsize in
  let '(bp, h) := sbrk h size in
  if bp =? MAP_FAILED then Ok (NULL, h)
  else
    let h := set_heap_end h (padd bp size) in
    let block := payload_to_header bp in
    let m := write_block (memory h) block size false prev_alloc in
    let block_next := find_next m block in
    let m := write_epilogue m block_next false in
    let* (block, (m, sl)) := coalesce_block m (seglists h) block in
    let '(m, sl) := add_to_free_list m sl block in
    Ok (block, set_memory h m sl).

Definition mm_init (h : heap_t) : result (bool * heap_t) :=
  let '(start, h) := sbrk h (2 * wsize) in
  let h := set_heap_end h (padd start (2 * wsize)) in
  if start =? MAP_FAILED then Ok (false, h)
  else
    let sl := replicate (Z.to_nat MAXLISTS) NULL in
    let m := store (memory h) start (pack 0 true true) in
    let m := store m (padd start wsize) (pack 0 true true) in
    let h :=
      {| memory := m; heap_start := padd start wsize; heap_end := heap_end h;
         seglists := sl; brk := brk h; brk_limit := brk_limit h |} in
    let* (block, h) := extend_heap h CHUNK_SIZE true in
    if block =? NULL then Ok (false, h) else Ok (true, h).

Definition _malloc (h : heap_t) (size : Z) : result (Z * heap_t) :=
  let bp := NULL in
  if size =? 0 then Ok (bp, h)
  else
    let asize := round_up (Word.wrap (size + wsize)) dsize in
    let block := find_fit h asize in
    let* (block, h) :=
      if block =? NULL then
        let extendsize := Z.max asize CHUNK_SIZE in
        extend_heap h extendsize
          (extract_prev_alloc (load (memory h) (psub (psub (heap_end h) 1) 7)))
      else Ok (block, h) in
    if block =? NULL then Ok (bp, h)
    else
      let m := memory h in
      let block_size := get_size m block in
      let m := write_block m block block_size true (get_prev_alloc m block) in
      let '(m, sl) := delete_from_free_list m (seglists h) block in
      let '(m, sl) := split_block m sl block asize in
      let next := find_next m block in
      let m := write_block m next (get_size m next) (get_alloc m next) true in
      Ok (header_to_payload block, set_memory h m sl).

Definition _free (h : heap_t) (bp : Z) : result heap_t :=
  if bp =? NULL then Ok h
  else
    let m := memory h in
    let block := payload_to_header bp in
    let size := get_size m block in
    let m := write_block m block size false (get_prev_alloc m block) in
    let next := find_next m block in
    let m := write_block m next (get_size m next) (get_alloc m next) false in
    let* (block, (m, sl)) := coalesce_block m (seglists h) block in
    let '(m, sl) := add_to_free_list m sl block in
    Ok (set_memory h m sl).

Definition naive_malloc (h : heap_t) (size : Z) : result (Z * heap_t) :=
  let* h :=
    if heap_start h =? NULL
    then (let* (_, h) := mm_init h in Ok h)
    else Ok h in
  _malloc h size.

Definition naive_free (h : heap_t) (ptr : Z) : result heap_t := _free h ptr.

End Naive.

(** ** The multi-arena allocator behind the thread cache *)

Module Cached.

(** [CACHE_EVICT_PROBABILITY] is the [float] literal [0.1f], that is
    13421773 / 2^27; the comparison promotes it to [double] unchanged. *)
Definition CACHE_EVICT_PROBABILITY : Q := 13421773 # 134217728.

(** [(double)(rand() / RAND_MAX) < CACHE_EVICT_PROBABILITY], where [r] is
    what [rand()] returned: the division is the one of [int], its quotient
    converts to [double] exactly. *)
Definition evict_guard (RAND_MAX r : Z) : bool :=
  negb (Qle_bool CACHE_EVICT_PROBABILITY (inject_Z (Z.quot r RAND_MAX))).

Definition init_tcache (st : state) : state := set_local_cache st cache_init.

(** after the cache query, [arena_cached_malloc] is [arena_malloc] *)
Definition arena_cached_malloc (st : state) (size : Z) (mmap : Z)
  : result (Z * state) :=
  let* (block, c) := cache_query (heap st) (local_cache st) size in
  let st := set_local_cache st c in
  if negb (block =? NULL) then Ok (header_to_payload block, st)
  else Arena.arena_malloc st size mmap.

Definition truly_free (st : state) (block : Z) : result state :=
  let* found := find_arena st block in
  let m := heap st in
  let size := get_size m block in
  let m := write_block m block size false (get_prev_alloc m block) in
  let next := find_next m block in
  let m := write_block m next (get_size m next) (get_alloc m next) false in
  match found with
  | None => Fault NullDereference      (* [arena->seglists] *)
  | Some i =>
      let* arena := arena_at st i in
      let* (block, (m, sl)) := coalesce_block m (arena_seglists arena) block in
      let '(m, sl) := add_to_free_list m sl block in
      Ok (set_arena (set_heap st m) i (set_seglists arena sl))
  end.

(** [r] is the value of the one call of [rand()] the function may make *)
Definition arena_cached_free (RAND_MAX : Z) (st : state) (ptr : Z) (r : Z)
  : result state :=
  let block := payload_to_header ptr in
  let* (added, c) := cache_add (heap st) (local_cache st) block in
  let st := set_local_cache st c in
  if added then Ok st
  else if evict_guard RAND_MAX r then
    let* (evict, c) := cache_evict (heap st) (local_cache st) in
    let st := set_local_cache st c in
    let* st := truly_free st evict in
    let* (added, c) := cache_add (heap st) (local_cache st) block in
    let st := set_local_cache st c in
    if added then Ok st else truly_free st block
  else truly_free st block.

End Cached.


(** ** Concrete runs *)

Module Run.

(** glibc's [RAND_MAX] *)
Definition RAND_MAX : Z := 2147483647.

(** the addresses of the two arena mappings *)
Definition bases : list Z := [1048576; 269484032].

(** [arena_cached_malloc_init()] with two arenas, then [init_tcache()] *)
Definition boot : result state :=
  let* st := arenas_init ∅ 2 bases in
  Ok (Cached.init_tcache st).

(** two allocated blocks, of 64 bytes at 4104 and of 32 bytes at 4168 *)
Definition two_blocks : mem :=
  store (store ∅ 4104 (pack 64 true true)) 4168 (pack 32 true true).

(** the cache after [cache_init] and [cache_add] of the 64-byte block *)
Definition one_cached : cache_t :=
  {| elems := [4104; 0; 0; 0; 0; 0; 0; 0];
     num_entries := 1; total_size := 64; front := 0 |}.

Definition two_cached : cache_t :=
  {| elems := [4104; 4168; 0; 0; 0; 0; 0; 0];
     num_entries := 2; total_size := 96; front := 0 |}.

(** the 64-byte block at 4104, and at 4168 a header that holds the size
    [2 ^ 64 - 48] *)
Definition wide_block : mem :=
  store (store ∅ 4104 (pack 64 true true)) 4168 (pack (2 ^ 64 - 48) true true).

(** a brand-new process for the naive allocator: nothing mapped, the
    program break at 1 MiB with 1 MiB to grow *)
Definition fresh : Naive.heap_t :=
  {| Naive.memory := ∅; Naive.heap_start := NULL; Naive.heap_end := NULL;
     Naive.seglists := replicate (Z.to_nat MAXLISTS) NULL;
     Naive.brk := 1048576; Naive.brk_limit := 2097152 |}.

(** the first arena right after [arenas_init] *)
Definition first_arena : arena_t :=
  {| arena_low := 1048576; arena_size := ARENA_MAX_SIZE;
     arena_heap_start := 1048584; arena_heap_end := 1052688;
     arena_seglists := [0; 0; 0; 0; 0; 0; 0; 1048584; 0; 0; 0; 0; 0; 0; 0] |}.

End Run.

(** ** Reachable cache states *)

Inductive cache_reachable (m : mem) : cache_t -> Prop :=
  | reach_init : cache_reachable m cache_init
  | reach_add c block r c' :
      cache_reachable m c -> block <> NULL ->
      cache_add m c block = Ok (r, c') -> cache_reachable m c'
  | reach_query c size block c' :
      cache_reachable m c ->
      cache_query m c size = Ok (block, c') -> cache_reachable m c'
  | reach_evict c block c' :
      cache_reachable m c -> num_entries c > 0 ->
      cache_evict m c = Ok (block, c') -> cache_reachable m c'.

(** the sum of the block sizes without wrap-around *)
Fixpoint plain_sum (m : mem) (es : list Z) : Z :=
  match es with
  | [] => 0
  | b :: es' => (if b =? NULL then 0 else get_size m b) + plain_sum m es'
  end.

(** the state invariant of the thread cache with [total_size] the sum of
    the sizes as a number, not as a [size_t] that may have wrapped around;
    [total_size] itself is a [size_t] *)
Record cache_exact (m : mem) (c : cache_t) : Prop := mk_cache_exact {
  ex_slots : length (elems c) = Z.to_nat CACHE_MAX_ENTRIES;
  ex_num : num_entries c = occupied (elems c);
  ex_total : total_size c = plain_sum m (elems c);
  ex_range : total_size c < Word.modulus;
  ex_front : front c = first_occupied (elems c)
}.

(** cache states reached from [cache_init] by calls in which the addition
    [c->total_size + bsize] of [cache_add] does not overflow [size_t] *)
Inductive cache_reachable_nowrap (m : mem) : cache_t -> Prop :=
  | nowrap_init : cache_reachable_nowrap m cache_init
  | nowrap_add c block r c' :
      cache_reachable_nowrap m c -> block <> NULL ->
      total_size c + get_size m block < Word.modulus ->
      cache_add m c block = Ok (r, c') -> cache_reachable_nowrap m c'
  | nowrap_query c size block c' :
      cache_reachable_nowrap m c ->
      cache_query m c size = Ok (block, c') -> cache_reachable_nowrap m c'
  | nowrap_evict c block c' :
      cache_reachable_nowrap m c -> num_entries c > 0 ->
      cache_evict m c = Ok (block, c') -> cache_reachable_nowrap m c'.

(** [n] calls of [get_arena] in a row (the caller unlocks in between) *)
Definition get_arena_calls (n : N) (st : state) : result state :=
  N.iter n (fun r => let* st := r in let* (_, st) := get_arena st in Ok st) (Ok st).

Module Run10.

(** ten arenas, as [arena_malloc_init] asks for, 256 MiB apart *)
Definition bases : list Z :=
  map (fun i => 1048576 + 268435456 * Z.of_nat i) (seq 0 10).

Definition boot : result state := arenas_init ∅ 10 bases.

End Run10.

(** ** Boundary-tag heaps, abstractly *)

(** a block of the heap: where it starts, how large it is, whether it is
    allocated *)
Record blk : Type := mk_blk {
  blk_addr : Z;
  blk_size : Z;
  blk_alloc : bool
}.

(** I1 and I2 for one block, with the prev-alloc bit its header must carry:
    the header packs the size and both bits, and a free block ends in a
    footer equal to its header *)
Definition tagged (m : mem) (x : blk) (prev_alloc : bool) : Prop :=
  min_block_size <= blk_size x
  /\ blk_size x mod dsize = 0
  /\ load m (blk_addr x) = pack (blk_size x) (blk_alloc x) prev_alloc
  /\ (blk_alloc x = false ->
      load m (blk_addr x + blk_size x - wsize)
      = pack (blk_size x) false prev_alloc).

(** the allocation status the next header must record *)
Definition last_alloc (prev_alloc : bool) (bs : list blk) : bool :=
  default prev_alloc (blk_alloc <$> last bs).

(** I3: blocks [bs] lie back to back from [a] to [e], each recording the
    status of the one before it *)
Fixpoint chain (m : mem) (a : Z) (prev_alloc : bool) (bs : list blk) (e : Z)
  : Prop :=
  match bs with
  | [] => a = e
  | x :: bs' =>
      blk_addr x = a /\ tagged m x prev_alloc
      /\ chain m (a + blk_size x) (blk_alloc x) bs' e
  end.

(** a heap from [heap_start] to its epilogue at [e]; the prologue before
    [heap_start] counts as allocated *)
Record heap_layout (m : mem) (heap_start : Z) (bs : list blk) (e : Z) : Prop :=
  mk_heap_layout {
    hl_low : wsize <= heap_start;
    hl_high : e + wsize <= Word.modulus;
    hl_chain : chain m heap_start true bs e;
    hl_epilogue : load m e = pack 0 true (last_alloc true bs)
  }.

(** a doubly-linked list in memory: [l] are its blocks in order, [p] is what
    the first block's [prevBlockInList] holds and [n] what the last block's
    [nextBlockInList] holds *)
Fixpoint links (m : mem) (p : Z) (l : list Z) (n : Z) : Prop :=
  match l with
  | [] => True
  | x :: l' =>
      load m (prev_link x) = p /\ load m (next_link x) = hd n l'
      /\ links m x l' n
  end.

(** I5: list [i] of [seglists] is the doubly-linked list [L !! i]; the blocks
    on the lists are exactly the free blocks among [bs], each on the list of
    its size class *)
Record free_lists (m : mem) (sl : list Z) (L : list (list Z)) (bs : list blk)
  : Prop := mk_free_lists {
    fl_seglists : length sl = Z.to_nat MAXLISTS;
    fl_lists : length L = Z.to_nat MAXLISTS;
    fl_links : forall i l, L !! i = Some l ->
                 seglist sl (Z.of_nat i) = hd NULL l /\ links m NULL l NULL;
    fl_class : forall i l x, L !! i = Some l -> x ∈ l ->
                 find_list_for_block m x = Z.of_nat i;
    fl_nodup : NoDup (concat L);
    fl_free : forall a, a ∈ concat L <->
                exists x, x ∈ bs /\ blk_addr x = a /\ blk_alloc x = false
  }.

(** taking one address off every list *)
Definition unlist (a : Z) (L : list (list Z)) : list (list Z) :=
  filter (fun y => y <> a) <$> L.

(** blocks that pairwise keep a distance of [min_block_size] *)
Fixpoint apart (l : list Z) : Prop :=
  match l with
  | [] => True
  | x :: l' =>
      Forall (fun y => x + min_block_size <= y \/ y + min_block_size <= x) l'
      /\ apart l'
  end.

(** the doubly-linked lists without reference to a heap: [seglists] heads
    them, every block sits on the list of its class and on one list only,
    and the listed blocks are [min_block_size] apart and in the address
    space *)
Record lists_wf (m : mem) (sl : list Z) (L : list (list Z)) : Prop :=
  mk_lists_wf {
    lw_seglists : length sl = Z.to_nat MAXLISTS;
    lw_lists : length L = Z.to_nat MAXLISTS;
    lw_links : forall i l, L !! i = Some l ->
                 seglist sl (Z.of_nat i) = hd NULL l /\ links m NULL l NULL;
    lw_class : forall i l x, L !! i = Some l -> x ∈ l ->
                 find_list_for_block m x = Z.of_nat i;
    lw_nodup : NoDup (concat L);
    lw_range : forall y, y ∈ concat L ->
                 0 < y /\ y + min_block_size <= Word.modulus;
    lw_sep : forall y z, y ∈ concat L -> z ∈ concat L ->
               y = z \/ y + min_block_size <= z \/ z + min_block_size <= y
  }.

(** the bytes a run of blocks takes *)
Definition total (bs : list blk) : Z := foldr (fun x s => blk_size x + s) 0 bs.

(** whether the block before (after) the one under consideration is free *)
Definition prev_free (pre : list blk) : bool := negb (last_alloc true pre).

Definition next_free (post : list blk) : bool :=
  match post with
  | n :: _ => negb (blk_alloc n)
  | [] => false
  end.

(** ** A fragmented heap *)

Module Fragmented.

(** the naive allocator serves four one-byte requests and frees the first
    and the third block *)
Definition scattered : result Naive.heap_t :=
  let* (a, h) := Naive.naive_malloc Run.fresh 1 in
  let* (_, h) := Naive.naive_malloc h 1 in
  let* (c, h) := Naive.naive_malloc h 1 in
  let* (_, h) := Naive.naive_malloc h 1 in
  let* h := Naive.naive_free h a in
  Naive.naive_free h c.

(** what [free] of the second block, whose payload is at [bp], hands to
    [coalesce_block] *)
Definition before_coalesce (bp : Z) : result (mem * list Z) :=
  let* h := scattered in
  let m := Naive.memory h in
  let block := payload_to_header bp in
  let size := get_size m block in
  let m := write_block m block size false (get_prev_alloc m block) in
  let next := find_next m block in
  let m := write_block m next (get_size m next) (get_alloc m next) false in
  Ok (m, Naive.seglists h).

(** that memory, word by word: the prologue, three free blocks of 32 bytes,
    an allocated one, the rest of the first chunk, the epilogue *)
Definition heap_mem : mem :=
  list_to_map
    [(1048576, 3);
     (1048584, 34); (1048592, 1048648); (1048600, 0); (1048608, 34);
     (1048616, 32); (1048624, 0); (1048632, 0); (1048640, 32);
     (1048648, 32); (1048656, 0); (1048664, 1048584); (1048672, 32);
     (1048680, 33); (1048688, 0); (1048696, 0);
     (1048712, 3970); (1048720, 0); (1048728, 0); (1052672, 3970);
     (1052680, 1)].

Definition lists : list Z :=
  [1048648; 0; 0; 0; 0; 0; 1048712; 0; 0; 0; 0; 0; 0; 0; 0].

Definition listed : list (list Z) :=
  [[1048648; 1048584]; []; []; []; []; []; [1048712];
   []; []; []; []; []; []; []; []].

Definition first : blk := mk_blk 1048584 32 false.
Definition second : blk := mk_blk 1048616 32 false.
Definition third : blk := mk_blk 1048648 32 false.
Definition fourth : blk := mk_blk 1048680 32 true.
Definition rest : blk := mk_blk 1048712 3968 false.

Definition heap_start : Z := 1048584.
Definition epilogue : Z := 1052680.

End Fragmented.

(** ** More of the short helpers *)

(** [get_payload_size]: the block size minus the header word *)
Definition get_payload_size (m : mem) (block : Z) : Z :=
  Word.wrap (get_size m block - wsize).

(** the number of binary digits of [x]: how often a positive [x] can be
    halved before it is 0 *)
Definition bits (x : Z) : Z := if x =? 0 then 0 else Z.log2 x + 1.

(** [r] is a best fit for [asize] among the blocks [cands]: NULL when none
    is large enough, else one of them of the least sufficient size *)
Definition best_fit_in (m : mem) (asize : Z) (cands : list Z) (r : Z) : Prop :=
  (r = NULL /\ forall x, x ∈ cands -> get_size m x < asize)
  \/ (r ∈ cands /\ asize <= get_size m r
      /\ forall x, x ∈ cands -> asize <= get_size m x ->
           get_size m r <= get_size m x).

(** the fragmented heap as the naive allocator's state and as an arena *)
Definition fragmented_naive : Naive.heap_t :=
  {| Naive.memory := Fragmented.heap_mem;
     Naive.heap_start := Fragmented.heap_start;
     Naive.heap_end := Fragmented.epilogue + wsize;
     Naive.seglists := Fragmented.lists;
     Naive.brk := Fragmented.epilogue + wsize; Naive.brk_limit := 2097152 |}.

Definition fragmented_arena : arena_t :=
  {| arena_low := 1048576; arena_size := ARENA_MAX_SIZE;
     arena_heap_start := Fragmented.heap_start;
     arena_heap_end := Fragmented.epilogue + wsize;
     arena_seglists := Fragmented.lists |}.

(** putting an address at the head of list [i] *)
Definition enlist (a : Z) (i : nat) (L : list (list Z)) : list (list Z) :=
  alter (cons a) i L.

(** I4: no two free blocks in a row, in a run of blocks whose predecessor
    has the allocation status [prev_alloc] *)
Fixpoint coalesced (prev_alloc : bool) (bs : list blk) : Prop :=
  match bs with
  | [] => True
  | x :: bs' =>
      (prev_alloc = false -> blk_alloc x = true) /\ coalesced (blk_alloc x) bs'
  end.

(** the blocks of [bs] that are allocated *)
Definition allocated (bs : list blk) : list blk :=
  filter (fun x => blk_alloc x = true) bs.

(** the heap of [Fragmented.scattered], word by word: the second and the
    fourth block are allocated, the others free *)
Definition scattered_mem : mem :=
  list_to_map
    [(1048576, 3);
     (1048584, 34); (1048592, 1048648); (1048600, 0); (1048608, 34);
     (1048616, 33); (1048624, 0); (1048632, 0);
     (1048648, 34); (1048656, 0); (1048664, 1048584); (1048672, 34);
     (1048680, 33); (1048688, 0); (1048696, 0);
     (1048712, 3970); (1048720, 0); (1048728, 0); (1052672, 3970);
     (1052680, 1)].

Definition scattered_blocks : list blk :=
  [Fragmented.first] ++ mk_blk 1048616 32 true
    :: [mk_blk 1048648 32 false; Fragmented.fourth; Fragmented.rest].

Definition scattered_naive : Naive.heap_t :=
  {| Naive.memory := scattered_mem;
     Naive.heap_start := Fragmented.heap_start;
     Naive.heap_end := 1052688;
     Naive.seglists := Fragmented.lists;
     Naive.brk := 1052688; Naive.brk_limit := 2097152 |}.

Definition scattered_arena : arena_t :=
  {| arena_low := 1048576; arena_size := ARENA_MAX_SIZE;
     arena_heap_start := Fragmented.heap_start;
     arena_heap_end := 1052688;
     arena_seglists := Fragmented.lists |}.

(** an arena whose heap satisfies the invariants: the mapping starts with
    the prologue word, the blocks [bs] follow from [heap_start], and
    [heap_end] is just behind the epilogue word *)
Record arena_ok (m : mem) (arena : arena_t) (bs : list blk)
    (L : list (list Z)) : Prop := mk_arena_ok {
  ao_low : 0 < arena_low arena;
  ao_top : arena_low arena + arena_size arena < Word.modulus;
  ao_start : arena_heap_start arena = arena_low arena + wsize;
  ao_end : arena_heap_end arena <= arena_low arena + arena_size arena;
  ao_layout : heap_layout m (arena_heap_start arena) bs
                (arena_heap_end arena - wsize);
  ao_lists : free_lists m (arena_seglists arena) L bs
}.

(** the naive allocator's heap satisfies the invariants: the blocks [bs]
    follow from [heap_start], [heap_end] is just behind the epilogue word
    and is the program break *)
Record naive_ok (h : Naive.heap_t) (bs : list blk) (L : list (list Z))
  : Prop := mk_naive_ok {
  no_brk : Naive.brk h = Naive.heap_end h;
  no_limit : Naive.brk_limit h + wsize <= Word.modulus;
  no_room : Naive.heap_end h <= Naive.brk_limit h;
  no_layout : heap_layout (Naive.memory h) (Naive.heap_start h) bs
                (Naive.heap_end h - wsize);
  no_lists : free_lists (Naive.memory h) (Naive.seglists h) L bs
}.

(** [m'] holds what [m] holds at every address below [lo] and above [hi] *)
Definition outside (lo hi : Z) (m m' : mem) : Prop :=
  forall t, t < lo \/ hi < t -> load m' t = load m t.

(** the arenas of a state satisfy the invariants, with the blocks [B !! i]
    and the lists [LL !! i] for arena [i], and their mappings do not
    overlap *)
Record arenas_ok (st : state) (B : list (list blk))
    (LL : list (list (list Z))) : Prop := mk_arenas_ok {
  so_count : max_arenas st = Z.of_nat (length (arenas st));
  so_int : 0 < max_arenas st <= Word.int_max;
  so_blocks : length B = length (arenas st);
  so_lists : length LL = length (arenas st);
  so_arena : forall i a bs L,
      arenas st !! i = Some a -> B !! i = Some bs -> LL !! i = Some L ->
      arena_ok (heap st) a bs L;
  so_apart : forall i j a a',
      i <> j -> arenas st !! i = Some a -> arenas st !! j = Some a' ->
      arena_low a + arena_size a <= arena_low a'
      \/ arena_low a' + arena_size a' <= arena_low a
}.

(** the free block an arena starts with: the first chunk, right behind the
    prologue word of the mapping at [low] *)
Definition first_chunk (low : Z) : blk :=
  {| blk_addr := low + wsize; blk_size := CHUNK_SIZE; blk_alloc := false |}.

(** a state with the arena of [Fragmented.scattered] as its only arena *)
Definition scattered_state : state :=
  {| heap := scattered_mem; arenas := [scattered_arena]; max_arenas := 1;
     last_used := 0; local_cache := cache_init |}.

(** the state of the cached variant: the arenas satisfy the invariants, the
    thread cache satisfies its own, and the cache holds allocated blocks of
    the arenas, each at most once *)
Record cached_ok (st : state) (B : list (list blk))
    (LL : list (list (list Z))) : Prop := mk_cached_ok {
  co_arenas : arenas_ok st B LL;
  co_cache : cache_inv (heap st) (local_cache st);
  co_blocks : forall k x,
      elems (local_cache st) !! k = Some x -> x <> NULL ->
      exists j bs y, B !! j = Some bs /\ y ∈ bs /\ blk_addr y = x
                     /\ blk_alloc y = true;
  co_once : forall k k' x,
      elems (local_cache st) !! k = Some x ->
      elems (local_cache st) !! k' = Some x -> x <> NULL -> k = k'
}.
(** * Facts *)

(** ** Machine arithmetic *)

Ltac zdiv := Z.to_euclidean_division_equations; lia.

Module WordFacts.
Import Word.

Lemma wrap_range z : 0 <= wrap z < modulus.
Proof. unfold wrap, modulus. apply Z.mod_pos_bound. lia. Qed.

Lemma wrap_small z : 0 <= z < modulus -> wrap z = z.
Proof. unfold wrap. intros H. now apply Z.mod_small. Qed.

Lemma wrap_wrap z : wrap (wrap z) = wrap z.
Proof. unfold wrap, modulus. apply Z.mod_mod. lia. Qed.

Lemma wrap_add_l a b : wrap (wrap a + b) = wrap (a + b).
Proof. unfold wrap, modulus. now rewrite Zplus_mod_idemp_l. Qed.

Lemma wrap_add_r a b : wrap (a + wrap b) = wrap (a + b).
Proof. unfold wrap, modulus. now rewrite Zplus_mod_idemp_r. Qed.

Lemma wrap_sub_l a b : wrap (wrap a - b) = wrap (a - b).
Proof. unfold wrap, modulus. now rewrite Zminus_mod_idemp_l. Qed.

Lemma wrap_int_range z : int_min <= wrap_int z <= int_max.
Proof.
  unfold wrap_int, int_min, int_max.
  pose proof (Z.mod_pos_bound (z + 2 ^ 31) (2 ^ 32)). lia.
Qed.

Lemma wrap_int_small z : int_min <= z <= int_max -> wrap_int z = z.
Proof.
  unfold wrap_int, int_min, int_max. intros H.
  rewrite Z.mod_small; lia.
Qed.

Lemma wrap_intptr_small z : 0 <= z <= intptr_max -> wrap_intptr z = z.
Proof.
  intros H. unfold wrap_intptr, intptr_max in *.
  rewrite Z.mod_small; lia.
Qed.

End WordFacts.

(** ** The codec, in arithmetic *)

Section Codec.

Lemma ldiff_ones_arith a n : 0 <= n -> Z.ldiff a (Z.ones n) = 2 ^ n * (a / 2 ^ n).
Proof.
  intros Hn. rewrite Z.ldiff_ones_r by assumption.
  rewrite Z.shiftl_mul_pow2, Z.shiftr_div_pow2 by assumption. lia.
Qed.

Lemma extract_size_arith w : extract_size w = 16 * ((w mod 2 ^ 64) / 16).
Proof.
  unfold extract_size.
  change size_mask with (Z.ldiff (Z.ones 64) (Z.ones 4)).
  rewrite Z.ldiff_land, Z.land_assoc, <- Z.ldiff_land.
  rewrite Z.land_ones by lia. now rewrite ldiff_ones_arith by lia.
Qed.

Lemma land_1_arith w : Z.land w 1 = w mod 2.
Proof. change 1 with (Z.ones 1) at 1. now rewrite Z.land_ones by lia. Qed.

Lemma land_2_arith w : Z.land w 2 = 2 * ((w mod 4) / 2).
Proof.
  change 2 with (Z.ldiff (Z.ones 2) (Z.ones 1)) at 1.
  rewrite Z.ldiff_land, Z.land_assoc, <- Z.ldiff_land.
  rewrite Z.land_ones by lia. now rewrite ldiff_ones_arith by lia.
Qed.

Lemma lor_disjoint x y : Z.land x y = 0 -> Z.lor x y = x + y.
Proof. intros H. pose proof (Z.add_lor_land x y). lia. Qed.

Lemma pack_arith s a p :
  s mod 16 = 0 ->
  pack s a p = s + (if a then 1 else 0) + (if p then 2 else 0).
Proof.
  intros Hs. unfold pack, alloc_mask, prev_alloc_mask.
  assert (H1 : Z.lor s 1 = s + 1)
    by (apply lor_disjoint; rewrite land_1_arith; zdiv).
  destruct a, p; rewrite ?H1; try lia.
  - apply lor_disjoint. rewrite land_2_arith. zdiv.
  - rewrite lor_disjoint; [lia|]. rewrite land_2_arith. zdiv.
Qed.

Lemma extract_size_pack s a p :
  0 <= s < 2 ^ 64 -> s mod 16 = 0 -> extract_size (pack s a p) = s.
Proof.
  intros Hr Hs. rewrite extract_size_arith, pack_arith by assumption.
  destruct a, p; zdiv.
Qed.

Lemma negb_eqb0 (x : Z) (b : bool) :
  x = (if b then x else 0) -> (b = true -> x <> 0) -> negb (x =? 0) = b.
Proof.
  intros H1 H2. destruct b.
  - specialize (H2 eq_refl). apply Z.eqb_neq in H2. now rewrite H2.
  - now rewrite H1.
Qed.

Lemma extract_alloc_pack s a p :
  s mod 16 = 0 -> extract_alloc (pack s a p) = a.
Proof.
  intros Hs. unfold extract_alloc, alloc_mask.
  rewrite land_1_arith, pack_arith by assumption.
  apply negb_eqb0; destruct a, p; try reflexivity; try discriminate;
    intros; zdiv.
Qed.

Lemma extract_prev_alloc_pack s a p :
  s mod 16 = 0 -> extract_prev_alloc (pack s a p) = p.
Proof.
  intros Hs. unfold extract_prev_alloc, prev_alloc_mask.
  rewrite land_2_arith, pack_arith by assumption.
  apply negb_eqb0; destruct a, p; try reflexivity; try discriminate;
    intros; zdiv.
Qed.

Lemma extract_size_range w : 0 <= extract_size w < Word.modulus.
Proof. rewrite extract_size_arith. unfold Word.modulus. zdiv. Qed.

Lemma extract_size_aligned w : extract_size w mod 16 = 0.
Proof. rewrite extract_size_arith. zdiv. Qed.

Lemma get_size_range m a : 0 <= get_size m a < Word.modulus.
Proof. apply extract_size_range. Qed.

Lemma get_size_aligned m a : get_size m a mod 16 = 0.
Proof. apply extract_size_aligned. Qed.

End Codec.

(** ** The thread cache *)

Section CacheLemmas.
Context (m : mem).
Import WordFacts.

Lemma slot_Ok es i b :
  slot es i = Ok b <-> 0 <= i < CACHE_MAX_ENTRIES /\ es !! Z.to_nat i = Some b.
Proof.
  unfold slot.
  destruct (0 <=? i) eqn:H0; destruct (i <? CACHE_MAX_ENTRIES) eqn:H1; simpl;
    try (split; [discriminate | intros [? _]; lia]).
  destruct (es !! Z.to_nat i) eqn:E; split.
  - intros [= ->]. split; [lia | reflexivity].
  - intros [_ [= ->]]. reflexivity.
  - discriminate.
  - intros [_ ?]. discriminate.
Qed.

Lemma slot_in_range es i :
  length es = Z.to_nat CACHE_MAX_ENTRIES -> 0 <= i < CACHE_MAX_ENTRIES ->
  exists b, slot es i = Ok b /\ es !! Z.to_nat i = Some b.
Proof.
  intros Hlen Hi.
  destruct (lookup_lt_is_Some_2 es (Z.to_nat i)) as [b Hb]; [lia|].
  exists b. split; [|exact Hb]. apply slot_Ok. auto.
Qed.

Lemma occupied_range es : 0 <= occupied es <= Z.of_nat (length es).
Proof.
  induction es as [|b es IH]; simpl; [lia|].
  destruct (b =? NULL); lia.
Qed.

Lemma sum_sizes_range es : 0 <= sum_sizes m es < Word.modulus.
Proof.
  induction es as [|b es IH]; simpl.
  - unfold Word.modulus. lia.
  - destruct (b =? NULL); [exact IH | apply wrap_range].
Qed.

Lemma first_occupied_range es : 0 <= first_occupied es <= Z.of_nat (length es).
Proof.
  induction es as [|b es IH]; simpl; [lia|].
  destruct (b =? NULL); lia.
Qed.

(** a full array has no NULL slot *)
Lemma occupied_full es k :
  occupied es = Z.of_nat (length es) -> es !! k = Some NULL -> False.
Proof.
  revert k. induction es as [|b es IH]; intros k Hfull Hk; [discriminate|].
  simpl in Hfull. pose proof (occupied_range es).
  destruct k as [|k]; simpl in Hk.
  - injection Hk as ->. simpl in Hfull. lia.
  - destruct (b =? NULL); [lia|]. apply (IH k); [lia | exact Hk].
Qed.

(** the slot at [first_occupied] is occupied, the ones before it are not *)
Lemma first_occupied_lookup es :
  first_occupied es < Z.of_nat (length es) ->
  exists b, es !! Z.to_nat (first_occupied es) = Some b /\ b <> NULL.
Proof.
  induction es as [|b es IH]; simpl; [lia|].
  pose proof (first_occupied_range es) as Hr.
  destruct (b =? NULL) eqn:E; intros Hlt.
  - destruct IH as [b' [Hb' Hn]]; [lia|]. exists b'. split; [|exact Hn].
    replace (Z.to_nat (1 + first_occupied es))
      with (S (Z.to_nat (first_occupied es))) by lia.
    exact Hb'.
  - exists b. split; [reflexivity|]. apply Z.eqb_neq. exact E.
Qed.

Lemma first_occupied_before es k :
  Z.of_nat k < first_occupied es -> es !! k = Some NULL.
Proof.
  revert k. induction es as [|b es IH]; simpl; intros k Hk; [lia|].
  destruct (b =? NULL) eqn:E; [|lia].
  destruct k as [|k]; simpl.
  - apply Z.eqb_eq in E. now subst.
  - apply IH. lia.
Qed.

Lemma first_occupied_le es k b :
  es !! k = Some b -> b <> NULL -> first_occupied es <= Z.of_nat k.
Proof.
  revert k. induction es as [|x es IH]; simpl; intros k Hk Hb; [discriminate|].
  destruct (x =? NULL) eqn:E; [|lia].
  destruct k as [|k]; simpl in Hk.
  - injection Hk as ->. apply Z.eqb_eq in E. contradiction.
  - specialize (IH k Hk Hb). lia.
Qed.

Lemma occupied_zero_first es :
  occupied es = 0 -> first_occupied es = Z.of_nat (length es).
Proof.
  induction es as [|b es IH]; simpl; [reflexivity|].
  pose proof (occupied_range es).
  destruct (b =? NULL); intros H0; [|lia]. rewrite IH; lia.
Qed.

(** *** filling an empty slot *)

Lemma occupied_fill es k b :
  es !! k = Some NULL -> b <> NULL ->
  occupied (<[k := b]> es) = occupied es + 1.
Proof.
  revert k. induction es as [|x es IH]; intros k Hk Hb; [discriminate|].
  destruct k as [|k]; simpl in *.
  - injection Hk as ->. simpl. apply Z.eqb_neq in Hb. rewrite Hb. lia.
  - rewrite (IH k Hk Hb). lia.
Qed.

Lemma sum_sizes_fill es k b :
  es !! k = Some NULL -> b <> NULL ->
  sum_sizes m (<[k := b]> es) = Word.wrap (sum_sizes m es + get_size m b).
Proof.
  revert k. induction es as [|x es IH]; intros k Hk Hb; [discriminate|].
  destruct k as [|k]; simpl in *.
  - injection Hk as ->. simpl. apply Z.eqb_neq in Hb. rewrite Hb.
    f_equal. lia.
  - rewrite (IH k Hk Hb). destruct (x =? NULL); [reflexivity|].
    rewrite wrap_add_r, wrap_add_l. f_equal. lia.
Qed.

Lemma first_occupied_fill es k b :
  es !! k = Some NULL -> b <> NULL ->
  first_occupied (<[k := b]> es) = Z.min (Z.of_nat k) (first_occupied es).
Proof.
  revert k. induction es as [|x es IH]; intros k Hk Hb; [discriminate|].
  pose proof (first_occupied_range es).
  destruct k as [|k]; simpl in *.
  - injection Hk as ->. simpl. apply Z.eqb_neq in Hb. rewrite Hb. lia.
  - rewrite (IH k Hk Hb). destruct (x =? NULL); lia.
Qed.

(** *** clearing an occupied slot *)

Lemma occupied_clear es k b :
  es !! k = Some b -> b <> NULL ->
  occupied (<[k := NULL]> es) = occupied es - 1.
Proof.
  revert k. induction es as [|x es IH]; intros k Hk Hb; [discriminate|].
  destruct k as [|k]; simpl in *.
  - injection Hk as ->. apply Z.eqb_neq in Hb. rewrite Hb. lia.
  - rewrite (IH k Hk Hb). lia.
Qed.

Lemma sum_sizes_clear es k b :
  es !! k = Some b -> b <> NULL ->
  sum_sizes m (<[k := NULL]> es) = Word.wrap (sum_sizes m es - get_size m b).
Proof.
  revert k. induction es as [|x es IH]; intros k Hk Hb; [discriminate|].
  pose proof (sum_sizes_range es) as Hr.
  destruct k as [|k]; simpl in *.
  - injection Hk as ->. apply Z.eqb_neq in Hb. rewrite Hb.
    rewrite wrap_sub_l.
    replace (get_size m b + sum_sizes m es - get_size m b)
      with (sum_sizes m es) by lia.
    now rewrite wrap_small.
  - rewrite (IH k Hk Hb). destruct (x =? NULL); [reflexivity|].
    rewrite wrap_add_r, wrap_sub_l. f_equal. lia.
Qed.

End CacheLemmas.

Section CacheOps.
Context (m : mem).
Import WordFacts.

Lemma first_occupied_ge es f :
  f <= Z.of_nat (length es) ->
  (forall k, Z.of_nat k < f -> es !! k = Some NULL) ->
  f <= first_occupied es.
Proof.
  intros Hf Hnull.
  destruct (Z_lt_le_dec (first_occupied es) f) as [Hlt|]; [|assumption].
  destruct (first_occupied_lookup es) as [b [Hb Hn]]; [lia|].
  pose proof (first_occupied_range es).
  rewrite Hnull in Hb by lia. congruence.
Qed.

Lemma first_occupied_clear_later es k :
  first_occupied es < Z.of_nat k ->
  first_occupied (<[k := NULL]> es) = first_occupied es.
Proof.
  revert k. induction es as [|x es IH]; intros k Hk; [reflexivity|].
  pose proof (first_occupied_range es).
  destruct k as [|k]; simpl in *.
  - destruct (x =? NULL); lia.
  - destruct (x =? NULL); [|reflexivity]. rewrite IH; lia.
Qed.

(** the [while] loop stops at the first occupied slot *)
Lemma advance_front_loop_spec n es f :
  length es = Z.to_nat CACHE_MAX_ENTRIES ->
  0 <= f -> f + Z.of_nat n = CACHE_MAX_ENTRIES ->
  (forall k, Z.of_nat k < f -> es !! k = Some NULL) ->
  advance_front_loop n es f = Ok (first_occupied es).
Proof.
  intros Hlen. revert f.
  induction n as [|n IH]; intros f Hf Hn Hnull; simpl.
  - f_equal. pose proof (first_occupied_range es).
    pose proof (first_occupied_ge es f ltac:(lia) Hnull). lia.
  - replace (f <? CACHE_MAX_ENTRIES) with true by (symmetry; apply Z.ltb_lt; lia).
    destruct (slot_in_range es f Hlen ltac:(lia)) as [b [Hs Hb]].
    rewrite Hs. simpl.
    destruct (b =? NULL) eqn:E.
    + apply Z.eqb_eq in E. subst b. apply IH; [lia | lia |].
      intros k Hk. destruct (Z.eq_dec (Z.of_nat k) f) as [<-|].
      * now rewrite Nat2Z.id in Hb.
      * apply Hnull. lia.
    + apply Z.eqb_neq in E. f_equal.
      pose proof (first_occupied_le es (Z.to_nat f) b Hb E).
      pose proof (first_occupied_ge es f ltac:(lia) Hnull). lia.
Qed.

Lemma advance_front_spec es f :
  length es = Z.to_nat CACHE_MAX_ENTRIES ->
  0 <= f <= CACHE_MAX_ENTRIES ->
  (forall k, Z.of_nat k < f -> es !! k = Some NULL) ->
  advance_front es f = Ok (first_occupied es).
Proof.
  intros Hlen Hf Hnull. unfold advance_front.
  replace (f <? 0) with false by (symmetry; apply Z.ltb_ge; lia).
  apply advance_front_loop_spec; auto; lia.
Qed.

(** clearing the front slot, then advancing *)
Lemma advance_front_after_clear es :
  length es = Z.to_nat CACHE_MAX_ENTRIES ->
  first_occupied es < CACHE_MAX_ENTRIES ->
  let k := Z.to_nat (first_occupied es) in
  advance_front (<[k := NULL]> es) (first_occupied es)
  = Ok (first_occupied (<[k := NULL]> es)).
Proof.
  intros Hlen Hlt k. pose proof (first_occupied_range es).
  apply advance_front_spec.
  - now rewrite length_insert.
  - lia.
  - intros j Hj. rewrite list_lookup_insert_ne by (subst k; lia).
    now apply first_occupied_before.
Qed.

(** what the [for] loop of [cache_add] does from slot [i] on *)
Lemma cache_add_scan_spec n i c b bsize :
  length (elems c) = Z.to_nat CACHE_MAX_ENTRIES ->
  0 <= i -> i + Z.of_nat n = CACHE_MAX_ENTRIES ->
  (exists k, i <= k < CACHE_MAX_ENTRIES
     /\ elems c !! Z.to_nat k = Some NULL
     /\ (forall j, i <= j < k -> elems c !! Z.to_nat j <> Some NULL)
     /\ cache_add_scan n i c b bsize
        = Ok {| elems := <[Z.to_nat k := b]> (elems c);
                num_entries := Word.wrap (num_entries c + 1);
                total_size := Word.wrap (total_size c + bsize);
                front := if k <? front c then k else front c |})
  \/ ((forall j, i <= j < CACHE_MAX_ENTRIES -> elems c !! Z.to_nat j <> Some NULL)
      /\ cache_add_scan n i c b bsize = Ok c).
Proof.
  intros Hlen. revert i.
  induction n as [|n IH]; intros i Hi Hn; simpl.
  - right. split; [intros j Hj; lia | reflexivity].
  - destruct (slot_in_range (elems c) i Hlen ltac:(lia)) as [x [Hs Hx]].
    rewrite Hs. simpl. destruct (x =? NULL) eqn:E.
    + apply Z.eqb_eq in E. subst x. left. exists i.
      split; [lia|]. split; [exact Hx|].
      split; [intros j Hj; lia | reflexivity].
    + apply Z.eqb_neq in E.
      destruct (IH (i + 1) ltac:(lia) ltac:(lia))
        as [(k & Hk & Hnull & Hfirst & Heq) | (Hnone & Heq)].
      * left. exists k.
        split; [lia|]. split; [exact Hnull|]. split; [|exact Heq].
        intros j Hj. destruct (Z.eq_dec j i) as [->|].
        -- rewrite Hx. congruence.
        -- apply Hfirst. lia.
      * right. split; [|exact Heq].
        intros j Hj. destruct (Z.eq_dec j i) as [->|].
        -- rewrite Hx. congruence.
        -- apply Hnone. lia.
Qed.

(** what the [for] loop of [cache_query] does from slot [i] on *)
Lemma cache_query_scan_spec n i c size :
  cache_inv m c ->
  front c <= i -> i + Z.of_nat n = CACHE_MAX_ENTRIES ->
  (exists k b, i <= k < CACHE_MAX_ENTRIES
     /\ elems c !! Z.to_nat k = Some b /\ b <> NULL /\ size <= get_size m b
     /\ (forall j x, i <= j < k -> elems c !! Z.to_nat j = Some x ->
           x = NULL \/ get_size m x < size)
     /\ cache_query_scan m n i c size
        = Ok (b, {| elems := <[Z.to_nat k := NULL]> (elems c);
                    num_entries := Word.wrap (num_entries c - 1);
                    total_size := Word.wrap (total_size c - get_size m b);
                    front := first_occupied (<[Z.to_nat k := NULL]> (elems c)) |}))
  \/ ((forall j x, i <= j < CACHE_MAX_ENTRIES -> elems c !! Z.to_nat j = Some x ->
         x = NULL \/ get_size m x < size)
      /\ cache_query_scan m n i c size = Ok (NULL, c)).
Proof.
  intros [Hlen Hnum Htot Hfront]. revert i.
  pose proof (first_occupied_range (elems c)) as Hfr.
  induction n as [|n IH]; intros i Hi Hn; simpl.
  - right. split; [intros j x Hj; lia | reflexivity].
  - destruct (slot_in_range (elems c) i Hlen ltac:(lia)) as [x [Hs Hx]].
    rewrite Hs. simpl.
    assert (Hrec :
      (x = NULL \/ get_size m x < size) ->
      (exists k b, i <= k < CACHE_MAX_ENTRIES
         /\ elems c !! Z.to_nat k = Some b /\ b <> NULL /\ size <= get_size m b
         /\ (forall j x, i <= j < k -> elems c !! Z.to_nat j = Some x ->
               x = NULL \/ get_size m x < size)
         /\ cache_query_scan m n (i + 1) c size
            = Ok (b, {| elems := <[Z.to_nat k := NULL]> (elems c);
                        num_entries := Word.wrap (num_entries c - 1);
                        total_size := Word.wrap (total_size c - get_size m b);
                        front := first_occupied (<[Z.to_nat k := NULL]> (elems c)) |}))
      \/ ((forall j x, i <= j < CACHE_MAX_ENTRIES ->
             elems c !! Z.to_nat j = Some x -> x = NULL \/ get_size m x < size)
          /\ cache_query_scan m n (i + 1) c size = Ok (NULL, c))).
    { intros Hskip.
      destruct (IH (i + 1) ltac:(lia) ltac:(lia))
        as [(k & b & Hk & Hb & Hbn & Hsz & Hfirst & Heq) | (Hnone & Heq)].
      - left. exists k, b.
        split; [lia|]. split; [exact Hb|]. split; [exact Hbn|].
        split; [exact Hsz|]. split; [|exact Heq].
        intros j y Hj Hy. destruct (Z.eq_dec j i) as [->|].
        + rewrite Hx in Hy. injection Hy as <-. exact Hskip.
        + apply (Hfirst j); [lia | exact Hy].
      - right. split; [|exact Heq].
        intros j y Hj Hy. destruct (Z.eq_dec j i) as [->|].
        + rewrite Hx in Hy. injection Hy as <-. exact Hskip.
        + apply (Hnone j); [lia | exact Hy]. }
    destruct (x =? NULL) eqn:E.
    + apply Z.eqb_eq in E. apply Hrec. left. exact E.
    + apply Z.eqb_neq in E.
      destruct (get_size m x >=? size) eqn:G.
      * left. exists i, x. apply Z.geb_le in G.
        split; [lia|]. split; [exact Hx|]. split; [exact E|].
        split; [exact G|]. split; [intros j y Hj; lia|].
        destruct (i =? front c) eqn:F.
        -- apply Z.eqb_eq in F. subst i. rewrite Hfront.
           rewrite advance_front_after_clear by (auto; lia). reflexivity.
        -- apply Z.eqb_neq in F. simpl. do 3 f_equal.
           rewrite first_occupied_clear_later; [exact Hfront | lia].
      * apply Hrec. right.
        rewrite Z.geb_leb in G. apply Z.leb_gt in G. exact G.
Qed.

End CacheOps.

Section CacheSpecs.
Context (m : mem).
Import WordFacts.

Lemma cache_init_inv : cache_inv m cache_init.
Proof. split; reflexivity. Qed.

(** [cache_add] either refuses and leaves the cache alone, or puts the
    block into the first empty slot *)
Lemma cache_add_spec c b :
  cache_inv m c -> b <> NULL ->
  cache_add m c b = Ok (false, c)
  \/ exists k c',
       0 <= k < CACHE_MAX_ENTRIES
       /\ elems c !! Z.to_nat k = Some NULL
       /\ (forall j, 0 <= j < k -> elems c !! Z.to_nat j <> Some NULL)
       /\ elems c' = <[Z.to_nat k := b]> (elems c)
       /\ front c' = Z.min k (front c)
       /\ cache_add m c b = Ok (true, c')
       /\ cache_inv m c'.
Proof.
  intros Hinv Hb. pose proof Hinv as [Hlen Hnum Htot Hfront].
  unfold cache_add.
  destruct (num_entries c =? CACHE_MAX_ENTRIES) eqn:Hfull; [now left|].
  destruct (Word.wrap (total_size c + get_size m b) >? CACHE_MAX_SIZE) eqn:Hbig;
    [now left|].
  right. apply Z.eqb_neq in Hfull.
  pose proof (occupied_range (elems c)) as Hocc.
  pose proof (first_occupied_range (elems c)) as Hfr.
  destruct (cache_add_scan_spec (Z.to_nat CACHE_MAX_ENTRIES) 0 c b
              (get_size m b) Hlen ltac:(lia) ltac:(reflexivity))
    as [(k & Hk & Hnull & Hfirst & Heq) | (Hnone & Heq)].
  - exists k.
    exists {| elems := <[Z.to_nat k := b]> (elems c);
              num_entries := Word.wrap (num_entries c + 1);
              total_size := Word.wrap (total_size c + get_size m b);
              front := if k <? front c then k else front c |}.
    rewrite Heq. simpl.
    split; [exact Hk|]. split; [exact Hnull|]. split; [exact Hfirst|].
    split; [reflexivity|].
    assert (Hmin : (if k <? front c then k else front c) = Z.min k (front c)).
    { destruct (k <? front c) eqn:E;
        [apply Z.ltb_lt in E | apply Z.ltb_ge in E]; lia. }
    split; [exact Hmin|]. split; [reflexivity|].
    split; simpl.
    + now rewrite length_insert.
    + rewrite (occupied_fill _ _ _ Hnull Hb), Hnum.
      apply wrap_small. unfold Word.modulus.
      rewrite Hlen in Hocc. change (Z.of_nat (Z.to_nat CACHE_MAX_ENTRIES)) with 8 in Hocc.
      lia.
    + rewrite (sum_sizes_fill m _ _ _ Hnull Hb), Htot. reflexivity.
    + rewrite (first_occupied_fill _ _ _ Hnull Hb), Hmin, Hfront.
      rewrite Z2Nat.id by lia. reflexivity.
  - exfalso.
    (* every slot is occupied, so the cache was full *)
    assert (Hall : occupied (elems c) = Z.of_nat (length (elems c))).
    { clear -Hnone Hlen. rewrite Hlen in *.
      assert (H : forall j, (j < Z.to_nat CACHE_MAX_ENTRIES)%nat ->
                    elems c !! j <> Some NULL).
      { intros j Hj. specialize (Hnone (Z.of_nat j)).
        rewrite Nat2Z.id in Hnone. apply Hnone.
        change CACHE_MAX_ENTRIES with 8 in *. lia. }
      revert H. rewrite <- Hlen. generalize (elems c). clear.
      induction l as [|x l IH]; intros H; [reflexivity|].
      simpl. destruct (x =? NULL) eqn:E.
      - apply Z.eqb_eq in E. subst x. exfalso. apply (H 0%nat); simpl; [lia|reflexivity].
      - rewrite IH; [lia|]. intros j Hj. apply (H (S j)). simpl. lia. }
    rewrite Hlen in Hall. change (Z.of_nat (Z.to_nat CACHE_MAX_ENTRIES)) with 8 in Hall.
    change CACHE_MAX_ENTRIES with 8 in Hfull. lia.
Qed.

(** [cache_query] takes the first block that is large enough, scanning
    from [front]; without one it leaves the cache alone *)
Lemma cache_query_spec c size :
  cache_inv m c ->
  ((forall j x, elems c !! j = Some x -> x = NULL \/ get_size m x < size)
   /\ cache_query m c size = Ok (NULL, c))
  \/ exists k b c',
       elems c !! k = Some b /\ b <> NULL /\ size <= get_size m b
       /\ (forall j x, (j < k)%nat -> elems c !! j = Some x ->
             x = NULL \/ get_size m x < size)
       /\ elems c' = <[k := NULL]> (elems c)
       /\ cache_query m c size = Ok (b, c')
       /\ cache_inv m c'.
Proof.
  intros Hinv. pose proof Hinv as [Hlen Hnum Htot Hfront].
  pose proof (first_occupied_range (elems c)) as Hfr.
  pose proof (occupied_range (elems c)) as Hocc.
  rewrite Hlen in Hfr, Hocc.
  change (Z.of_nat (Z.to_nat CACHE_MAX_ENTRIES)) with 8 in Hfr, Hocc.
  assert (Hbelow : forall j x, Z.of_nat j < front c -> elems c !! j = Some x ->
                     x = NULL \/ get_size m x < size).
  { intros j x Hj Hx. left. rewrite Hfront in Hj.
    rewrite (first_occupied_before _ _ Hj) in Hx. congruence. }
  unfold cache_query.
  destruct (front c <? CACHE_MAX_ENTRIES) eqn:Hf.
  - apply Z.ltb_lt in Hf.
    destruct (cache_query_scan_spec m (Z.to_nat (CACHE_MAX_ENTRIES - front c))
                (front c) c size Hinv ltac:(lia) ltac:(lia))
      as [(k & b & Hk & Hb & Hbn & Hsz & Hfirst & Heq) | (Hnone & Heq)].
    + right. exists (Z.to_nat k), b.
      exists {| elems := <[Z.to_nat k := NULL]> (elems c);
                num_entries := Word.wrap (num_entries c - 1);
                total_size := Word.wrap (total_size c - get_size m b);
                front := first_occupied (<[Z.to_nat k := NULL]> (elems c)) |}.
      rewrite Heq.
      split; [exact Hb|]. split; [exact Hbn|]. split; [exact Hsz|].
      split.
      { intros j x Hj Hx.
        destruct (Z_lt_le_dec (Z.of_nat j) (front c)) as [Hlt|Hge].
        - apply (Hbelow j x Hlt Hx).
        - apply (Hfirst (Z.of_nat j)); [lia | now rewrite Nat2Z.id]. }
      split; [reflexivity|]. split; [reflexivity|].
      split; simpl.
      * now rewrite length_insert.
      * rewrite (occupied_clear _ _ _ Hb Hbn), Hnum.
        apply wrap_small. unfold Word.modulus.
        pose proof (occupied_range (<[Z.to_nat k := NULL]> (elems c))) as H1.
        rewrite (occupied_clear _ _ _ Hb Hbn) in H1. lia.
      * rewrite (sum_sizes_clear m _ _ _ Hb Hbn), Htot. reflexivity.
      * reflexivity.
    + left. split; [|exact Heq]. intros j x Hx.
      destruct (Z_lt_le_dec (Z.of_nat j) (front c)) as [Hlt|Hge].
      * apply (Hbelow j x Hlt Hx).
      * apply (Hnone (Z.of_nat j)); [| now rewrite Nat2Z.id].
        apply lookup_lt_Some in Hx. rewrite Hlen in Hx.
        change CACHE_MAX_ENTRIES with 8 in *. lia.
  - apply Z.ltb_ge in Hf. left. split; [|reflexivity].
    intros j x Hx. apply (Hbelow j x); [|exact Hx].
    apply lookup_lt_Some in Hx. rewrite Hlen in Hx.
    change CACHE_MAX_ENTRIES with 8 in *. lia.
Qed.

(** [cache_evict] on a non-empty cache removes the block in the front slot *)
Lemma cache_evict_spec c :
  cache_inv m c -> num_entries c > 0 ->
  exists b c',
    elems c !! Z.to_nat (front c) = Some b /\ b <> NULL
    /\ elems c' = <[Z.to_nat (front c) := NULL]> (elems c)
    /\ cache_evict m c = Ok (b, c')
    /\ cache_inv m c'.
Proof.
  intros Hinv Hpos. pose proof Hinv as [Hlen Hnum Htot Hfront].
  pose proof (first_occupied_range (elems c)) as Hfr.
  pose proof (occupied_range (elems c)) as Hocc.
  rewrite Hlen in Hfr, Hocc.
  change (Z.of_nat (Z.to_nat CACHE_MAX_ENTRIES)) with 8 in Hfr, Hocc.
  assert (Hlt : first_occupied (elems c) < CACHE_MAX_ENTRIES).
  { destruct (Z_lt_le_dec (first_occupied (elems c)) CACHE_MAX_ENTRIES) as [|Hge];
      [assumption|]. exfalso.
    (* front at the sentinel means that every slot is NULL *)
    assert (H0 : occupied (elems c) = 0).
    { assert (Hnull : forall k, (k < length (elems c))%nat -> elems c !! k = Some NULL).
      { intros k Hk. apply first_occupied_before. rewrite Hlen in Hk.
        change CACHE_MAX_ENTRIES with 8 in *. lia. }
      revert Hnull. generalize (elems c). clear.
      induction l as [|x l IH]; intros H; [reflexivity|]. simpl.
      pose proof (H 0%nat ltac:(simpl; lia)) as Hx. simpl in Hx.
      injection Hx as ->. simpl. apply IH.
      intros k Hk. apply (H (S k)). simpl. lia. }
    lia. }
  destruct (first_occupied_lookup (elems c)) as [b [Hb Hbn]];
    [rewrite Hlen; change (Z.of_nat (Z.to_nat CACHE_MAX_ENTRIES)) with 8;
     change CACHE_MAX_ENTRIES with 8 in Hlt; lia|].
  unfold cache_evict.
  replace (num_entries c >? 0) with true by (symmetry; apply Z.gtb_lt; lia).
  simpl. rewrite Hfront.
  assert (Hs : slot (elems c) (first_occupied (elems c)) = Ok b)
    by (apply slot_Ok; split; [lia | exact Hb]).
  rewrite Hs. simpl.
  rewrite advance_front_after_clear by assumption. simpl.
  exists b.
  exists {| elems := <[Z.to_nat (first_occupied (elems c)) := NULL]> (elems c);
            num_entries := Word.wrap (num_entries c - 1);
            total_size := Word.wrap (total_size c - get_size m b);
            front := first_occupied
                       (<[Z.to_nat (first_occupied (elems c)) := NULL]> (elems c)) |}.
  split; [exact Hb|]. split; [exact Hbn|]. split; [reflexivity|].
  split; [reflexivity|].
  split; simpl.
  - now rewrite length_insert.
  - rewrite (occupied_clear _ _ _ Hb Hbn), Hnum.
    apply wrap_small. unfold Word.modulus. lia.
  - rewrite (sum_sizes_clear m _ _ _ Hb Hbn), Htot. reflexivity.
  - reflexivity.
Qed.

End CacheSpecs.


(** ** Claims about the thread cache *)

Section CacheClaims.
Import WordFacts.

(** as long as the sizes add up without overflow, [sum_sizes] is the
    plain sum *)
Lemma sum_sizes_exact m es :
  plain_sum m es < Word.modulus -> sum_sizes m es = plain_sum m es.
Proof.
  induction es as [|b es IH]; simpl; [reflexivity|].
  assert (Hp : 0 <= plain_sum m es).
  { clear. induction es as [|x es IH]; simpl; [lia|].
    pose proof (get_size_range m x). destruct (x =? NULL); lia. }
  pose proof (get_size_range m b).
  destruct (b =? NULL); intros Hlt.
  - rewrite IH; lia.
  - rewrite IH by lia. apply wrap_small. lia.
Qed.

Lemma cache_reachable_inv m c : cache_reachable m c -> cache_inv m c.
Proof.
  induction 1 as [| c b r c' _ IH Hb Hadd | c size b c' _ IH Hq
                  | c b c' _ IH Hpos Hev].
  - apply cache_init_inv.
  - destruct (cache_add_spec m c b IH Hb)
      as [Heq | (k & c2 & _ & _ & _ & _ & _ & Heq & Hinv)];
      rewrite Heq in Hadd; injection Hadd as <- <-; assumption.
  - destruct (cache_query_spec m c size IH)
      as [(_ & Heq) | (k & b2 & c2 & _ & _ & _ & _ & _ & Heq & Hinv)];
      rewrite Heq in Hq; injection Hq as <- <-; assumption.
  - destruct (cache_evict_spec m c IH Hpos) as (b2 & c2 & _ & _ & _ & Heq & Hinv).
    rewrite Heq in Hev. injection Hev as <- <-. assumption.
Qed.

Lemma plain_sum_nonneg m es : 0 <= plain_sum m es.
Proof.
  induction es as [|x es IH]; simpl; [lia|].
  pose proof (get_size_range m x). destruct (x =? NULL); lia.
Qed.

Lemma plain_sum_fill m es k b :
  es !! k = Some NULL -> b <> NULL ->
  plain_sum m (<[k := b]> es) = plain_sum m es + get_size m b.
Proof.
  revert k. induction es as [|x es IH]; intros k Hk Hb; [discriminate|].
  destruct k as [|k]; simpl in *.
  - injection Hk as ->. simpl. apply Z.eqb_neq in Hb. rewrite Hb. lia.
  - rewrite (IH k Hk Hb). lia.
Qed.

Lemma plain_sum_clear m es k b :
  es !! k = Some b -> b <> NULL ->
  plain_sum m (<[k := NULL]> es) = plain_sum m es - get_size m b.
Proof.
  revert k. induction es as [|x es IH]; intros k Hk Hb; [discriminate|].
  destruct k as [|k]; simpl in *.
  - injection Hk as ->. apply Z.eqb_neq in Hb. rewrite Hb. lia.
  - rewrite (IH k Hk Hb). lia.
Qed.

(** the exact invariant is the invariant of the code plus the fact that the
    sizes add up to less than [2 ^ 64] *)
Lemma cache_exact_inv m c : cache_exact m c -> cache_inv m c.
Proof.
  intros [Hlen Hnum Htot Hran Hfront]. split; try assumption.
  rewrite sum_sizes_exact; [exact Htot | now rewrite <- Htot].
Qed.

Lemma cache_inv_exact m c :
  cache_inv m c -> plain_sum m (elems c) < Word.modulus -> cache_exact m c.
Proof.
  intros [Hlen Hnum Htot Hfront] Hlt.
  rewrite (sum_sizes_exact m _ Hlt) in Htot.
  split; try assumption. now rewrite Htot.
Qed.

Lemma cache_add_exact m c b :
  cache_exact m c -> b <> NULL ->
  total_size c + get_size m b < Word.modulus ->
  exists r c', cache_add m c b = Ok (r, c') /\ cache_exact m c'.
Proof.
  intros Hex Hb Hsum. pose proof (cache_exact_inv m c Hex) as Hinv.
  destruct (cache_add_spec m c b Hinv Hb)
    as [Heq | (k & c' & _ & Hnull & _ & Hel & _ & Heq & Hinv')].
  - exists false, c. split; assumption.
  - exists true, c'. split; [exact Heq|]. apply cache_inv_exact; [exact Hinv'|].
    rewrite Hel, (plain_sum_fill m _ _ _ Hnull Hb), <- (ex_total _ _ Hex).
    exact Hsum.
Qed.

Lemma cache_query_exact m c size :
  cache_exact m c ->
  exists block c', cache_query m c size = Ok (block, c') /\ cache_exact m c'.
Proof.
  intros Hex. pose proof (cache_exact_inv m c Hex) as Hinv.
  destruct (cache_query_spec m c size Hinv)
    as [(_ & Heq) | (k & b & c' & Hk & Hb & _ & _ & Hel & Heq & Hinv')].
  - exists NULL, c. split; assumption.
  - exists b, c'. split; [exact Heq|]. apply cache_inv_exact; [exact Hinv'|].
    rewrite Hel, (plain_sum_clear m _ _ _ Hk Hb), <- (ex_total _ _ Hex).
    pose proof (ex_range _ _ Hex). pose proof (get_size_range m b). lia.
Qed.

Lemma cache_evict_exact m c :
  cache_exact m c -> num_entries c > 0 ->
  exists block c', cache_evict m c = Ok (block, c') /\ cache_exact m c'.
Proof.
  intros Hex Hpos. pose proof (cache_exact_inv m c Hex) as Hinv.
  destruct (cache_evict_spec m c Hinv Hpos) as (b & c' & Hk & Hb & Hel & Heq & Hinv').
  exists b, c'. split; [exact Heq|]. apply cache_inv_exact; [exact Hinv'|].
  rewrite Hel, (plain_sum_clear m _ _ _ Hk Hb), <- (ex_total _ _ Hex).
  pose proof (ex_range _ _ Hex). pose proof (get_size_range m b). lia.
Qed.

End CacheClaims.

(** C10, as stated, fails: [cache_add] compares [c->total_size + bsize]
    with [CACHE_MAX_SIZE] after the [size_t] addition, which can wrap
    around.  With the 64-byte block cached and the invariant in force,
    adding a block whose header holds the size [2 ^ 64 - 48] finds
    [64 + (2 ^ 64 - 48)] wrapped to 16, succeeds, and leaves
    [total_size = 16], while the sizes of the two cached blocks add up to
    [2 ^ 64 + 16]. *)
Lemma cache_add_total_wraps :
  cache_add Run.wide_block cache_init 4104 = Ok (true, Run.one_cached)
  /\ cache_exact Run.wide_block Run.one_cached
  /\ get_size Run.wide_block 4168 = 2 ^ 64 - 48
  /\ cache_add Run.wide_block Run.one_cached 4168
     = Ok (true, {| elems := [4104; 4168; 0; 0; 0; 0; 0; 0];
                    num_entries := 2; total_size := 16; front := 0 |})
  /\ get_size Run.wide_block 4104 + get_size Run.wide_block 4168 = 2 ^ 64 + 16
  /\ ~ cache_exact Run.wide_block
         {| elems := [4104; 4168; 0; 0; 0; 0; 0; 0];
            num_entries := 2; total_size := 16; front := 0 |}.
Proof.
  split; [vm_compute; reflexivity|].
  split; [split; vm_compute; reflexivity|].
  split; [vm_compute; reflexivity|].
  split; [vm_compute; reflexivity|].
  split; [vm_compute; reflexivity|].
  intros [_ _ Htot _ _]. vm_compute in Htot. discriminate.
Qed.

(** C10, amended.  The cache invariant ([num_entries] is the number of
    non-NULL slots, [total_size] the sum of their blocks' sizes, [front] the
    smallest occupied index or [CACHE_MAX_ENTRIES]) holds after
    [cache_init]; from a state that satisfies it, [cache_query], [cache_evict]
    when [num_entries > 0], and [cache_add] of a block for which
    [total_size + get_size block] does not overflow [size_t] return normally
    and the invariant holds in the state they leave. *)
Theorem cache_exact_preserved (m : mem) :
  cache_exact m cache_init
  /\ (forall c block, cache_exact m c -> block <> NULL ->
        total_size c + get_size m block < Word.modulus ->
        exists r c', cache_add m c block = Ok (r, c') /\ cache_exact m c')
  /\ (forall c size, cache_exact m c ->
        exists block c', cache_query m c size = Ok (block, c') /\ cache_exact m c')
  /\ (forall c, cache_exact m c -> num_entries c > 0 ->
        exists block c', cache_evict m c = Ok (block, c') /\ cache_exact m c').
Proof.
  split; [split; vm_compute; reflexivity|]. split; [|split].
  - apply cache_add_exact.
  - apply cache_query_exact.
  - apply cache_evict_exact.
Qed.

Lemma cache_exact_preserved_witness :
  cache_exact Run.two_blocks Run.one_cached
  /\ 4168 <> NULL
  /\ total_size Run.one_cached + get_size Run.two_blocks 4168 < Word.modulus
  /\ num_entries Run.one_cached > 0
  /\ (exists r c', cache_add Run.two_blocks Run.one_cached 4168 = Ok (r, c')
                   /\ cache_exact Run.two_blocks c')
  /\ (exists block c', cache_query Run.two_blocks Run.one_cached 48 = Ok (block, c')
                       /\ cache_exact Run.two_blocks c')
  /\ (exists block c', cache_evict Run.two_blocks Run.one_cached = Ok (block, c')
                       /\ cache_exact Run.two_blocks c').
Proof.
  assert (Hex : cache_exact Run.two_blocks Run.one_cached)
    by (split; vm_compute; reflexivity).
  assert (Hb : 4168 <> NULL) by (unfold NULL; lia).
  assert (Hsum : total_size Run.one_cached + get_size Run.two_blocks 4168
                 < Word.modulus) by (vm_compute; reflexivity).
  assert (Hpos : num_entries Run.one_cached > 0) by (simpl; lia).
  split; [exact Hex|]. split; [exact Hb|]. split; [exact Hsum|].
  split; [exact Hpos|].
  destruct (cache_exact_preserved Run.two_blocks) as (_ & Hadd & Hquery & Hevict).
  split; [exact (Hadd _ _ Hex Hb Hsum)|].
  split; [exact (Hquery _ 48 Hex) | exact (Hevict _ Hex Hpos)].
Defined.

(** C9, as stated, fails: with a 64-byte block cached in slot 0, adding a
    32-byte block succeeds, and the query for 32 bytes that follows returns
    the 64-byte block. *)
Lemma cache_query_returns_other_block :
  cache_add Run.two_blocks cache_init 4104 = Ok (true, Run.one_cached)
  /\ cache_add Run.two_blocks Run.one_cached 4168 = Ok (true, Run.two_cached)
  /\ get_size Run.two_blocks 4168 = 32
  /\ cache_query Run.two_blocks Run.two_cached (get_size Run.two_blocks 4168)
     = Ok (4104, {| elems := [0; 4168; 0; 0; 0; 0; 0; 0];
                    num_entries := 1; total_size := 32; front := 1 |})
  /\ 4104 <> 4168.
Proof. repeat split; try (vm_compute; reflexivity). lia. Qed.

(** C9, amended.  In a reachable cache state, after [cache_add] of a block
    returned true, [cache_query] with that block's size returns the block in
    the lowest slot whose size is at least that size, and clears that slot
    only; the block is the added one whenever every block cached before it
    is smaller. *)
Theorem cache_add_then_query (m : mem) (c c1 : cache_t) (block : Z) :
  cache_reachable m c -> block <> NULL ->
  cache_add m c block = Ok (true, c1) ->
  exists k found c2,
    cache_query m c1 (get_size m block) = Ok (found, c2)
    /\ elems c1 !! k = Some found /\ found <> NULL
    /\ get_size m block <= get_size m found
    /\ (forall j x, (j < k)%nat -> elems c1 !! j = Some x ->
          x = NULL \/ get_size m x < get_size m block)
    /\ elems c2 = <[k := NULL]> (elems c1)
    /\ ((forall j x, elems c !! j = Some x -> x <> NULL ->
           get_size m x < get_size m block) -> found = block).
Proof.
  intros Hreach Hb Hadd. pose proof (cache_reachable_inv m c Hreach) as Hinv.
  destruct (cache_add_spec m c block Hinv Hb)
    as [Heq | (k0 & c' & Hk0 & Hnull & Hfirst & Hel & _ & Heq & Hinv')];
    rewrite Heq in Hadd; [discriminate|]. injection Hadd as <-.
  assert (Hat : elems c' !! Z.to_nat k0 = Some block).
  { rewrite Hel. apply list_lookup_insert_eq.
    apply lookup_lt_Some in Hnull. exact Hnull. }
  destruct (cache_query_spec m c' (get_size m block) Hinv')
    as [(Hnone & _) | (k & found & c2 & Hk & Hfn & Hsz & Hlow & Hel2 & Hq & _)].
  - destruct (Hnone _ _ Hat) as [? | ?]; [contradiction | lia].
  - exists k, found, c2.
    split; [exact Hq|]. split; [exact Hk|]. split; [exact Hfn|].
    split; [exact Hsz|]. split; [exact Hlow|]. split; [exact Hel2|].
    intros Hsmall.
    destruct (Nat.eq_dec k (Z.to_nat k0)) as [->|Hne].
    + rewrite Hat in Hk. now injection Hk.
    + exfalso. rewrite Hel in Hk. rewrite list_lookup_insert_ne in Hk by congruence.
      specialize (Hsmall _ _ Hk Hfn). lia.
Qed.

Lemma cache_add_then_query_witness :
  exists k found c2,
    cache_query Run.two_blocks Run.two_cached (get_size Run.two_blocks 4168)
      = Ok (found, c2)
    /\ elems Run.two_cached !! k = Some found /\ found <> NULL
    /\ get_size Run.two_blocks 4168 <= get_size Run.two_blocks found
    /\ (forall j x, (j < k)%nat -> elems Run.two_cached !! j = Some x ->
          x = NULL \/ get_size Run.two_blocks x < get_size Run.two_blocks 4168)
    /\ elems c2 = <[k := NULL]> (elems Run.two_cached)
    /\ ((forall j x, elems Run.one_cached !! j = Some x -> x <> NULL ->
           get_size Run.two_blocks x < get_size Run.two_blocks 4168)
        -> found = 4168).
Proof.
  apply (cache_add_then_query Run.two_blocks Run.one_cached Run.two_cached 4168).
  - apply (reach_add _ cache_init 4104 true).
    + apply reach_init.
    + unfold NULL. lia.
    + vm_compute. reflexivity.
  - unfold NULL. lia.
  - vm_compute. reflexivity.
Defined.

(** ** Claims about the allocation and free paths *)

Section ZeroSize.

(** the heap allocators ignore a request of size 0 *)
Lemma arena_malloc_zero m arena : Arena._malloc m arena 0 = Ok (NULL, (m, arena)).
Proof. reflexivity. Qed.

Lemma naive_malloc_zero h : Naive._malloc h 0 = Ok (NULL, h).
Proof. reflexivity. Qed.

(** with the invariant, a query for size 0 takes whatever the cache holds *)
Lemma cache_query_zero m c :
  cache_inv m c -> num_entries c > 0 ->
  exists block c', cache_query m c 0 = Ok (block, c') /\ block <> NULL.
Proof.
  intros Hinv Hpos.
  destruct (cache_evict_spec m c Hinv Hpos) as (b & _ & Hb & Hbn & _).
  destruct (cache_query_spec m c 0 Hinv)
    as [(Hnone & _) | (k & found & c' & _ & Hfn & _ & _ & _ & Hq & _)].
  - destruct (Hnone _ _ Hb) as [? | Hlt]; [contradiction|].
    pose proof (get_size_range m b). lia.
  - eauto.
Qed.

End ZeroSize.

(** C2 (the code departs from the claim).  One arena-cached [malloc(128)],
    the [free] of its result, and then [malloc(0)]: the zero-size request is
    answered from the thread cache with the pointer just freed, not with
    NULL. *)
Theorem alloc_zero_served_from_cache :
  (let* st := Run.boot in
   let* (p, st) := Cached.arena_cached_malloc st 128 0 in
   let* st := Cached.arena_cached_free Run.RAND_MAX st p 5 in
   let* (q, st) := Cached.arena_cached_malloc st 0 0 in
   Ok (p, num_entries (local_cache st), q))
  = Ok (1048592, 0, 1048592).
Proof. vm_compute. reflexivity. Qed.

(** C1 (the code departs from the claim).  [malloc(1)] hands out a 32-byte
    block; it is freed into the thread cache; [malloc(32)] then returns the
    same block, whose 32 bytes are fewer than the
    [round_up(32 + 8, 16) = 48] the request needs. *)
Theorem cache_hit_block_too_small :
  (let* st := Run.boot in
   let* (p, st) := Cached.arena_cached_malloc st 1 0 in
   let* st := Cached.arena_cached_free Run.RAND_MAX st p 5 in
   let* (q, st) := Cached.arena_cached_malloc st 32 0 in
   Ok (p, q, get_size (heap st) (payload_to_header q),
       round_up (Word.wrap (32 + wsize)) dsize))
  = Ok (1048592, 1048592, 32, 48).
Proof. vm_compute. reflexivity. Qed.

(** C3 (the code departs from the claim).  With an empty cache, freeing a
    block of more than [CACHE_MAX_SIZE] bytes makes [cache_add] fail on the
    size test; [rand()] returning 0 passes the eviction test, and
    [cache_evict] runs with [num_entries = 0] and
    [front = CACHE_MAX_ENTRIES]: its [assert] fails, and the slot it would
    read lies outside [elems]. *)
Theorem evict_runs_on_empty_cache :
  (let* st := Run.boot in
   let* (p, st) := Cached.arena_cached_malloc st 2097152 0 in
   let c := local_cache st in
   let* (added, _) := cache_add (heap st) c (payload_to_header p) in
   Ok (get_size (heap st) (payload_to_header p),
       num_entries c, front c, added,
       Cached.evict_guard Run.RAND_MAX 0,
       cache_evict (heap st) c,
       slot (elems c) (front c),
       Cached.arena_cached_free Run.RAND_MAX st p 0))
  = Ok (2097168, 0, CACHE_MAX_ENTRIES, false, true,
        Fault AssertionFailed, Fault OutOfBounds, Fault AssertionFailed).
Proof. vm_compute. reflexivity. Qed.

(** *** The eviction test *)

(** C6, as stated, fails: when [rand()] returns 0 the test is true. *)
Lemma evict_guard_true_at_zero : Cached.evict_guard Run.RAND_MAX 0 = true.
Proof. reflexivity. Qed.

(** C6, amended.  For every value [r] in [[0, RAND_MAX]] that [rand]
    returns, the test [(double)(rand() / RAND_MAX) < CACHE_EVICT_PROBABILITY]
    is true exactly when [r < RAND_MAX]: it is false at [r = RAND_MAX] only. *)
Theorem evict_guard_almost_always (RAND_MAX r : Z) :
  0 < RAND_MAX -> 0 <= r <= RAND_MAX ->
  Cached.evict_guard RAND_MAX r = (r <? RAND_MAX).
Proof.
  intros Hmax Hr. unfold Cached.evict_guard, Cached.CACHE_EVICT_PROBABILITY.
  destruct (r <? RAND_MAX) eqn:E.
  - apply Z.ltb_lt in E. rewrite Z.quot_small by lia. reflexivity.
  - apply Z.ltb_ge in E. replace r with RAND_MAX by lia.
    rewrite Z.quot_same by lia. reflexivity.
Qed.

Lemma evict_guard_almost_always_witness :
  Cached.evict_guard Run.RAND_MAX 12345 = (12345 <? Run.RAND_MAX).
Proof.
  apply evict_guard_almost_always; unfold Run.RAND_MAX; lia.
Defined.

(** *** Round-robin dispatch *)

Section Dispatch.
Import WordFacts.

Lemma arena_at_in_range st i :
  length (arenas st) = Z.to_nat (max_arenas st) ->
  0 <= i < max_arenas st -> exists a, arena_at st i = Ok a.
Proof.
  intros Hlen Hi. unfold arena_at.
  replace ((0 <=? i) && (i <? max_arenas st)) with true
    by (symmetry; apply andb_true_iff; split;
        [apply Z.leb_le | apply Z.ltb_lt]; lia).
  destruct (lookup_lt_is_Some_2 (arenas st) (Z.to_nat i)) as [a Ha]; [lia|].
  rewrite Ha. eauto.
Qed.

(** while the counter is not negative the index is one of the arenas' *)
Lemma get_arena_index_in_range st :
  0 < max_arenas st -> 0 <= last_used st ->
  0 <= get_arena_index st < max_arenas st.
Proof.
  intros Hmax Hlu. unfold get_arena_index.
  rewrite Z.rem_mod_nonneg by lia. apply Z.mod_pos_bound. lia.
Qed.

Lemma get_arena_ok st :
  0 < max_arenas st -> length (arenas st) = Z.to_nat (max_arenas st) ->
  0 <= last_used st ->
  get_arena st
  = Ok (get_arena_index st, set_last_used st (Word.wrap_int (last_used st + 1))).
Proof.
  intros Hmax Hlen Hlu. unfold get_arena.
  replace (max_arenas st >? 0) with true by (symmetry; apply Z.gtb_lt; lia).
  simpl.
  destruct (arena_at_in_range
              (set_last_used st (Word.wrap_int (last_used st + 1)))
              (get_arena_index st) Hlen
              (get_arena_index_in_range st Hmax Hlu)) as [a Ha].
  rewrite Ha. reflexivity.
Qed.

(** the counter after [n] calls, up to the first wrap-around *)
Lemma get_arena_calls_counter st n :
  0 < max_arenas st -> length (arenas st) = Z.to_nat (max_arenas st) ->
  0 <= last_used st <= Word.int_max -> last_used st + Z.of_N n <= 2 ^ 31 ->
  get_arena_calls n st
  = Ok (set_last_used st (Word.wrap_int (last_used st + Z.of_N n))).
Proof.
  intros Hmax Hlen Hlu. unfold get_arena_calls.
  induction n as [|n IH] using N.peano_ind; intros Hn.
  - simpl. rewrite Z.add_0_r, wrap_int_small
      by (unfold Word.int_min, Word.int_max in *; lia).
    destruct st; reflexivity.
  - rewrite N.iter_succ, IH by lia. simpl.
    rewrite wrap_int_small by (unfold Word.int_min, Word.int_max in *; lia).
    rewrite get_arena_ok; simpl; try assumption; try lia.
    do 2 f_equal. unfold set_last_used. simpl. f_equal. lia.
Qed.

End Dispatch.

(** C5 (the code departs from the claim).  After [arenas_init(10)] and
    2^31 calls of [get_arena] the counter [last_used] has wrapped to
    -2^31; the next call computes the index [-2^31 % 10 = -8], which names
    no arena of the registry. *)
Theorem get_arena_index_after_wrap :
  exists st0 st,
    Run10.boot = Ok st0
    /\ get_arena_calls (2 ^ 31) st0 = Ok st
    /\ last_used st = - 2 ^ 31
    /\ get_arena_index st = -8
    /\ get_arena st = Fault OutOfBounds.
Proof.
  eexists. eexists. split; [vm_compute; reflexivity|].
  split.
  - apply get_arena_calls_counter; simpl; try lia; try reflexivity.
    unfold Word.int_max. lia.
  - split; [reflexivity|]. split; reflexivity.
Qed.

(** *** Growing an arena *)

Section ExtendArena.
Import WordFacts.

(** as long as the addresses involved do not wrap around, [extend_arena]
    refuses exactly the requests that go past the mapping, and otherwise
    advances [heap_end] by [length] *)
Lemma extend_arena_in_range arena length :
  0 < arena_heap_end arena -> 0 <= length ->
  arena_heap_end arena + length < Word.modulus ->
  0 <= arena_low arena -> 0 <= arena_size arena ->
  arena_low arena + arena_size arena < Word.modulus ->
  extend_arena arena length
  = if arena_heap_end arena + length >? arena_low arena + arena_size arena
    then (NULL, arena)
    else (arena_heap_end arena,
          set_heap_end arena (arena_heap_end arena + length)).
Proof.
  intros He Hl Hel Hlow Hsz Hls. unfold extend_arena, padd.
  rewrite !wrap_small by lia. reflexivity.
Qed.

End ExtendArena.

(** C7 (the code departs from the claim).  In the first arena after
    [arenas_init], a [length] of 2^64 - 80 puts [heap_end + length] far
    beyond [low + size], yet the address computation wraps around and
    [extend_arena] returns the old [heap_end] and moves [heap_end] 80 bytes
    down; [arena_malloc(2^64 - 100)] reaches it and returns a pointer. *)
Theorem extend_arena_wraps_around :
  exists st0,
    arenas_init ∅ 2 Run.bases = Ok st0
    /\ arenas st0 !! 0%nat = Some Run.first_arena
    /\ arena_heap_end Run.first_arena + (2 ^ 64 - 80)
       > arena_low Run.first_arena + arena_size Run.first_arena
    /\ extend_arena Run.first_arena (2 ^ 64 - 80)
       = (1052688, set_heap_end Run.first_arena 1052608)
    /\ (let* (p, st) := Arena.arena_malloc st0 (2 ^ 64 - 100) 0 in
        Ok (p, arena_heap_end <$> arenas st))
       = Ok (1048592, [1052608; 269488144]).
Proof.
  eexists. split; [vm_compute; reflexivity|].
  split; [reflexivity|]. split; [vm_compute; reflexivity|].
  split; vm_compute; reflexivity.
Qed.

(** *** Probing the segregated lists *)

Section FindFit.

Lemma min_list_loop_ge n size i : i <= min_list_loop n size i.
Proof.
  revert size i. induction n as [|n IH]; intros size i; simpl; [lia|].
  destruct (negb (size =? 0)); [|lia].
  specialize (IH (Z.shiftr size 1) (i + 1)). lia.
Qed.

Lemma min_list_index_range asize : 0 <= min_list_index asize <= MAXLISTS - 1.
Proof.
  unfold min_list_index.
  pose proof (min_list_loop_ge 64 (Z.shiftr asize 6) 0).
  destruct (min_list_loop 64 (Z.shiftr asize 6) 0 >? MAXLISTS - 1) eqn:E.
  - unfold MAXLISTS. lia.
  - rewrite Z.gtb_ltb in E. apply Z.ltb_ge in E. lia.
Qed.

(** the arena variants look at the list of the request's class and at the
    next one, and at no other *)
Lemma arena_find_fit_two_lists m arena asize :
  let sl := arena_seglists arena in
  let c_min := min_list_index asize in
  Arena.find_fit m arena asize
  = if negb (search_list m (seglist sl c_min) asize =? NULL)
    then search_list m (seglist sl c_min) asize
    else if c_min + 1 <? MAXLISTS
         then search_list m (seglist sl (c_min + 1)) asize
         else NULL.
Proof.
  intros sl c_min. unfold Arena.find_fit. fold c_min. fold sl.
  pose proof (min_list_index_range asize) as Hr. fold c_min in Hr.
  unfold MAXLISTS in *.
  change (Z.to_nat (15 + 1)) with (S (S (S 13))).
  generalize 13%nat. intros n.
  cbn [Arena.find_fit_loop]. unfold MAXLISTS.
  rewrite !WordFacts.wrap_small by (unfold Word.modulus; lia).
  replace (c_min <? 15) with true by (symmetry; apply Z.ltb_lt; lia).
  replace (c_min <=? c_min + 1) with true by (symmetry; apply Z.leb_le; lia).
  replace (c_min + 1 <=? c_min + 1) with true by (symmetry; apply Z.leb_le; lia).
  replace (c_min + 1 + 1 <=? c_min + 1) with false
    by (symmetry; apply Z.leb_gt; lia).
  rewrite andb_false_r. cbn [andb].
  destruct (search_list m (seglist sl c_min) asize =? NULL);
    cbn [negb]; [|reflexivity].
  rewrite andb_true_r.
  destruct (c_min + 1 <? 15); [|reflexivity].
  destruct (search_list m (seglist sl (c_min + 1)) asize =? NULL) eqn:E;
    cbn [negb]; [|reflexivity].
  apply Z.eqb_eq in E. now rewrite E.
Qed.

End FindFit.

(** C4 (the code departs from the claim).  Right after [mm_init] the naive
    heap has one free block, of 4096 bytes, in list 7.  For [asize = 32] the
    class is 0, so lists 0 and 1 are the two to probe; the naive [find_fit]
    goes on to list 7 and returns that block, where the arena [find_fit]
    over the same lists returns NULL. *)
Theorem naive_find_fit_probes_deeper_lists :
  exists h,
    Naive.mm_init Run.fresh = Ok (true, h)
    /\ Naive.seglists h = [0; 0; 0; 0; 0; 0; 0; 1048584; 0; 0; 0; 0; 0; 0; 0]
    /\ min_list_index 32 = 0
    /\ Naive.find_fit h 32 = 1048584
    /\ find_list_for_block (Naive.memory h) 1048584 = 7
    /\ Arena.find_fit (Naive.memory h)
         (set_seglists zero_arena (Naive.seglists h)) 32 = NULL.
Proof.
  eexists. split; [vm_compute; reflexivity|].
  repeat split; vm_compute; reflexivity.
Qed.

(** ** Memory, addresses and tags *)

Section Memory.
Import WordFacts.

Lemma load_store_eq m a v : load (store m a v) a = v.
Proof. unfold load, store. now rewrite lookup_insert_eq. Qed.

Lemma load_store_ne m a v a' : a <> a' -> load (store m a v) a' = load m a'.
Proof. intros H. unfold load, store. now rewrite lookup_insert_ne. Qed.

Lemma padd_small p n : 0 <= p + n < Word.modulus -> padd p n = p + n.
Proof. apply wrap_small. Qed.

Lemma psub_small p n : 0 <= p - n < Word.modulus -> psub p n = p - n.
Proof. apply wrap_small. Qed.

Lemma prev_link_small x : 0 <= x -> x + 8 < Word.modulus -> prev_link x = x + 8.
Proof. intros. unfold prev_link, wsize. apply padd_small. lia. Qed.

Lemma next_link_small x : 0 <= x -> x + 16 < Word.modulus -> next_link x = x + 16.
Proof. intros. unfold next_link, wsize. apply padd_small. lia. Qed.

(** reading back a packed header *)
Lemma header_fields m b s a p :
  load m b = pack s a p -> 0 <= s < Word.modulus -> s mod 16 = 0 ->
  get_size m b = s /\ get_alloc m b = a /\ get_prev_alloc m b = p.
Proof.
  intros Hl Hr Hs. unfold get_size, get_alloc, get_prev_alloc. rewrite Hl.
  split; [apply extract_size_pack; [exact Hr | exact Hs]|].
  split; [now apply extract_alloc_pack | now apply extract_prev_alloc_pack].
Qed.

(** the fields depend on the header word only *)
Lemma get_size_same m m' b : load m' b = load m b -> get_size m' b = get_size m b.
Proof. unfold get_size. now intros ->. Qed.

Lemma find_list_same m m' b :
  load m' b = load m b -> find_list_for_block m' b = find_list_for_block m b.
Proof. intros H. unfold find_list_for_block. now rewrite (get_size_same _ _ _ H). Qed.

(** [write_block] in terms of stores *)
Lemma write_block_alloc m b s p :
  write_block m b s true p = store m b (pack s true p).
Proof. reflexivity. Qed.

Lemma write_block_free m b s p :
  0 <= s < Word.modulus -> s mod 16 = 0 ->
  wsize <= b + s -> b + s - wsize < Word.modulus ->
  write_block m b s false p
  = store (store m b (pack s false p)) (b + s - wsize) (pack s false p).
Proof.
  intros Hs Hal Hlo Hhi. unfold write_block. simpl.
  unfold header_to_footer, header_to_payload.
  assert (Hg : get_size (store m b (pack s false p)) b = s).
  { apply (header_fields _ _ s false p); auto. apply load_store_eq. }
  rewrite Hg. unfold padd, psub.
  rewrite wrap_add_l, wrap_sub_l. unfold dsize, wsize in *.
  rewrite wrap_small by lia. f_equal. lia.
Qed.

End Memory.

(** ** Chains of blocks *)

Section Chains.

Lemma last_alloc_nil pa : last_alloc pa [] = pa.
Proof. reflexivity. Qed.

Lemma last_alloc_cons pa x bs : last_alloc pa (x :: bs) = last_alloc (blk_alloc x) bs.
Proof.
  unfold last_alloc. rewrite last_cons. destruct (last bs); reflexivity.
Qed.

Lemma last_alloc_app pa l1 l2 :
  last_alloc pa (l1 ++ l2) = last_alloc (last_alloc pa l1) l2.
Proof.
  revert pa. induction l1 as [|x l1 IH]; intros pa; [reflexivity|].
  simpl. now rewrite !last_alloc_cons, IH.
Qed.

Lemma chain_app m a pa l1 l2 e :
  chain m a pa (l1 ++ l2) e
  <-> exists mid, chain m a pa l1 mid /\ chain m mid (last_alloc pa l1) l2 e.
Proof.
  revert a pa. induction l1 as [|x l1 IH]; intros a pa; simpl.
  - split.
    + intros H. exists a. split; [reflexivity | exact H].
    + intros [mid [-> H]]. exact H.
  - rewrite last_alloc_cons. split.
    + intros (Ha & Ht & Hc). apply IH in Hc. destruct Hc as [mid [H1 H2]].
      exists mid. split; [|exact H2]. split; [exact Ha|]. split; assumption.
    + intros [mid [(Ha & Ht & H1) H2]]. split; [exact Ha|]. split; [exact Ht|].
      apply IH. exists mid. split; assumption.
Qed.

(** every block of a chain lies between its ends and has the minimum size *)
Lemma chain_bounds m a pa bs e :
  chain m a pa bs e ->
  a <= e /\ forall x, x ∈ bs ->
              a <= blk_addr x /\ blk_addr x + blk_size x <= e
              /\ min_block_size <= blk_size x /\ blk_size x mod dsize = 0.
Proof.
  revert a pa. induction bs as [|y bs IH]; intros a pa; simpl.
  - intros ->. split; [lia|]. intros x Hx. inversion Hx.
  - intros (Ha & (Hmin & Hal & Ht) & Hc).
    destruct (IH _ _ Hc) as [Hle Hin]. unfold min_block_size, dsize, wsize in *.
    split; [lia|]. intros x Hx. apply elem_of_cons in Hx. destruct Hx as [->|Hx].
    + repeat split; lia.
    + destruct (Hin x Hx) as (H1 & H2 & H3 & H4). repeat split; lia.
Qed.

(** two blocks of a chain are the same block or do not overlap *)
Lemma chain_disjoint m a pa bs e x y :
  chain m a pa bs e -> x ∈ bs -> y ∈ bs ->
  x = y \/ blk_addr x + blk_size x <= blk_addr y
  \/ blk_addr y + blk_size y <= blk_addr x.
Proof.
  revert a pa. induction bs as [|z bs IH]; intros a pa Hc Hx Hy;
    [inversion Hx|].
  simpl in Hc. destruct Hc as (Ha & Ht & Hc).
  destruct (chain_bounds _ _ _ _ _ Hc) as [_ Hin].
  apply elem_of_cons in Hx. apply elem_of_cons in Hy.
  destruct Hx as [->|Hx], Hy as [->|Hy].
  - now left.
  - right. left. destruct (Hin y Hy). lia.
  - right. right. destruct (Hin x Hx). lia.
  - eapply IH; eassumption.
Qed.

(** a chain only reads the headers and footers of its blocks *)
Lemma chain_frame m m' a pa bs e :
  chain m a pa bs e ->
  (forall x, x ∈ bs ->
     load m' (blk_addr x) = load m (blk_addr x)
     /\ load m' (blk_addr x + blk_size x - wsize)
        = load m (blk_addr x + blk_size x - wsize)) ->
  chain m' a pa bs e.
Proof.
  revert a pa. induction bs as [|y bs IH]; intros a pa Hc Hsame; [exact Hc|].
  simpl in *. destruct Hc as (Ha & (Hmin & Hal & Hh & Hf) & Hc).
  destruct (Hsame y ltac:(left)) as [H1 H2].
  split; [exact Ha|]. split.
  - split; [exact Hmin|]. split; [exact Hal|]. split; [now rewrite H1|].
    intros Hfree. rewrite H2. now apply Hf.
  - apply IH; [exact Hc|]. intros x Hx. apply Hsame. now right.
Qed.

Lemma snoc_cases {A} (l : list A) : l = [] \/ exists l' x, l = l' ++ [x].
Proof.
  induction l as [|x l _] using rev_ind; [now left|]. right. eauto.
Qed.

End Chains.

(** ** Doubly-linked lists in memory *)

Section Links.

Lemma hd_app_nonempty (d : Z) l1 l2 : l1 <> [] -> hd d (l1 ++ l2) = hd d l1.
Proof. destruct l1; [congruence | reflexivity]. Qed.

Lemma hd_app (d : Z) l1 l2 : hd d (l1 ++ l2) = hd (hd d l2) l1.
Proof. destruct l1; reflexivity. Qed.

Lemma links_app m p l1 l2 n :
  links m p (l1 ++ l2) n
  <-> links m p l1 (hd n l2) /\ links m (default p (last l1)) l2 n.
Proof.
  revert p. induction l1 as [|x l1 IH]; intros p; simpl.
  - tauto.
  - rewrite IH, hd_app, last_cons.
    destruct (last l1) eqn:E; simpl; tauto.
Qed.

(** a list only reads the link fields of its blocks *)
Lemma links_frame m m' p l n :
  links m p l n ->
  (forall y, y ∈ l ->
     load m' (prev_link y) = load m (prev_link y)
     /\ load m' (next_link y) = load m (next_link y)) ->
  links m' p l n.
Proof.
  revert p. induction l as [|x l IH]; intros p Hl Hsame; [exact I|].
  simpl in *. destruct Hl as (Hp & Hn & Hl).
  destruct (Hsame x ltac:(left)) as [H1 H2].
  rewrite H1, H2. split; [exact Hp|]. split; [exact Hn|].
  apply IH; [exact Hl|]. intros y Hy. apply Hsame. now right.
Qed.

Lemma apart_app l1 l2 :
  apart (l1 ++ l2)
  <-> apart l1 /\ apart l2
      /\ forall y z, y ∈ l1 -> z ∈ l2 ->
           y + min_block_size <= z \/ z + min_block_size <= y.
Proof.
  induction l1 as [|x l1 IH]; simpl.
  - split; [intros H | tauto]. split; [exact I|]. split; [exact H|].
    intros y z Hy. inversion Hy.
  - rewrite Forall_app, IH, !Forall_forall. split.
    + intros ((H1 & H2) & H3 & H4 & H5). split; [tauto|]. split; [exact H4|].
      intros y z Hy Hz. apply elem_of_cons in Hy. destruct Hy as [->|Hy]; auto.
    + intros ((H1 & H2) & H3 & H4). split; [split; [exact H1|]|].
      * intros z Hz. apply H4; [left | exact Hz].
      * split; [exact H2|]. split; [exact H3|].
        intros y z Hy Hz. apply H4; [now right | exact Hz].
Qed.

Lemma apart_intro l :
  NoDup l ->
  (forall y z, y ∈ l -> z ∈ l ->
     y = z \/ y + min_block_size <= z \/ z + min_block_size <= y) ->
  apart l.
Proof.
  induction l as [|x l IH]; intros Hnd Hsep; [exact I|].
  apply NoDup_cons in Hnd. destruct Hnd as [Hx Hnd]. simpl. split.
  - apply Forall_forall. intros y Hy.
    destruct (Hsep x y ltac:(left) ltac:(now right)) as [->|H];
      [contradiction | exact H].
  - apply IH; [exact Hnd|]. intros y z Hy Hz. apply Hsep; now right.
Qed.

End Links.

(** ** Taking a block off its list *)

Ltac sizes :=
  unfold min_block_size, dsize, wsize, NULL, Word.modulus in *;
  change (2 * (2 * 8)) with 32 in *; change (2 * 8) with 16 in *.
Ltac zl := sizes; lia.
Ltac addr := rewrite ?prev_link_small, ?next_link_small by zl.
Ltac mem_simpl :=
  repeat first [ rewrite load_store_eq | rewrite load_store_ne by zl ].

Section Delete.
Import WordFacts.

Lemma seglist_set sl i v :
  0 <= i -> (Z.to_nat i < length sl)%nat -> seglist (set_seglist sl i v) i = v.
Proof.
  intros Hi Hlt. unfold seglist, set_seglist.
  now apply list_lookup_total_insert_eq.
Qed.

Lemma seglist_set_ne sl i v j :
  Z.to_nat i <> j -> set_seglist sl i v !!! j = sl !!! j.
Proof. intros H. unfold set_seglist. now apply list_lookup_total_insert_ne. Qed.

(** [delete_from_free_list] on a block of a well-formed list: the block
    leaves the list, the rest stays linked, and only link fields of the
    list's blocks are written *)
Lemma delete_from_free_list_spec m sl i l1 x l2 :
  0 <= i -> (Z.to_nat i < length sl)%nat ->
  (forall y, y ∈ l1 ++ x :: l2 -> 0 < y /\ y + min_block_size <= Word.modulus) ->
  apart (l1 ++ x :: l2) ->
  find_list_for_block m x = i ->
  seglist sl i = hd NULL (l1 ++ x :: l2) ->
  links m NULL (l1 ++ x :: l2) NULL ->
  exists m' sl',
    delete_from_free_list m sl x = (m', sl')
    /\ length sl' = length sl
    /\ seglist sl' i = hd NULL (l1 ++ l2)
    /\ (forall j, Z.to_nat i <> j -> sl' !!! j = sl !!! j)
    /\ links m' NULL (l1 ++ l2) NULL
    /\ (forall t, (forall y, y ∈ l1 ++ x :: l2 -> t <> y + 8 /\ t <> y + 16) ->
          load m' t = load m t).
Proof.
  intros Hi Hlen Hrange Hap Hclass Hhead Hlinks.
  assert (Hx : 0 < x /\ x + min_block_size <= Word.modulus)
    by (apply Hrange; apply elem_of_app; right; left).
  (* the two links of [x] *)
  apply links_app in Hlinks. destruct Hlinks as [Hl1 Hxl].
  cbn [links] in Hxl. destruct Hxl as (Hpx & Hnx & Hl2).
  rewrite prev_link_small in Hpx by zl. rewrite next_link_small in Hnx by zl.
  apply apart_app in Hap. destruct Hap as (Hap1 & Hap2 & Hcross).
  cbn [apart] in Hap2. destruct Hap2 as [Hx2 Hap2]. rewrite Forall_forall in Hx2.
  assert (Hx1 : forall y, y ∈ l1 ->
                  y + min_block_size <= x \/ x + min_block_size <= y).
  { intros y Hy. apply Hcross; [exact Hy | left]. }
  assert (H12 : forall y z, y ∈ l1 -> z ∈ l2 ->
                  y + min_block_size <= z \/ z + min_block_size <= y).
  { intros y z Hy Hz. apply Hcross; [exact Hy | now right]. }
  assert (Hr1 : forall y, y ∈ l1 -> 0 < y /\ y + min_block_size <= Word.modulus).
  { intros y Hy. apply Hrange. apply elem_of_app. now left. }
  assert (Hr2 : forall y, y ∈ l2 -> 0 < y /\ y + min_block_size <= Word.modulus).
  { intros y Hy. apply Hrange. apply elem_of_app. right. now right. }
  clear Hcross Hrange.
  (* the list is not empty, so its head is not NULL *)
  assert (Hnz : (seglist sl i =? NULL) = false).
  { rewrite Hhead. apply Z.eqb_neq.
    destruct l1 as [|y l1]; cbn [app hd]; [zl|].
    destruct (Hr1 y ltac:(left)). zl. }
  unfold delete_from_free_list. rewrite Hclass, Hnz.
  rewrite (prev_link_small x), (next_link_small x) by zl.
  rewrite Hpx, Hnx.
  destruct (snoc_cases l1) as [-> | (l1' & pv & ->)];
    destruct l2 as [|nx l2']; rewrite ?last_snoc in *; cbn [last hd app] in *; unfold default, from_option, id in *.
  - (* the only block *)
    change (NULL =? NULL) with true. cbn [negb andb].
    exists m, (set_seglist sl i NULL).
    split; [reflexivity|]. split; [apply length_insert|].
    split; [now apply seglist_set|].
    split; [intros j Hj; now apply seglist_set_ne|].
    split; [exact I | reflexivity].
  - (* the first block *)
    destruct (Hr2 nx ltac:(left)) as [Hnx0 Hnx1].
    replace (nx =? NULL) with false by (symmetry; apply Z.eqb_neq; zl).
    change (NULL =? NULL) with true. cbn [negb andb].
    eexists _, _.
    split; [reflexivity|]. split; [apply length_insert|].
    split; [now apply seglist_set|].
    split; [intros j Hj; now apply seglist_set_ne|].
    cbn [links] in Hl2. destruct Hl2 as (Hpn & Hnn & Hl2).
    cbn [apart] in Hap2. destruct Hap2 as [Hn2 Hap2]. rewrite Forall_forall in Hn2.
    split.
    + cbn [links]. addr. rewrite next_link_small in Hnn by zl. mem_simpl.
      split; [reflexivity|]. split; [exact Hnn|].
      apply (links_frame m); [exact Hl2|]. intros y Hy.
      destruct (Hr2 y ltac:(now right)). pose proof (Hn2 y Hy).
      addr. mem_simpl. split; reflexivity.
    + intros t Ht. destruct (Ht nx ltac:(right; left)).
      addr. apply load_store_ne. congruence.
  - (* the last block *)
    destruct (Hr1 pv ltac:(apply elem_of_app; right; left)) as [Hpv0 Hpv1].
    replace (pv =? NULL) with false by (symmetry; apply Z.eqb_neq; zl).
    change (NULL =? NULL) with true. cbn [negb andb].
    eexists _, sl.
    split; [reflexivity|]. split; [reflexivity|].
    split.
    { rewrite Hhead, app_nil_r. apply hd_app_nonempty. now destruct l1'. }
    split; [reflexivity|].
    apply links_app in Hl1. destruct Hl1 as [Hl1 Hpvl]. cbn [links hd] in Hpvl.
    destruct Hpvl as (Hpp & Hpn & _).
    apply apart_app in Hap1. destruct Hap1 as (Hap1 & _ & Hc1).
    split.
    + rewrite app_nil_r. apply links_app. cbn [links hd]. split.
      * apply (links_frame m); [exact Hl1|]. intros y Hy.
        destruct (Hr1 y ltac:(apply elem_of_app; now left)).
        pose proof (Hc1 y pv Hy ltac:(left)).
        addr. mem_simpl. split; reflexivity.
      * rewrite prev_link_small in Hpp by zl. addr. mem_simpl.
        split; [exact Hpp|]. split; [reflexivity | exact I].
    + intros t Ht.
      destruct (Ht pv ltac:(apply elem_of_app; left; apply elem_of_app; right; left)).
      addr. apply load_store_ne. congruence.
  - (* a block in the middle *)
    destruct (Hr1 pv ltac:(apply elem_of_app; right; left)) as [Hpv0 Hpv1].
    destruct (Hr2 nx ltac:(left)) as [Hnx0 Hnx1].
    replace (pv =? NULL) with false by (symmetry; apply Z.eqb_neq; zl).
    replace (nx =? NULL) with false by (symmetry; apply Z.eqb_neq; zl).
    cbn [negb andb].
    eexists _, sl.
    split; [reflexivity|]. split; [reflexivity|].
    split.
    { rewrite Hhead.
      rewrite (hd_app_nonempty _ (l1' ++ [pv]) (x :: nx :: l2')),
        (hd_app_nonempty _ (l1' ++ [pv]) (nx :: l2')) by (now destruct l1').
      reflexivity. }
    split; [reflexivity|].
    apply links_app in Hl1. destruct Hl1 as [Hl1 Hpvl]. cbn [links hd] in Hpvl.
    destruct Hpvl as (Hpp & Hpn & _).
    cbn [links] in Hl2. destruct Hl2 as (Hpn2 & Hnn & Hl2).
    apply apart_app in Hap1. destruct Hap1 as (Hap1 & _ & Hc1).
    cbn [apart] in Hap2. destruct Hap2 as [Hn2 Hap2]. rewrite Forall_forall in Hn2.
    pose proof (Hx1 pv ltac:(apply elem_of_app; right; left)) as Hpx'.
    pose proof (Hx2 nx ltac:(left)) as Hxn.
    pose proof (H12 pv nx ltac:(apply elem_of_app; right; left) ltac:(left)) as Hpvn.
    split.
    + rewrite <- app_assoc. cbn [app]. apply links_app. cbn [links hd]. split.
      * apply (links_frame m); [exact Hl1|]. intros y Hy.
        destruct (Hr1 y ltac:(apply elem_of_app; now left)).
        pose proof (Hc1 y pv Hy ltac:(left)).
        pose proof (Hx1 y ltac:(apply elem_of_app; now left)).
        pose proof (H12 y nx ltac:(apply elem_of_app; now left) ltac:(left)).
        addr. mem_simpl. split; reflexivity.
      * rewrite prev_link_small in Hpp by zl.
        rewrite next_link_small in Hnn by zl.
        addr. mem_simpl.
        split; [exact Hpp|]. split; [reflexivity|].
        split; [reflexivity|]. split; [exact Hnn|].
        apply (links_frame m); [exact Hl2|]. intros y Hy.
        destruct (Hr2 y ltac:(now right)).
        pose proof (Hn2 y Hy).
        pose proof (Hx2 y ltac:(now right)).
        pose proof (H12 pv y ltac:(apply elem_of_app; right; left) ltac:(now right)).
        addr. mem_simpl. split; reflexivity.
    + intros t Ht.
      destruct (Ht pv ltac:(apply elem_of_app; left; apply elem_of_app; right; left)).
      destruct (Ht nx ltac:(apply elem_of_app; right; right; left)).
      destruct (Ht x ltac:(apply elem_of_app; right; left)).
      addr. rewrite !load_store_ne by congruence. reflexivity.
Qed.

End Delete.

(** ** Taking a block off the segregated lists *)

Section Unlist.

Lemma elem_concat (L : list (list Z)) x :
  x ∈ concat L <-> exists i l, L !! i = Some l /\ x ∈ l.
Proof.
  induction L as [|l L IH]; simpl.
  - split; [intros H; inversion H | intros (i & l & H & _); discriminate].
  - rewrite elem_of_app, IH. split.
    + intros [H | (i & l' & Hl & Hx)].
      * exists 0%nat, l. split; [reflexivity | exact H].
      * exists (S i), l'. split; assumption.
    + intros ([|i] & l' & Hl & Hx); simpl in Hl.
      * injection Hl as <-. now left.
      * right. eauto.
Qed.

Lemma concat_unlist a (L : list (list Z)) :
  concat (unlist a L) = filter (fun y => y <> a) (concat L).
Proof.
  induction L as [|l L IH]; [reflexivity|].
  simpl. rewrite filter_app. f_equal. exact IH.
Qed.

Lemma unlist_lookup a (L : list (list Z)) i :
  unlist a L !! i = filter (fun y => y <> a) <$> L !! i.
Proof. apply list_lookup_fmap. Qed.

Lemma filter_absent a (l : list Z) : a ∉ l -> filter (fun y => y <> a) l = l.
Proof.
  induction l as [|x l IH]; intros Ha; [reflexivity|].
  apply not_elem_of_cons in Ha. destruct Ha as [Hne Ha].
  rewrite filter_cons_True by congruence. f_equal. now apply IH.
Qed.

Lemma filter_split a (l1 l2 : list Z) :
  NoDup (l1 ++ a :: l2) -> filter (fun y => y <> a) (l1 ++ a :: l2) = l1 ++ l2.
Proof.
  intros Hnd. apply NoDup_app in Hnd. destruct Hnd as (_ & H1 & H2).
  apply NoDup_cons in H2. destruct H2 as [H2 _].
  rewrite filter_app, filter_cons_False by (intros H; now apply H).
  rewrite !filter_absent; [reflexivity | exact H2 |].
  intros Ha. apply (H1 a Ha). left.
Qed.

Lemma NoDup_concat_lookup (L : list (list Z)) i l :
  NoDup (concat L) -> L !! i = Some l -> NoDup l.
Proof.
  revert i. induction L as [|l' L IH]; intros i Hnd Hl; [discriminate|].
  simpl in Hnd. apply NoDup_app in Hnd. destruct Hnd as (H1 & _ & H2).
  destruct i as [|i]; simpl in Hl.
  - now injection Hl as <-.
  - eapply IH; eassumption.
Qed.

(** [delete_from_free_list] on a listed block keeps the lists well formed,
    with the block gone, and writes link fields of listed blocks only *)
Lemma delete_listed m sl L a :
  lists_wf m sl L -> a ∈ concat L ->
  exists m' sl',
    delete_from_free_list m sl a = (m', sl')
    /\ lists_wf m' sl' (unlist a L)
    /\ (forall t, (forall y, y ∈ concat L -> t <> y + 8 /\ t <> y + 16) ->
          load m' t = load m t).
Proof.
  intros [Hsl HL Hlinks Hclass Hnd Hrange Hsep] Ha.
  pose proof Ha as Ha'. apply elem_concat in Ha'. destruct Ha' as (i & l & Hl & Hal).
  destruct (list_elem_of_split _ _ Hal) as (l1 & l2 & ->).
  assert (Hsub : forall y, y ∈ l1 ++ a :: l2 -> y ∈ concat L)
    by (intros y Hy; apply elem_concat; eauto).
  assert (Hil : (i < Z.to_nat MAXLISTS)%nat)
    by (rewrite <- HL; eapply lookup_lt_Some; eassumption).
  pose proof (NoDup_concat_lookup _ _ _ Hnd Hl) as Hndl.
  destruct (Hlinks _ _ Hl) as [Hhead Hlk].
  destruct (delete_from_free_list_spec m sl (Z.of_nat i) l1 a l2)
    as (m' & sl' & Hdel & Hlen' & Hhead' & Hother & Hlk' & Hframe).
  { lia. }
  { rewrite Nat2Z.id, Hsl. exact Hil. }
  { intros y Hy. apply Hrange. now apply Hsub. }
  { apply apart_intro; [exact Hndl|]. intros y z Hy Hz. apply Hsep; now apply Hsub. }
  { apply (Hclass _ _ _ Hl Hal). }
  { exact Hhead. }
  { exact Hlk. }
  exists m', sl'. split; [exact Hdel|].
  assert (Hframe' : forall t, (forall y, y ∈ concat L -> t <> y + 8 /\ t <> y + 16) ->
                      load m' t = load m t).
  { intros t Ht. apply Hframe. intros y Hy. apply Ht. now apply Hsub. }
  split; [|exact Hframe'].
  assert (Hhdr : forall x, x ∈ concat L -> load m' x = load m x).
  { intros x Hx. apply Hframe. intros y Hy.
    destruct (Hrange x Hx), (Hrange y (Hsub y Hy)).
    destruct (Hsep x y Hx (Hsub y Hy)) as [-> | Hxy]; zl. }
  assert (Hin' : forall x, x ∈ concat (unlist a L) -> x ∈ concat L /\ x <> a).
  { intros x Hx. rewrite concat_unlist in Hx.
    apply list_elem_of_filter in Hx. tauto. }
  split.
  - now rewrite Hlen'.
  - unfold unlist. now rewrite length_fmap.
  - intros j lj Hj. rewrite unlist_lookup in Hj.
    destruct (L !! j) as [l0|] eqn:Hl0; [|discriminate].
    simpl in Hj. injection Hj as <-.
    destruct (Nat.eq_dec j i) as [->|Hne].
    + rewrite Hl in Hl0. injection Hl0 as <-.
      rewrite filter_split by exact Hndl. split; assumption.
    + assert (Hnot : a ∉ l0).
      { intros Hin. pose proof (Hclass _ _ _ Hl0 Hin) as H1.
        pose proof (Hclass _ _ _ Hl Hal) as H2. lia. }
      rewrite filter_absent by exact Hnot.
      destruct (Hlinks _ _ Hl0) as [Hh0 Hlk0]. split.
      * unfold seglist in *. rewrite Nat2Z.id in *. rewrite Hother by lia.
        exact Hh0.
      * apply (links_frame m); [exact Hlk0|]. intros y Hy.
        assert (Hyc : y ∈ concat L) by (apply elem_concat; eauto).
        destruct (Hrange y Hyc) as [Hy0 Hy1].
        assert (Hyz : forall z, z ∈ l1 ++ a :: l2 ->
                        y + min_block_size <= z \/ z + min_block_size <= y).
        { intros z Hz. destruct (Hsep y z Hyc (Hsub z Hz)) as [-> | H']; [|exact H'].
          exfalso. pose proof (Hclass _ _ _ Hl0 Hy) as H1.
          pose proof (Hclass _ _ _ Hl Hz) as H2. lia. }
        addr. split; apply Hframe; intros z Hz; pose proof (Hyz z Hz);
          destruct (Hrange z (Hsub z Hz)); zl.
  - intros j lj x Hj Hx. rewrite unlist_lookup in Hj.
    destruct (L !! j) as [l0|] eqn:Hl0; [|discriminate].
    simpl in Hj. injection Hj as <-.
    apply list_elem_of_filter in Hx. destruct Hx as [_ Hx].
    rewrite (find_list_same m m'); [now apply (Hclass _ _ _ Hl0)|].
    apply Hhdr. apply elem_concat. eauto.
  - rewrite concat_unlist. now apply NoDup_filter.
  - intros y Hy. apply Hrange. now apply Hin'.
  - intros y z Hy Hz. apply Hsep; now apply Hin'.
Qed.

(** writes to headers and footers that keep the sizes of the listed blocks
    leave the lists alone *)
Lemma lists_wf_frame m m' sl L :
  lists_wf m sl L ->
  (forall y, y ∈ concat L ->
     load m' (y + 8) = load m (y + 8) /\ load m' (y + 16) = load m (y + 16)
     /\ get_size m' y = get_size m y) ->
  lists_wf m' sl L.
Proof.
  intros [Hsl HL Hlinks Hclass Hnd Hrange Hsep] Hsame.
  split; try assumption.
  - intros i l Hl. destruct (Hlinks _ _ Hl) as [Hh Hlk]. split; [exact Hh|].
    apply (links_frame m); [exact Hlk|]. intros y Hy.
    assert (Hyc : y ∈ concat L) by (apply elem_concat; eauto).
    destruct (Hrange y Hyc). destruct (Hsame y Hyc) as (H1 & H2 & _).
    addr. split; assumption.
  - intros i l x Hl Hx.
    assert (Hxc : x ∈ concat L) by (apply elem_concat; eauto).
    destruct (Hsame x Hxc) as (_ & _ & H3).
    unfold find_list_for_block. rewrite H3. now apply (Hclass _ _ _ Hl).
Qed.

End Unlist.

(** ** Merging adjacent free blocks *)

Section Merge.
Import WordFacts.

Lemma chain_total m a pa bs e : chain m a pa bs e -> e = a + total bs.
Proof.
  revert a pa. induction bs as [|x bs IH]; intros a pa; simpl.
  - intros ->. lia.
  - intros (Ha & _ & Hc). rewrite (IH _ _ Hc). lia.
Qed.

Lemma chain_total_aligned m a pa bs e :
  chain m a pa bs e -> 0 <= total bs /\ total bs mod 16 = 0.
Proof.
  revert a pa. induction bs as [|x bs IH]; intros a pa; simpl.
  - intros _. split; [lia | reflexivity].
  - intros (Ha & (Hmin & Hal & _) & Hc). destruct (IH _ _ Hc) as [H0 H16].
    sizes. split; [lia|]. zdiv.
Qed.

Lemma last_alloc_all_free pa x bs :
  (forall y, y ∈ x :: bs -> blk_alloc y = false) -> last_alloc pa (x :: bs) = false.
Proof.
  revert pa x. induction bs as [|z bs IH]; intros pa x Hfree.
  - unfold last_alloc. simpl. apply Hfree. left.
  - rewrite last_alloc_cons. apply IH. intros y Hy. apply Hfree. now right.
Qed.

(** rewriting a block's header (and footer) with what they hold changes no
    word *)
Lemma store_same m a t : load (store m a (load m a)) t = load m t.
Proof.
  destruct (Z.eq_dec a t) as [->|Hne];
    [apply load_store_eq | now apply load_store_ne].
Qed.

(** [write_block] and the later header update of the following block, run
    on free blocks [x :: mid] that lie back to back, leave a heap in which
    they are one free block *)
Lemma merge_blocks m hs pre x mid post e :
  heap_layout m hs (pre ++ (x :: mid) ++ post) e ->
  (forall y, y ∈ x :: mid -> blk_alloc y = false) ->
  let r := blk_addr x in
  let S := blk_size x + total mid in
  let m2 := write_block m r S false (last_alloc true pre) in
  let nx := find_next m2 r in
  let m3 := write_block m2 nx (get_size m2 nx) (get_alloc m2 nx) false in
  0 < r /\ min_block_size <= S /\ r + S <= e
  /\ heap_layout m3 hs
       (pre ++ {| blk_addr := r; blk_size := S; blk_alloc := false |} :: post) e
  /\ (forall y, y ∈ pre ++ post ->
        load m3 (blk_addr y + 8) = load m (blk_addr y + 8)
        /\ load m3 (blk_addr y + 16) = load m (blk_addr y + 16)).
Proof.
  intros [Hlow Hhigh Hchain Hepi] Hfree r S m2 nx m3.
  apply chain_app in Hchain. destruct Hchain as (r' & Hpre & Hrest).
  apply chain_app in Hrest. destruct Hrest as (mid_end & Hmid & Hpost).
  set (pab := last_alloc true pre) in *.
  rewrite (last_alloc_all_free pab x mid Hfree) in Hpost.
  pose proof (chain_total _ _ _ _ _ Hmid) as Hend.
  pose proof (chain_total_aligned _ _ _ _ _ Hmid) as [_ Hal].
  pose proof (chain_bounds _ _ _ _ _ Hpre) as [Hb1 Hin1].
  pose proof (chain_bounds _ _ _ _ _ Hpost) as [Hb3 Hin3].
  cbn [chain] in Hmid. destruct Hmid as (Hr & (Hmin & Hal1 & Hhx & Hfx) & Hmid).
  pose proof (chain_total_aligned _ _ _ _ _ Hmid) as [Hmid0 _].
  cbn [total foldr] in Hend, Hal. fold (total mid) in Hend, Hal.
  fold r in Hr. subst r'. fold S in Hend, Hal.
  assert (HS : min_block_size <= S) by (unfold S; lia).
  assert (Hm2 : m2 = store (store m r (pack S false pab)) (r + S - wsize)
                       (pack S false pab)).
  { unfold m2. apply write_block_free; zl. }
  assert (Hhdr2 : load m2 r = pack S false pab).
  { rewrite Hm2. mem_simpl. reflexivity. }
  assert (Hftr2 : load m2 (r + S - wsize) = pack S false pab).
  { rewrite Hm2. mem_simpl. reflexivity. }
  assert (Hoth2 : forall t, t <> r -> t <> r + S - wsize -> load m2 t = load m t).
  { intros t H1 H2. rewrite Hm2. rewrite !load_store_ne by congruence. reflexivity. }
  destruct (header_fields m2 r S false pab Hhdr2 ltac:(zl) Hal) as (Hsz2 & _ & _).
  assert (Hnx : nx = r + S).
  { unfold nx, find_next. rewrite Hsz2. apply padd_small. zl. }
  (* the header after the merged block already says that its predecessor
     is free *)
  assert (Hsame : forall t, load m3 t = load m2 t).
  { intros t. unfold m3. rewrite Hnx.
    destruct post as [|n post'].
    - cbn [chain] in Hpost. subst mid_end. rewrite <- Hend in *.
      rewrite !last_alloc_app, (last_alloc_all_free _ x mid Hfree) in Hepi.
      unfold last_alloc in Hepi. cbn [last fmap option_fmap option_map default from_option id] in Hepi.
      assert (He2 : load m2 e = pack 0 true false)
        by (rewrite Hoth2 by zl; exact Hepi).
      destruct (header_fields m2 e 0 true false He2 ltac:(zl) eq_refl)
        as (-> & -> & _).
      rewrite write_block_alloc, <- He2. apply store_same.
    - cbn [chain] in Hpost.
      destruct Hpost as (Hn & (Hnmin & Hnal & Hnh & Hnf) & Hpost').
      destruct (chain_bounds _ _ _ _ _ Hpost') as [Hb4 _].
      rewrite Hend in Hn.
      assert (Hn2 : load m2 (r + S) = pack (blk_size n) (blk_alloc n) false)
        by (rewrite Hoth2 by zl; rewrite <- Hn; exact Hnh).
      destruct (header_fields m2 (r + S) _ _ _ Hn2 ltac:(zl) Hnal)
        as (-> & -> & _).
      destruct (blk_alloc n) eqn:Han.
      + rewrite write_block_alloc, <- Hn2. apply store_same.
      + rewrite write_block_free by zl.
        specialize (Hnf eq_refl). rewrite Hn in Hnf.
        assert (Hf2 : load m2 (r + S + blk_size n - wsize) = pack (blk_size n) false false)
          by (rewrite Hoth2 by zl; exact Hnf).
        destruct (Z.eq_dec t (r + S + blk_size n - wsize)) as [->|Hne1].
        * rewrite load_store_eq. now rewrite Hf2.
        * rewrite load_store_ne by congruence.
          rewrite <- Hn2. apply store_same. }
  split; [zl|]. split; [exact HS|]. split; [lia|].
  split.
  - split; [exact Hlow | exact Hhigh | |].
    + apply chain_app. exists r. split.
      * apply (chain_frame m); [exact Hpre|]. intros y Hy.
        destruct (Hin1 y Hy) as (? & ? & ? & ?).
        rewrite !Hsame, !Hoth2 by zl. split; reflexivity.
      * cbn [chain blk_addr blk_size blk_alloc]. split; [reflexivity|].
        split.
        -- split; [exact HS|]. split; [exact Hal|].
           rewrite !Hsame. split; [exact Hhdr2|]. intros _. exact Hftr2.
        -- rewrite <- Hend.
           apply (chain_frame m); [exact Hpost|]. intros y Hy.
           destruct (Hin3 y Hy) as (? & ? & ? & ?).
           rewrite !Hsame, !Hoth2 by zl. split; reflexivity.
    + rewrite Hsame, Hoth2 by zl. rewrite Hepi. f_equal.
      rewrite !last_alloc_app, (last_alloc_all_free _ x mid Hfree).
      rewrite last_alloc_cons. reflexivity.
  - intros y Hy. rewrite !Hsame.
    apply elem_of_app in Hy. destruct Hy as [Hy|Hy].
    + destruct (Hin1 y Hy) as (? & ? & ? & ?).
      rewrite !Hoth2 by zl. split; reflexivity.
    + destruct (Hin3 y Hy) as (? & ? & ? & ?).
      rewrite !Hoth2 by zl. split; reflexivity.
Qed.

End Merge.

(** ** From the heap to the lists, and back *)

Section HeapLists.
Import WordFacts.

(** headers, footers and the epilogue are not link fields of any block *)
Lemma heap_layout_frame m m' hs bs e :
  heap_layout m hs bs e ->
  (forall t, (forall y, y ∈ bs -> t <> blk_addr y + 8 /\ t <> blk_addr y + 16) ->
     load m' t = load m t) ->
  heap_layout m' hs bs e.
Proof.
  intros [Hlow Hhigh Hchain Hepi] Hframe.
  pose proof (chain_bounds _ _ _ _ _ Hchain) as [Hle Hin].
  split; [exact Hlow | exact Hhigh | |].
  - apply (chain_frame m); [exact Hchain|]. intros x Hx.
    destruct (Hin x Hx) as (? & ? & ? & ?).
    split; apply Hframe; intros y Hy; destruct (Hin y Hy) as (? & ? & ? & ?);
      destruct (chain_disjoint _ _ _ _ _ x y Hchain Hx Hy) as [-> | [?|?]]; zl.
  - rewrite <- Hepi. apply Hframe. intros y Hy.
    destruct (Hin y Hy) as (? & ? & ? & ?). zl.
Qed.

(** the free lists of a heap are well formed as lists *)
Lemma free_lists_wf m hs bs e sl L others :
  heap_layout m hs bs e -> (forall x, x ∈ others -> x ∈ bs) ->
  free_lists m sl L others -> lists_wf m sl L.
Proof.
  intros [Hlow Hhigh Hchain Hepi] Hsub [Hsl HL Hlinks Hclass Hnd Hfree].
  pose proof (chain_bounds _ _ _ _ _ Hchain) as [Hle Hin].
  split; try assumption.
  - intros y Hy. apply Hfree in Hy. destruct Hy as (x & Hx & <- & _).
    destruct (Hin x (Hsub x Hx)) as (? & ? & ? & ?). zl.
  - intros y z Hy Hz. apply Hfree in Hy, Hz.
    destruct Hy as (x & Hx & <- & _). destruct Hz as (x' & Hx' & <- & _).
    destruct (Hin x (Hsub x Hx)) as (? & ? & ? & ?).
    destruct (Hin x' (Hsub x' Hx')) as (? & ? & ? & ?).
    destruct (chain_disjoint _ _ _ _ _ x x' Hchain (Hsub x Hx) (Hsub x' Hx'))
      as [-> | [?|?]]; [now left | right; left; zl | right; right; zl].
Qed.

(** what the header of the block under consideration says *)
Lemma layout_block m hs pre b post e :
  heap_layout m hs (pre ++ b :: post) e -> blk_alloc b = false ->
  chain m hs true pre (blk_addr b)
  /\ chain m (blk_addr b + blk_size b) false post e
  /\ wsize <= blk_addr b /\ blk_addr b + blk_size b <= e
  /\ min_block_size <= blk_size b
  /\ get_size m (blk_addr b) = blk_size b
  /\ get_prev_alloc m (blk_addr b) = last_alloc true pre
  /\ find_next m (blk_addr b) = blk_addr b + blk_size b.
Proof.
  intros [Hlow Hhigh Hchain Hepi] Hfree.
  pose proof (chain_bounds _ _ _ _ _ Hchain) as [Hle Hin].
  destruct (Hin b ltac:(apply elem_of_app; right; left)) as (? & ? & ? & ?).
  apply chain_app in Hchain. destruct Hchain as (a & Hpre & Hrest).
  cbn [chain] in Hrest. destruct Hrest as (<- & (_ & Hal & Hh & _) & Hpost).
  rewrite Hfree in Hpost, Hh.
  destruct (header_fields m _ _ _ _ Hh ltac:(zl) Hal) as (Hs & _ & Hp).
  split; [exact Hpre|]. split; [exact Hpost|].
  split; [zl|]. split; [lia|]. split; [assumption|].
  split; [exact Hs|]. split; [exact Hp|].
  unfold find_next. rewrite Hs. apply padd_small. zl.
Qed.

(** what the header after it says *)
Lemma layout_next m a post e :
  chain m a false post e -> load m e = pack 0 true (last_alloc false post) ->
  0 <= a -> e + wsize <= Word.modulus ->
  get_alloc m a = negb (next_free post)
  /\ match post with
     | n :: post' =>
         blk_addr n = a /\ get_size m a = blk_size n
         /\ a + blk_size n <= e /\ min_block_size <= blk_size n
     | [] => True
     end.
Proof.
  intros Hchain Hepi Ha He.
  pose proof (chain_bounds _ _ _ _ _ Hchain) as [Hle Hin].
  destruct post as [|n post']; cbn [chain next_free] in *.
  - subst a.
    destruct (header_fields m e 0 true _ Hepi ltac:(zl) eq_refl) as (_ & -> & _).
    split; [reflexivity | exact I].
  - destruct Hchain as (Hn & (Hmin & Hal & Hh & _) & Hpost').
    destruct (Hin n ltac:(left)) as (? & ? & ? & ?). rewrite Hn in *.
    destruct (header_fields m a _ _ _ Hh ltac:(zl) Hal) as (Hs & Hga & _).
    rewrite Hga, negb_involutive. split; [reflexivity|].
    split; [reflexivity|]. split; [exact Hs|]. split; [lia | exact Hmin].
Qed.

(** what the footer before it says, when the block before it is free *)
Lemma layout_prev m hs pre a :
  chain m hs true pre a -> last_alloc true pre = false ->
  wsize <= hs -> a < Word.modulus ->
  exists pre0 p,
    pre = pre0 ++ [p] /\ blk_alloc p = false
    /\ chain m hs true pre0 (blk_addr p)
    /\ find_prev m a = blk_addr p
    /\ blk_addr p + blk_size p = a /\ min_block_size <= blk_size p
    /\ get_size m (blk_addr p) = blk_size p
    /\ get_prev_alloc m (blk_addr p) = last_alloc true pre0.
Proof.
  intros Hchain Hlast Hhs Ha.
  destruct (snoc_cases pre) as [-> | (pre0 & p & ->)]; [discriminate|].
  rewrite last_alloc_app in Hlast. unfold last_alloc at 1 in Hlast.
  cbn in Hlast.
  pose proof (chain_bounds _ _ _ _ _ Hchain) as [Hle Hin].
  destruct (Hin p ltac:(apply elem_of_app; right; left)) as (? & ? & ? & ?).
  apply chain_app in Hchain. destruct Hchain as (a0 & Hpre0 & Hp).
  cbn [chain] in Hp. destruct Hp as (<- & (_ & Hal & Hh & Hf) & Hend).
  specialize (Hf Hlast). rewrite Hlast in Hh. rewrite Hend in Hf.
  destruct (header_fields m _ _ _ _ Hh ltac:(zl) Hal) as (Hs & _ & Hpa).
  exists pre0, p. split; [reflexivity|]. split; [exact Hlast|].
  split; [exact Hpre0|].
  split.
  { unfold find_prev, find_prev_footer, footer_to_header.
    rewrite (psub_small a wsize) by zl.
    rewrite Hf.
    rewrite (extract_size_pack (blk_size p) false _) by zl.
    rewrite padd_small by zl. rewrite psub_small by zl. lia. }
  split; [exact Hend|]. split; [assumption|]. split; [exact Hs | exact Hpa].
Qed.

End HeapLists.

(** ** Coalescing *)

Section Coalesce.
Import WordFacts.

Lemma chain_tagged m a pa bs e x :
  chain m a pa bs e -> x ∈ bs -> exists pa', tagged m x pa'.
Proof.
  revert a pa. induction bs as [|y bs IH]; intros a pa Hc Hx; [inversion Hx|].
  cbn [chain] in Hc. destruct Hc as (_ & Ht & Hc).
  apply elem_of_cons in Hx. destruct Hx as [->|Hx]; [eauto|].
  eapply IH; eassumption.
Qed.

(** the size a heap records for one of its blocks *)
Lemma layout_size m hs bs e x :
  heap_layout m hs bs e -> x ∈ bs -> get_size m (blk_addr x) = blk_size x.
Proof.
  intros [Hlow Hhigh Hchain Hepi] Hx.
  destruct (chain_bounds _ _ _ _ _ Hchain) as [_ Hin].
  destruct (Hin x Hx) as (? & ? & ? & Hal).
  destruct (chain_tagged _ _ _ _ _ x Hchain Hx) as (pa' & _ & _ & Hh & _).
  now destruct (header_fields m _ _ _ _ Hh ltac:(zl) Hal) as (Hs & _ & _).
Qed.

(** after the neighbours have left their lists: the two [write_block]s that
    end [coalesce_block] turn the free blocks [x :: mid] into one, in the
    heap and with respect to the lists *)
Lemma coalesce_finish m m1 sl1 L1 hs pre x mid post e :
  heap_layout m hs (pre ++ (x :: mid) ++ post) e ->
  (forall y, y ∈ x :: mid -> blk_alloc y = false) ->
  (forall t, (forall y, y ∈ pre ++ (x :: mid) ++ post ->
                t <> blk_addr y + 8 /\ t <> blk_addr y + 16) ->
     load m1 t = load m t) ->
  lists_wf m1 sl1 L1 ->
  (forall a, a ∈ concat L1 <->
     exists y, y ∈ pre ++ post /\ blk_addr y = a /\ blk_alloc y = false) ->
  let r := blk_addr x in
  let S := blk_size x + total mid in
  let m2 := write_block m1 r S false (last_alloc true pre) in
  let nx := find_next m2 r in
  let m3 := write_block m2 nx (get_size m2 nx) (get_alloc m2 nx) false in
  heap_layout m3 hs
    (pre ++ {| blk_addr := r; blk_size := S; blk_alloc := false |} :: post) e
  /\ free_lists m3 sl1 L1 (pre ++ post)
  /\ get_alloc m3 r = false /\ get_size m3 r = S /\ r <> NULL.
Proof.
  intros Hlay Hfree Hframe Hwf Hlisted r S m2 nx m3.
  pose proof (heap_layout_frame m m1 _ _ _ Hlay Hframe) as Hlay1.
  destruct (merge_blocks m1 hs pre x mid post e Hlay1 Hfree)
    as (Hr & HS & Hend & Hlay3 & Hlinks).
  fold r S m2 nx m3 in Hr, HS, Hend, Hlay3, Hlinks.
  set (merged := {| blk_addr := r; blk_size := S; blk_alloc := false |}) in *.
  assert (Hwf3 : lists_wf m3 sl1 L1).
  { apply (lists_wf_frame m1); [exact Hwf|]. intros a Ha.
    apply Hlisted in Ha. destruct Ha as (y & Hy & <- & _).
    destruct (Hlinks y Hy) as [H1 H2]. split; [exact H1|]. split; [exact H2|].
    rewrite (layout_size m3 _ _ _ y Hlay3), (layout_size m1 _ _ _ y Hlay1);
      [reflexivity | |].
    - apply elem_of_app in Hy. apply elem_of_app.
      destruct Hy as [Hy|Hy]; [now left | right].
      apply elem_of_app. now right.
    - apply elem_of_app in Hy. apply elem_of_app.
      destruct Hy as [Hy|Hy]; [now left | right; now right]. }
  split; [exact Hlay3|]. split.
  - destruct Hwf3 as [Hsl HL Hlk Hcl Hnd _ _].
    split; assumption.
  - destruct Hlay3 as [_ Hhigh3 Hchain3 _].
    destruct (chain_tagged _ _ _ _ _ merged Hchain3
                ltac:(apply elem_of_app; right; left)) as (pa' & _ & Hal & Hh & _).
    cbn [merged blk_addr blk_size blk_alloc] in Hal, Hh.
    destruct (header_fields m3 r S false pa' Hh ltac:(zl) Hal) as (Hs & Ha & _).
    split; [exact Ha|]. split; [exact Hs|]. zl.
Qed.

(** removing one block from the heap's list of other blocks and from the
    segregated lists at once *)
Lemma listed_remove (L : list (list Z)) bs1 z bs2 :
  (forall a, a ∈ concat L <->
     exists y, y ∈ bs1 ++ z :: bs2 /\ blk_addr y = a /\ blk_alloc y = false) ->
  (forall y, y ∈ bs1 ++ bs2 -> blk_addr y <> blk_addr z) ->
  forall a, a ∈ concat (unlist (blk_addr z) L) <->
    exists y, y ∈ bs1 ++ bs2 /\ blk_addr y = a /\ blk_alloc y = false.
Proof.
  intros Hl Hne a. rewrite concat_unlist, list_elem_of_filter, Hl. split.
  - intros (Ha & y & Hy & Hya & Hf). exists y. split; [|split; assumption].
    apply elem_of_app in Hy. apply elem_of_app.
    destruct Hy as [Hy|Hy]; [now left|].
    apply elem_of_cons in Hy. destruct Hy as [->|Hy]; [congruence | now right].
  - intros (y & Hy & Hya & Hf). split.
    + rewrite <- Hya. now apply Hne.
    + exists y. split; [|split; assumption].
      apply elem_of_app in Hy. apply elem_of_app.
      destruct Hy as [Hy|Hy]; [now left | right; now right].
Qed.

End Coalesce.

(** ** The four cases of [coalesce_block] *)

Section CoalesceCases.
Import WordFacts.

Lemma others_in_layout (pre : list blk) b post x :
  x ∈ pre ++ post -> x ∈ pre ++ b :: post.
Proof.
  intros Hx. apply elem_of_app in Hx. apply elem_of_app.
  destruct Hx as [Hx|Hx]; [now left | right; now right].
Qed.

Lemma lists_wf_start m sl L hs pre b post e :
  heap_layout m hs (pre ++ b :: post) e -> free_lists m sl L (pre ++ post) ->
  lists_wf m sl L.
Proof.
  intros Hlay Hfl.
  exact (free_lists_wf _ _ _ _ _ _ _ Hlay (others_in_layout pre b post) Hfl).
Qed.

(** a word that is no link field of a block of the heap is none of a listed
    block *)
Lemma listed_link_fields m sl L pre b post t :
  free_lists m sl L (pre ++ post) ->
  (forall y, y ∈ pre ++ b :: post ->
     t <> blk_addr y + 8 /\ t <> blk_addr y + 16) ->
  forall a, a ∈ concat L -> t <> a + 8 /\ t <> a + 16.
Proof.
  intros Hfl Ht a Ha. apply (fl_free _ _ _ _ Hfl) in Ha.
  destruct Ha as (y & Hy & <- & _). apply Ht. now apply others_in_layout.
Qed.

Lemma epilogue_word m hs pre b post e :
  heap_layout m hs (pre ++ b :: post) e -> blk_alloc b = false ->
  load m e = pack 0 true (last_alloc false post).
Proof.
  intros Hlay Hb. rewrite (hl_epilogue _ _ _ _ Hlay). f_equal.
  rewrite last_alloc_app, last_alloc_cons, Hb. reflexivity.
Qed.

(** (1,1): both neighbours allocated *)
Lemma coalesce_case_11 m sl hs pre b post e :
  heap_layout m hs (pre ++ b :: post) e -> blk_alloc b = false ->
  last_alloc true pre = true -> next_free post = false ->
  coalesce_block m sl (blk_addr b) = Ok (blk_addr b, (m, sl)).
Proof.
  intros Hlay Hb Hpa Hnf.
  pose proof (epilogue_word _ _ _ _ _ _ Hlay Hb) as Hepi.
  pose proof (layout_block _ _ _ _ _ _ Hlay Hb)
    as (Hpre & Hpost & Hlo & Hhi & Hmin & Hsz & Hgpa & Hnext).
  pose proof (hl_low _ _ _ _ Hlay) as Hlow.
  pose proof (hl_high _ _ _ _ Hlay) as Hhigh.
  destruct (layout_next m _ post e Hpost Hepi ltac:(zl) Hhigh) as [Hna _].
  unfold coalesce_block. cbv zeta.
  rewrite Hnext, Hgpa, Hpa, Hna, Hnf. reflexivity.
Qed.

(** (1,0): only the next block is free *)
Lemma coalesce_case_10 m sl L hs pre b n post' e :
  heap_layout m hs (pre ++ b :: n :: post') e -> blk_alloc b = false ->
  free_lists m sl L (pre ++ n :: post') ->
  last_alloc true pre = true -> blk_alloc n = false ->
  exists m' sl',
    coalesce_block m sl (blk_addr b) = Ok (blk_addr b, (m', sl'))
    /\ blk_addr n = find_next m (blk_addr b)
    /\ blk_size n = get_size m (blk_addr n)
    /\ blk_addr n ∈ concat L
    /\ heap_layout m' hs
         (pre ++ {| blk_addr := blk_addr b;
                    blk_size := blk_size b + blk_size n;
                    blk_alloc := false |} :: post') e
    /\ free_lists m' sl' (unlist (blk_addr n) L) (pre ++ post')
    /\ get_alloc m' (blk_addr b) = false
    /\ get_size m' (blk_addr b) = blk_size b + blk_size n.
Proof.
  intros Hlay Hb Hfl Hpa Hn.
  pose proof (epilogue_word _ _ _ _ _ _ Hlay Hb) as Hepi.
  pose proof (lists_wf_start _ _ _ _ _ _ _ _ Hlay Hfl) as Hwf.
  pose proof (layout_block _ _ _ _ _ _ Hlay Hb)
    as (Hpre & Hpost & Hlo & Hhi & Hmin & Hsz & Hgpa & Hnext).
  pose proof (hl_low _ _ _ _ Hlay) as Hlow.
  pose proof (hl_high _ _ _ _ Hlay) as Hhigh.
  destruct (layout_next m _ _ e Hpost Hepi ltac:(zl) Hhigh)
    as [Hna (Hnaddr & Hnsz & Hnhi & Hnmin)].
  cbn [next_free] in Hna. rewrite Hn in Hna. cbn [negb] in Hna.
  pose proof (chain_bounds _ _ _ _ _ Hpre) as [_ Hin1].
  cbn [chain] in Hpost. destruct Hpost as (_ & _ & Hpost').
  pose proof (chain_bounds _ _ _ _ _ Hpost') as [_ Hin3].
  assert (Hlisted : blk_addr n ∈ concat L).
  { apply (fl_free _ _ _ _ Hfl). exists n. split; [|split; [reflexivity | exact Hn]].
    apply elem_of_app. right. left. }
  destruct (delete_listed m sl L (blk_addr n) Hwf Hlisted)
    as (m1 & sl1 & Hdel & Hwf1 & Hfr1).
  assert (Hlay' : heap_layout m hs (pre ++ (b :: [n]) ++ post') e) by exact Hlay.
  destruct (coalesce_finish m m1 sl1 (unlist (blk_addr n) L) hs pre b [n] post' e Hlay')
    as (Hlay3 & Hfl3 & Hga3 & Hgs3 & Hnz).
  { intros y Hy. apply elem_of_cons in Hy. destruct Hy as [->|Hy]; [exact Hb|].
    apply list_elem_of_singleton in Hy. now subst. }
  { intros t Ht. apply Hfr1.
    exact (listed_link_fields m sl L pre b (n :: post') t Hfl Ht). }
  { exact Hwf1. }
  { apply listed_remove; [exact (fl_free _ _ _ _ Hfl)|].
    intros y Hy. apply elem_of_app in Hy. destruct Hy as [Hy|Hy].
    - destruct (Hin1 y Hy) as (? & ? & ? & ?). zl.
    - destruct (Hin3 y Hy) as (? & ? & ? & ?). zl. }
  cbn [total foldr] in Hlay3, Hfl3, Hga3, Hgs3.
  rewrite Z.add_0_r in Hlay3, Hfl3, Hga3, Hgs3.
  rewrite Hpa in Hlay3, Hfl3, Hga3, Hgs3.
  eexists _, sl1. split.
  - unfold coalesce_block. cbv zeta.
    rewrite Hnext, Hgpa, Hpa, Hna, Hsz, Hnsz.
    cbn [andb negb]. rewrite Hnaddr in Hdel. rewrite Hdel. cbn [bind].
    rewrite wrap_small by zl.
    replace (blk_addr b =? NULL) with false
      by (symmetry; apply Z.eqb_neq; exact Hnz).
    reflexivity.
  - split; [rewrite Hnext; exact Hnaddr|].
    split; [rewrite Hnaddr, Hnsz; reflexivity|].
    split; [exact Hlisted|]. split; [exact Hlay3|]. split; [exact Hfl3|].
    split; [exact Hga3 | exact Hgs3].
Qed.

Lemma snoc_layout (pre0 : list blk) p b post :
  (pre0 ++ [p]) ++ b :: post = pre0 ++ (p :: [b]) ++ post.
Proof. rewrite <- app_assoc. reflexivity. Qed.

Lemma snoc_others (pre0 : list blk) p post :
  (pre0 ++ [p]) ++ post = pre0 ++ p :: post.
Proof. rewrite <- app_assoc. reflexivity. Qed.

(** (0,1): only the preceding block is free *)
Lemma coalesce_case_01 m sl L hs pre0 p b post e :
  heap_layout m hs ((pre0 ++ [p]) ++ b :: post) e -> blk_alloc b = false ->
  free_lists m sl L ((pre0 ++ [p]) ++ post) ->
  blk_alloc p = false -> next_free post = false ->
  exists m' sl',
    coalesce_block m sl (blk_addr b) = Ok (blk_addr p, (m', sl'))
    /\ blk_addr p = find_prev m (blk_addr b)
    /\ blk_size p = get_size m (blk_addr p)
    /\ blk_addr p ∈ concat L
    /\ heap_layout m' hs
         (pre0 ++ {| blk_addr := blk_addr p;
                     blk_size := blk_size p + blk_size b;
                     blk_alloc := false |} :: post) e
    /\ free_lists m' sl' (unlist (blk_addr p) L) (pre0 ++ post)
    /\ get_alloc m' (blk_addr p) = false
    /\ get_size m' (blk_addr p) = blk_size p + blk_size b.
Proof.
  intros Hlay Hb Hfl Hp Hnf.
  pose proof (epilogue_word _ _ _ _ _ _ Hlay Hb) as Hepi.
  pose proof (lists_wf_start _ _ _ _ _ _ _ _ Hlay Hfl) as Hwf.
  pose proof (layout_block _ _ _ _ _ _ Hlay Hb)
    as (Hpre & Hpost & Hlo & Hhi & Hmin & Hsz & Hgpa & Hnext).
  pose proof (hl_low _ _ _ _ Hlay) as Hlow.
  pose proof (hl_high _ _ _ _ Hlay) as Hhigh.
  destruct (layout_next m _ post e Hpost Hepi ltac:(zl) Hhigh) as [Hna _].
  rewrite Hnf in Hna. cbn [negb] in Hna.
  assert (Hlast : last_alloc true (pre0 ++ [p]) = false).
  { rewrite last_alloc_app, last_alloc_cons, last_alloc_nil. exact Hp. }
  destruct (layout_prev m hs _ _ Hpre Hlast Hlow ltac:(zl))
    as (pre1 & p1 & Hsnoc & _ & Hpre0 & Hprev & Hpaddr & Hpmin & Hpsz & _).
  apply app_inj_tail in Hsnoc. destruct Hsnoc as [<- <-].
  pose proof (chain_bounds _ _ _ _ _ Hpre0) as [Hle0 Hin1].
  pose proof (chain_bounds _ _ _ _ _ Hpost) as [_ Hin3].
  assert (Hlisted : blk_addr p ∈ concat L).
  { apply (fl_free _ _ _ _ Hfl). exists p. split; [|split; [reflexivity | exact Hp]].
    apply elem_of_app. left. apply elem_of_app. right. left. }
  destruct (delete_listed m sl L (blk_addr p) Hwf Hlisted)
    as (m1 & sl1 & Hdel & Hwf1 & Hfr1).
  pose proof Hlay as Hlay'. rewrite snoc_layout in Hlay'.
  assert (Hframe : forall t,
            (forall y, y ∈ pre0 ++ (p :: [b]) ++ post ->
               t <> blk_addr y + 8 /\ t <> blk_addr y + 16) ->
            load m1 t = load m t).
  { intros t Ht. apply Hfr1. rewrite <- snoc_layout in Ht.
    exact (listed_link_fields m sl L (pre0 ++ [p]) b post t Hfl Ht). }
  pose proof (heap_layout_frame m m1 _ _ _ Hlay' Hframe) as Hlay1.
  assert (Hgpa1 : get_prev_alloc m1 (blk_addr p) = last_alloc true pre0).
  { pose proof (layout_block m1 hs pre0 p ([b] ++ post) e Hlay1 Hp) as H.
    tauto. }
  destruct (coalesce_finish m m1 sl1 (unlist (blk_addr p) L) hs pre0 p [b] post e Hlay')
    as (Hlay3 & Hfl3 & Hga3 & Hgs3 & Hnz).
  { intros y Hy. apply elem_of_cons in Hy. destruct Hy as [->|Hy]; [exact Hp|].
    apply list_elem_of_singleton in Hy. now subst. }
  { exact Hframe. }
  { exact Hwf1. }
  { apply listed_remove.
    - rewrite <- snoc_others. exact (fl_free _ _ _ _ Hfl).
    - intros y Hy. apply elem_of_app in Hy. destruct Hy as [Hy|Hy].
      + destruct (Hin1 y Hy) as (? & ? & ? & ?). zl.
      + destruct (Hin3 y Hy) as (? & ? & ? & ?). zl. }
  cbn [total foldr] in Hlay3, Hfl3, Hga3, Hgs3.
  rewrite Z.add_0_r in Hlay3, Hfl3, Hga3, Hgs3.
  eexists _, sl1. split.
  - unfold coalesce_block. cbv zeta.
    rewrite Hnext, Hgpa, Hlast, Hna, Hsz, Hprev, Hpsz.
    cbn [andb negb].
    replace (blk_addr p =? blk_addr b) with false
      by (symmetry; apply Z.eqb_neq; zl).
    rewrite Hdel. cbn [bind]. rewrite Hgpa1.
    rewrite wrap_small by zl.
    replace (blk_size b + blk_size p) with (blk_size p + blk_size b) by lia.
    replace (blk_addr p =? NULL) with false
      by (symmetry; apply Z.eqb_neq; exact Hnz).
    reflexivity.
  - split; [symmetry; exact Hprev|].
    split; [symmetry; exact Hpsz|].
    split; [exact Hlisted|]. split; [exact Hlay3|]. split; [exact Hfl3|].
    split; [exact Hga3 | exact Hgs3].
Qed.

Lemma snoc_layout3 (pre0 : list blk) p b n post :
  (pre0 ++ [p]) ++ b :: n :: post = pre0 ++ (p :: [b; n]) ++ post.
Proof. rewrite <- app_assoc. reflexivity. Qed.

(** (0,0): both neighbours are free *)
Lemma coalesce_case_00 m sl L hs pre0 p b n post' e :
  heap_layout m hs ((pre0 ++ [p]) ++ b :: n :: post') e -> blk_alloc b = false ->
  free_lists m sl L ((pre0 ++ [p]) ++ n :: post') ->
  blk_alloc p = false -> blk_alloc n = false ->
  exists m' sl',
    coalesce_block m sl (blk_addr b) = Ok (blk_addr p, (m', sl'))
    /\ blk_addr p = find_prev m (blk_addr b)
    /\ blk_size p = get_size m (blk_addr p)
    /\ blk_addr n = find_next m (blk_addr b)
    /\ blk_size n = get_size m (blk_addr n)
    /\ blk_addr p ∈ concat L /\ blk_addr n ∈ concat L
    /\ heap_layout m' hs
         (pre0 ++ {| blk_addr := blk_addr p;
                     blk_size := blk_size p + blk_size b + blk_size n;
                     blk_alloc := false |} :: post') e
    /\ free_lists m' sl' (unlist (blk_addr p) (unlist (blk_addr n) L)) (pre0 ++ post')
    /\ get_alloc m' (blk_addr p) = false
    /\ get_size m' (blk_addr p) = blk_size p + blk_size b + blk_size n.
Proof.
  intros Hlay Hb Hfl Hp Hn.
  pose proof (epilogue_word _ _ _ _ _ _ Hlay Hb) as Hepi.
  pose proof (lists_wf_start _ _ _ _ _ _ _ _ Hlay Hfl) as Hwf.
  pose proof (layout_block _ _ _ _ _ _ Hlay Hb)
    as (Hpre & Hpost & Hlo & Hhi & Hmin & Hsz & Hgpa & Hnext).
  pose proof (hl_low _ _ _ _ Hlay) as Hlow.
  pose proof (hl_high _ _ _ _ Hlay) as Hhigh.
  destruct (layout_next m _ _ e Hpost Hepi ltac:(zl) Hhigh)
    as [Hna (Hnaddr & Hnsz & Hnhi & Hnmin)].
  cbn [next_free] in Hna. rewrite Hn in Hna. cbn [negb] in Hna.
  assert (Hlast : last_alloc true (pre0 ++ [p]) = false).
  { rewrite last_alloc_app, last_alloc_cons, last_alloc_nil. exact Hp. }
  destruct (layout_prev m hs _ _ Hpre Hlast Hlow ltac:(zl))
    as (pre1 & p1 & Hsnoc & _ & Hpre0 & Hprev & Hpaddr & Hpmin & Hpsz & _).
  apply app_inj_tail in Hsnoc. destruct Hsnoc as [<- <-].
  pose proof (chain_bounds _ _ _ _ _ Hpre0) as [Hle0 Hin1].
  cbn [chain] in Hpost. destruct Hpost as (_ & _ & Hpost').
  pose proof (chain_bounds _ _ _ _ _ Hpost') as [_ Hin3].
  assert (Hnlisted : blk_addr n ∈ concat L).
  { apply (fl_free _ _ _ _ Hfl). exists n. split; [|split; [reflexivity | exact Hn]].
    apply elem_of_app. right. left. }
  assert (Hplisted : blk_addr p ∈ concat L).
  { apply (fl_free _ _ _ _ Hfl). exists p. split; [|split; [reflexivity | exact Hp]].
    apply elem_of_app. left. apply elem_of_app. right. left. }
  destruct (delete_listed m sl L (blk_addr n) Hwf Hnlisted)
    as (m1 & sl1 & Hdel1 & Hwf1 & Hfr1).
  assert (Hplisted1 : blk_addr p ∈ concat (unlist (blk_addr n) L)).
  { rewrite concat_unlist. apply list_elem_of_filter. split; [zl | exact Hplisted]. }
  destruct (delete_listed m1 sl1 _ (blk_addr p) Hwf1 Hplisted1)
    as (m2 & sl2 & Hdel2 & Hwf2 & Hfr2).
  pose proof Hlay as Hlay'. rewrite snoc_layout3 in Hlay'.
  assert (Hframe : forall t,
            (forall y, y ∈ pre0 ++ (p :: [b; n]) ++ post' ->
               t <> blk_addr y + 8 /\ t <> blk_addr y + 16) ->
            load m2 t = load m t).
  { intros t Ht. rewrite <- snoc_layout3 in Ht.
    pose proof (listed_link_fields m sl L (pre0 ++ [p]) b (n :: post') t Hfl Ht)
      as Hoff.
    rewrite Hfr2, Hfr1; [reflexivity | exact Hoff |].
    intros y Hy. apply Hoff. rewrite concat_unlist in Hy.
    apply list_elem_of_filter in Hy. tauto. }
  pose proof (heap_layout_frame m m2 _ _ _ Hlay' Hframe) as Hlay2.
  assert (Hgpa2 : get_prev_alloc m2 (blk_addr p) = last_alloc true pre0).
  { pose proof (layout_block m2 hs pre0 p ([b; n] ++ post') e Hlay2 Hp) as H.
    tauto. }
  destruct (coalesce_finish m m2 sl2
              (unlist (blk_addr p) (unlist (blk_addr n) L))
              hs pre0 p [b; n] post' e Hlay')
    as (Hlay3 & Hfl3 & Hga3 & Hgs3 & Hnz).
  { intros y Hy. apply elem_of_cons in Hy. destruct Hy as [->|Hy]; [exact Hp|].
    apply elem_of_cons in Hy. destruct Hy as [->|Hy]; [exact Hb|].
    apply list_elem_of_singleton in Hy. now subst. }
  { exact Hframe. }
  { exact Hwf2. }
  { apply listed_remove.
    - rewrite <- snoc_others. apply listed_remove; [exact (fl_free _ _ _ _ Hfl)|].
      intros y Hy. apply elem_of_app in Hy. destruct Hy as [Hy|Hy].
      + apply elem_of_app in Hy. destruct Hy as [Hy|Hy].
        * destruct (Hin1 y Hy) as (? & ? & ? & ?). zl.
        * apply list_elem_of_singleton in Hy. subst y. zl.
      + destruct (Hin3 y Hy) as (? & ? & ? & ?). zl.
    - intros y Hy. apply elem_of_app in Hy. destruct Hy as [Hy|Hy].
      + destruct (Hin1 y Hy) as (? & ? & ? & ?). zl.
      + destruct (Hin3 y Hy) as (? & ? & ? & ?). zl. }
  cbn [total foldr] in Hlay3, Hfl3, Hga3, Hgs3.
  rewrite Z.add_0_r, Z.add_assoc in Hlay3, Hfl3, Hga3, Hgs3.
  eexists _, sl2. split.
  - unfold coalesce_block. cbv zeta.
    rewrite Hnext, Hgpa, Hlast, Hna, Hsz, Hprev, Hpsz, Hnsz.
    cbn [andb negb].
    replace (blk_addr p =? blk_addr b) with false
      by (symmetry; apply Z.eqb_neq; zl).
    rewrite Hnaddr in Hdel1. rewrite Hdel1, Hdel2. cbn [bind]. rewrite Hgpa2.
    rewrite (wrap_small (blk_size b + blk_size p)) by zl.
    rewrite wrap_small by zl.
    replace (blk_size b + blk_size p) with (blk_size p + blk_size b) by lia.
    replace (blk_addr p =? NULL) with false
      by (symmetry; apply Z.eqb_neq; exact Hnz).
    reflexivity.
  - split; [symmetry; exact Hprev|].
    split; [symmetry; exact Hpsz|].
    split; [rewrite Hnext; exact Hnaddr|].
    split; [rewrite Hnaddr, Hnsz; reflexivity|].
    split; [exact Hplisted|]. split; [exact Hnlisted|].
    split; [exact Hlay3|]. split; [exact Hfl3|].
    split; [exact Hga3 | exact Hgs3].
Qed.

End CoalesceCases.

Section CoalesceSpec.
Import WordFacts.

Lemma layout_alloc m hs bs e x :
  heap_layout m hs bs e -> x ∈ bs -> get_alloc m (blk_addr x) = blk_alloc x.
Proof.
  intros [Hlow Hhigh Hchain Hepi] Hx.
  destruct (chain_bounds _ _ _ _ _ Hchain) as [_ Hin].
  destruct (Hin x Hx) as (? & ? & ? & Hal).
  destruct (chain_tagged _ _ _ _ _ x Hchain Hx) as (pa' & _ & _ & Hh & _).
  now destruct (header_fields m _ _ _ _ Hh ltac:(zl) Hal) as (_ & Ha & _).
Qed.

Lemma last_alloc_snoc pa (pre0 : list blk) p :
  last_alloc pa (pre0 ++ [p]) = blk_alloc p.
Proof. now rewrite last_alloc_app, last_alloc_cons, last_alloc_nil. Qed.

End CoalesceSpec.

(** C8: on a heap that satisfies the boundary-tag invariants (blocks back to
    back from the prologue to the epilogue, headers and footers in place,
    the free blocks other than [b] on the segregated lists), [coalesce_block]
    of a free block [b] succeeds and follows the four cases keyed by the
    prev-alloc bit of [b] and the alloc bit of the block after it: with both
    set the block, the memory and the lists come back unchanged; otherwise
    every free neighbour was on a list and is taken off it, the result is the
    preceding block whenever that one was free, and it is a free block whose
    size is the sum of the sizes of the merged blocks, in a heap that
    satisfies the invariants again. *)
Theorem coalesce_block_four_cases m sl L hs pre b post e :
  heap_layout m hs (pre ++ b :: post) e ->
  blk_alloc b = false ->
  free_lists m sl L (pre ++ post) ->
  let block := blk_addr b in
  let prev := find_prev m block in
  let next := find_next m block in
  let prevAlloc := get_prev_alloc m block in
  let nextAlloc := get_alloc m next in
  let r := if prevAlloc then block else prev in
  let S := (if prevAlloc then 0 else get_size m prev) + get_size m block
           + (if nextAlloc then 0 else get_size m next) in
  let L1 := if nextAlloc then L else unlist next L in
  let L' := if prevAlloc then L1 else unlist prev L1 in
  let pre' := if prevAlloc then pre else removelast pre in
  let post' := if nextAlloc then post else tl post in
  exists m' sl',
    coalesce_block m sl block = Ok (r, (m', sl'))
    /\ (prevAlloc && nextAlloc = true -> m' = m /\ sl' = sl)
    /\ (prevAlloc = false -> prev ∈ concat L)
    /\ (nextAlloc = false -> next ∈ concat L)
    /\ get_alloc m' r = false
    /\ get_size m' r = S
    /\ heap_layout m' hs
         (pre' ++ {| blk_addr := r; blk_size := S; blk_alloc := false |} :: post') e
    /\ free_lists m' sl' L' (pre' ++ post').
Proof.
  intros Hlay Hb Hfl.
  pose proof (epilogue_word _ _ _ _ _ _ Hlay Hb) as Hepi.
  pose proof (layout_block _ _ _ _ _ _ Hlay Hb)
    as (Hpre & Hpost & Hlo & Hhi & Hmin & Hsz & Hgpa & Hnext).
  pose proof (hl_high _ _ _ _ Hlay) as Hhigh.
  destruct (layout_next m _ post e Hpost Hepi ltac:(zl) Hhigh)
    as [Hna _].
  rewrite <- Hnext in Hna.
  cbv zeta. rewrite Hgpa, Hna.
  destruct (last_alloc true pre) eqn:Hpa.
  - destruct post as [|n post']; [|destruct (blk_alloc n) eqn:Hn];
      cbn [next_free negb tl andb]; try rewrite Hn; cbn [negb].
    + exists m, sl.
      split; [exact (coalesce_case_11 m sl hs pre b [] e Hlay Hb Hpa eq_refl)|].
      split; [tauto|]. split; [discriminate|]. split; [discriminate|].
      split; [rewrite (layout_alloc m hs _ e b Hlay); [exact Hb|];
              apply elem_of_app; right; left|].
      split; [lia|].
      split; [|exact Hfl].
      rewrite Hsz, Z.add_0_l, Z.add_0_r, <- Hb. destruct b. exact Hlay.
    + exists m, sl.
      split; [apply (coalesce_case_11 m sl hs pre b (n :: post') e Hlay Hb Hpa);
              cbn [next_free]; now rewrite Hn|].
      split; [tauto|]. split; [discriminate|]. split; [discriminate|].
      split; [rewrite (layout_alloc m hs _ e b Hlay); [exact Hb|];
              apply elem_of_app; right; left|].
      split; [lia|].
      split; [|exact Hfl].
      rewrite Hsz, Z.add_0_l, Z.add_0_r, <- Hb. destruct b. exact Hlay.
    + destruct (coalesce_case_10 m sl L hs pre b n post' e Hlay Hb Hfl Hpa Hn)
        as (m' & sl' & Hrun & Hn1 & Hn2 & Hl & Hlay' & Hfl' & Hga & Hgs).
      rewrite <- Hn1, <- Hn2, Hsz, Z.add_0_l.
      exists m', sl'. split; [exact Hrun|].
      split; [discriminate|]. split; [discriminate|].
      split; [intros _; exact Hl|]. tauto.
  - destruct (snoc_cases pre) as [-> | (pre0 & p & ->)]; [discriminate|].
    rewrite last_alloc_snoc in Hpa. rewrite removelast_last.
    destruct post as [|n post']; [|destruct (blk_alloc n) eqn:Hn];
      cbn [next_free negb tl andb]; try rewrite Hn; cbn [negb].
    + destruct (coalesce_case_01 m sl L hs pre0 p b [] e Hlay Hb Hfl Hpa eq_refl)
        as (m' & sl' & Hrun & Hp1 & Hp2 & Hl & Hlay' & Hfl' & Hga & Hgs).
      rewrite <- Hp1, <- Hp2, Hsz, Z.add_0_r.
      exists m', sl'. split; [exact Hrun|].
      split; [discriminate|]. split; [intros _; exact Hl|].
      split; [discriminate|]. tauto.
    + assert (Hnf : next_free (n :: post') = false)
        by (cbn [next_free]; now rewrite Hn).
      destruct (coalesce_case_01 m sl L hs pre0 p b _ e Hlay Hb Hfl Hpa Hnf)
        as (m' & sl' & Hrun & Hp1 & Hp2 & Hl & Hlay' & Hfl' & Hga & Hgs).
      rewrite <- Hp1, <- Hp2, Hsz, Z.add_0_r.
      exists m', sl'. split; [exact Hrun|].
      split; [discriminate|]. split; [intros _; exact Hl|].
      split; [discriminate|]. tauto.
    + destruct (coalesce_case_00 m sl L hs pre0 p b n post' e Hlay Hb Hfl Hpa Hn)
        as (m' & sl' & Hrun & Hp1 & Hp2 & Hn1 & Hn2 & Hlp & Hln
            & Hlay' & Hfl' & Hga & Hgs).
      rewrite <- Hp1, <- Hn1, <- Hp2, <- Hn2, Hsz.
      exists m', sl'. split; [exact Hrun|].
      split; [discriminate|]. split; [intros _; exact Hlp|].
      split; [intros _; exact Hln|]. tauto.
Qed.

Section FragmentedHeap.
Import Fragmented.

Lemma fragmented_reached : before_coalesce 1048624 = Ok (heap_mem, lists).
Proof. vm_compute. reflexivity. Qed.

Lemma fragmented_layout :
  heap_layout heap_mem heap_start ([first] ++ second :: [third; fourth; rest])
    epilogue.
Proof.
  split.
  - vm_compute. discriminate.
  - vm_compute. discriminate.
  - cbn [chain app]. unfold tagged.
    repeat split; try (vm_compute; first [reflexivity | discriminate]);
      try (intros _; vm_compute; reflexivity).
  - vm_compute. reflexivity.
Qed.

Lemma fragmented_lists :
  free_lists heap_mem lists listed ([first] ++ [third; fourth; rest]).
Proof.
  split.
  - reflexivity.
  - reflexivity.
  - intros i l H.
    do 15 (destruct i as [|i];
           [injection H as <-; vm_compute; repeat split|]).
    discriminate H.
  - intros i l x H Hx.
    do 15 (destruct i as [|i];
           [injection H as <-;
            repeat (apply elem_of_cons in Hx; destruct Hx as [->|Hx];
                    [vm_compute; reflexivity|]);
            inversion Hx|]).
    discriminate H.
  - cbn. repeat (apply NoDup_cons; split;
                 [rewrite ?not_elem_of_cons; repeat split;
                  first [discriminate | apply not_elem_of_nil]|]).
    apply NoDup_nil_2.
  - intros a. cbn [concat app listed]. split.
    + intros Ha.
      repeat (apply elem_of_cons in Ha; destruct Ha as [->|Ha]).
      * exists third. split; [|split; reflexivity].
        right. left.
      * exists first. split; [|split; reflexivity]. left.
      * exists rest. split; [|split; reflexivity].
        right. right. right. left.
      * inversion Ha.
    + intros (x & Hx & <- & Hf).
      repeat (apply elem_of_cons in Hx; destruct Hx as [->|Hx]).
      * right. left.
      * left.
      * discriminate Hf.
      * right. right. left.
      * inversion Hx.
Qed.

End FragmentedHeap.

Lemma coalesce_block_four_cases_witness :
  heap_layout Fragmented.heap_mem Fragmented.heap_start
    ([Fragmented.first] ++ Fragmented.second
       :: [Fragmented.third; Fragmented.fourth; Fragmented.rest])
    Fragmented.epilogue
  /\ blk_alloc Fragmented.second = false
  /\ free_lists Fragmented.heap_mem Fragmented.lists Fragmented.listed
       ([Fragmented.first]
          ++ [Fragmented.third; Fragmented.fourth; Fragmented.rest])
  /\ exists m' sl',
       coalesce_block Fragmented.heap_mem Fragmented.lists 1048616
       = Ok (1048584, (m', sl'))
       /\ get_alloc m' 1048584 = false
       /\ get_size m' 1048584 = 96
       /\ heap_layout m' Fragmented.heap_start
            [mk_blk 1048584 96 false; Fragmented.fourth; Fragmented.rest]
            Fragmented.epilogue
       /\ free_lists m' sl'
            (unlist 1048584 (unlist 1048648 Fragmented.listed))
            [Fragmented.fourth; Fragmented.rest].
Proof.
  split; [exact fragmented_layout|]. split; [reflexivity|].
  split; [exact fragmented_lists|].
  destruct (coalesce_block_four_cases
              Fragmented.heap_mem Fragmented.lists Fragmented.listed
              Fragmented.heap_start [Fragmented.first] Fragmented.second
              [Fragmented.third; Fragmented.fourth; Fragmented.rest]
              Fragmented.epilogue
              fragmented_layout eq_refl fragmented_lists)
    as (m' & sl' & Hrun & _ & _ & _ & Hga & Hgs & Hlay & Hfl).
  exists m', sl'.
  split; [exact Hrun|]. split; [exact Hga|]. split; [exact Hgs|].
  split; [exact Hlay | exact Hfl].
Defined.

(** ** The codec and the short helpers *)

Section Helpers.
Import WordFacts.

Lemma round_up_small size : size <= dsize -> round_up size dsize = min_block_size.
Proof.
  intros H. unfold round_up. apply Z.leb_le in H. rewrite H. reflexivity.
Qed.

Lemma round_up_large size :
  dsize < size -> size + dsize <= Word.modulus ->
  round_up size dsize = dsize * ((size + (dsize - 1)) / dsize).
Proof.
  intros H1 H2. unfold round_up.
  replace (size <=? dsize) with false by (symmetry; apply Z.leb_gt; lia).
  unfold dsize, wsize, Word.modulus in *.
  rewrite (wrap_small (size + _)) by (unfold Word.modulus; lia).
  apply wrap_small. unfold Word.modulus. zdiv.
Qed.

End Helpers.

(** X1: a header word gives back what [pack] put into it: the size (a
    multiple of 16 below 2^64) and both flag bits. *)
Theorem pack_extract_round_trip size alloc prev_alloc :
  0 <= size < Word.modulus -> size mod 16 = 0 ->
  extract_size (pack size alloc prev_alloc) = size
  /\ extract_alloc (pack size alloc prev_alloc) = alloc
  /\ extract_prev_alloc (pack size alloc prev_alloc) = prev_alloc.
Proof.
  intros Hr Hs. split; [|split].
  - apply extract_size_pack; [exact Hr | exact Hs].
  - apply extract_alloc_pack. exact Hs.
  - apply extract_prev_alloc_pack. exact Hs.
Qed.

Lemma pack_extract_round_trip_witness :
  extract_size (pack 4096 false true) = 4096
  /\ extract_alloc (pack 4096 false true) = false
  /\ extract_prev_alloc (pack 4096 false true) = true.
Proof.
  apply (pack_extract_round_trip 4096 false true).
  - unfold Word.modulus. lia.
  - reflexivity.
Defined.

(** X2: [round_up size dsize], when [size + dsize] does not overflow, is a
    multiple of 16 that is at least [min_block_size] and at least [size];
    it is [min_block_size] for sizes up to 16 and less than 16 above [size]
    otherwise. *)
Theorem round_up_dsize size :
  0 <= size -> size + dsize <= Word.modulus ->
  round_up size dsize mod dsize = 0
  /\ min_block_size <= round_up size dsize < Word.modulus
  /\ size <= round_up size dsize
  /\ (size <= dsize -> round_up size dsize = min_block_size)
  /\ (dsize < size -> round_up size dsize < size + dsize).
Proof.
  intros H0 Hmax.
  destruct (Z_le_gt_dec size dsize) as [Hle|Hgt].
  - rewrite (round_up_small size Hle).
    unfold min_block_size, dsize, wsize, Word.modulus in *.
    split; [reflexivity|]. split; [lia|]. split; [lia|]. split; [reflexivity | lia].
  - rewrite (round_up_large size) by lia.
    unfold min_block_size, dsize, wsize, Word.modulus in *.
    change (2 ^ 64) with 18446744073709551616 in *.
    split; [zdiv|]. split; [zdiv|]. split; [zdiv|]. split; [lia | intros _; zdiv].
Qed.

Lemma round_up_dsize_witness :
  round_up 41 dsize mod dsize = 0
  /\ min_block_size <= round_up 41 dsize < Word.modulus
  /\ 41 <= round_up 41 dsize
  /\ (41 <= dsize -> round_up 41 dsize = min_block_size)
  /\ (dsize < 41 -> round_up 41 dsize < 41 + dsize).
Proof.
  apply (round_up_dsize 41).
  - lia.
  - vm_compute. discriminate.
Defined.

(** X3: the adjusted size [round_up (size + wsize) dsize] that [_malloc]
    computes leaves room for the request: a block of that size has a
    payload of at least [size] bytes, as long as [size + 24] does not exceed
    2^64. *)
Theorem adjusted_size_holds_request m block size alloc prev_alloc :
  0 <= size -> size + wsize + dsize <= Word.modulus ->
  load m block
  = pack (round_up (Word.wrap (size + wsize)) dsize) alloc prev_alloc ->
  size <= get_payload_size m block.
Proof.
  intros H0 Hmax Hload.
  assert (Hw : Word.wrap (size + wsize) = size + wsize)
    by (apply WordFacts.wrap_small; unfold dsize, wsize, Word.modulus in *; lia).
  destruct (round_up_dsize (size + wsize)) as (Hal & Hr & Hge & _);
    [unfold wsize; lia | lia |].
  unfold get_payload_size, get_size. rewrite Hload, Hw.
  unfold min_block_size, dsize, wsize, Word.modulus in *.
  rewrite extract_size_pack; [| lia | exact Hal].
  rewrite WordFacts.wrap_small; unfold Word.modulus; lia.
Qed.

Lemma adjusted_size_holds_request_witness :
  100 <= get_payload_size
           (store ∅ 4104 (pack (round_up (Word.wrap (100 + wsize)) dsize) true true))
           4104.
Proof.
  apply (adjusted_size_holds_request _ 4104 100 true true).
  - lia.
  - vm_compute. discriminate.
  - reflexivity.
Defined.

(** X4: the request sizes within 24 bytes of 2^64 are the ones [_malloc]
    gets wrong: [size + wsize] or the rounding wraps around, and the
    adjusted size is 0 or [min_block_size], far below the request. *)
Theorem adjusted_size_wraps size :
  Word.modulus - wsize - dsize < size < Word.modulus ->
  round_up (Word.wrap (size + wsize)) dsize <= min_block_size.
Proof.
  intros H. unfold Word.wrap, min_block_size, dsize, wsize, Word.modulus in *.
  destruct (Z_lt_ge_dec size (2 ^ 64 - 8)) as [Hlo|Hhi].
  - rewrite Z.mod_small by lia. unfold round_up.
    replace (size + 8 <=? 2 * 8) with false by (symmetry; apply Z.leb_gt; lia).
    unfold Word.wrap, Word.modulus.
    replace ((size + 8 + (2 * 8 - 1)) mod 2 ^ 64) with (size + 23 - 2 ^ 64)
      by (apply Z.mod_unique with 1; lia).
    replace ((size + 23 - 2 ^ 64) / (2 * 8)) with 0
      by (symmetry; apply Z.div_small; lia).
    vm_compute. discriminate.
  - replace ((size + 8) mod 2 ^ 64) with (size + 8 - 2 ^ 64)
      by (apply Z.mod_unique with 1; lia).
    unfold round_up.
    replace (size + 8 - 2 ^ 64 <=? 2 * 8) with true
      by (symmetry; apply Z.leb_le; lia).
    vm_compute. discriminate.
Qed.

Lemma adjusted_size_wraps_witness :
  round_up (Word.wrap (18446744073709551615 + wsize)) dsize <= min_block_size.
Proof.
  apply (adjusted_size_wraps 18446744073709551615).
  vm_compute. split; reflexivity.
Defined.

(** X5: [payload_to_header] and [header_to_payload] are inverse to each
    other on every 64-bit address, wrap-around included. *)
Theorem header_payload_round_trip p :
  0 <= p < Word.modulus ->
  payload_to_header (header_to_payload p) = p
  /\ header_to_payload (payload_to_header p) = p.
Proof.
  intros Hp. unfold payload_to_header, header_to_payload, padd, psub.
  rewrite WordFacts.wrap_sub_l, WordFacts.wrap_add_l.
  replace (p + wsize - wsize) with p by lia.
  replace (p - wsize + wsize) with p by lia.
  split; apply WordFacts.wrap_small; exact Hp.
Qed.

Lemma header_payload_round_trip_witness :
  payload_to_header (header_to_payload 0) = 0
  /\ header_to_payload (payload_to_header 0) = 0.
Proof.
  apply (header_payload_round_trip 0). vm_compute. split; [discriminate | reflexivity].
Defined.

(** ** Size classes *)

Section SizeClasses.

Lemma bits_nonneg x : 0 <= bits x.
Proof.
  unfold bits. destruct (x =? 0); [lia|]. pose proof (Z.log2_nonneg x). lia.
Qed.

Lemma bits_halve x : 0 < x -> bits x = 1 + bits (Z.shiftr x 1).
Proof.
  intros Hx. unfold bits.
  replace (x =? 0) with false by (symmetry; apply Z.eqb_neq; lia).
  rewrite Z.shiftr_div_pow2 by lia. change (2 ^ 1) with 2.
  destruct (Z.eq_dec x 1) as [->|Hne]; [reflexivity|].
  assert (H2 : 0 < x / 2) by zdiv.
  replace (x / 2 =? 0) with false by (symmetry; apply Z.eqb_neq; lia).
  assert (Hd : x = 2 * (x / 2) \/ x = 2 * (x / 2) + 1) by zdiv.
  assert (Hl : Z.log2 x = Z.succ (Z.log2 (x / 2))).
  { destruct Hd as [Hd|Hd]; rewrite Hd at 1.
    - now apply Z.log2_double.
    - now apply Z.log2_succ_double. }
  lia.
Qed.

Lemma bits_mono x y : 0 <= x <= y -> bits x <= bits y.
Proof.
  intros [H0 Hxy]. unfold bits.
  destruct (Z.eqb_spec x 0) as [->|Hx].
  - destruct (y =? 0); [lia|]. pose proof (Z.log2_nonneg y). lia.
  - replace (y =? 0) with false by (symmetry; apply Z.eqb_neq; lia).
    pose proof (Z.log2_le_mono x y Hxy). lia.
Qed.

(** [x] has at most [k] digits exactly when it is below [2 ^ k] *)
Lemma bits_upper x k : 0 <= x -> 0 <= k -> (bits x <= k <-> x < 2 ^ k).
Proof.
  intros Hx Hk. unfold bits. destruct (Z.eqb_spec x 0) as [->|Hne].
  - pose proof (Z.pow_pos_nonneg 2 k). lia.
  - pose proof (Z.log2_lt_pow2 x k ltac:(lia)). lia.
Qed.

Lemma shiftr_nonneg x n : 0 <= x -> 0 <= Z.shiftr x n.
Proof. intros H. now apply Z.shiftr_nonneg. Qed.

Lemma class_loop_bits n size list_ind :
  0 <= size -> list_ind <= MAXLISTS - 1 ->
  (Z.to_nat (MAXLISTS - 1 - list_ind) <= n)%nat ->
  class_loop n size list_ind = Z.min (MAXLISTS - 1) (list_ind + bits size).
Proof.
  revert size list_ind. induction n as [|n IH]; intros size li Hs Hli Hn.
  - assert (li = MAXLISTS - 1) by lia. subst li. cbn [class_loop].
    pose proof (bits_nonneg size). lia.
  - cbn [class_loop]. destruct (Z.eqb_spec size 0) as [->|Hne]; cbn [negb andb].
    + unfold bits. cbn. lia.
    + destruct (Z.ltb_spec li (MAXLISTS - 1)) as [Hlt|Hge].
      * rewrite IH; [| now apply shiftr_nonneg | lia | lia].
        rewrite (bits_halve size) by lia. lia.
      * pose proof (bits_nonneg size). lia.
Qed.

Lemma min_list_loop_bits n size min_list_ind :
  0 <= size -> bits size <= Z.of_nat n ->
  min_list_loop n size min_list_ind = min_list_ind + bits size.
Proof.
  revert size min_list_ind. induction n as [|n IH]; intros size li Hs Hn.
  - cbn [min_list_loop]. pose proof (bits_nonneg size). lia.
  - cbn [min_list_loop]. destruct (Z.eqb_spec size 0) as [->|Hne]; cbn [negb].
    + unfold bits. cbn. lia.
    + rewrite (bits_halve size) in Hn |- * by lia.
      rewrite IH; [lia | now apply shiftr_nonneg | lia].
Qed.

(** the size class of a size: the number of digits of [size / 64], at most
    [MAXLISTS - 1] *)
Lemma find_list_for_block_bits m block :
  find_list_for_block m block
  = Z.min (MAXLISTS - 1) (bits (Z.shiftr (get_size m block) 6)).
Proof.
  unfold find_list_for_block.
  pose proof (get_size_range m block) as Hr.
  rewrite class_loop_bits; [reflexivity | apply shiftr_nonneg; lia | | ];
    unfold MAXLISTS; lia.
Qed.

Lemma min_list_index_bits asize :
  0 <= asize < Word.modulus ->
  min_list_index asize = Z.min (MAXLISTS - 1) (bits (Z.shiftr asize 6)).
Proof.
  intros Hr. unfold min_list_index.
  assert (H0 : 0 <= Z.shiftr asize 6) by (apply shiftr_nonneg; lia).
  rewrite min_list_loop_bits; [| exact H0 |].
  - destruct (Z.gtb_spec (0 + bits (Z.shiftr asize 6)) (MAXLISTS - 1)); lia.
  - apply bits_upper; [exact H0 | lia |].
    rewrite Z.shiftr_div_pow2 by lia. unfold Word.modulus in Hr.
    change (2 ^ Z.of_nat 64) with 18446744073709551616.
    change (2 ^ 64) with 18446744073709551616 in Hr.
    change (2 ^ 6) with 64. zdiv.
Qed.

End SizeClasses.

(** X6: [find_list_for_block] always yields an index of [seglists], and the
    classes are the powers of two from 64: class 0 holds the sizes below
    64, class [c] with [0 < c < 14] the sizes from [2 ^ (c + 5)] up to
    [2 ^ (c + 6)], and the last class everything from [2 ^ 19]. *)
Theorem find_list_for_block_class m block :
  let c := find_list_for_block m block in
  0 <= c < MAXLISTS
  /\ (c < MAXLISTS - 1 -> get_size m block < 2 ^ (c + 6))
  /\ (0 < c -> 2 ^ (c + 5) <= get_size m block).
Proof.
  cbv zeta. rewrite find_list_for_block_bits.
  pose proof (get_size_range m block) as Hr.
  set (s := get_size m block) in *.
  assert (H0 : 0 <= Z.shiftr s 6) by (apply shiftr_nonneg; lia).
  pose proof (bits_nonneg (Z.shiftr s 6)) as Hb.
  assert (Hdiv : Z.shiftr s 6 = s / 64)
    by (rewrite Z.shiftr_div_pow2 by lia; reflexivity).
  unfold MAXLISTS in *. split; [lia|]. split.
  - intros Hc.
    assert (Hc' : Z.min (15 - 1) (bits (Z.shiftr s 6)) = bits (Z.shiftr s 6)) by lia.
    rewrite Hc'.
    assert (Hup : Z.shiftr s 6 < 2 ^ bits (Z.shiftr s 6))
      by (apply bits_upper; [exact H0 | exact Hb | lia]).
    rewrite Z.pow_add_r by lia. change (2 ^ 6) with 64.
    rewrite Hdiv in Hup at 1. revert Hup. generalize (2 ^ bits (Z.shiftr s 6)).
    intros p Hp. zdiv.
  - intros Hc.
    set (c := Z.min (15 - 1) (bits (Z.shiftr s 6))) in *.
    assert (Hlow : ~ Z.shiftr s 6 < 2 ^ (c - 1)).
    { intros Hlt. apply bits_upper in Hlt; [lia | exact H0 | lia]. }
    replace (c + 5) with ((c - 1) + 6) by lia.
    rewrite Z.pow_add_r by lia. change (2 ^ 6) with 64.
    rewrite Hdiv in Hlow. revert Hlow. generalize (2 ^ (c - 1)).
    intros p Hp. zdiv.
Qed.

(** X7: [find_fit] starts its search at the class of the adjusted size: a
    block of exactly [asize] bytes is on list [min_list_index asize], and no
    block of at least [asize] bytes is on a list below it. *)
Theorem min_list_index_below_class m block asize :
  0 <= asize < Word.modulus ->
  asize <= get_size m block ->
  min_list_index asize <= find_list_for_block m block
  /\ (get_size m block = asize ->
      find_list_for_block m block = min_list_index asize).
Proof.
  intros Hr Hle.
  rewrite find_list_for_block_bits, (min_list_index_bits asize Hr).
  split.
  - apply Z.min_le_compat_l. apply bits_mono. split.
    + apply shiftr_nonneg. lia.
    + rewrite !Z.shiftr_div_pow2 by lia. apply Z.div_le_mono; lia.
  - intros ->. reflexivity.
Qed.

Lemma min_list_index_below_class_witness :
  min_list_index 48 <= find_list_for_block (store ∅ 4104 (pack 4096 false true)) 4104
  /\ (get_size (store ∅ 4104 (pack 4096 false true)) 4104 = 48 ->
      find_list_for_block (store ∅ 4104 (pack 4096 false true)) 4104
      = min_list_index 48).
Proof.
  apply (min_list_index_below_class _ 4104 48).
  - vm_compute. split; [discriminate | reflexivity].
  - vm_compute. discriminate.
Defined.

(** ** Searching the lists *)

Section SearchList.
Import WordFacts.

Lemma best_fit_exact m asize cands r :
  r ∈ cands -> get_size m r = asize -> best_fit_in m asize cands r.
Proof.
  intros Hin Hsz. right. split; [exact Hin|]. split; [lia|].
  intros x _ Hx. lia.
Qed.

Lemma take_next {A} (k : Z) (x : A) (l : list A) :
  0 < k -> take (Z.to_nat k) (x :: l) = x :: take (Z.to_nat (k - 1)) l.
Proof.
  intros Hk. replace (Z.to_nat k) with (S (Z.to_nat (k - 1))) by lia.
  reflexivity.
Qed.

(** the loop of [search_list], entered with [count] blocks [V] behind it and
    the blocks [l] ahead *)
Lemma search_list_loop_best m asize :
  0 <= asize ->
  forall n p l count best fit_error V,
    links m p l NULL -> Forall (fun x => x <> NULL) l ->
    0 <= count -> (Z.to_nat (MAX_SEGLIST_SEARCH - count) < n)%nat ->
    (best = NULL -> forall x, x ∈ V -> get_size m x < asize) ->
    (best <> NULL ->
       best ∈ V /\ asize <= get_size m best
       /\ fit_error = get_size m best - asize
       /\ forall x, x ∈ V -> asize <= get_size m x ->
            get_size m best <= get_size m x) ->
    best_fit_in m asize (V ++ take (Z.to_nat (MAX_SEGLIST_SEARCH - count)) l)
      (search_list_loop m n (hd NULL l) count best fit_error asize).
Proof.
  intros Has. induction n as [|n IH];
    intros p l count best fe V Hl Hnn Hc Hn Hnone Hsome; [lia|].
  assert (Hdone : forall S, (forall x, x ∈ S <-> x ∈ V) -> best_fit_in m asize S best).
  { intros S HS. destruct (Z.eq_dec best NULL) as [->|Hb].
    - left. split; [reflexivity|]. intros x Hx. apply Hnone; [reflexivity|].
      now apply HS.
    - destruct (Hsome Hb) as (Hin & Hfit & _ & Hmin). right.
      split; [now apply HS|]. split; [exact Hfit|].
      intros x Hx. apply Hmin. now apply HS. }
  cbn [search_list_loop].
  destruct l as [|x l']; cbn [hd].
  - rewrite Z.eqb_refl. apply Hdone. intros y. rewrite take_nil, app_nil_r. tauto.
  - apply Forall_cons in Hnn. destruct Hnn as [Hx Hnn].
    replace (x =? NULL) with false by (symmetry; now apply Z.eqb_neq).
    cbn [links] in Hl. destruct Hl as (_ & Hnext & Hl'). unfold NULL in Hnext |- *.
    destruct (Z.gtb_spec (count + 1) MAX_SEGLIST_SEARCH) as [Hfull|Hroom].
    + apply Hdone. intros y.
      replace (Z.to_nat (MAX_SEGLIST_SEARCH - count)) with 0%nat by lia.
      rewrite take_0, app_nil_r. tauto.
    + rewrite (take_next (MAX_SEGLIST_SEARCH - count)) by lia.
      replace (MAX_SEGLIST_SEARCH - count - 1)
        with (MAX_SEGLIST_SEARCH - (count + 1)) by lia.
      rewrite (cons_middle x V), app_assoc, Hnext.
      pose proof (get_size_range m x) as Hxr.
      destruct (Z.geb_spec (get_size m x) asize) as [Hfit|Hsmall].
      * assert (Hw : Word.wrap (get_size m x - asize) = get_size m x - asize)
          by (apply wrap_small; lia).
        rewrite Hw.
        destruct (Z.eqb_spec best 0) as [Hb|Hb].
        -- (* the first block that fits *)
           destruct (Z.eqb_spec (get_size m x - asize) 0) as [Hex|Hnex].
           ++ apply best_fit_exact; [|lia].
              apply elem_of_app. left. apply elem_of_app. right. left.
           ++ apply (IH x); [exact Hl' | exact Hnn | lia | lia | |].
              ** intros Hx0. contradiction.
              ** intros _. split; [apply elem_of_app; right; left|].
                 split; [lia|]. split; [reflexivity|].
                 intros y Hy Hyfit. apply elem_of_app in Hy.
                 destruct Hy as [Hy|Hy].
                 --- specialize (Hnone Hb y Hy). lia.
                 --- apply list_elem_of_singleton in Hy. subst. lia.
        -- destruct (Hsome Hb) as (Hin & Hbfit & Hfe & Hmin).
           destruct (Z.ltb_spec (get_size m x - asize) fe) as [Hbetter|Hworse].
           ++ destruct (Z.eqb_spec (get_size m x - asize) 0) as [Hex|Hnex].
              ** apply best_fit_exact; [|lia].
                 apply elem_of_app. left. apply elem_of_app. right. left.
              ** apply (IH x); [exact Hl' | exact Hnn | lia | lia | |].
                 --- intros Hx0. contradiction.
                 --- intros _. split; [apply elem_of_app; right; left|].
                     split; [lia|]. split; [reflexivity|].
                     intros y Hy Hyfit. apply elem_of_app in Hy.
                     destruct Hy as [Hy|Hy].
                     +++ specialize (Hmin y Hy Hyfit). lia.
                     +++ apply list_elem_of_singleton in Hy. subst. lia.
           ++ destruct (Z.eqb_spec fe 0) as [Hex|Hnex].
              ** apply best_fit_exact; [|lia].
                 apply elem_of_app. left. apply elem_of_app. now left.
              ** apply (IH x); [exact Hl' | exact Hnn | lia | lia | |].
                 --- intros Hb0. contradiction.
                 --- intros _. split; [apply elem_of_app; now left|].
                     split; [exact Hbfit|]. split; [exact Hfe|].
                     intros y Hy Hyfit. apply elem_of_app in Hy.
                     destruct Hy as [Hy|Hy].
                     +++ now apply Hmin.
                     +++ apply list_elem_of_singleton in Hy. subst. lia.
      * apply (IH x); [exact Hl' | exact Hnn | lia | lia | |].
        -- intros Hb y Hy. apply elem_of_app in Hy. destruct Hy as [Hy|Hy].
           ++ now apply Hnone.
           ++ apply list_elem_of_singleton in Hy. subst. lia.
        -- intros Hb. destruct (Hsome Hb) as (Hin & Hbfit & Hfe & Hmin).
           split; [apply elem_of_app; now left|].
           split; [exact Hbfit|]. split; [exact Hfe|].
           intros y Hy Hyfit. apply elem_of_app in Hy.
           destruct Hy as [Hy|Hy]; [now apply Hmin|].
           apply list_elem_of_singleton in Hy. subst. lia.
Qed.

End SearchList.

(** X8: [search_list] is a bounded best fit.  On a list whose blocks are
    linked through [nextBlockInList] up to NULL it returns NULL when none of
    the first [MAX_SEGLIST_SEARCH] = 15 blocks has [asize] bytes, and
    otherwise one of these blocks whose size is at least [asize] and the
    least such size among them. *)
Theorem search_list_best_fit m p l asize :
  links m p l NULL -> Forall (fun x => x <> NULL) l -> 0 <= asize ->
  best_fit_in m asize (take (Z.to_nat MAX_SEGLIST_SEARCH) l)
    (search_list m (hd NULL l) asize).
Proof.
  intros Hl Hnn Has. unfold search_list.
  destruct l as [|x l'].
  - cbn [hd]. rewrite Z.eqb_refl. left. split; [reflexivity|].
    intros y Hy. rewrite take_nil in Hy. inversion Hy.
  - cbn [hd]. pose proof Hnn as Hnn'. apply Forall_cons in Hnn'.
    destruct Hnn' as [Hx _].
    replace (x =? NULL) with false by (symmetry; now apply Z.eqb_neq).
    change x with (hd NULL (x :: l')) at 2.
    change (take (Z.to_nat MAX_SEGLIST_SEARCH) (x :: l'))
      with ([] ++ take (Z.to_nat (MAX_SEGLIST_SEARCH - 0)) (x :: l')).
    apply (search_list_loop_best m asize Has _ p); try assumption.
    + lia.
    + unfold MAX_SEGLIST_SEARCH. lia.
    + intros _ y Hy. inversion Hy.
    + intros H. contradiction.
Qed.

Lemma search_list_best_fit_witness :
  best_fit_in Fragmented.heap_mem 32
    (take (Z.to_nat MAX_SEGLIST_SEARCH) [1048648; 1048584])
    (search_list Fragmented.heap_mem (hd NULL [1048648; 1048584]) 32).
Proof.
  apply (search_list_best_fit Fragmented.heap_mem NULL [1048648; 1048584] 32).
  - vm_compute. repeat split.
  - repeat constructor; discriminate.
  - lia.
Defined.

Section FindFitLists.
Import WordFacts.

(** what [search_list] finds on list [i] of well-formed lists *)
Lemma search_listed m sl L i asize :
  lists_wf m sl L -> 0 <= i < MAXLISTS -> 0 <= asize ->
  best_fit_in m asize (take (Z.to_nat MAX_SEGLIST_SEARCH) (L !!! Z.to_nat i))
    (search_list m (seglist sl i) asize).
Proof.
  intros Hwf Hi Has.
  assert (Hlk : L !! Z.to_nat i = Some (L !!! Z.to_nat i)).
  { apply list_lookup_lookup_total_lt. rewrite (lw_lists _ _ _ Hwf). lia. }
  destruct (lw_links _ _ _ Hwf _ _ Hlk) as [Hhd Hlinks].
  rewrite Z2Nat.id in Hhd by lia. rewrite Hhd.
  assert (Hnn : Forall (fun x => x <> NULL) (L !!! Z.to_nat i)).
  { apply Forall_forall. intros y Hy.
    assert (Hin : y ∈ concat L) by (apply elem_concat; eauto).
    destruct (lw_range _ _ _ Hwf y Hin) as [Hpos _]. unfold NULL. lia. }
  revert Hlinks Hnn. generalize (L !!! Z.to_nat i). intros l Hlinks Hnn.
  unfold search_list. destruct l as [|x l'].
  - cbn [hd]. rewrite Z.eqb_refl. left. split; [reflexivity|].
    intros y Hy. rewrite take_nil in Hy. inversion Hy.
  - cbn [hd]. pose proof Hnn as Hnn'. apply Forall_cons in Hnn'.
    destruct Hnn' as [Hx _].
    replace (x =? NULL) with false by (symmetry; now apply Z.eqb_neq).
    change x with (hd NULL (x :: l')) at 2.
    change (take (Z.to_nat MAX_SEGLIST_SEARCH) (x :: l'))
      with ([] ++ take (Z.to_nat (MAX_SEGLIST_SEARCH - 0)) (x :: l')).
    apply (search_list_loop_best m asize Has _ NULL); try assumption.
    + lia.
    + unfold MAX_SEGLIST_SEARCH. lia.
    + intros _ y Hy. inversion Hy.
    + intros H. contradiction.
Qed.

Lemma lookup_total_beyond (L : list (list Z)) i :
  (length L <= i)%nat -> L !!! i = [].
Proof.
  intros H. rewrite list_lookup_total_alt, lookup_ge_None_2 by exact H.
  reflexivity.
Qed.

Lemma best_fit_null m asize cands :
  best_fit_in m asize cands NULL -> (forall x, x ∈ cands -> x <> NULL) ->
  forall x, x ∈ cands -> get_size m x < asize.
Proof.
  intros [[_ H]|(Hin & _)] Hnn; [exact H|]. now destruct (Hnn NULL Hin).
Qed.

Lemma best_fit_found m asize cands r :
  best_fit_in m asize cands r -> r <> NULL ->
  r ∈ cands /\ asize <= get_size m r
  /\ forall x, x ∈ cands -> asize <= get_size m x -> get_size m r <= get_size m x.
Proof. intros [[-> _]|H] Hr; [contradiction | exact H]. Qed.

Lemma listed_not_null m sl L i :
  lists_wf m sl L ->
  forall x, x ∈ take (Z.to_nat MAX_SEGLIST_SEARCH) (L !!! i) -> x <> NULL.
Proof.
  intros Hwf x Hx. apply elem_of_take in Hx. destruct Hx as (k & Hk & _).
  assert (Hin : x ∈ L !!! i) by (eapply list_elem_of_lookup_2; eassumption).
  destruct (decide (i < length L)%nat) as [Hi|Hi].
  - assert (Hc : x ∈ concat L).
    { apply elem_concat. exists i, (L !!! i). split; [|exact Hin].
      now apply list_lookup_lookup_total_lt. }
    destruct (lw_range _ _ _ Hwf x Hc). unfold NULL. lia.
  - rewrite lookup_total_beyond in Hin by lia. inversion Hin.
Qed.

(** the loop of the naive [find_fit] from list [list_ind] on *)
Lemma naive_find_fit_loop_spec m sl L asize c :
  lists_wf m sl L -> 0 <= asize -> 0 <= c < MAXLISTS ->
  forall n list_ind,
    c <= list_ind -> (Z.to_nat (MAXLISTS - list_ind) < n)%nat ->
    let r := Naive.find_fit_loop m sl n list_ind c asize in
    (r = NULL
     /\ forall i x, list_ind <= i ->
          x ∈ take (Z.to_nat MAX_SEGLIST_SEARCH) (L !!! Z.to_nat i) ->
          get_size m x < asize)
    \/ (exists i, list_ind <= i < MAXLISTS
          /\ best_fit_in m asize
               (take (Z.to_nat MAX_SEGLIST_SEARCH) (L !!! Z.to_nat i)) r
          /\ r <> NULL
          /\ forall j x, list_ind <= j < i ->
               x ∈ take (Z.to_nat MAX_SEGLIST_SEARCH) (L !!! Z.to_nat j) ->
               get_size m x < asize).
Proof.
  intros Hwf Has Hc. induction n as [|n IH]; intros li Hli Hn; [lia|].
  cbn [Naive.find_fit_loop].
  replace (Word.wrap (c + SEARCHCOUNT) =? 0) with false.
  2:{ symmetry. apply Z.eqb_neq. rewrite wrap_small;
        unfold SEARCHCOUNT, MAXLISTS, Word.modulus in *; lia. }
  cbn [negb]. rewrite andb_true_r.
  destruct (Z.ltb_spec li MAXLISTS) as [Hlt|Hge].
  - pose proof (search_listed m sl L li asize Hwf ltac:(lia) Has) as Hs.
    destruct (Z.eqb_spec (search_list m (seglist sl li) asize) NULL) as [He|Hne];
      cbn [negb].
    + rewrite He in Hs.
      pose proof (best_fit_null _ _ _ Hs (listed_not_null m sl L _ Hwf)) as Hnone.
      specialize (IH (li + 1) ltac:(lia) ltac:(lia)). cbv zeta in IH.
      destruct IH as [[Hr Hall]|(i & Hi & Hbest & Hnz & Hbefore)].
      * left. split; [exact Hr|]. intros i x Hi Hx.
        destruct (Z.eq_dec i li) as [->|Hne]; [now apply Hnone|].
        apply (Hall i x); [lia | exact Hx].
      * right. exists i. split; [lia|]. split; [exact Hbest|].
        split; [exact Hnz|]. intros j x Hj Hx.
        destruct (Z.eq_dec j li) as [->|Hne]; [now apply Hnone|].
        apply (Hbefore j x); [lia | exact Hx].
    + right. exists li. split; [lia|]. split; [exact Hs|]. split; [exact Hne|].
      intros j x Hj. lia.
  - left. split; [reflexivity|]. intros i x Hi Hx.
    rewrite lookup_total_beyond in Hx
      by (rewrite (lw_lists _ _ _ Hwf); lia).
    rewrite take_nil in Hx. inversion Hx.
Qed.

End FindFitLists.

(** X9: the arena [find_fit] on well-formed lists.  With [c] the class of
    [asize], it returns the best fit among the first 15 blocks of list [c]
    when one of them has [asize] bytes, else the best fit among the first 15
    blocks of list [c + 1], else NULL: never a block that is too small or on
    no list. *)
Theorem arena_find_fit_spec m arena L asize :
  lists_wf m (arena_seglists arena) L -> 0 <= asize ->
  let c := min_list_index asize in
  let first := take (Z.to_nat MAX_SEGLIST_SEARCH) (L !!! Z.to_nat c) in
  let second := take (Z.to_nat MAX_SEGLIST_SEARCH) (L !!! Z.to_nat (c + 1)) in
  let r := Arena.find_fit m arena asize in
  (r = NULL /\ forall x, x ∈ first ++ second -> get_size m x < asize)
  \/ (r <> NULL /\ best_fit_in m asize first r)
  \/ (r <> NULL /\ best_fit_in m asize second r
      /\ forall x, x ∈ first -> get_size m x < asize).
Proof.
  intros Hwf Has c first second r. subst r.
  rewrite arena_find_fit_two_lists. cbv zeta. fold c.
  pose proof (min_list_index_range asize) as Hc. fold c in Hc.
  pose proof (search_listed m _ L c asize Hwf ltac:(unfold MAXLISTS in *; lia) Has)
    as Hs1. fold first in Hs1.
  destruct (Z.eqb_spec (search_list m (seglist (arena_seglists arena) c) asize) NULL)
    as [He|Hne]; cbn [negb].
  - rewrite He in Hs1.
    pose proof (best_fit_null _ _ _ Hs1 (listed_not_null m _ L _ Hwf)) as Hnone.
    destruct (Z.ltb_spec (c + 1) MAXLISTS) as [Hlt|Hge].
    + pose proof (search_listed m _ L (c + 1) asize Hwf ltac:(lia) Has) as Hs2.
      fold second in Hs2.
      destruct (Z.eq_dec (search_list m (seglist (arena_seglists arena) (c + 1)) asize)
                  NULL) as [He2|Hne2].
      * left. split; [exact He2|]. rewrite He2 in Hs2.
        intros x Hx. apply elem_of_app in Hx. destruct Hx as [Hx|Hx].
        -- now apply Hnone.
        -- exact (best_fit_null _ _ _ Hs2 (listed_not_null m _ L _ Hwf) x Hx).
      * right. right. split; [exact Hne2|]. split; [exact Hs2 | exact Hnone].
    + left. split; [reflexivity|]. intros x Hx.
      apply elem_of_app in Hx. destruct Hx as [Hx|Hx]; [now apply Hnone|].
      unfold second in Hx. rewrite lookup_total_beyond in Hx
        by (rewrite (lw_lists _ _ _ Hwf); lia).
      rewrite take_nil in Hx. inversion Hx.
  - right. left. split; [exact Hne | exact Hs1].
Qed.

(** X10: the naive [find_fit] on well-formed lists walks the lists from the
    class of [asize] to the last one and returns the best fit among the first
    15 blocks of the first list that has a block of [asize] bytes among
    them; it returns NULL only when no list from that class on has one. *)
Theorem naive_find_fit_spec h L asize :
  lists_wf (Naive.memory h) (Naive.seglists h) L -> 0 <= asize ->
  let m := Naive.memory h in
  let c := min_list_index asize in
  let r := Naive.find_fit h asize in
  (r = NULL
   /\ forall i x, c <= i ->
        x ∈ take (Z.to_nat MAX_SEGLIST_SEARCH) (L !!! Z.to_nat i) ->
        get_size m x < asize)
  \/ (exists i, c <= i < MAXLISTS
        /\ best_fit_in m asize
             (take (Z.to_nat MAX_SEGLIST_SEARCH) (L !!! Z.to_nat i)) r
        /\ r <> NULL
        /\ forall j x, c <= j < i ->
             x ∈ take (Z.to_nat MAX_SEGLIST_SEARCH) (L !!! Z.to_nat j) ->
             get_size m x < asize).
Proof.
  intros Hwf Has m c r. subst r. unfold Naive.find_fit. fold c. fold m.
  pose proof (min_list_index_range asize) as Hc. fold c in Hc.
  apply (naive_find_fit_loop_spec m (Naive.seglists h) L asize c Hwf Has);
    unfold MAXLISTS in *; lia.
Qed.

Lemma fragmented_lists_wf :
  lists_wf Fragmented.heap_mem Fragmented.lists Fragmented.listed.
Proof.
  apply (free_lists_wf _ _ _ _ _ _ _ fragmented_layout
           (others_in_layout [Fragmented.first] Fragmented.second
              [Fragmented.third; Fragmented.fourth; Fragmented.rest])).
  exact fragmented_lists.
Qed.

Lemma arena_find_fit_spec_witness :
  let m := Fragmented.heap_mem in
  let c := min_list_index 32 in
  let first := take (Z.to_nat MAX_SEGLIST_SEARCH) (Fragmented.listed !!! Z.to_nat c) in
  let second :=
    take (Z.to_nat MAX_SEGLIST_SEARCH) (Fragmented.listed !!! Z.to_nat (c + 1)) in
  let r := Arena.find_fit m fragmented_arena 32 in
  (r = NULL /\ forall x, x ∈ first ++ second -> get_size m x < 32)
  \/ (r <> NULL /\ best_fit_in m 32 first r)
  \/ (r <> NULL /\ best_fit_in m 32 second r
      /\ forall x, x ∈ first -> get_size m x < 32).
Proof.
  apply (arena_find_fit_spec Fragmented.heap_mem fragmented_arena
           Fragmented.listed 32).
  - exact fragmented_lists_wf.
  - lia.
Defined.

Lemma naive_find_fit_spec_witness :
  let m := Naive.memory fragmented_naive in
  let c := min_list_index 48 in
  let r := Naive.find_fit fragmented_naive 48 in
  (r = NULL
   /\ forall i x, c <= i ->
        x ∈ take (Z.to_nat MAX_SEGLIST_SEARCH) (Fragmented.listed !!! Z.to_nat i) ->
        get_size m x < 48)
  \/ (exists i, c <= i < MAXLISTS
        /\ best_fit_in m 48
             (take (Z.to_nat MAX_SEGLIST_SEARCH) (Fragmented.listed !!! Z.to_nat i)) r
        /\ r <> NULL
        /\ forall j x, c <= j < i ->
             x ∈ take (Z.to_nat MAX_SEGLIST_SEARCH) (Fragmented.listed !!! Z.to_nat j) ->
             get_size m x < 48).
Proof.
  apply (naive_find_fit_spec fragmented_naive Fragmented.listed 48).
  - exact fragmented_lists_wf.
  - lia.
Defined.

(** ** More on the thread cache *)

(** X11: in a cache that satisfies its invariant, [cache_query] misses
    (returns NULL) exactly when no cached block has [size] bytes, and then
    leaves the cache as it is; a hit is a cached block of at least [size]
    bytes, and the two counters go down by one block and by its size. *)
Theorem cache_query_hit_or_miss m c size :
  cache_inv m c ->
  exists b c',
    cache_query m c size = Ok (b, c')
    /\ (b = NULL <->
        forall j x, elems c !! j = Some x -> x = NULL \/ get_size m x < size)
    /\ (b = NULL -> c' = c)
    /\ (b <> NULL ->
        b ∈ elems c /\ size <= get_size m b
        /\ num_entries c' = num_entries c - 1
        /\ total_size c' = Word.wrap (total_size c - get_size m b)).
Proof.
  intros Hinv.
  destruct (cache_query_spec m c size Hinv)
    as [(Hnone & Heq) | (k & b & c' & Hk & Hb & Hsz & Hlow & Hel & Heq & Hinv')].
  - exists NULL, c. split; [exact Heq|]. split; [tauto|].
    split; [reflexivity | intros H; contradiction].
  - exists b, c'. split; [exact Heq|]. split; [|split].
    + split; [intros H; contradiction|]. intros Hnone.
      destruct (Hnone _ _ Hk) as [? | ?]; [contradiction | lia].
    + intros H. contradiction.
    + intros _. split; [eapply list_elem_of_lookup_2; exact Hk|].
      split; [exact Hsz|]. split.
      * rewrite (inv_num _ _ Hinv'), (inv_num _ _ Hinv), Hel.
        exact (occupied_clear _ _ _ Hk Hb).
      * rewrite (inv_total _ _ Hinv'), (inv_total _ _ Hinv), Hel.
        exact (sum_sizes_clear m _ _ _ Hk Hb).
Qed.

Lemma cache_query_hit_or_miss_witness :
  exists b c',
    cache_query Run.two_blocks Run.two_cached 48 = Ok (b, c')
    /\ (b = NULL <->
        forall j x, elems Run.two_cached !! j = Some x ->
          x = NULL \/ get_size Run.two_blocks x < 48)
    /\ (b = NULL -> c' = Run.two_cached)
    /\ (b <> NULL ->
        b ∈ elems Run.two_cached /\ 48 <= get_size Run.two_blocks b
        /\ num_entries c' = num_entries Run.two_cached - 1
        /\ total_size c'
           = Word.wrap (total_size Run.two_cached - get_size Run.two_blocks b)).
Proof.
  apply (cache_query_hit_or_miss Run.two_blocks Run.two_cached 48).
  split; vm_compute; reflexivity.
Defined.



(** cache states reached without overflow satisfy the exact invariant and
    respect the size limit *)
Lemma cache_reachable_nowrap_exact m c :
  cache_reachable_nowrap m c ->
  cache_exact m c /\ plain_sum m (elems c) <= CACHE_MAX_SIZE.
Proof.
  assert (Hbound : forall c0, plain_sum m (elems c0) <= CACHE_MAX_SIZE ->
            plain_sum m (elems c0) < Word.modulus).
  { intros c0 Hle. unfold CACHE_MAX_SIZE, Word.modulus in *.
    change (Z.shiftl 1 20) with 1048576 in *. lia. }
  induction 1 as [| c b r c' Hreach [Hex Hle] Hb Hsum Hadd
                  | c size b c' Hreach [Hex Hle] Hq
                  | c b c' Hreach [Hex Hle] Hpos Hev];
    try pose proof (cache_exact_inv m c Hex) as Hinv.
  - split; [split; vm_compute; reflexivity|]. vm_compute. discriminate.
  - destruct (cache_add_spec m c b Hinv Hb)
      as [Heq | (k & c2 & _ & Hnull & _ & Hel & _ & Heq & Hinv')];
      rewrite Heq in Hadd; injection Hadd as <- <-; [tauto|].
    assert (Hle' : plain_sum m (elems c2) <= CACHE_MAX_SIZE).
    { rewrite Hel, (plain_sum_fill m _ _ _ Hnull Hb), <- (ex_total _ _ Hex).
      unfold cache_add in Heq.
      destruct (num_entries c =? CACHE_MAX_ENTRIES); [discriminate|].
      destruct (Z.gtb_spec (Word.wrap (total_size c + get_size m b)) CACHE_MAX_SIZE)
        as [Hbig|Hsmall]; [discriminate|].
      pose proof (plain_sum_nonneg m (elems c)) as Hnn.
      rewrite <- (ex_total _ _ Hex) in Hnn.
      pose proof (get_size_range m b).
      rewrite WordFacts.wrap_small in Hsmall by lia. exact Hsmall. }
    split; [|exact Hle']. apply cache_inv_exact; [exact Hinv' | now apply Hbound].
  - destruct (cache_query_spec m c size Hinv)
      as [(_ & Heq) | (k & b2 & c2 & Hk & Hb2 & _ & _ & Hel & Heq & Hinv')];
      rewrite Heq in Hq; injection Hq as <- <-; [tauto|].
    assert (Hle' : plain_sum m (elems c2) <= CACHE_MAX_SIZE).
    { rewrite Hel, (plain_sum_clear m _ _ _ Hk Hb2).
      pose proof (get_size_range m b2). lia. }
    split; [|exact Hle']. apply cache_inv_exact; [exact Hinv' | now apply Hbound].
  - destruct (cache_evict_spec m c Hinv Hpos)
      as (b2 & c2 & Hk & Hb2 & Hel & Heq & Hinv').
    rewrite Heq in Hev. injection Hev as <- <-.
    assert (Hle' : plain_sum m (elems c2) <= CACHE_MAX_SIZE).
    { rewrite Hel, (plain_sum_clear m _ _ _ Hk Hb2).
      pose proof (get_size_range m b2). lia. }
    split; [|exact Hle']. apply cache_inv_exact; [exact Hinv' | now apply Hbound].
Qed.

(** X13: the capacity of the thread cache.  A cache reached from
    [cache_init] by adds, queries and evictions, where for each added block
    the sum [total_size + get_size block] that [cache_add] computes does not
    overflow [size_t], never holds more than [CACHE_MAX_ENTRIES] blocks or
    more than [CACHE_MAX_SIZE] bytes, and [total_size] is the exact sum of
    the sizes of the blocks it holds. *)
Theorem cache_capacity m c :
  cache_reachable_nowrap m c ->
  0 <= num_entries c <= CACHE_MAX_ENTRIES
  /\ total_size c = plain_sum m (elems c)
  /\ plain_sum m (elems c) <= CACHE_MAX_SIZE.
Proof.
  intros Hreach.
  destruct (cache_reachable_nowrap_exact m c Hreach) as [Hex Hle].
  split; [|split; [exact (ex_total _ _ Hex) | exact Hle]].
  pose proof (occupied_range (elems c)) as Hocc.
  rewrite (ex_slots _ _ Hex) in Hocc. rewrite (ex_num _ _ Hex).
  unfold CACHE_MAX_ENTRIES in *. lia.
Qed.

Lemma cache_capacity_witness :
  0 <= num_entries Run.two_cached <= CACHE_MAX_ENTRIES
  /\ total_size Run.two_cached = plain_sum Run.two_blocks (elems Run.two_cached)
  /\ plain_sum Run.two_blocks (elems Run.two_cached) <= CACHE_MAX_SIZE.
Proof.
  apply (cache_capacity Run.two_blocks Run.two_cached).
  apply (nowrap_add _ Run.one_cached 4168 true).
  - apply (nowrap_add _ cache_init 4104 true).
    + apply nowrap_init.
    + unfold NULL. lia.
    + vm_compute. reflexivity.
    + vm_compute. reflexivity.
  - unfold NULL. lia.
  - vm_compute. reflexivity.
  - vm_compute. reflexivity.
Defined.

(** the two calls of the fast path of the cached variant, given what the
    header in front of [ptr] holds: the free puts the block into the empty
    cache, the allocation takes it out again *)
Lemma cached_hit_core RAND_MAX st ptr r size mmap :
  local_cache st = cache_init ->
  0 <= ptr < Word.modulus -> payload_to_header ptr <> NULL ->
  get_size (heap st) (payload_to_header ptr) <= CACHE_MAX_SIZE ->
  size <= get_size (heap st) (payload_to_header ptr) ->
  exists st1,
    Cached.arena_cached_free RAND_MAX st ptr r = Ok st1
    /\ heap st1 = heap st /\ arenas st1 = arenas st
    /\ elems (local_cache st1)
       = [payload_to_header ptr; NULL; NULL; NULL; NULL; NULL; NULL; NULL]
    /\ Cached.arena_cached_malloc st1 size mmap = Ok (ptr, st).
Proof.
  intros Hcache Hptr Hnz Hmax Hfit.
  destruct st as [m ars n lu lc]. cbn [local_cache heap arenas] in *. subst lc.
  pose proof (get_size_range m (payload_to_header ptr)) as Hr.
  set (block := payload_to_header ptr) in *.
  set (s := get_size m block) in *.
  assert (Hadd : cache_add m cache_init block
                 = Ok (true, {| elems := [block; 0; 0; 0; 0; 0; 0; 0];
                                num_entries := 1; total_size := s; front := 0 |})).
  { unfold cache_add. cbn [num_entries cache_init total_size].
    change (0 =? CACHE_MAX_ENTRIES) with false. cbv iota. fold s.
    rewrite (WordFacts.wrap_small (0 + s)) by lia.
    replace (0 + s >? CACHE_MAX_SIZE) with false
      by (symmetry; rewrite Z.gtb_ltb; apply Z.ltb_ge; lia).
    cbv iota. change (Z.to_nat CACHE_MAX_ENTRIES) with 8%nat.
    cbn [cache_add_scan]. change (slot (elems cache_init) 0) with (Ok (A := Z) 0).
    cbn [bind]. change (0 =? NULL) with true. cbv iota.
    cbn [elems num_entries total_size front cache_init].
    rewrite (WordFacts.wrap_small (0 + s)) by lia. reflexivity. }
  exists {| heap := m; arenas := ars; max_arenas := n; last_used := lu;
            local_cache := {| elems := [block; 0; 0; 0; 0; 0; 0; 0];
                              num_entries := 1; total_size := s; front := 0 |} |}.
  split.
  { unfold Cached.arena_cached_free. cbn [heap local_cache]. fold block.
    rewrite Hadd. cbn [bind]. reflexivity. }
  cbn [heap arenas local_cache set_local_cache elems].
  split; [reflexivity|]. split; [reflexivity|]. split; [reflexivity|].
  unfold Cached.arena_cached_malloc, set_local_cache.
  cbn [heap local_cache arenas max_arenas last_used].
  unfold cache_query. cbn [front]. change (0 <? CACHE_MAX_ENTRIES) with true.
  cbv iota. change (Z.to_nat (CACHE_MAX_ENTRIES - 0)) with 8%nat.
  cbn [cache_query_scan elems]. change (slot [block; 0; 0; 0; 0; 0; 0; 0] 0)
    with (Ok (A := Z) block). cbn [bind].
  replace (block =? NULL) with false by (symmetry; now apply Z.eqb_neq).
  cbn [negb]. fold s.
  replace (s >=? size) with true
    by (symmetry; rewrite Z.geb_leb; apply Z.leb_le; lia).
  cbn [front total_size num_entries]. rewrite Z.eqb_refl.
  change (Z.to_nat 0) with 0%nat.
  change (<[0%nat:=NULL]> [block; 0; 0; 0; 0; 0; 0; 0])
    with (replicate 8 NULL).
  change (advance_front (replicate 8 NULL) 0) with (Ok (A := Z) 8).
  cbn [bind]. replace (s - s) with 0 by lia.
  change (Word.wrap 0) with 0. change (Word.wrap (1 - 1)) with 0.
  replace (header_to_payload block) with ptr.
  2:{ unfold block, header_to_payload, payload_to_header, padd, psub.
      rewrite WordFacts.wrap_add_l. replace (ptr - wsize + wsize) with ptr by lia.
      symmetry. now apply WordFacts.wrap_small. }
  replace (block =? NULL) with false by (symmetry; now apply Z.eqb_neq).
  reflexivity.
Qed.


(** ** More on the arena registry *)

Section Registry.
Import WordFacts.

Lemma get_arena_calls_ok st k :
  0 < max_arenas st -> length (arenas st) = Z.to_nat (max_arenas st) ->
  0 <= last_used st -> last_used st + Z.of_N k <= Word.int_max ->
  get_arena_calls k st = Ok (set_last_used st (last_used st + Z.of_N k)).
Proof.
  intros Hmax Hlen Hlu Hk.
  rewrite get_arena_calls_counter;
    [| exact Hmax | exact Hlen | unfold Word.int_max in *; lia
     | unfold Word.int_max in *; lia].
  rewrite wrap_int_small by (unfold Word.int_min, Word.int_max in *; lia).
  reflexivity.
Qed.

(** the loop of [find_arena] from arena [i] on *)
Lemma find_arena_loop_spec st address :
  forall n i,
    0 <= i -> Z.of_nat n = max_arenas st - i ->
    length (arenas st) = Z.to_nat (max_arenas st) ->
    exists found,
      find_arena_loop st n i address = Ok found
      /\ match found with
         | Some k =>
             i <= k < max_arenas st
             /\ (exists a, arenas st !! Z.to_nat k = Some a
                   /\ arena_heap_start a <= address <= arena_heap_end a)
             /\ forall j a, i <= j < k -> arenas st !! Z.to_nat j = Some a ->
                  ~ (arena_heap_start a <= address <= arena_heap_end a)
         | None =>
             forall j a, i <= j -> arenas st !! Z.to_nat j = Some a ->
               ~ (arena_heap_start a <= address <= arena_heap_end a)
         end.
Proof.
  induction n as [|n IH]; intros i Hi Hn Hlen.
  - exists None. split; [reflexivity|]. intros j a Hj Ha.
    apply lookup_lt_Some in Ha. lia.
  - cbn [find_arena_loop].
    destruct (arena_at_in_range st i Hlen ltac:(lia)) as [a Ha].
    rewrite Ha. cbn [bind].
    assert (Hlk : arenas st !! Z.to_nat i = Some a).
    { unfold arena_at in Ha.
      destruct ((0 <=? i) && (i <? max_arenas st)); [|discriminate].
      destruct (arenas st !! Z.to_nat i); [|discriminate]. congruence. }
    destruct (Z.geb_spec address (arena_heap_start a)) as [H1|H1];
      [destruct (Z.leb_spec address (arena_heap_end a)) as [H2|H2]|];
      cbn [andb].
    + exists (Some i). split; [reflexivity|]. split; [lia|].
      split; [exists a; split; [exact Hlk | lia]|]. intros j a' Hj. lia.
    + destruct (IH (i + 1) ltac:(lia) ltac:(lia) Hlen) as (found & Hrun & Hfound).
      exists found. split; [exact Hrun|]. destruct found as [k|].
      * destruct Hfound as (Hk & Hin & Hbefore). split; [lia|].
        split; [exact Hin|]. intros j a' Hj Ha'.
        destruct (Z.eq_dec j i) as [->|Hne].
        -- rewrite Hlk in Ha'. injection Ha' as <-. lia.
        -- apply (Hbefore j a'); [lia | exact Ha'].
      * intros j a' Hj Ha'. destruct (Z.eq_dec j i) as [->|Hne].
        -- rewrite Hlk in Ha'. injection Ha' as <-. lia.
        -- apply (Hfound j a'); [lia | exact Ha'].
    + destruct (IH (i + 1) ltac:(lia) ltac:(lia) Hlen) as (found & Hrun & Hfound).
      exists found. split; [exact Hrun|]. destruct found as [k|].
      * destruct Hfound as (Hk & Hin & Hbefore). split; [lia|].
        split; [exact Hin|]. intros j a' Hj Ha'.
        destruct (Z.eq_dec j i) as [->|Hne].
        -- rewrite Hlk in Ha'. injection Ha' as <-. lia.
        -- apply (Hbefore j a'); [lia | exact Ha'].
      * intros j a' Hj Ha'. destruct (Z.eq_dec j i) as [->|Hne].
        -- rewrite Hlk in Ha'. injection Ha' as <-. lia.
        -- apply (Hfound j a'); [lia | exact Ha'].
Qed.

End Registry.

(** X15: [get_arena] is a round robin while the counter has not wrapped:
    after [k] calls the next one returns arena [(last_used + k) mod N], and
    so every arena [i] is the one returned after fewer than [N] calls. *)
Theorem get_arena_round_robin st i :
  0 < max_arenas st -> length (arenas st) = Z.to_nat (max_arenas st) ->
  0 <= last_used st -> last_used st + max_arenas st <= Word.int_max ->
  0 <= i < max_arenas st ->
  exists k stk st',
    Z.of_N k < max_arenas st
    /\ get_arena_calls k st = Ok stk
    /\ i = (last_used st + Z.of_N k) mod max_arenas st
    /\ get_arena stk = Ok (i, st')
    /\ arenas st' = arenas st.
Proof.
  intros Hmax Hlen Hlu Hwrap Hi.
  set (N := max_arenas st) in *.
  set (k := (i - last_used st) mod N).
  assert (Hk : 0 <= k < N) by (apply Z.mod_pos_bound; lia).
  assert (Hmod : (last_used st + k) mod N = i).
  { unfold k. rewrite Zplus_mod_idemp_r.
    replace (last_used st + (i - last_used st)) with i by lia.
    apply Z.mod_small. lia. }
  exists (Z.to_N k). eexists. eexists.
  rewrite Z2N.id by lia. split; [lia|]. split.
  { apply get_arena_calls_ok; try assumption. rewrite Z2N.id by lia. lia. }
  rewrite Z2N.id by lia. split; [symmetry; exact Hmod|].
  rewrite get_arena_ok; cbn [max_arenas arenas last_used set_last_used];
    [| exact Hmax | exact Hlen | lia].
  unfold get_arena_index. cbn [max_arenas last_used set_last_used].
  rewrite Z.rem_mod_nonneg by lia. fold N. rewrite Hmod.
  split; reflexivity.
Qed.

Lemma get_arena_round_robin_witness :
  exists k stk st',
    Z.of_N k < 2
    /\ get_arena_calls k
         {| heap := ∅; arenas := [Run.first_arena; Run.first_arena];
            max_arenas := 2; last_used := 5; local_cache := cache_init |}
       = Ok stk
    /\ 0 = (5 + Z.of_N k) mod 2
    /\ get_arena stk = Ok (0, st')
    /\ arenas st' = [Run.first_arena; Run.first_arena].
Proof.
  apply (get_arena_round_robin
           {| heap := ∅; arenas := [Run.first_arena; Run.first_arena];
              max_arenas := 2; last_used := 5; local_cache := cache_init |} 0).
  - reflexivity.
  - reflexivity.
  - cbn. lia.
  - vm_compute. discriminate.
  - cbn. lia.
Defined.

(** X16: [find_arena] returns the first arena of the registry whose range
    from [heap_start] to [heap_end], both ends included, holds the address,
    and the NULL arena exactly when no arena's range holds it; it never
    leaves the array. *)
Theorem find_arena_first_owner st address :
  0 <= max_arenas st -> length (arenas st) = Z.to_nat (max_arenas st) ->
  exists found,
    find_arena st address = Ok found
    /\ match found with
       | Some k =>
           0 <= k < max_arenas st
           /\ (exists a, arenas st !! Z.to_nat k = Some a
                 /\ arena_heap_start a <= address <= arena_heap_end a)
           /\ forall j a, 0 <= j < k -> arenas st !! Z.to_nat j = Some a ->
                ~ (arena_heap_start a <= address <= arena_heap_end a)
       | None =>
           forall j a, 0 <= j -> arenas st !! Z.to_nat j = Some a ->
             ~ (arena_heap_start a <= address <= arena_heap_end a)
       end.
Proof.
  intros Hmax Hlen. unfold find_arena.
  apply find_arena_loop_spec; [lia | lia | exact Hlen].
Qed.

Lemma find_arena_first_owner_witness :
  exists found,
    find_arena
      {| heap := ∅; arenas := [Run.first_arena; fragmented_arena];
         max_arenas := 2; last_used := 0; local_cache := cache_init |} 1048600
    = Ok found
    /\ match found with
       | Some k =>
           0 <= k < 2
           /\ (exists a, [Run.first_arena; fragmented_arena] !! Z.to_nat k = Some a
                 /\ arena_heap_start a <= 1048600 <= arena_heap_end a)
           /\ forall j a, 0 <= j < k ->
                [Run.first_arena; fragmented_arena] !! Z.to_nat j = Some a ->
                ~ (arena_heap_start a <= 1048600 <= arena_heap_end a)
       | None =>
           forall j a, 0 <= j ->
             [Run.first_arena; fragmented_arena] !! Z.to_nat j = Some a ->
             ~ (arena_heap_start a <= 1048600 <= arena_heap_end a)
       end.
Proof.
  apply (find_arena_first_owner
           {| heap := ∅; arenas := [Run.first_arena; fragmented_arena];
              max_arenas := 2; last_used := 0; local_cache := cache_init |}
           1048600).
  - cbn. lia.
  - reflexivity.
Defined.

(** X17: while no address computation wraps around and [heap_end] lies
    within the mapping, [extend_arena] refuses exactly the requests that
    would pass [low + size] and then leaves the arena as it is; otherwise
    it returns the old [heap_end], advances [heap_end] by [length] and keeps
    it within the mapping, so consecutive grants are adjacent. *)
Theorem extend_arena_within_mapping arena length :
  0 <= arena_low arena -> 0 <= arena_size arena ->
  arena_low arena + arena_size arena < Word.modulus ->
  0 < arena_heap_end arena <= arena_low arena + arena_size arena ->
  0 <= length < Word.modulus - arena_low arena - arena_size arena ->
  let '(p, arena') := extend_arena arena length in
  (p = NULL /\ arena' = arena
   /\ arena_heap_end arena + length > arena_low arena + arena_size arena)
  \/ (p = arena_heap_end arena
      /\ arena_heap_end arena' = p + length
      /\ arena_heap_end arena' <= arena_low arena + arena_size arena
      /\ arena_low arena' = arena_low arena
      /\ arena_size arena' = arena_size arena
      /\ arena_heap_start arena' = arena_heap_start arena
      /\ arena_seglists arena' = arena_seglists arena).
Proof.
  intros Hlow Hsize Hls He Hl.
  rewrite extend_arena_in_range by lia.
  destruct (Z.gtb_spec (arena_heap_end arena + length)
              (arena_low arena + arena_size arena)) as [Hbig|Hfits].
  - left. split; [reflexivity|]. split; [reflexivity | lia].
  - right. cbn [set_heap_end arena_heap_end arena_low arena_size
                arena_heap_start arena_seglists].
    split; [reflexivity|]. split; [reflexivity|]. split; [lia|].
    repeat split.
Qed.

Lemma extend_arena_within_mapping_witness :
  let '(p, arena') := extend_arena Run.first_arena 4096 in
  (p = NULL /\ arena' = Run.first_arena
   /\ arena_heap_end Run.first_arena + 4096
      > arena_low Run.first_arena + arena_size Run.first_arena)
  \/ (p = arena_heap_end Run.first_arena
      /\ arena_heap_end arena' = p + 4096
      /\ arena_heap_end arena'
         <= arena_low Run.first_arena + arena_size Run.first_arena
      /\ arena_low arena' = arena_low Run.first_arena
      /\ arena_size arena' = arena_size Run.first_arena
      /\ arena_heap_start arena' = arena_heap_start Run.first_arena
      /\ arena_seglists arena' = arena_seglists Run.first_arena).
Proof.
  apply (extend_arena_within_mapping Run.first_arena 4096).
  - vm_compute. discriminate.
  - vm_compute. discriminate.
  - vm_compute. reflexivity.
  - vm_compute. split; [reflexivity | discriminate].
  - vm_compute. split; [discriminate | reflexivity].
Defined.

(** ** Putting a block on its list *)

Section Add.
Import WordFacts.

(** [add_to_free_list] on a well-formed list: the block becomes the head,
    and only its two link fields and the [prevBlockInList] of the old head
    are written *)
Lemma add_to_free_list_spec m sl i l b :
  0 <= i -> (Z.to_nat i < length sl)%nat ->
  (forall y, y ∈ b :: l -> 0 < y /\ y + min_block_size <= Word.modulus) ->
  apart (b :: l) ->
  find_list_for_block m b = i ->
  seglist sl i = hd NULL l ->
  links m NULL l NULL ->
  exists m' sl',
    add_to_free_list m sl b = (m', sl')
    /\ length sl' = length sl
    /\ seglist sl' i = b
    /\ (forall j, Z.to_nat i <> j -> sl' !!! j = sl !!! j)
    /\ links m' NULL (b :: l) NULL
    /\ (forall t, t <> b + 8 -> t <> b + 16 -> (forall y, y ∈ l -> t <> y + 8) ->
          load m' t = load m t).
Proof.
  intros Hi Hlen Hrange Hap Hclass Hhead Hlinks.
  destruct (Hrange b ltac:(left)) as [Hb0 Hb1].
  cbn [apart] in Hap. destruct Hap as [Hbl Hapl]. rewrite Forall_forall in Hbl.
  unfold add_to_free_list. rewrite Hclass, Hhead.
  destruct l as [|y l']; cbn [hd].
  - replace (NULL =? b) with false by (symmetry; apply Z.eqb_neq; zl).
    rewrite Z.eqb_refl. rewrite seglist_set by assumption.
    eexists _, _. split; [reflexivity|].
    split; [unfold set_seglist; apply length_insert|].
    split; [now apply seglist_set|].
    split; [intros j Hj; now apply seglist_set_ne|].
    split.
    + cbn [links hd]. addr. mem_simpl. repeat split.
    + intros t H1 H2 _. addr. rewrite !load_store_ne by congruence. reflexivity.
  - destruct (Hrange y ltac:(right; left)) as [Hy0 Hy1].
    pose proof (Hbl y ltac:(left)) as Hby.
    replace (y =? b) with false by (symmetry; apply Z.eqb_neq; zl).
    replace (y =? NULL) with false by (symmetry; apply Z.eqb_neq; zl).
    eexists _, _. split; [reflexivity|].
    split; [unfold set_seglist; apply length_insert|].
    split; [now apply seglist_set|].
    split; [intros j Hj; now apply seglist_set_ne|].
    cbn [links] in Hlinks. destruct Hlinks as (Hpy & Hny & Hl').
    cbn [apart] in Hapl. destruct Hapl as [Hyl Hapl']. rewrite Forall_forall in Hyl.
    split.
    + cbn [links hd]. addr. mem_simpl.
      split; [reflexivity|]. split; [reflexivity|].
      split; [reflexivity|]. split; [rewrite next_link_small in Hny by zl; exact Hny|].
      apply (links_frame m); [exact Hl'|]. intros z Hz.
      destruct (Hrange z ltac:(right; right; exact Hz)) as [Hz0 Hz1].
      pose proof (Hbl z ltac:(right; exact Hz)) as Hbz.
      pose proof (Hyl z Hz) as Hyz.
      addr. mem_simpl. split; reflexivity.
    + intros t H1 H2 H3. specialize (H3 y ltac:(left)).
      addr. rewrite !load_store_ne by congruence. reflexivity.
Qed.

Lemma concat_enlist (L : list (list Z)) i b x :
  (i < length L)%nat ->
  x ∈ concat (enlist b i L) <-> x = b \/ x ∈ concat L.
Proof.
  intros Hi. unfold enlist. rewrite !elem_concat. split.
  - intros (j & l & Hl & Hx).
    destruct (Nat.eq_dec j i) as [->|Hne].
    + rewrite list_lookup_alter_eq in Hl.
      destruct (L !! i) as [l0|] eqn:E; [|discriminate].
      simpl in Hl. injection Hl as <-.
      apply elem_of_cons in Hx. destruct Hx as [->|Hx]; [now left|].
      right. eauto.
    + rewrite list_lookup_alter_ne in Hl by congruence. right. eauto.
  - intros [->|(j & l & Hl & Hx)].
    + destruct (lookup_lt_is_Some_2 L i Hi) as [l0 Hl0].
      exists i, (b :: l0). split; [|left].
      rewrite list_lookup_alter_eq, Hl0. reflexivity.
    + destruct (Nat.eq_dec j i) as [->|Hne].
      * exists i, (b :: l). split; [|now right].
        rewrite list_lookup_alter_eq, Hl. reflexivity.
      * exists j, l. split; [|exact Hx].
        now rewrite list_lookup_alter_ne by congruence.
Qed.

Lemma NoDup_concat_enlist (L : list (list Z)) i b :
  (i < length L)%nat -> NoDup (concat L) -> b ∉ concat L ->
  NoDup (concat (enlist b i L)).
Proof.
  unfold enlist. revert i. induction L as [|l L IH]; intros i Hi Hnd Hb;
    [simpl in Hi; lia|].
  cbn [concat] in Hnd, Hb. apply NoDup_app in Hnd.
  destruct Hnd as (Hl & Hcross & HL).
  rewrite elem_of_app in Hb.
  destruct i as [|i]; cbn [alter list_alter concat].
  - apply NoDup_app. split; [|split].
    + apply NoDup_cons. tauto.
    + intros x Hx. apply elem_of_cons in Hx. destruct Hx as [->|Hx]; [tauto|].
      now apply Hcross.
    + exact HL.
  - apply NoDup_app. split; [exact Hl|]. split.
    + intros x Hx Hx'. apply (concat_enlist L i b x) in Hx';
        [|simpl in Hi; lia].
      destruct Hx' as [->|Hx']; [tauto|]. now apply (Hcross x).
    + apply IH; [simpl in Hi; lia | exact HL | tauto].
Qed.

(** [add_to_free_list] of a block that is on no list and away from the
    listed ones keeps the lists well formed, with the block at the head of
    the list of its class *)
Lemma add_listed m sl L b :
  lists_wf m sl L ->
  0 < b -> b + min_block_size <= Word.modulus ->
  (forall y, y ∈ concat L -> y + min_block_size <= b \/ b + min_block_size <= y) ->
  exists m' sl',
    add_to_free_list m sl b = (m', sl')
    /\ lists_wf m' sl' (enlist b (Z.to_nat (find_list_for_block m b)) L)
    /\ (forall t, t <> b + 8 -> t <> b + 16 ->
          (forall y, y ∈ concat L -> t <> y + 8) ->
          load m' t = load m t).
Proof.
  intros [Hsl HL Hlinks Hclass Hnd Hrange Hsep] Hb0 Hb1 Hfar.
  assert (Hi : 0 <= find_list_for_block m b < 15).
  { rewrite find_list_for_block_bits.
    pose proof (bits_nonneg (Z.shiftr (get_size m b) 6)).
    unfold MAXLISTS. lia. }
  set (i := find_list_for_block m b) in *.
  change (Z.to_nat MAXLISTS) with 15%nat in Hsl, HL.
  assert (Hil : (Z.to_nat i < length L)%nat) by (rewrite HL; lia).
  destruct (lookup_lt_is_Some_2 L _ Hil) as [l Hl].
  assert (Hsub : forall y, y ∈ l -> y ∈ concat L)
    by (intros y Hy; apply elem_concat; eauto).
  assert (Hbnot : b ∉ concat L).
  { intros Hin. specialize (Hfar b Hin). zl. }
  destruct (Hlinks _ _ Hl) as [Hhead Hlk]. rewrite Z2Nat.id in Hhead by lia.
  destruct (add_to_free_list_spec m sl i l b)
    as (m' & sl' & Hadd & Hlen' & Hhead' & Hother & Hlk' & Hframe).
  { lia. }
  { rewrite Hsl. lia. }
  { intros y Hy. apply elem_of_cons in Hy. destruct Hy as [->|Hy]; [lia|].
    apply Hrange. now apply Hsub. }
  { cbn [apart]. split.
    - apply Forall_forall. intros y Hy. specialize (Hfar y (Hsub y Hy)). lia.
    - apply apart_intro; [exact (NoDup_concat_lookup _ _ _ Hnd Hl)|].
      intros y z Hy Hz. apply Hsep; now apply Hsub. }
  { reflexivity. }
  { exact Hhead. }
  { exact Hlk. }
  exists m', sl'. split; [exact Hadd|].
  assert (Hframe' : forall t, t <> b + 8 -> t <> b + 16 ->
            (forall y, y ∈ concat L -> t <> y + 8) -> load m' t = load m t).
  { intros t H1 H2 H3. apply Hframe; [exact H1 | exact H2 |].
    intros y Hy. apply H3. now apply Hsub. }
  split; [|exact Hframe'].
  assert (Hhdr : forall x, x = b \/ x ∈ concat L -> load m' x = load m x).
  { intros x Hx. apply Hframe'.
    - destruct Hx as [->|Hx]; [lia|]. specialize (Hfar x Hx). zl.
    - destruct Hx as [->|Hx]; [lia|]. specialize (Hfar x Hx). zl.
    - intros y Hy. destruct Hx as [->|Hx].
      + specialize (Hfar y Hy). zl.
      + destruct (Hsep x y Hx Hy) as [->|Hxy]; zl. }
  assert (Hin' : forall x, x ∈ concat (enlist b (Z.to_nat i) L) ->
                   x = b \/ x ∈ concat L)
    by (intros x; now apply concat_enlist).
  split.
  - rewrite Hlen'. exact Hsl.
  - unfold enlist. rewrite length_alter. exact HL.
  - intros j lj Hj. unfold enlist in Hj.
    destruct (Nat.eq_dec j (Z.to_nat i)) as [->|Hne].
    + rewrite list_lookup_alter_eq, Hl in Hj. simpl in Hj. injection Hj as <-.
      rewrite Z2Nat.id by lia. split; [exact Hhead' | exact Hlk'].
    + rewrite list_lookup_alter_ne in Hj by congruence.
      destruct (Hlinks _ _ Hj) as [Hh0 Hlk0]. split.
      * unfold seglist in *. rewrite Nat2Z.id in *. rewrite Hother by lia.
        exact Hh0.
      * apply (links_frame m); [exact Hlk0|]. intros y Hy.
        assert (Hyc : y ∈ concat L) by (apply elem_concat; eauto).
        destruct (Hrange y Hyc) as [Hy0 Hy1].
        pose proof (Hfar y Hyc) as Hyb.
        assert (Hyz : forall z, z ∈ l ->
                        y + min_block_size <= z \/ z + min_block_size <= y).
        { intros z Hz. destruct (Hsep y z Hyc (Hsub z Hz)) as [-> | H']; [|exact H'].
          exfalso. pose proof (Hclass _ _ _ Hj Hy) as H1.
          pose proof (Hclass _ _ _ Hl Hz) as H2. lia. }
        addr. split; apply Hframe; try zl;
          intros z Hz; pose proof (Hyz z Hz); zl.
  - intros j lj x Hj Hx. unfold enlist in Hj.
    assert (Hxin : x = b \/ x ∈ concat L).
    { apply Hin'. apply elem_concat. eauto. }
    rewrite (find_list_same m m') by (now apply Hhdr).
    destruct (Nat.eq_dec j (Z.to_nat i)) as [->|Hne].
    + rewrite list_lookup_alter_eq, Hl in Hj. simpl in Hj. injection Hj as <-.
      apply elem_of_cons in Hx. destruct Hx as [->|Hx]; [unfold i; lia|].
      exact (Hclass _ _ _ Hl Hx).
    + rewrite list_lookup_alter_ne in Hj by congruence.
      exact (Hclass _ _ _ Hj Hx).
  - now apply NoDup_concat_enlist.
  - intros y Hy. destruct (Hin' y Hy) as [->|Hy']; [lia | now apply Hrange].
  - intros y z Hy Hz.
    destruct (Hin' y Hy) as [->|Hy'], (Hin' z Hz) as [->|Hz'].
    + now left.
    + right. specialize (Hfar z Hz'). lia.
    + right. specialize (Hfar y Hy'). lia.
    + now apply Hsep.
Qed.

End Add.

(** ** Rewriting a region of the heap *)

Section Regions.
Import WordFacts.

(** a chain only depends on the words between its ends *)
Lemma chain_frame_range m m' a pa bs e :
  chain m a pa bs e ->
  (forall t, a <= t < e -> load m' t = load m t) ->
  chain m' a pa bs e.
Proof.
  intros Hc Hsame. apply (chain_frame m); [exact Hc|].
  destruct (chain_bounds _ _ _ _ _ Hc) as [_ Hin].
  intros x Hx. destruct (Hin x Hx) as (? & ? & ? & ?).
  split; apply Hsame; zl.
Qed.

Lemma total_app bs1 bs2 : total (bs1 ++ bs2) = total bs1 + total bs2.
Proof.
  unfold total. induction bs1 as [|x bs1 IH]; simpl; [lia|].
  rewrite IH. lia.
Qed.

Lemma total_cons x bs : total (x :: bs) = blk_size x + total bs.
Proof. reflexivity. Qed.

(** the parts of a layout *)
Lemma layout_parts m hs pre mid post e :
  heap_layout m hs (pre ++ mid ++ post) e <->
  wsize <= hs /\ e + wsize <= Word.modulus
  /\ chain m hs true pre (hs + total pre)
  /\ chain m (hs + total pre) (last_alloc true pre) mid
       (hs + total pre + total mid)
  /\ chain m (hs + total pre + total mid)
       (last_alloc (last_alloc true pre) mid) post e
  /\ load m e
     = pack 0 true (last_alloc (last_alloc (last_alloc true pre) mid) post).
Proof.
  split.
  - intros [Hlow Hhigh Hchain Hepi].
    apply chain_app in Hchain. destruct Hchain as (a & Hpre & Hrest).
    apply chain_app in Hrest. destruct Hrest as (a' & Hmid & Hpost).
    pose proof (chain_total _ _ _ _ _ Hpre) as ->.
    pose proof (chain_total _ _ _ _ _ Hmid) as ->.
    rewrite !last_alloc_app in Hepi. tauto.
  - intros (Hlow & Hhigh & Hpre & Hmid & Hpost & Hepi).
    split; [exact Hlow | exact Hhigh | |].
    + apply chain_app. eexists. split; [exact Hpre|].
      apply chain_app. eexists. split; [exact Hmid | exact Hpost].
    + rewrite !last_alloc_app. exact Hepi.
Qed.

(** [write_block next (get_size next) (get_alloc next) pa]: the header after
    a rewritten region takes the new status of its predecessor *)
Lemma retag_next m a pa0 post e pa :
  chain m a pa0 post e -> load m e = pack 0 true (last_alloc pa0 post) ->
  0 <= a -> e + wsize <= Word.modulus ->
  let m' := write_block m a (get_size m a) (get_alloc m a) pa in
  chain m' a pa post e
  /\ load m' e = pack 0 true (last_alloc pa post)
  /\ (forall t, t < a -> load m' t = load m t)
  /\ (forall y, y ∈ post ->
        load m' (blk_addr y + 8) = load m (blk_addr y + 8)
        /\ load m' (blk_addr y + 16) = load m (blk_addr y + 16)
        /\ get_size m' (blk_addr y) = get_size m (blk_addr y))
  /\ (forall t, e < t -> load m' t = load m t).
Proof.
  intros Hc Hepi Ha He m'.
  destruct (chain_bounds _ _ _ _ _ Hc) as [Hae Hin].
  destruct post as [|n post'].
  - cbn [chain] in Hc. subst a. rewrite last_alloc_nil in Hepi.
    destruct (header_fields m e 0 true pa0 Hepi ltac:(zl) eq_refl) as (Hs & Hal & _).
    unfold m'. rewrite Hs, Hal, write_block_alloc.
    split; [reflexivity|]. rewrite last_alloc_nil.
    split; [apply load_store_eq|].
    split; [intros t Ht; apply load_store_ne; lia|].
    split; [intros y Hy; inversion Hy|].
    intros t Ht. apply load_store_ne. lia.
  - cbn [chain] in Hc. destruct Hc as (Hn & (Hmin & Hal & Hh & Hf) & Hrest).
    destruct (chain_bounds _ _ _ _ _ Hrest) as [Hne Hin'].
    subst a.
    destruct (header_fields m _ _ _ _ Hh ltac:(zl) Hal) as (Hs & Ha' & _).
    assert (Hm' : forall t, t <> blk_addr n ->
                    t <> blk_addr n + blk_size n - wsize -> load m' t = load m t).
    { intros t H1 H2. unfold m'. rewrite Hs, Ha'.
      destruct (blk_alloc n).
      - rewrite write_block_alloc. apply load_store_ne. congruence.
      - rewrite write_block_free by zl. rewrite !load_store_ne by congruence.
        reflexivity. }
    assert (Hhdr : load m' (blk_addr n) = pack (blk_size n) (blk_alloc n) pa).
    { unfold m'. rewrite Hs, Ha'. destruct (blk_alloc n).
      - rewrite write_block_alloc. apply load_store_eq.
      - rewrite write_block_free by zl. mem_simpl. reflexivity. }
    split; [|split; [|split; [|split]]].
    5:{ intros t Ht. apply Hm'; zl. }
    + cbn [chain]. split; [reflexivity|]. split.
      * split; [exact Hmin|]. split; [exact Hal|]. split; [exact Hhdr|].
        intros Hfree. unfold m'. rewrite Hs, Ha', Hfree.
        rewrite write_block_free by zl. apply load_store_eq.
      * apply (chain_frame_range m); [exact Hrest|].
        intros t Ht. apply Hm'; zl.
    + rewrite Hm' by zl. rewrite Hepi, !last_alloc_cons. reflexivity.
    + intros t Ht. apply Hm'; zl.
    + intros y Hy. apply elem_of_cons in Hy. destruct Hy as [->|Hy].
      * rewrite !Hm' by zl. split; [reflexivity|]. split; [reflexivity|].
        destruct (header_fields m' _ _ _ _ Hhdr ltac:(zl) Hal) as (-> & _).
        now rewrite Hs.
      * destruct (Hin' y Hy) as (? & ? & ? & ?).
        rewrite !Hm' by zl. split; [reflexivity|]. split; [reflexivity|].
        apply get_size_same. apply Hm'; zl.
Qed.

(** the lists only depend on the link fields and the sizes of the listed
    blocks *)
Lemma free_lists_frame m m' sl L bs bs' :
  free_lists m sl L bs ->
  (forall y, y ∈ concat L ->
     load m' (prev_link y) = load m (prev_link y)
     /\ load m' (next_link y) = load m (next_link y)
     /\ get_size m' y = get_size m y) ->
  (forall a, (exists x, x ∈ bs /\ blk_addr x = a /\ blk_alloc x = false)
             <-> (exists x, x ∈ bs' /\ blk_addr x = a /\ blk_alloc x = false)) ->
  free_lists m' sl L bs'.
Proof.
  intros [Hsl HL Hlinks Hclass Hnd Hfree] Hsame Hbs.
  split; try assumption.
  - intros i l Hl. destruct (Hlinks _ _ Hl) as [Hh Hlk]. split; [exact Hh|].
    apply (links_frame m); [exact Hlk|]. intros y Hy.
    assert (Hyc : y ∈ concat L) by (apply elem_concat; eauto).
    destruct (Hsame y Hyc) as (H1 & H2 & _). split; assumption.
  - intros i l x Hl Hx.
    assert (Hxc : x ∈ concat L) by (apply elem_concat; eauto).
    destruct (Hsame x Hxc) as (_ & _ & H3).
    unfold find_list_for_block. rewrite H3. now apply (Hclass _ _ _ Hl).
  - intros a. rewrite Hfree. apply Hbs.
Qed.

Lemma outside_refl lo hi m : outside lo hi m m.
Proof. intros t _. reflexivity. Qed.

Lemma outside_trans lo hi m1 m2 m3 :
  outside lo hi m1 m2 -> outside lo hi m2 m3 -> outside lo hi m1 m3.
Proof. intros H1 H2 t Ht. now rewrite H2, H1. Qed.

Lemma outside_wider lo hi lo' hi' m m' :
  outside lo hi m m' -> lo' <= lo -> hi <= hi' -> outside lo' hi' m m'.
Proof. intros H Hlo Hhi t Ht. apply H. lia. Qed.

Lemma coalesced_app pa bs1 bs2 :
  coalesced pa (bs1 ++ bs2)
  <-> coalesced pa bs1 /\ coalesced (last_alloc pa bs1) bs2.
Proof.
  revert pa. induction bs1 as [|x bs1 IH]; intros pa; cbn [app coalesced].
  - rewrite last_alloc_nil. tauto.
  - rewrite IH, last_alloc_cons. tauto.
Qed.

(** whatever comes before an allocated block may change *)
Lemma coalesced_weaken pa bs : coalesced pa bs -> coalesced true bs.
Proof.
  destruct bs as [|x bs]; cbn [coalesced]; [tauto|].
  intros [_ H]. split; [discriminate | exact H].
Qed.

(** the blocks of a heap other than the one at [pre ++ _ :: post] keep away
    from it *)
Lemma layout_neighbours m hs pre f post e :
  heap_layout m hs (pre ++ f :: post) e ->
  wsize <= blk_addr f /\ blk_addr f + blk_size f <= e
  /\ min_block_size <= blk_size f /\ blk_size f mod 16 = 0
  /\ blk_addr f = hs + total pre
  /\ (forall y, y ∈ pre -> hs <= blk_addr y /\ blk_addr y + blk_size y <= blk_addr f
                           /\ min_block_size <= blk_size y)
  /\ (forall y, y ∈ post -> blk_addr f + blk_size f <= blk_addr y
                            /\ blk_addr y + blk_size y <= e
                            /\ min_block_size <= blk_size y).
Proof.
  intros Hlay. apply (layout_parts m hs pre [f] post e) in Hlay.
  destruct Hlay as (Hlow & Hhigh & Hpre & Hmid & Hpost & Hepi).
  cbn [chain] in Hmid. destruct Hmid as (Haddr & (Hmin & Hal & _) & _).
  cbn [total foldr] in Hpost. rewrite Z.add_0_r, <- Haddr in Hpost.
  rewrite <- Haddr in Hpre.
  destruct (chain_bounds _ _ _ _ _ Hpre) as [Hb1 Hin1].
  destruct (chain_bounds _ _ _ _ _ Hpost) as [Hb3 Hin3].
  split; [zl|]. split; [lia|]. split; [exact Hmin|]. split; [exact Hal|].
  split; [exact Haddr|]. split.
  - intros y Hy. destruct (Hin1 y Hy) as (? & ? & ? & ?). lia.
  - intros y Hy. destruct (Hin3 y Hy) as (? & ? & ? & ?). lia.
Qed.

End Regions.

(** ** Freeing a block *)

Section FreeCore.
Import WordFacts.

Lemma allocated_app bs1 bs2 :
  allocated (bs1 ++ bs2) = allocated bs1 ++ allocated bs2.
Proof. unfold allocated. apply filter_app. Qed.

Lemma allocated_free x bs : blk_alloc x = false -> allocated (x :: bs) = allocated bs.
Proof.
  intros H. unfold allocated. rewrite filter_cons_False; [reflexivity|].
  rewrite H. discriminate.
Qed.

(** the first two [write_block]s of [_free]: the block is tagged free and
    the header after it records that *)
Lemma mark_free m hs pre b post e :
  heap_layout m hs (pre ++ b :: post) e -> blk_alloc b = true ->
  let block := blk_addr b in
  let m1 := write_block m block (get_size m block) false (get_prev_alloc m block) in
  let next := find_next m1 block in
  let m2 := write_block m1 next (get_size m1 next) (get_alloc m1 next) false in
  heap_layout m2 hs
    (pre ++ {| blk_addr := blk_addr b; blk_size := blk_size b;
               blk_alloc := false |} :: post) e
  /\ (forall y, y ∈ pre ++ post ->
        load m2 (blk_addr y + 8) = load m (blk_addr y + 8)
        /\ load m2 (blk_addr y + 16) = load m (blk_addr y + 16)
        /\ get_size m2 (blk_addr y) = get_size m (blk_addr y))
  /\ outside hs e m m2.
Proof.
  intros Hlay Hb block m1 next m2.
  apply (layout_parts m hs pre [b] post e) in Hlay.
  destruct Hlay as (Hlow & Hhigh & Hpre & Hmid & Hpost & Hepi).
  set (pa := last_alloc true pre) in *.
  rewrite last_alloc_cons, last_alloc_nil, Hb in Hpost, Hepi.
  cbn [chain] in Hmid. destruct Hmid as (Haddr & (Hmin & Hal & Hh & _) & Hend).
  rewrite Hb in Hh. fold block in Haddr, Hh.
  clear Hend. cbn [total foldr] in Hpost. rewrite Z.add_0_r in Hpost.
  rewrite <- Haddr in Hpre, Hpost. fold block in Hpre, Hpost.
  set (s := blk_size b) in *.
  destruct (chain_bounds _ _ _ _ _ Hpre) as [Hb1 Hin1].
  destruct (chain_bounds _ _ _ _ _ Hpost) as [Hb3 Hin3].
  destruct (header_fields m block s true pa Hh ltac:(zl) Hal) as (Hs & _ & Hpa).
  assert (Hm1 : m1 = store (store m block (pack s false pa)) (block + s - wsize)
                       (pack s false pa)).
  { unfold m1. rewrite Hs, Hpa. apply write_block_free; zl. }
  assert (Hoth1 : forall t, t <> block -> t <> block + s - wsize ->
                    load m1 t = load m t).
  { intros t H1 H2. rewrite Hm1, !load_store_ne by congruence. reflexivity. }
  assert (Hhdr1 : load m1 block = pack s false pa)
    by (rewrite Hm1; mem_simpl; reflexivity).
  assert (Hftr1 : load m1 (block + s - wsize) = pack s false pa)
    by (rewrite Hm1; mem_simpl; reflexivity).
  destruct (header_fields m1 block s false pa Hhdr1 ltac:(zl) Hal) as (Hs1 & _ & _).
  assert (Hnext : next = block + s).
  { unfold next, find_next. rewrite Hs1. apply padd_small. zl. }
  assert (Hpost1 : chain m1 (block + s) true post e).
  { apply (chain_frame_range m); [exact Hpost|]. intros t Ht. apply Hoth1; zl. }
  assert (Hepi1 : load m1 e = pack 0 true (last_alloc true post))
    by (rewrite Hoth1 by zl; exact Hepi).
  destruct (retag_next m1 (block + s) true post e false Hpost1 Hepi1
              ltac:(zl) Hhigh) as (Hpost2 & Hepi2 & Hlow2 & Hin2 & Hup2).
  rewrite <- Hnext in Hpost2, Hepi2, Hlow2, Hin2, Hup2.
  fold m2 in Hpost2, Hepi2, Hlow2, Hin2, Hup2.
  split; [|split].
  3:{ intros t [Ht|Ht].
      - rewrite Hlow2, Hoth1 by zl. reflexivity.
      - rewrite Hup2, Hoth1 by zl. reflexivity. }
  - apply (layout_parts m2 hs pre [_] post e).
    split; [exact Hlow|]. split; [exact Hhigh|].
    rewrite last_alloc_cons, last_alloc_nil. cbn [blk_alloc].
    cbn [total foldr blk_size]. rewrite Z.add_0_r, <- Haddr.
    fold block s pa.
    split; [|split; [|split]].
    + apply (chain_frame_range m); [exact Hpre|]. intros t Ht.
      rewrite Hlow2, Hoth1 by zl. reflexivity.
    + cbn [chain]. unfold tagged. cbn [blk_addr blk_size blk_alloc].
      fold block s. split; [reflexivity|]. split; [|reflexivity].
      split; [exact Hmin|]. split; [exact Hal|].
      rewrite !Hlow2 by zl.
      split; [exact Hhdr1 | intros _; exact Hftr1].
    + rewrite <- Hnext. exact Hpost2.
    + exact Hepi2.
  - intros y Hy. apply elem_of_app in Hy. destruct Hy as [Hy|Hy].
    + destruct (Hin1 y Hy) as (? & ? & ? & ?).
      rewrite !Hlow2, !Hoth1 by zl.
      split; [reflexivity|]. split; [reflexivity|].
      apply get_size_same. rewrite Hlow2, Hoth1 by zl. reflexivity.
    + destruct (Hin3 y Hy) as (? & ? & ? & ?).
      destruct (Hin2 y Hy) as (Hy1 & Hy2 & Hy3).
      rewrite Hy1, Hy2, Hy3, !Hoth1 by zl.
      split; [reflexivity|]. split; [reflexivity|].
      apply get_size_same. apply Hoth1; zl.
Qed.

End FreeCore.

Section FreeHeap.
Import WordFacts.

Lemma coalesced_after_free pa post :
  coalesced pa post -> next_free post = false -> coalesced false post.
Proof.
  destruct post as [|n post']; cbn [coalesced next_free]; [tauto|].
  intros [_ H] Hn. split; [|exact H]. intros _.
  now destruct (blk_alloc n).
Qed.

Lemma coalesced_tail pa n post :
  coalesced pa (n :: post) -> blk_alloc n = false -> coalesced false post.
Proof. cbn [coalesced]. intros [_ H] Hn. now rewrite Hn in H. Qed.

Lemma coalesced_before pa pre0 p :
  coalesced pa (pre0 ++ [p]) -> blk_alloc p = false -> pa = true ->
  coalesced pa pre0 /\ last_alloc pa pre0 = true.
Proof.
  intros H Hp Hpa. apply coalesced_app in H. destruct H as [H1 H2].
  split; [exact H1|]. cbn [coalesced] in H2. destruct H2 as [H2 _].
  destruct (last_alloc pa pre0); [reflexivity|].
  specialize (H2 eq_refl). congruence.
Qed.

(** one free block among allocated neighbours *)
Lemma coalesced_around pre f post :
  coalesced true pre -> last_alloc true pre = true -> coalesced false post ->
  blk_alloc f = false -> coalesced true (pre ++ f :: post).
Proof.
  intros H1 H2 H3 Hf. apply coalesced_app. split; [exact H1|].
  rewrite H2. cbn [coalesced]. rewrite Hf. split; [discriminate | exact H3].
Qed.

(** [coalesce_block] on a heap: the free block [f] it returns takes the
    place of the block and of its free neighbours *)
Lemma coalesce_layout m sl L hs pre b post e :
  heap_layout m hs (pre ++ b :: post) e -> blk_alloc b = false ->
  free_lists m sl L (pre ++ post) ->
  exists m' sl' L' pre' f post',
    coalesce_block m sl (blk_addr b) = Ok (blk_addr f, (m', sl'))
    /\ blk_alloc f = false
    /\ heap_layout m' hs (pre' ++ f :: post') e
    /\ free_lists m' sl' L' (pre' ++ post')
    /\ allocated (pre' ++ post') = allocated (pre ++ post)
    /\ blk_addr f <= blk_addr b
    /\ blk_addr b + blk_size b <= blk_addr f + blk_size f
    /\ (coalesced true pre -> coalesced true post ->
        coalesced true (pre' ++ f :: post')).
Proof.
  intros Hlay Hb Hfl.
  destruct (last_alloc true pre) eqn:Hpa.
  - destruct (next_free post) eqn:Hnf.
    + destruct post as [|n post']; [discriminate|]. cbn [next_free] in Hnf.
      assert (Hn : blk_alloc n = false) by (now destruct (blk_alloc n)).
      destruct (coalesce_case_10 m sl L hs pre b n post' e Hlay Hb Hfl Hpa Hn)
        as (m' & sl' & Hrun & _ & _ & _ & Hlay' & Hfl' & _ & _).
      exists m', sl', (unlist (blk_addr n) L), pre,
        {| blk_addr := blk_addr b; blk_size := blk_size b + blk_size n;
           blk_alloc := false |}, post'.
      cbn [blk_addr blk_size blk_alloc].
      split; [exact Hrun|]. split; [reflexivity|]. split; [exact Hlay'|].
      split; [exact Hfl'|].
      split; [now rewrite !allocated_app, (allocated_free n)|].
      split; [lia|].
      pose proof (hl_chain _ _ _ _ Hlay) as Hc.
      destruct (chain_bounds _ _ _ _ _ Hc) as [_ Hin].
      destruct (Hin n ltac:(apply elem_of_app; right; right; left)) as (? & ? & ? & ?).
      split; [zl|]. intros Hc1 Hc2.
      apply coalesced_around; [exact Hc1 | exact Hpa | | reflexivity].
      exact (coalesced_tail _ _ _ Hc2 Hn).
    + rewrite (coalesce_case_11 m sl hs pre b post e Hlay Hb Hpa Hnf).
      exists m, sl, L, pre, b, post.
      split; [reflexivity|]. split; [exact Hb|]. split; [exact Hlay|].
      split; [exact Hfl|]. split; [reflexivity|]. split; [lia|]. split; [lia|].
      intros Hc1 Hc2.
      apply coalesced_around; [exact Hc1 | exact Hpa | | exact Hb].
      exact (coalesced_after_free _ _ Hc2 Hnf).
  - destruct (snoc_cases pre) as [-> | (pre0 & p & ->)]; [discriminate|].
    rewrite last_alloc_snoc in Hpa.
    pose proof (hl_chain _ _ _ _ Hlay) as Hc.
    destruct (chain_bounds _ _ _ _ _ Hc) as [_ Hin].
    destruct (Hin p ltac:(apply elem_of_app; left; apply elem_of_app; right; left))
      as (Hp1 & Hp2 & Hp3 & Hp4).
    apply chain_app in Hc. destruct Hc as (a & Hcpre & Hcb).
    apply chain_app in Hcpre. destruct Hcpre as (a0 & _ & Hcp).
    cbn [chain] in Hcp, Hcb. destruct Hcp as (Hpaddr & _ & Hpend).
    destruct Hcb as (Hbaddr & _ & _). rewrite <- Hpend, <- Hpaddr in Hbaddr.
    destruct (next_free post) eqn:Hnf.
    + destruct post as [|n post']; [discriminate|]. cbn [next_free] in Hnf.
      assert (Hn : blk_alloc n = false) by (now destruct (blk_alloc n)).
      destruct (coalesce_case_00 m sl L hs pre0 p b n post' e Hlay Hb Hfl Hpa Hn)
        as (m' & sl' & Hrun & _ & _ & _ & _ & _ & _ & Hlay' & Hfl' & _ & _).
      exists m', sl', (unlist (blk_addr p) (unlist (blk_addr n) L)), pre0,
        {| blk_addr := blk_addr p; blk_size := blk_size p + blk_size b + blk_size n;
           blk_alloc := false |}, post'.
      cbn [blk_addr blk_size blk_alloc].
      split; [exact Hrun|]. split; [reflexivity|]. split; [exact Hlay'|].
      split; [exact Hfl'|].
      split.
      { rewrite !allocated_app, (allocated_free n) by exact Hn.
        rewrite (allocated_free p [] Hpa), app_nil_r. reflexivity. }
      destruct (Hin n ltac:(apply elem_of_app; right; right; left)) as (? & ? & ? & ?).
      split; [zl|]. split; [zl|]. intros Hc1 Hc2.
      destruct (coalesced_before _ _ _ Hc1 Hpa eq_refl) as [Hc0 Hl0].
      apply coalesced_around; [exact Hc0 | exact Hl0 | | reflexivity].
      exact (coalesced_tail _ _ _ Hc2 Hn).
    + destruct (coalesce_case_01 m sl L hs pre0 p b post e Hlay Hb Hfl Hpa Hnf)
        as (m' & sl' & Hrun & _ & _ & _ & Hlay' & Hfl' & _ & _).
      exists m', sl', (unlist (blk_addr p) L), pre0,
        {| blk_addr := blk_addr p; blk_size := blk_size p + blk_size b;
           blk_alloc := false |}, post.
      cbn [blk_addr blk_size blk_alloc].
      split; [exact Hrun|]. split; [reflexivity|]. split; [exact Hlay'|].
      split; [exact Hfl'|].
      split.
      { rewrite !allocated_app. rewrite (allocated_free p [] Hpa), app_nil_r.
        reflexivity. }
      split; [zl|]. split; [zl|]. intros Hc1 Hc2.
      destruct (coalesced_before _ _ _ Hc1 Hpa eq_refl) as [Hc0 Hl0].
      apply coalesced_around; [exact Hc0 | exact Hl0 | | reflexivity].
      exact (coalesced_after_free _ _ Hc2 Hnf).
Qed.

(** [add_to_free_list] of a free block of the heap that is on no list yet *)
Lemma add_free_block m sl L hs pre f post e :
  heap_layout m hs (pre ++ f :: post) e -> blk_alloc f = false ->
  free_lists m sl L (pre ++ post) ->
  exists m' sl',
    add_to_free_list m sl (blk_addr f) = (m', sl')
    /\ heap_layout m' hs (pre ++ f :: post) e
    /\ free_lists m' sl'
         (enlist (blk_addr f) (Z.to_nat (find_list_for_block m (blk_addr f))) L)
         (pre ++ f :: post).
Proof.
  intros Hlay Hf Hfl.
  pose proof (lists_wf_start _ _ _ _ _ _ _ _ Hlay Hfl) as Hwf.
  pose proof (hl_low _ _ _ _ Hlay) as Hlow.
  pose proof (hl_high _ _ _ _ Hlay) as Hhigh.
  pose proof (hl_chain _ _ _ _ Hlay) as Hc.
  destruct (chain_bounds _ _ _ _ _ Hc) as [_ Hin].
  assert (Hfin : f ∈ pre ++ f :: post) by (apply elem_of_app; right; left).
  destruct (Hin f Hfin) as (Hf1 & Hf2 & Hf3 & Hf4).
  assert (Hlisted : forall y, y ∈ concat L ->
            exists x, x ∈ pre ++ f :: post /\ x <> f /\ blk_addr x = y).
  { intros y Hy. apply (fl_free _ _ _ _ Hfl) in Hy.
    destruct Hy as (x & Hx & Hxa & Hxf). exists x.
    split; [now apply others_in_layout|]. split; [|exact Hxa].
    intros ->.
    apply chain_app in Hc. destruct Hc as (a & Hcpre & Hcf).
    cbn [chain] in Hcf. destruct Hcf as (Hfa & _ & Hcpost).
    destruct (chain_bounds _ _ _ _ _ Hcpre) as [_ Hin1].
    destruct (chain_bounds _ _ _ _ _ Hcpost) as [_ Hin3].
    apply elem_of_app in Hx. destruct Hx as [Hx|Hx].
    - destruct (Hin1 f Hx) as (? & ? & ? & ?). zl.
    - destruct (Hin3 f Hx) as (? & ? & ? & ?). zl. }
  assert (Hfar : forall y, y ∈ concat L ->
            y + min_block_size <= blk_addr f \/ blk_addr f + min_block_size <= y).
  { intros y Hy. destruct (Hlisted y Hy) as (x & Hx & Hne & <-).
    destruct (Hin x Hx) as (? & ? & ? & ?).
    destruct (chain_disjoint _ _ _ _ _ x f Hc Hx Hfin) as [->|Hd];
      [contradiction | zl]. }
  destruct (add_listed m sl L (blk_addr f) Hwf ltac:(zl) ltac:(zl) Hfar)
    as (m' & sl' & Hadd & Hwf' & Hframe).
  exists m', sl'. split; [exact Hadd|]. split.
  - apply (heap_layout_frame m); [exact Hlay|]. intros t Ht.
    destruct (Ht f Hfin) as [Ht1 Ht2].
    apply Hframe; [exact Ht1 | exact Ht2 |].
    intros y Hy. destruct (Hlisted y Hy) as (x & Hx & _ & <-).
    now destruct (Ht x Hx).
  - destruct Hwf' as [Hsl' HL' Hlinks' Hclass' Hnd' _ _].
    split; try assumption.
    intros a. rewrite concat_enlist
      by (rewrite (fl_lists _ _ _ _ Hfl);
          assert (Hi : 0 <= find_list_for_block m (blk_addr f) < 15)
            by (rewrite find_list_for_block_bits;
                pose proof (bits_nonneg (Z.shiftr (get_size m (blk_addr f)) 6));
                unfold MAXLISTS; lia);
          change (Z.to_nat MAXLISTS) with 15%nat; lia).
    rewrite (fl_free _ _ _ _ Hfl). split.
    + intros [->|(x & Hx & Hxa & Hxf)].
      * exists f. split; [exact Hfin|]. split; [reflexivity | exact Hf].
      * exists x. split; [now apply others_in_layout|]. split; assumption.
    + intros (x & Hx & Hxa & Hxf).
      apply elem_of_app in Hx. destruct Hx as [Hx|Hx].
      * right. exists x. split; [apply elem_of_app; now left|]. split; assumption.
      * apply elem_of_cons in Hx. destruct Hx as [->|Hx]; [now left|].
        right. exists x. split; [apply elem_of_app; now right|]. split; assumption.
Qed.

(** the body of [_free] after the NULL test, the same in every variant *)
Lemma free_core m sl L hs pre b post e :
  heap_layout m hs (pre ++ b :: post) e -> blk_alloc b = true ->
  free_lists m sl L (pre ++ b :: post) ->
  let block := blk_addr b in
  let m1 := write_block m block (get_size m block) false (get_prev_alloc m block) in
  let next := find_next m1 block in
  let m2 := write_block m1 next (get_size m1 next) (get_alloc m1 next) false in
  exists f m3 sl3 m4 sl4 bs' L',
    coalesce_block m2 sl block = Ok (blk_addr f, (m3, sl3))
    /\ add_to_free_list m3 sl3 (blk_addr f) = (m4, sl4)
    /\ heap_layout m4 hs bs' e
    /\ free_lists m4 sl4 L' bs'
    /\ allocated bs' = allocated (pre ++ post)
    /\ f ∈ bs' /\ blk_alloc f = false
    /\ blk_addr f <= blk_addr b
    /\ blk_addr b + blk_size b <= blk_addr f + blk_size f
    /\ (coalesced true (pre ++ b :: post) -> coalesced true bs').
Proof.
  intros Hlay Hb Hfl block m1 next m2.
  destruct (mark_free m hs pre b post e Hlay Hb) as (Hlay2 & Hsame & _).
  fold block m1 next m2 in Hlay2, Hsame.
  set (b' := {| blk_addr := blk_addr b; blk_size := blk_size b;
                blk_alloc := false |}) in *.
  pose proof (hl_chain _ _ _ _ Hlay) as Hc.
  destruct (chain_bounds _ _ _ _ _ Hc) as [_ Hin].
  pose proof (hl_low _ _ _ _ Hlay) as Hlow.
  pose proof (hl_high _ _ _ _ Hlay) as Hhigh.
  assert (Hfl2 : free_lists m2 sl L (pre ++ post)).
  { apply (free_lists_frame m m2 sl L (pre ++ b :: post)); [exact Hfl | |].
    - intros y Hy. apply (fl_free _ _ _ _ Hfl) in Hy.
      destruct Hy as (x & Hx & <- & Hxf).
      destruct (Hin x Hx) as (? & ? & ? & ?).
      assert (Hx' : x ∈ pre ++ post).
      { apply elem_of_app in Hx. apply elem_of_app.
        destruct Hx as [Hx|Hx]; [now left|].
        apply elem_of_cons in Hx. destruct Hx as [->|Hx]; [congruence | now right]. }
      addr. exact (Hsame x Hx').
    - intros a. split; intros (x & Hx & Hxa & Hxf); exists x;
        (split; [|split; assumption]).
      + apply elem_of_app in Hx. apply elem_of_app.
        destruct Hx as [Hx|Hx]; [now left|].
        apply elem_of_cons in Hx. destruct Hx as [->|Hx]; [congruence | now right].
      + now apply others_in_layout. }
  destruct (coalesce_layout m2 sl L hs pre b' post e Hlay2 eq_refl Hfl2)
    as (m3 & sl3 & L3 & pre' & f & post' & Hrun & Hf & Hlay3 & Hfl3 & Hal3
        & Hlo & Hhi & Hco).
  destruct (add_free_block m3 sl3 L3 hs pre' f post' e Hlay3 Hf Hfl3)
    as (m4 & sl4 & Hadd & Hlay4 & Hfl4).
  exists f, m3, sl3, m4, sl4, (pre' ++ f :: post'),
    (enlist (blk_addr f) (Z.to_nat (find_list_for_block m3 (blk_addr f))) L3).
  split; [exact Hrun|]. split; [exact Hadd|]. split; [exact Hlay4|].
  split; [exact Hfl4|].
  split; [now rewrite allocated_app, (allocated_free f), <- allocated_app|].
  split; [apply elem_of_app; right; left|]. split; [exact Hf|].
  split; [exact Hlo|]. split; [exact Hhi|].
  intros Hcs. apply coalesced_app in Hcs. destruct Hcs as [Hc1 Hc2].
  cbn [coalesced] in Hc2. destruct Hc2 as [_ Hc2]. rewrite Hb in Hc2.
  now apply Hco.
Qed.

End FreeHeap.

(** ** Where the heap operations write *)

Section Writes.
Import WordFacts.

(** the blocks on the lists of a heap lie within it *)
Lemma listed_within m sl L hs bs others e :
  heap_layout m hs bs e -> (forall x, x ∈ others -> x ∈ bs) ->
  free_lists m sl L others ->
  forall y, y ∈ concat L -> hs <= y /\ y + min_block_size <= e.
Proof.
  intros Hlay Hsub Hfl y Hy. apply (fl_free _ _ _ _ Hfl) in Hy.
  destruct Hy as (x & Hx & <- & _).
  destruct (chain_bounds _ _ _ _ _ (hl_chain _ _ _ _ Hlay)) as [_ Hin].
  destruct (Hin x (Hsub x Hx)) as (? & ? & ? & ?). lia.
Qed.

(** [delete_from_free_list] writes link fields of listed blocks only *)
Lemma delete_writes m sl L a lo hi m' sl' :
  lists_wf m sl L -> a ∈ concat L ->
  (forall y, y ∈ concat L -> lo <= y /\ y + min_block_size <= hi) ->
  delete_from_free_list m sl a = (m', sl') -> outside lo hi m m'.
Proof.
  intros Hwf Ha Hin Hrun.
  destruct (delete_listed m sl L a Hwf Ha) as (m1 & sl1 & Hdel & _ & Hfr).
  rewrite Hdel in Hrun. injection Hrun as <- <-.
  intros t Ht. apply Hfr. intros y Hy. destruct (Hin y Hy). zl.
Qed.

(** [add_to_free_list] writes link fields of the block and of listed blocks
    only *)
Lemma add_writes m sl L b lo hi m' sl' :
  lists_wf m sl L ->
  0 < b -> b + min_block_size <= Word.modulus ->
  (forall y, y ∈ concat L -> y + min_block_size <= b \/ b + min_block_size <= y) ->
  (forall y, y ∈ concat L -> lo <= y /\ y + min_block_size <= hi) ->
  lo <= b -> b + min_block_size <= hi ->
  add_to_free_list m sl b = (m', sl') -> outside lo hi m m'.
Proof.
  intros Hwf Hb0 Hb1 Hfar Hin Hlo Hhi Hrun.
  destruct (add_listed m sl L b Hwf Hb0 Hb1 Hfar) as (m1 & sl1 & Hadd & _ & Hfr).
  rewrite Hadd in Hrun. injection Hrun as <- <-.
  intros t Ht. apply Hfr; [zl | zl |].
  intros y Hy. destruct (Hin y Hy). zl.
Qed.

(** the two [write_block]s that end [coalesce_block] write into the merged
    block and into the block after it *)
Lemma merge_writes m hs pre x mid post e :
  heap_layout m hs (pre ++ (x :: mid) ++ post) e ->
  (forall y, y ∈ x :: mid -> blk_alloc y = false) ->
  let r := blk_addr x in
  let S := blk_size x + total mid in
  let m2 := write_block m r S false (last_alloc true pre) in
  let nx := find_next m2 r in
  let m3 := write_block m2 nx (get_size m2 nx) (get_alloc m2 nx) false in
  outside hs e m m3.
Proof.
  intros [Hlow Hhigh Hchain Hepi] Hfree r S m2 nx m3.
  apply chain_app in Hchain. destruct Hchain as (r' & Hpre & Hrest).
  apply chain_app in Hrest. destruct Hrest as (mid_end & Hmid & Hpost).
  set (pab := last_alloc true pre) in *.
  rewrite (last_alloc_all_free pab x mid Hfree) in Hpost.
  pose proof (chain_total _ _ _ _ _ Hmid) as Hend.
  pose proof (chain_total_aligned _ _ _ _ _ Hmid) as [_ Hal].
  pose proof (chain_bounds _ _ _ _ _ Hpre) as [Hb1 Hin1].
  pose proof (chain_bounds _ _ _ _ _ Hpost) as [Hb3 Hin3].
  cbn [chain] in Hmid. destruct Hmid as (Hr & (Hmin & Hal1 & Hhx & Hfx) & Hmid).
  pose proof (chain_total_aligned _ _ _ _ _ Hmid) as [Hmid0 _].
  cbn [total foldr] in Hend, Hal. fold (total mid) in Hend, Hal.
  fold r in Hr. subst r'. fold S in Hend, Hal.
  assert (HS : min_block_size <= S) by (unfold S; lia).
  assert (Hm2 : m2 = store (store m r (pack S false pab)) (r + S - wsize)
                       (pack S false pab)).
  { unfold m2. apply write_block_free; zl. }
  assert (Hhdr2 : load m2 r = pack S false pab).
  { rewrite Hm2. mem_simpl. reflexivity. }
  assert (Hoth2 : forall t, t <> r -> t <> r + S - wsize -> load m2 t = load m t).
  { intros t H1 H2. rewrite Hm2. rewrite !load_store_ne by congruence. reflexivity. }
  destruct (header_fields m2 r S false pab Hhdr2 ltac:(zl) Hal) as (Hsz2 & _ & _).
  assert (Hnx : nx = r + S).
  { unfold nx, find_next. rewrite Hsz2. apply padd_small. zl. }
  assert (Hpost2 : chain m2 (r + S) false post e).
  { rewrite <- Hend. apply (chain_frame_range m); [exact Hpost|].
    intros t Ht. apply Hoth2; zl. }
  assert (Hepi2 : load m2 e = pack 0 true (last_alloc false post)).
  { rewrite Hoth2 by zl. rewrite Hepi.
    now rewrite !last_alloc_app, (last_alloc_all_free _ x mid Hfree). }
  destruct (retag_next m2 (r + S) false post e false Hpost2 Hepi2
              ltac:(zl) Hhigh) as (_ & _ & Hlow3 & _ & Hup3).
  rewrite <- Hnx in Hlow3, Hup3. fold m3 in Hlow3, Hup3.
  intros t [Ht|Ht].
  - rewrite Hlow3, Hoth2 by zl. reflexivity.
  - rewrite Hup3, Hoth2 by zl. reflexivity.
Qed.

(** [coalesce_block] on a free block of a heap writes between the start of
    the heap and its epilogue only *)
Lemma coalesce_writes m sl L hs pre b post e r m' sl' :
  heap_layout m hs (pre ++ b :: post) e -> blk_alloc b = false ->
  free_lists m sl L (pre ++ post) ->
  coalesce_block m sl (blk_addr b) = Ok (r, (m', sl')) ->
  outside hs e m m'.
Proof.
  intros Hlay Hb Hfl Hrun.
  pose proof (epilogue_word _ _ _ _ _ _ Hlay Hb) as Hepi.
  pose proof (lists_wf_start _ _ _ _ _ _ _ _ Hlay Hfl) as Hwf.
  pose proof (layout_block _ _ _ _ _ _ Hlay Hb)
    as (Hpre & Hpost & Hlo & Hhi & Hmin & Hsz & Hgpa & Hnext).
  pose proof (hl_low _ _ _ _ Hlay) as Hlow.
  pose proof (hl_high _ _ _ _ Hlay) as Hhigh.
  pose proof (listed_within m sl L hs _ _ e Hlay
                (others_in_layout pre b post) Hfl) as Hwithin.
  assert (Hoff : forall t, t < hs \/ e < t ->
            forall y, y ∈ concat L -> t <> y + 8 /\ t <> y + 16).
  { intros t Ht y Hy. destruct (Hwithin y Hy). zl. }
  destruct (last_alloc true pre) eqn:Hpa.
  - destruct (next_free post) eqn:Hnf.
    + (* only the next block is free *)
      destruct post as [|n post']; [discriminate|]. cbn [next_free] in Hnf.
      assert (Hn : blk_alloc n = false) by (now destruct (blk_alloc n)).
      destruct (layout_next m _ _ e Hpost Hepi ltac:(zl) Hhigh)
        as [Hna (Hnaddr & Hnsz & Hnhi & Hnmin)].
      cbn [next_free] in Hna. rewrite Hn in Hna. cbn [negb] in Hna.
      assert (Hlisted : blk_addr n ∈ concat L).
      { apply (fl_free _ _ _ _ Hfl). exists n.
        split; [|split; [reflexivity | exact Hn]]. apply elem_of_app. right. left. }
      destruct (delete_listed m sl L (blk_addr n) Hwf Hlisted)
        as (m1 & sl1 & Hdel & _ & Hfr1).
      assert (Hlay' : heap_layout m hs (pre ++ (b :: [n]) ++ post') e) by exact Hlay.
      assert (Hlay1 : heap_layout m1 hs (pre ++ (b :: [n]) ++ post') e).
      { apply (heap_layout_frame m); [exact Hlay'|]. intros t Ht. apply Hfr1.
        exact (listed_link_fields m sl L pre b (n :: post') t Hfl Ht). }
      pose proof (merge_writes m1 hs pre b [n] post' e Hlay1) as Hmw.
      cbv zeta in Hmw. cbn [total foldr] in Hmw. rewrite Z.add_0_r, Hpa in Hmw.
      unfold coalesce_block in Hrun. cbv zeta in Hrun.
      rewrite Hnext, Hgpa, Hna, Hsz, Hnsz in Hrun.
      cbn [andb negb] in Hrun. rewrite Hnaddr in Hdel. rewrite Hdel in Hrun.
      cbn [bind] in Hrun. rewrite wrap_small in Hrun by zl.
      replace (blk_addr b =? NULL) with false in Hrun
        by (symmetry; apply Z.eqb_neq; zl).
      injection Hrun as _ <- _.
      intros t Ht. rewrite Hmw.
      * apply Hfr1. now apply Hoff.
      * intros y Hy. apply elem_of_cons in Hy. destruct Hy as [->|Hy]; [exact Hb|].
        apply list_elem_of_singleton in Hy. now subst.
      * exact Ht.
    + rewrite (coalesce_case_11 m sl hs pre b post e Hlay Hb Hpa Hnf) in Hrun.
      injection Hrun as _ <- _. apply outside_refl.
  - destruct (layout_prev m hs _ _ Hpre Hpa Hlow ltac:(zl))
      as (pre0 & p & -> & Hp & Hpre0 & Hprev & Hpaddr & Hpmin & Hpsz & _).
    pose proof (chain_bounds _ _ _ _ _ Hpre0) as [Hle0 Hin1].
    assert (Hplisted : blk_addr p ∈ concat L).
    { apply (fl_free _ _ _ _ Hfl). exists p.
      split; [|split; [reflexivity | exact Hp]].
      apply elem_of_app. left. apply elem_of_app. right. left. }
    destruct (next_free post) eqn:Hnf.
    + (* both neighbours are free *)
      destruct post as [|n post']; [discriminate|]. cbn [next_free] in Hnf.
      assert (Hn : blk_alloc n = false) by (now destruct (blk_alloc n)).
      destruct (layout_next m _ _ e Hpost Hepi ltac:(zl) Hhigh)
        as [Hna (Hnaddr & Hnsz & Hnhi & Hnmin)].
      cbn [next_free] in Hna. rewrite Hn in Hna. cbn [negb] in Hna.
      assert (Hnlisted : blk_addr n ∈ concat L).
      { apply (fl_free _ _ _ _ Hfl). exists n.
        split; [|split; [reflexivity | exact Hn]]. apply elem_of_app. right. left. }
      destruct (delete_listed m sl L (blk_addr n) Hwf Hnlisted)
        as (m1 & sl1 & Hdel1 & Hwf1 & Hfr1).
      assert (Hplisted1 : blk_addr p ∈ concat (unlist (blk_addr n) L)).
      { rewrite concat_unlist. apply list_elem_of_filter.
        split; [zl | exact Hplisted]. }
      destruct (delete_listed m1 sl1 _ (blk_addr p) Hwf1 Hplisted1)
        as (m2 & sl2 & Hdel2 & _ & Hfr2).
      pose proof Hlay as Hlay'. rewrite snoc_layout3 in Hlay'.
      assert (Hframe : forall t,
                (forall y, y ∈ concat L -> t <> y + 8 /\ t <> y + 16) ->
                load m2 t = load m t).
      { intros t Ht. rewrite Hfr2, Hfr1; [reflexivity | exact Ht |].
        intros y Hy. apply Ht. rewrite concat_unlist in Hy.
        apply list_elem_of_filter in Hy. tauto. }
      assert (Hlay2 : heap_layout m2 hs (pre0 ++ (p :: [b; n]) ++ post') e).
      { apply (heap_layout_frame m); [exact Hlay'|]. intros t Ht. apply Hframe.
        rewrite <- snoc_layout3 in Ht.
        exact (listed_link_fields m sl L (pre0 ++ [p]) b (n :: post') t Hfl Ht). }
      assert (Hgpa2 : get_prev_alloc m2 (blk_addr p) = last_alloc true pre0).
      { pose proof (layout_block m2 hs pre0 p ([b; n] ++ post') e Hlay2 Hp) as H.
        tauto. }
      pose proof (merge_writes m2 hs pre0 p [b; n] post' e Hlay2) as Hmw.
      cbv zeta in Hmw. cbn [total foldr] in Hmw. rewrite Z.add_0_r in Hmw.
      unfold coalesce_block in Hrun. cbv zeta in Hrun.
      rewrite Hnext, Hgpa, Hna, Hsz, Hnsz, Hprev, Hpsz in Hrun.
      cbn [andb negb] in Hrun.
      replace (blk_addr p =? blk_addr b) with false in Hrun
        by (symmetry; apply Z.eqb_neq; zl).
      rewrite Hnaddr in Hdel1. rewrite Hdel1, Hdel2 in Hrun.
      cbn [bind] in Hrun. rewrite Hgpa2 in Hrun.
      rewrite (wrap_small (blk_size b + blk_size p)) in Hrun by zl.
      rewrite wrap_small in Hrun by zl.
      replace (blk_size b + blk_size p + blk_size n)
        with (blk_size p + (blk_size b + blk_size n)) in Hrun by lia.
      replace (blk_addr p =? NULL) with false in Hrun
        by (symmetry; apply Z.eqb_neq; zl).
      injection Hrun as _ <- _.
      intros t Ht. rewrite Hmw.
      * apply Hframe. now apply Hoff.
      * intros y Hy. apply elem_of_cons in Hy. destruct Hy as [->|Hy]; [exact Hp|].
        apply elem_of_cons in Hy. destruct Hy as [->|Hy]; [exact Hb|].
        apply list_elem_of_singleton in Hy. now subst.
      * exact Ht.
    + (* only the block before is free *)
      destruct (layout_next m _ post e Hpost Hepi ltac:(zl) Hhigh) as [Hna _].
      rewrite Hnf in Hna. cbn [negb] in Hna.
      destruct (delete_listed m sl L (blk_addr p) Hwf Hplisted)
        as (m1 & sl1 & Hdel & _ & Hfr1).
      pose proof Hlay as Hlay'. rewrite snoc_layout in Hlay'.
      assert (Hlay1 : heap_layout m1 hs (pre0 ++ (p :: [b]) ++ post) e).
      { apply (heap_layout_frame m); [exact Hlay'|]. intros t Ht. apply Hfr1.
        rewrite <- snoc_layout in Ht.
        exact (listed_link_fields m sl L (pre0 ++ [p]) b post t Hfl Ht). }
      assert (Hgpa1 : get_prev_alloc m1 (blk_addr p) = last_alloc true pre0).
      { pose proof (layout_block m1 hs pre0 p ([b] ++ post) e Hlay1 Hp) as H.
        tauto. }
      pose proof (merge_writes m1 hs pre0 p [b] post e Hlay1) as Hmw.
      cbv zeta in Hmw. cbn [total foldr] in Hmw. rewrite Z.add_0_r in Hmw.
      unfold coalesce_block in Hrun. cbv zeta in Hrun.
      rewrite Hnext, Hgpa, Hna, Hsz, Hprev, Hpsz in Hrun.
      cbn [andb negb] in Hrun.
      replace (blk_addr p =? blk_addr b) with false in Hrun
        by (symmetry; apply Z.eqb_neq; zl).
      rewrite Hdel in Hrun. cbn [bind] in Hrun. rewrite Hgpa1 in Hrun.
      rewrite wrap_small in Hrun by zl.
      replace (blk_size b + blk_size p) with (blk_size p + blk_size b) in Hrun
        by lia.
      replace (blk_addr p =? NULL) with false in Hrun
        by (symmetry; apply Z.eqb_neq; zl).
      injection Hrun as _ <- _.
      intros t Ht. rewrite Hmw.
      * apply Hfr1. now apply Hoff.
      * intros y Hy. apply elem_of_cons in Hy. destruct Hy as [->|Hy]; [exact Hp|].
        apply list_elem_of_singleton in Hy. now subst.
      * exact Ht.
Qed.

(** [add_to_free_list] of a free block of the heap that is on no list yet
    writes within the heap *)
Lemma add_free_block_writes m sl L hs pre f post e m' sl' :
  heap_layout m hs (pre ++ f :: post) e -> blk_alloc f = false ->
  free_lists m sl L (pre ++ post) ->
  add_to_free_list m sl (blk_addr f) = (m', sl') ->
  outside hs e m m'.
Proof.
  intros Hlay Hf Hfl Hrun.
  pose proof (lists_wf_start _ _ _ _ _ _ _ _ Hlay Hfl) as Hwf.
  pose proof (hl_low _ _ _ _ Hlay) as Hlow.
  pose proof (hl_high _ _ _ _ Hlay) as Hhigh.
  destruct (layout_neighbours _ _ _ _ _ _ Hlay)
    as (Hf0 & Hf1 & Hmin & Hal & Haddr & Hn1 & Hn3).
  pose proof (listed_within m sl L hs _ _ e Hlay
                (others_in_layout pre f post) Hfl) as Hwithin.
  apply (add_writes m sl L (blk_addr f) hs e m' sl' Hwf); try assumption.
  - zl.
  - zl.
  - intros y Hy. apply (fl_free _ _ _ _ Hfl) in Hy.
    destruct Hy as (x & Hx & <- & _).
    apply elem_of_app in Hx. destruct Hx as [Hx|Hx].
    + destruct (Hn1 x Hx) as (? & ? & ?). zl.
    + destruct (Hn3 x Hx) as (? & ? & ?). zl.
  - pose proof (total_nonneg_chain := chain_bounds _ _ _ _ _ (hl_chain _ _ _ _ Hlay)).
    destruct total_nonneg_chain as [_ Hin].
    destruct (Hin f ltac:(apply elem_of_app; right; left)) as (? & ? & ? & ?). lia.
  - lia.
Qed.

(** the body of [_free] writes between the start of the heap and its
    epilogue only *)
Lemma free_core_writes m sl L hs pre b post e r m3 sl3 m4 sl4 :
  heap_layout m hs (pre ++ b :: post) e -> blk_alloc b = true ->
  free_lists m sl L (pre ++ b :: post) ->
  let block := blk_addr b in
  let m1 := write_block m block (get_size m block) false (get_prev_alloc m block) in
  let next := find_next m1 block in
  let m2 := write_block m1 next (get_size m1 next) (get_alloc m1 next) false in
  coalesce_block m2 sl block = Ok (r, (m3, sl3)) ->
  add_to_free_list m3 sl3 r = (m4, sl4) ->
  outside hs e m m4.
Proof.
  intros Hlay Hb Hfl block m1 next m2 Hrun Hadd.
  destruct (mark_free m hs pre b post e Hlay Hb) as (Hlay2 & Hsame & Hout2).
  fold block m1 next m2 in Hlay2, Hsame, Hout2.
  set (b' := {| blk_addr := blk_addr b; blk_size := blk_size b;
                blk_alloc := false |}) in *.
  pose proof (hl_chain _ _ _ _ Hlay) as Hc.
  destruct (chain_bounds _ _ _ _ _ Hc) as [_ Hin].
  assert (Hfl2 : free_lists m2 sl L (pre ++ post)).
  { apply (free_lists_frame m m2 sl L (pre ++ b :: post)); [exact Hfl | |].
    - intros y Hy. apply (fl_free _ _ _ _ Hfl) in Hy.
      destruct Hy as (x & Hx & <- & Hxf).
      destruct (Hin x Hx) as (? & ? & ? & ?).
      pose proof (hl_low _ _ _ _ Hlay). pose proof (hl_high _ _ _ _ Hlay).
      assert (Hx' : x ∈ pre ++ post).
      { apply elem_of_app in Hx. apply elem_of_app.
        destruct Hx as [Hx|Hx]; [now left|].
        apply elem_of_cons in Hx. destruct Hx as [->|Hx]; [congruence | now right]. }
      addr. exact (Hsame x Hx').
    - intros a. split; intros (x & Hx & Hxa & Hxf); exists x;
        (split; [|split; assumption]).
      + apply elem_of_app in Hx. apply elem_of_app.
        destruct Hx as [Hx|Hx]; [now left|].
        apply elem_of_cons in Hx. destruct Hx as [->|Hx]; [congruence | now right].
      + now apply others_in_layout. }
  pose proof (coalesce_writes m2 sl L hs pre b' post e r m3 sl3 Hlay2 eq_refl Hfl2
                Hrun) as Hout3.
  destruct (coalesce_layout m2 sl L hs pre b' post e Hlay2 eq_refl Hfl2)
    as (m3' & sl3' & L3 & pre' & f & post' & Hrun' & Hf & Hlay3 & Hfl3 & _).
  cbn [blk_addr b'] in Hrun'. fold block in Hrun'.
  rewrite Hrun in Hrun'. injection Hrun' as -> -> ->.
  pose proof (add_free_block_writes m3' sl3' L3 hs pre' f post' e m4 sl4
                Hlay3 Hf Hfl3 Hadd) as Hout4.
  exact (outside_trans _ _ _ _ _ Hout2 (outside_trans _ _ _ _ _ Hout3 Hout4)).
Qed.

End Writes.

Section ScatteredHeap.
Import Fragmented.

Lemma scattered_reached : scattered = Ok scattered_naive.
Proof. vm_compute. reflexivity. Qed.

Lemma scattered_layout :
  heap_layout scattered_mem heap_start scattered_blocks epilogue.
Proof.
  split.
  - vm_compute. discriminate.
  - vm_compute. discriminate.
  - unfold scattered_blocks. cbn [chain app]. unfold tagged.
    repeat split; try (vm_compute; first [reflexivity | discriminate]);
      try (intros _; vm_compute; reflexivity).
  - vm_compute. reflexivity.
Qed.

Lemma scattered_lists :
  free_lists scattered_mem lists listed scattered_blocks.
Proof.
  split.
  - reflexivity.
  - reflexivity.
  - intros i l H.
    do 15 (destruct i as [|i];
           [injection H as <-; vm_compute; repeat split|]).
    discriminate H.
  - intros i l x H Hx.
    do 15 (destruct i as [|i];
           [injection H as <-;
            repeat (apply elem_of_cons in Hx; destruct Hx as [->|Hx];
                    [vm_compute; reflexivity|]);
            inversion Hx|]).
    discriminate H.
  - cbn. repeat (apply NoDup_cons; split;
                 [rewrite ?not_elem_of_cons; repeat split;
                  first [discriminate | apply not_elem_of_nil]|]).
    apply NoDup_nil_2.
  - intros a. cbn [concat app listed]. unfold scattered_blocks. split.
    + intros Ha.
      repeat (apply elem_of_cons in Ha; destruct Ha as [->|Ha]).
      * exists (mk_blk 1048648 32 false). split; [|split; reflexivity].
        right. right. left.
      * exists first. split; [|split; reflexivity]. left.
      * exists rest. split; [|split; reflexivity].
        right. right. right. right. left.
      * inversion Ha.
    + intros (x & Hx & <- & Hf).
      repeat (apply elem_of_cons in Hx; destruct Hx as [->|Hx]).
      * right. left.
      * discriminate Hf.
      * left.
      * discriminate Hf.
      * right. right. left.
      * inversion Hx.
Qed.

End ScatteredHeap.

(** X18: [_free] of the arena variants keeps the heap consistent.  On a heap
    that satisfies the boundary-tag and free-list invariants, freeing the
    payload of an allocated block [b] succeeds and leaves a heap that
    satisfies them again: the allocated blocks are the old ones without
    [b], the bytes of [b] lie in a free block, and if no two free blocks
    were adjacent before, none are afterwards. *)
Theorem arena_free_keeps_heap m arena L hs pre b post e :
  heap_layout m hs (pre ++ b :: post) e -> blk_alloc b = true ->
  free_lists m (arena_seglists arena) L (pre ++ b :: post) ->
  exists m' sl' bs' L' f,
    Arena._free m arena (header_to_payload (blk_addr b))
    = Ok (m', set_seglists arena sl')
    /\ heap_layout m' hs bs' e
    /\ free_lists m' sl' L' bs'
    /\ allocated bs' = allocated (pre ++ post)
    /\ f ∈ bs' /\ blk_alloc f = false
    /\ blk_addr f <= blk_addr b
    /\ blk_addr b + blk_size b <= blk_addr f + blk_size f
    /\ (coalesced true (pre ++ b :: post) -> coalesced true bs').
Proof.
  intros Hlay Hb Hfl.
  destruct (free_core m _ L hs pre b post e Hlay Hb Hfl)
    as (f & m3 & sl3 & m4 & sl4 & bs' & L' & Hrun & Hadd & Hrest).
  pose proof (hl_chain _ _ _ _ Hlay) as Hc.
  destruct (chain_bounds _ _ _ _ _ Hc) as [_ Hin].
  destruct (Hin b ltac:(apply elem_of_app; right; left)) as (Hb1 & Hb2 & Hb3 & _).
  pose proof (hl_low _ _ _ _ Hlay) as Hlow.
  pose proof (hl_high _ _ _ _ Hlay) as Hhigh.
  exists m4, sl4, bs', L', f. split; [|exact Hrest].
  unfold Arena._free.
  assert (Hbp : header_to_payload (blk_addr b) = blk_addr b + 8)
    by (unfold header_to_payload, wsize; apply padd_small; zl).
  rewrite Hbp.
  replace (blk_addr b + 8 =? NULL) with false by (symmetry; apply Z.eqb_neq; zl).
  replace (payload_to_header (blk_addr b + 8)) with (blk_addr b)
    by (unfold payload_to_header, wsize; rewrite psub_small; zl).
  cbv zeta in Hrun. cbv zeta. rewrite Hrun. cbn [bind]. rewrite Hadd.
  reflexivity.
Qed.

Lemma arena_free_keeps_heap_witness :
  exists m' sl' bs' L' f,
    Arena._free scattered_mem scattered_arena (header_to_payload 1048616)
    = Ok (m', set_seglists scattered_arena sl')
    /\ heap_layout m' Fragmented.heap_start bs' Fragmented.epilogue
    /\ free_lists m' sl' L' bs'
    /\ allocated bs'
       = allocated ([Fragmented.first]
                      ++ [mk_blk 1048648 32 false; Fragmented.fourth;
                          Fragmented.rest])
    /\ f ∈ bs' /\ blk_alloc f = false
    /\ blk_addr f <= 1048616
    /\ 1048616 + 32 <= blk_addr f + blk_size f
    /\ (coalesced true scattered_blocks -> coalesced true bs').
Proof.
  apply (arena_free_keeps_heap scattered_mem scattered_arena Fragmented.listed
           Fragmented.heap_start [Fragmented.first] (mk_blk 1048616 32 true)
           [mk_blk 1048648 32 false; Fragmented.fourth; Fragmented.rest]
           Fragmented.epilogue).
  - exact scattered_layout.
  - reflexivity.
  - exact scattered_lists.
Defined.

(** X19: [_free] of the naive allocator keeps the heap consistent, in the
    same sense: the invariants hold again, the allocated blocks are the old
    ones without [b], the bytes of [b] lie in a free block, and no two free
    blocks become adjacent.  The break and the heap bounds do not move. *)
Theorem naive_free_keeps_heap h L hs pre b post e :
  heap_layout (Naive.memory h) hs (pre ++ b :: post) e -> blk_alloc b = true ->
  free_lists (Naive.memory h) (Naive.seglists h) L (pre ++ b :: post) ->
  exists m' sl' bs' L' f,
    Naive.naive_free h (header_to_payload (blk_addr b))
    = Ok (Naive.set_memory h m' sl')
    /\ heap_layout m' hs bs' e
    /\ free_lists m' sl' L' bs'
    /\ allocated bs' = allocated (pre ++ post)
    /\ f ∈ bs' /\ blk_alloc f = false
    /\ blk_addr f <= blk_addr b
    /\ blk_addr b + blk_size b <= blk_addr f + blk_size f
    /\ (coalesced true (pre ++ b :: post) -> coalesced true bs').
Proof.
  intros Hlay Hb Hfl.
  destruct (free_core _ _ L hs pre b post e Hlay Hb Hfl)
    as (f & m3 & sl3 & m4 & sl4 & bs' & L' & Hrun & Hadd & Hrest).
  pose proof (hl_chain _ _ _ _ Hlay) as Hc.
  destruct (chain_bounds _ _ _ _ _ Hc) as [_ Hin].
  destruct (Hin b ltac:(apply elem_of_app; right; left)) as (Hb1 & Hb2 & Hb3 & _).
  pose proof (hl_low _ _ _ _ Hlay) as Hlow.
  pose proof (hl_high _ _ _ _ Hlay) as Hhigh.
  exists m4, sl4, bs', L', f. split; [|exact Hrest].
  unfold Naive.naive_free, Naive._free.
  assert (Hbp : header_to_payload (blk_addr b) = blk_addr b + 8)
    by (unfold header_to_payload, wsize; apply padd_small; zl).
  rewrite Hbp.
  replace (blk_addr b + 8 =? NULL) with false by (symmetry; apply Z.eqb_neq; zl).
  replace (payload_to_header (blk_addr b + 8)) with (blk_addr b)
    by (unfold payload_to_header, wsize; rewrite psub_small; zl).
  cbv zeta in Hrun. cbv zeta. rewrite Hrun. cbn [bind]. rewrite Hadd.
  reflexivity.
Qed.

Lemma naive_free_keeps_heap_witness :
  exists m' sl' bs' L' f,
    Naive.naive_free scattered_naive (header_to_payload 1048616)
    = Ok (Naive.set_memory scattered_naive m' sl')
    /\ heap_layout m' Fragmented.heap_start bs' Fragmented.epilogue
    /\ free_lists m' sl' L' bs'
    /\ allocated bs'
       = allocated ([Fragmented.first]
                      ++ [mk_blk 1048648 32 false; Fragmented.fourth;
                          Fragmented.rest])
    /\ f ∈ bs' /\ blk_alloc f = false
    /\ blk_addr f <= 1048616
    /\ 1048616 + 32 <= blk_addr f + blk_size f
    /\ (coalesced true scattered_blocks -> coalesced true bs').
Proof.
  apply (naive_free_keeps_heap scattered_naive Fragmented.listed
           Fragmented.heap_start [Fragmented.first] (mk_blk 1048616 32 true)
           [mk_blk 1048648 32 false; Fragmented.fourth; Fragmented.rest]
           Fragmented.epilogue).
  - exact scattered_layout.
  - reflexivity.
  - exact scattered_lists.
Defined.

(** ** Growing the heap *)

Section Extend.
Import WordFacts.

(** the new block at the old epilogue and the new epilogue behind it *)
Lemma extend_layout m sl L hs bs e size :
  heap_layout m hs bs e -> free_lists m sl L bs ->
  min_block_size <= size -> size mod 16 = 0 ->
  e + size + wsize <= Word.modulus ->
  let pa := last_alloc true bs in
  let m1 := write_block m e size false pa in
  let next := find_next m1 e in
  let m2 := write_epilogue m1 next false in
  heap_layout m2 hs
    (bs ++ {| blk_addr := e; blk_size := size; blk_alloc := false |} :: [])
    (e + size)
  /\ free_lists m2 sl L (bs ++ [])
  /\ (forall t, t < e -> load m2 t = load m t)
  /\ (forall t, e + size < t -> load m2 t = load m t).
Proof.
  intros Hlay Hfl Hmin Hal Hfit pa m1 next m2.
  destruct Hlay as [Hlow Hhigh Hchain Hepi].
  destruct (chain_bounds _ _ _ _ _ Hchain) as [Hse Hin].
  assert (Hm1 : m1 = store (store m e (pack size false pa)) (e + size - wsize)
                       (pack size false pa)).
  { unfold m1. apply write_block_free; zl. }
  assert (Hhdr1 : load m1 e = pack size false pa)
    by (rewrite Hm1; mem_simpl; reflexivity).
  destruct (header_fields m1 e size false pa Hhdr1 ltac:(zl) Hal) as (Hs1 & _ & _).
  assert (Hnext : next = e + size).
  { unfold next, find_next. rewrite Hs1. apply padd_small. zl. }
  assert (Hm2 : forall t, load m2 t
                = if Z.eq_dec t (e + size) then pack 0 true false
                  else if Z.eq_dec t (e + size - wsize) then pack size false pa
                  else if Z.eq_dec t e then pack size false pa
                  else load m t).
  { intros t. unfold m2, write_epilogue. rewrite Hnext, Hm1.
    destruct (Z.eq_dec t (e + size)) as [->|H1]; [apply load_store_eq|].
    rewrite load_store_ne by congruence.
    destruct (Z.eq_dec t (e + size - wsize)) as [->|H2]; [apply load_store_eq|].
    rewrite load_store_ne by congruence.
    destruct (Z.eq_dec t e) as [->|H3]; [apply load_store_eq|].
    now rewrite load_store_ne by congruence. }
  assert (Hbelow : forall t, t < e -> load m2 t = load m t).
  { intros t Ht. rewrite Hm2.
    destruct (Z.eq_dec t (e + size)); [zl|].
    destruct (Z.eq_dec t (e + size - wsize)); [zl|].
    destruct (Z.eq_dec t e); [zl | reflexivity]. }
  split; [|split; [|split; [exact Hbelow|]]].
  - split; [exact Hlow | zl | |].
    + apply chain_app. exists e. split.
      * apply (chain_frame_range m); [exact Hchain|]. intros t Ht.
        apply Hbelow. lia.
      * cbn [chain]. unfold tagged. cbn [blk_addr blk_size blk_alloc].
        fold pa. split; [reflexivity|]. split; [|reflexivity].
        split; [exact Hmin|]. split; [exact Hal|]. rewrite !Hm2.
        destruct (Z.eq_dec e (e + size)); [zl|].
        destruct (Z.eq_dec e (e + size - wsize)); [zl|].
        destruct (Z.eq_dec e e); [|congruence].
        split; [reflexivity|]. intros _.
        destruct (Z.eq_dec (e + size - wsize) (e + size)); [zl|].
        destruct (Z.eq_dec (e + size - wsize) (e + size - wsize)); [|congruence].
        reflexivity.
    + rewrite Hm2. destruct (Z.eq_dec (e + size) (e + size)); [|congruence].
      rewrite last_alloc_app, last_alloc_cons, last_alloc_nil. reflexivity.
  - rewrite app_nil_r.
    apply (free_lists_frame m m2 sl L bs); [exact Hfl | | tauto].
    intros y Hy. apply (fl_free _ _ _ _ Hfl) in Hy.
    destruct Hy as (x & Hx & <- & Hxf).
    destruct (Hin x Hx) as (? & ? & ? & ?).
    addr. rewrite !Hbelow by zl.
    split; [reflexivity|]. split; [reflexivity|].
    apply get_size_same. apply Hbelow. zl.
  - intros t Ht. rewrite Hm2.
    destruct (Z.eq_dec t (e + size)); [zl|].
    destruct (Z.eq_dec t (e + size - wsize)); [zl|].
    destruct (Z.eq_dec t e); [zl | reflexivity].
Qed.

(** the body of [extend_heap] and [extend_arena_heap] once the break has
    moved: the new bytes become a free block, merged with a free last block
    and put on its list *)
Lemma extend_core m sl L hs bs e size :
  heap_layout m hs bs e -> free_lists m sl L bs ->
  min_block_size <= size -> size mod 16 = 0 ->
  e + size + wsize <= Word.modulus ->
  let m1 := write_block m e size false (last_alloc true bs) in
  let next := find_next m1 e in
  let m2 := write_epilogue m1 next false in
  exists f m3 sl3 m4 sl4 bs' L',
    coalesce_block m2 sl e = Ok (blk_addr f, (m3, sl3))
    /\ add_to_free_list m3 sl3 (blk_addr f) = (m4, sl4)
    /\ heap_layout m4 hs bs' (e + size)
    /\ free_lists m4 sl4 L' bs'
    /\ allocated bs' = allocated bs
    /\ f ∈ bs' /\ blk_alloc f = false
    /\ blk_addr f <= e /\ e + size <= blk_addr f + blk_size f
    /\ blk_addr f ∈ concat L'
    /\ (coalesced true bs -> coalesced true bs').
Proof.
  intros Hlay Hfl Hmin Hal Hfit m1 next m2.
  destruct (extend_layout m sl L hs bs e size Hlay Hfl Hmin Hal Hfit)
    as (Hlay2 & Hfl2 & _ & _).
  fold m1 next m2 in Hlay2, Hfl2.
  set (b := {| blk_addr := e; blk_size := size; blk_alloc := false |}) in *.
  destruct (coalesce_layout m2 sl L hs bs b [] _ Hlay2 eq_refl Hfl2)
    as (m3 & sl3 & L3 & pre' & f & post' & Hrun & Hf & Hlay3 & Hfl3 & Hal3
        & Hlo & Hhi & Hco).
  destruct (add_free_block m3 sl3 L3 hs pre' f post' _ Hlay3 Hf Hfl3)
    as (m4 & sl4 & Hadd & Hlay4 & Hfl4).
  exists f, m3, sl3, m4, sl4, (pre' ++ f :: post'),
    (enlist (blk_addr f) (Z.to_nat (find_list_for_block m3 (blk_addr f))) L3).
  split; [exact Hrun|]. split; [exact Hadd|]. split; [exact Hlay4|].
  split; [exact Hfl4|].
  split.
  { rewrite allocated_app, (allocated_free f), <- allocated_app by exact Hf.
    rewrite Hal3, app_nil_r. reflexivity. }
  split; [apply elem_of_app; right; left|]. split; [exact Hf|].
  split; [exact Hlo|]. split; [exact Hhi|].
  split.
  { apply (fl_free _ _ _ _ Hfl4). exists f.
    split; [apply elem_of_app; right; left|]. split; [reflexivity | exact Hf]. }
  intros Hcs. apply Hco; [exact Hcs | exact I].
Qed.

(** it writes between the start of the heap and the new epilogue only *)
Lemma extend_core_writes m sl L hs bs e size r m3 sl3 m4 sl4 :
  heap_layout m hs bs e -> free_lists m sl L bs ->
  min_block_size <= size -> size mod 16 = 0 ->
  e + size + wsize <= Word.modulus ->
  let m1 := write_block m e size false (last_alloc true bs) in
  let next := find_next m1 e in
  let m2 := write_epilogue m1 next false in
  coalesce_block m2 sl e = Ok (r, (m3, sl3)) ->
  add_to_free_list m3 sl3 r = (m4, sl4) ->
  outside hs (e + size) m m4.
Proof.
  intros Hlay Hfl Hmin Hal Hfit m1 next m2 Hrun Hadd.
  destruct (extend_layout m sl L hs bs e size Hlay Hfl Hmin Hal Hfit)
    as (Hlay2 & Hfl2 & Hbelow & Habove).
  fold m1 next m2 in Hlay2, Hfl2, Hbelow, Habove.
  destruct (chain_bounds _ _ _ _ _ (hl_chain _ _ _ _ Hlay)) as [Hse _].
  assert (Hout2 : outside hs (e + size) m m2).
  { intros t [Ht|Ht]; [apply Hbelow; lia | now apply Habove]. }
  set (b := {| blk_addr := e; blk_size := size; blk_alloc := false |}) in *.
  pose proof (coalesce_writes m2 sl L hs bs b [] _ r m3 sl3 Hlay2 eq_refl Hfl2 Hrun)
    as Hout3.
  destruct (coalesce_layout m2 sl L hs bs b [] _ Hlay2 eq_refl Hfl2)
    as (m3' & sl3' & L3 & pre' & f & post' & Hrun' & Hf & Hlay3 & Hfl3 & _).
  cbn [blk_addr b] in Hrun'. rewrite Hrun in Hrun'. injection Hrun' as -> -> ->.
  pose proof (add_free_block_writes m3' sl3' L3 hs pre' f post' _ m4 sl4
                Hlay3 Hf Hfl3 Hadd) as Hout4.
  exact (outside_trans _ _ _ _ _ Hout2 (outside_trans _ _ _ _ _ Hout3 Hout4)).
Qed.

End Extend.

Section ExtendArenaHeap.
Import WordFacts.

Lemma round_up_facts size :
  0 <= size -> size + dsize <= Word.modulus ->
  min_block_size <= round_up size dsize < Word.modulus
  /\ round_up size dsize mod 16 = 0
  /\ size <= round_up size dsize <= Z.max size dsize + dsize.
Proof.
  intros H0 Hmax.
  destruct (Z_le_gt_dec size dsize) as [Hle|Hgt].
  - rewrite (round_up_small size Hle). sizes.
    split; [lia|]. split; [reflexivity | lia].
  - rewrite (round_up_large size) by lia. sizes.
    change (2 ^ 64) with 18446744073709551616 in *.
    split; [zdiv|]. split; [zdiv | zdiv].
Qed.

(** [extend_arena_heap] on an arena whose heap satisfies the invariants:
    nothing changes when the rounded size does not fit into the mapping;
    otherwise the new bytes end up in a free, listed block at the end of
    the heap *)
Lemma extend_arena_heap_grows m arena bs L size :
  arena_ok m arena bs L -> 0 <= size ->
  Z.max size dsize + dsize + arena_low arena + arena_size arena < Word.modulus ->
  let asize := round_up size dsize in
  exists block m' arena' bs' L',
    Arena.extend_arena_heap m arena size (last_alloc true bs)
    = Ok (block, (m', arena'))
    /\ ((block = NULL /\ m' = m /\ arena' = arena
         /\ arena_heap_end arena + asize > arena_low arena + arena_size arena)
        \/ (block <> NULL
            /\ arena_ok m' arena' bs' L'
            /\ arena_heap_end arena' = arena_heap_end arena + asize
            /\ allocated bs' = allocated bs
            /\ (coalesced true bs -> coalesced true bs')
            /\ exists f, f ∈ bs' /\ blk_addr f = block /\ blk_alloc f = false
                 /\ block ∈ concat L' /\ asize <= blk_size f
                 /\ blk_addr f + blk_size f = arena_heap_end arena' - wsize)).
Proof.
  intros [Hlow Htop Hstart Hend Hlay Hfl] Hsize Hno asize.
  pose proof (hl_low _ _ _ _ Hlay) as Hhs.
  pose proof (hl_high _ _ _ _ Hlay) as Hhigh.
  pose proof (hl_chain _ _ _ _ Hlay) as Hc.
  destruct (chain_bounds _ _ _ _ _ Hc) as [Hse _].
  destruct (round_up_facts size Hsize ltac:(zl)) as (Hr & Hal & Hup).
  fold asize in Hr, Hal, Hup.
  unfold Arena.extend_arena_heap. fold asize.
  rewrite extend_arena_in_range by zl.
  destruct (Z.gtb_spec (arena_heap_end arena + asize)
              (arena_low arena + arena_size arena)) as [Hbig|Hfits].
  - exists NULL, m, arena, bs, L. rewrite Z.eqb_refl.
    split; [reflexivity|]. left. repeat split. lia.
  - replace (arena_heap_end arena =? NULL) with false
      by (symmetry; apply Z.eqb_neq; zl).
    set (e := arena_heap_end arena - wsize) in *.
    replace (payload_to_header (arena_heap_end arena)) with e
      by (unfold payload_to_header, e; rewrite psub_small; zl).
    destruct (extend_core m _ L _ bs e asize Hlay Hfl ltac:(zl) Hal ltac:(zl))
      as (f & m3 & sl3 & m4 & sl4 & bs' & L' & Hrun & Hadd & Hlay4 & Hfl4
          & Hal4 & Hfin & Hff & Hflo & Hfhi & Hfl' & Hco).
    cbn [set_heap_end arena_seglists].
    cbv zeta in Hrun. rewrite Hrun. cbn [bind]. rewrite Hadd.
    exists (blk_addr f), m4,
      (set_seglists (set_heap_end arena (arena_heap_end arena + asize)) sl4),
      bs', L'. split; [reflexivity|]. right.
    pose proof (hl_chain _ _ _ _ Hlay4) as Hc4.
    destruct (chain_bounds _ _ _ _ _ Hc4) as [_ Hin4].
    destruct (Hin4 f Hfin) as (Hf1 & Hf2 & Hf3 & _).
    split; [zl|]. split.
    { split; cbn [set_seglists set_heap_end arena_low arena_size
                    arena_heap_start arena_heap_end arena_seglists];
        try assumption; try lia.
      replace (arena_heap_end arena + asize - wsize) with (e + asize)
        by (unfold e; lia).
      exact Hlay4. }
    cbn [set_seglists set_heap_end arena_heap_end].
    split; [reflexivity|]. split; [exact Hal4|]. split; [exact Hco|].
    exists f. split; [exact Hfin|]. split; [reflexivity|]. split; [exact Hff|].
    split; [exact Hfl'|]. unfold e in *. split; lia.
Qed.

(** [extend_arena_heap] writes within the arena's mapping *)
Lemma extend_arena_heap_writes m arena bs L size block m' arena' :
  arena_ok m arena bs L -> 0 <= size ->
  Z.max size dsize + dsize + arena_low arena + arena_size arena < Word.modulus ->
  Arena.extend_arena_heap m arena size (last_alloc true bs)
  = Ok (block, (m', arena')) ->
  outside (arena_heap_start arena) (arena_low arena + arena_size arena - wsize)
    m m'.
Proof.
  intros [Hlow Htop Hstart Hend Hlay Hfl] Hsize Hno Hext.
  pose proof (hl_low _ _ _ _ Hlay) as Hhs.
  pose proof (hl_high _ _ _ _ Hlay) as Hhigh.
  pose proof (hl_chain _ _ _ _ Hlay) as Hc.
  destruct (chain_bounds _ _ _ _ _ Hc) as [Hse _].
  destruct (round_up_facts size Hsize ltac:(zl)) as (Hr & Hal & Hup).
  set (asize := round_up size dsize) in *.
  unfold Arena.extend_arena_heap in Hext. fold asize in Hext.
  rewrite extend_arena_in_range in Hext by zl.
  destruct (Z.gtb_spec (arena_heap_end arena + asize)
              (arena_low arena + arena_size arena)) as [Hbig|Hfits].
  - rewrite Z.eqb_refl in Hext. injection Hext as _ <- _. apply outside_refl.
  - replace (arena_heap_end arena =? NULL) with false in Hext
      by (symmetry; apply Z.eqb_neq; zl).
    set (e := arena_heap_end arena - wsize) in *.
    replace (payload_to_header (arena_heap_end arena)) with e in Hext
      by (unfold payload_to_header, e; rewrite psub_small; zl).
    destruct (extend_core m (arena_seglists arena) L _ bs e asize Hlay Hfl
                ltac:(zl) Hal ltac:(zl))
      as (f & m3 & sl3 & m4 & sl4 & bs' & L' & Hrun & Hadd & _).
    pose proof (extend_core_writes m (arena_seglists arena) L _ bs e asize _ m3 sl3
                  m4 sl4 Hlay Hfl ltac:(zl) Hal ltac:(zl) Hrun Hadd) as Hout.
    cbn [set_heap_end arena_seglists] in Hext.
    cbv zeta in Hrun. rewrite Hrun in Hext. cbn [bind] in Hext.
    rewrite Hadd in Hext. injection Hext as _ <- _.
    apply (outside_wider _ _ _ _ _ _ Hout); [lia | unfold e; lia].
Qed.

(** the word before [heap_end] is the epilogue: its prev-alloc bit is the
    status of the last block *)
Lemma epilogue_prev_alloc m arena bs L :
  arena_ok m arena bs L ->
  extract_prev_alloc (load m (psub (mem_heap_hi arena) 7)) = last_alloc true bs.
Proof.
  intros [Hlow Htop Hstart Hend Hlay Hfl].
  pose proof (hl_low _ _ _ _ Hlay) as Hhs.
  pose proof (hl_high _ _ _ _ Hlay) as Hhigh.
  pose proof (hl_chain _ _ _ _ Hlay) as Hc.
  destruct (chain_bounds _ _ _ _ _ Hc) as [Hse _].
  unfold mem_heap_hi.
  replace (psub (psub (arena_heap_end arena) 1) 7) with (arena_heap_end arena - wsize).
  2:{ unfold psub. rewrite wrap_sub_l. rewrite wrap_small; zl. }
  rewrite (hl_epilogue _ _ _ _ Hlay). now apply extract_prev_alloc_pack.
Qed.

End ExtendArenaHeap.

(** X20: [extend_arena_heap] as [_malloc] calls it, with the prev-alloc bit
    read from the epilogue word, on an arena whose heap satisfies the
    invariants and for a size that does not wrap around the address space.
    It returns NULL and changes nothing when the rounded size does not fit
    into the mapping; otherwise [heap_end] advances by the rounded size, the
    invariants hold again with the same allocated blocks, and the block
    returned is a free, listed block that ends the heap and has at least the
    rounded size. *)
Theorem extend_arena_heap_spec m arena bs L size :
  arena_ok m arena bs L -> 0 <= size ->
  Z.max size dsize + dsize + arena_low arena + arena_size arena < Word.modulus ->
  let asize := round_up size dsize in
  exists block m' arena' bs' L',
    Arena.extend_arena_heap m arena size
      (extract_prev_alloc (load m (psub (mem_heap_hi arena) 7)))
    = Ok (block, (m', arena'))
    /\ ((block = NULL /\ m' = m /\ arena' = arena
         /\ arena_heap_end arena + asize > arena_low arena + arena_size arena)
        \/ (block <> NULL
            /\ arena_ok m' arena' bs' L'
            /\ arena_heap_end arena' = arena_heap_end arena + asize
            /\ allocated bs' = allocated bs
            /\ (coalesced true bs -> coalesced true bs')
            /\ exists f, f ∈ bs' /\ blk_addr f = block /\ blk_alloc f = false
                 /\ block ∈ concat L' /\ asize <= blk_size f
                 /\ blk_addr f + blk_size f = arena_heap_end arena' - wsize)).
Proof.
  intros Hok Hsize Hno asize.
  rewrite (epilogue_prev_alloc m arena bs L Hok).
  exact (extend_arena_heap_grows m arena bs L size Hok Hsize Hno).
Qed.

Lemma scattered_arena_ok :
  arena_ok scattered_mem scattered_arena scattered_blocks Fragmented.listed.
Proof.
  split.
  - vm_compute. reflexivity.
  - vm_compute. reflexivity.
  - reflexivity.
  - vm_compute. discriminate.
  - exact scattered_layout.
  - exact scattered_lists.
Qed.

Lemma extend_arena_heap_spec_witness :
  let asize := round_up 100 dsize in
  exists block m' arena' bs' L',
    Arena.extend_arena_heap scattered_mem scattered_arena 100
      (extract_prev_alloc (load scattered_mem (psub (mem_heap_hi scattered_arena) 7)))
    = Ok (block, (m', arena'))
    /\ ((block = NULL /\ m' = scattered_mem /\ arena' = scattered_arena
         /\ arena_heap_end scattered_arena + asize
            > arena_low scattered_arena + arena_size scattered_arena)
        \/ (block <> NULL
            /\ arena_ok m' arena' bs' L'
            /\ arena_heap_end arena' = arena_heap_end scattered_arena + asize
            /\ allocated bs' = allocated scattered_blocks
            /\ (coalesced true scattered_blocks -> coalesced true bs')
            /\ exists f, f ∈ bs' /\ blk_addr f = block /\ blk_alloc f = false
                 /\ block ∈ concat L' /\ asize <= blk_size f
                 /\ blk_addr f + blk_size f = arena_heap_end arena' - wsize)).
Proof.
  apply (extend_arena_heap_spec scattered_mem scattered_arena scattered_blocks
           Fragmented.listed 100).
  - exact scattered_arena_ok.
  - lia.
  - vm_compute. reflexivity.
Defined.

(** ** Placing a request in a free block *)

Section Place.
Import WordFacts.

(** headers and footers are no link fields *)
Lemma tags_off_links m a pa bs e x y :
  chain m a pa bs e -> x ∈ bs -> y ∈ bs ->
  blk_addr x <> blk_addr y + 8 /\ blk_addr x <> blk_addr y + 16
  /\ blk_addr x + blk_size x - wsize <> blk_addr y + 8
  /\ blk_addr x + blk_size x - wsize <> blk_addr y + 16.
Proof.
  intros Hc Hx Hy. destruct (chain_bounds _ _ _ _ _ Hc) as [_ Hin].
  destruct (Hin x Hx) as (? & ? & ? & ?), (Hin y Hy) as (? & ? & ? & ?).
  destruct (chain_disjoint _ _ _ _ _ x y Hc Hx Hy) as [->|Hd]; zl.
Qed.

Lemma free_lists_of_wf m sl L bs :
  lists_wf m sl L ->
  (forall a, a ∈ concat L <->
     exists x, x ∈ bs /\ blk_addr x = a /\ blk_alloc x = false) ->
  free_lists m sl L bs.
Proof. intros [? ? ? ? ? _ _] H. split; assumption. Qed.

(** an address of a layout that is no link field of a listed block: the
    header and the footer of any block, the epilogue, and every word of a
    block other than its own two link fields *)
Lemma off_links m sl L hs pre f post e t :
  heap_layout m hs (pre ++ f :: post) e ->
  free_lists m sl L (pre ++ f :: post) ->
  (t = e
   \/ (exists x, x ∈ pre ++ post /\
         (t = blk_addr x \/ t = blk_addr x + blk_size x - wsize))
   \/ (blk_addr f <= t < blk_addr f + blk_size f
       /\ t <> blk_addr f + 8 /\ t <> blk_addr f + 16)) ->
  forall y, y ∈ concat L -> t <> y + 8 /\ t <> y + 16.
Proof.
  intros Hlay Hfl Ht y Hy. apply (fl_free _ _ _ _ Hfl) in Hy.
  destruct Hy as (z & Hz & <- & Hzf).
  pose proof (hl_chain _ _ _ _ Hlay) as Hc.
  destruct (chain_bounds _ _ _ _ _ Hc) as [_ Hin].
  destruct (Hin z Hz) as (? & ? & ? & ?).
  assert (Hfin : f ∈ pre ++ f :: post) by (apply elem_of_app; right; left).
  destruct (Hin f Hfin) as (? & ? & ? & ?).
  destruct Ht as [-> | [(x & Hx & Htx) | (Hext & H8 & H16)]].
  - zl.
  - apply (others_in_layout pre f post) in Hx.
    destruct (tags_off_links _ _ _ _ _ x z Hc Hx Hz) as (? & ? & ? & ?).
    destruct Htx as [-> | ->]; split; assumption.
  - destruct (chain_disjoint _ _ _ _ _ z f Hc Hz Hfin) as [->|Hd]; zl.
Qed.

(** the start of the placement: the block is tagged allocated and taken off
    its list *)
Lemma place_prelude m sl L hs pre f post e :
  heap_layout m hs (pre ++ f :: post) e -> blk_alloc f = false ->
  free_lists m sl L (pre ++ f :: post) ->
  let block := blk_addr f in
  let pa := last_alloc true pre in
  let m1 := write_block m block (get_size m block) true (get_prev_alloc m block) in
  exists m2 sl2,
    delete_from_free_list m1 sl block = (m2, sl2)
    /\ lists_wf m2 sl2 (unlist block L)
    /\ load m2 block = pack (blk_size f) true pa
    /\ (forall t, t <> block ->
          (forall y, y ∈ concat L -> t <> y + 8 /\ t <> y + 16) ->
          load m2 t = load m t).
Proof.
  intros Hlay Hf Hfl block pa m1.
  pose proof (layout_block _ _ _ _ _ _ Hlay Hf)
    as (_ & _ & _ & _ & _ & Hsz & Hgpa & _).
  fold block pa in Hsz, Hgpa.
  destruct (layout_neighbours _ _ _ _ _ _ Hlay)
    as (Hf0 & Hf1 & Hmin & Hal & _ & _ & _).
  pose proof (hl_high _ _ _ _ Hlay) as Hhigh.
  assert (Hm1 : m1 = store m block (pack (blk_size f) true pa)).
  { unfold m1. rewrite Hsz, Hgpa. apply write_block_alloc. }
  pose proof (free_lists_wf _ _ _ _ _ _ _ Hlay (fun x H => H) Hfl) as Hwf.
  assert (Hfin : f ∈ pre ++ f :: post) by (apply elem_of_app; right; left).
  assert (Hlisted : block ∈ concat L).
  { apply (fl_free _ _ _ _ Hfl). exists f. split; [exact Hfin|].
    split; [reflexivity | exact Hf]. }
  assert (Hoff : forall y, y ∈ concat L -> block <> y + 8 /\ block <> y + 16).
  { apply (off_links m sl L hs pre f post e); [exact Hlay | exact Hfl |].
    right. right. fold block. zl. }
  assert (Hhdr1 : load m1 block = pack (blk_size f) true pa)
    by (rewrite Hm1; apply load_store_eq).
  assert (Hwf1 : lists_wf m1 sl L).
  { apply (lists_wf_frame m); [exact Hwf|]. intros y Hy.
    destruct (Hoff y Hy) as [H8 H16].
    rewrite Hm1, !load_store_ne by congruence.
    split; [reflexivity|]. split; [reflexivity|].
    destruct (Z.eq_dec y block) as [->|Hne].
    - rewrite Hsz.
      assert (Hr : 0 <= blk_size f < Word.modulus) by zl.
      now destruct (header_fields _ block (blk_size f) true pa
                      (load_store_eq m block _) Hr Hal) as (-> & _).
    - apply get_size_same. now apply load_store_ne. }
  destruct (delete_listed m1 sl L block Hwf1 Hlisted)
    as (m2 & sl2 & Hdel & Hwf2 & Hfr2).
  exists m2, sl2. split; [exact Hdel|]. split; [exact Hwf2|].
  split.
  - rewrite Hfr2 by exact Hoff. exact Hhdr1.
  - intros t Ht Htoff. rewrite Hfr2 by exact Htoff.
    rewrite Hm1. now apply load_store_ne.
Qed.


(** which blocks the lists hold once the block at [pre ++ _ :: post] has
    left them *)
Lemma listed_others m sl L hs pre f post e :
  heap_layout m hs (pre ++ f :: post) e -> blk_alloc f = false ->
  free_lists m sl L (pre ++ f :: post) ->
  forall a, a ∈ concat (unlist (blk_addr f) L) <->
    exists x, x ∈ pre ++ post /\ blk_addr x = a /\ blk_alloc x = false.
Proof.
  intros Hlay Hf Hfl.
  apply listed_remove; [exact (fl_free _ _ _ _ Hfl)|].
  destruct (layout_neighbours _ _ _ _ _ _ Hlay) as (_ & _ & Hmin & _ & _ & H1 & H3).
  intros y Hy. apply elem_of_app in Hy. destruct Hy as [Hy|Hy].
  - destruct (H1 y Hy) as (? & ? & ?). zl.
  - destruct (H3 y Hy) as (? & ? & ?). zl.
Qed.

(** the placement when the block is not split: the block is allocated as a
    whole and the header after it records that *)
Lemma place_whole m m2 sl2 L sl hs pre f post e :
  heap_layout m hs (pre ++ f :: post) e -> blk_alloc f = false ->
  free_lists m sl L (pre ++ f :: post) ->
  let block := blk_addr f in
  lists_wf m2 sl2 (unlist block L) ->
  load m2 block = pack (blk_size f) true (last_alloc true pre) ->
  (forall t, t <> block ->
     (forall y, y ∈ concat L -> t <> y + 8 /\ t <> y + 16) ->
     load m2 t = load m t) ->
  let next := find_next m2 block in
  let m4 := write_block m2 next (get_size m2 next) (get_alloc m2 next) true in
  let b' := {| blk_addr := block; blk_size := blk_size f; blk_alloc := true |} in
  heap_layout m4 hs (pre ++ b' :: post) e
  /\ free_lists m4 sl2 (unlist block L) (pre ++ b' :: post)
  /\ outside hs e m m4.
Proof.
  intros Hlay Hf Hfl block Hwf2 Hhdr2 Hsame2 next m4 b'.
  pose proof (listed_others _ _ _ _ _ _ _ _ Hlay Hf Hfl) as Hmem. fold block in Hmem.
  destruct (layout_neighbours _ _ _ _ _ _ Hlay)
    as (Hf0 & Hf1 & Hmin & Hal & Haddr & Hn1 & Hn3).
  fold block in Hf0, Hf1, Haddr, Hn1, Hn3.
  assert (Htag : forall x, x ∈ pre ++ post ->
            load m2 (blk_addr x) = load m (blk_addr x)
            /\ load m2 (blk_addr x + blk_size x - wsize)
               = load m (blk_addr x + blk_size x - wsize)).
  { intros x Hx.
    assert (Hne : blk_addr x <> block /\ blk_addr x + blk_size x - wsize <> block).
    { apply elem_of_app in Hx. destruct Hx as [Hx|Hx].
      - destruct (Hn1 x Hx) as (? & ? & ?). zl.
      - destruct (Hn3 x Hx) as (? & ? & ?). zl. }
    split; (apply Hsame2; [tauto|]);
      apply (off_links m sl L hs pre f post e _ Hlay Hfl); right; left;
      exists x; (split; [exact Hx|]); [now left | now right]. }
  apply (layout_parts m hs pre [f] post e) in Hlay as Hparts.
  destruct Hparts as (Hlow & Hhigh & Hpre & _ & Hpost & Hepi).
  rewrite last_alloc_cons, last_alloc_nil, Hf in Hpost, Hepi.
  cbn [total foldr] in Hpost. rewrite Z.add_0_r, <- Haddr in Hpost.
  rewrite <- Haddr in Hpre.
  set (s := blk_size f) in *. set (pa := last_alloc true pre) in *.
  assert (Hpost2 : chain m2 (block + s) false post e).
  { apply (chain_frame m); [exact Hpost|]. intros x Hx. apply Htag.
    apply elem_of_app. now right. }
  assert (Hepi2 : load m2 e = pack 0 true (last_alloc false post)).
  { rewrite Hsame2; [exact Hepi | zl |].
    apply (off_links m sl L hs pre f post e _ Hlay Hfl). now left. }
  destruct (header_fields m2 block s true pa Hhdr2 ltac:(zl) Hal) as (Hs2 & _ & _).
  assert (Hnext : next = block + s).
  { unfold next, find_next. rewrite Hs2. apply padd_small. zl. }
  destruct (retag_next m2 (block + s) false post e true Hpost2 Hepi2
              ltac:(zl) Hhigh) as (Hpost4 & Hepi4 & Hlow4 & Hin4 & Hup4).
  rewrite <- Hnext in Hpost4, Hepi4, Hlow4, Hin4, Hup4.
  fold m4 in Hpost4, Hepi4, Hlow4, Hin4, Hup4.
  split; [|split].
  3:{ pose proof (listed_within m sl L hs _ _ e Hlay (fun x H => H) Hfl) as Hwithin.
      destruct (chain_bounds _ _ _ _ _ Hpre) as [Hhb _].
      intros t Ht.
      assert (Hm2 : load m2 t = load m t).
      { apply Hsame2; [zl|]. intros y Hy. destruct (Hwithin y Hy). zl. }
      destruct Ht as [Ht|Ht].
      - rewrite Hlow4 by zl. exact Hm2.
      - rewrite Hup4 by zl. exact Hm2. }
  - apply (layout_parts m4 hs pre [b'] post e).
    split; [exact Hlow|]. split; [exact Hhigh|].
    rewrite last_alloc_cons, last_alloc_nil. cbn [blk_alloc b'].
    cbn [total foldr blk_size b']. rewrite Z.add_0_r, <- Haddr.
    fold s pa. split; [|split; [|split]].
    + apply (chain_frame m); [exact Hpre|]. intros x Hx.
      destruct (Hn1 x Hx) as (? & ? & ?).
      destruct (Htag x ltac:(apply elem_of_app; now left)) as [Ht1 Ht2].
      rewrite !Hlow4 by zl. split; assumption.
    + cbn [chain]. unfold tagged. cbn [blk_addr blk_size blk_alloc b'].
      fold s. split; [reflexivity|]. split; [|reflexivity].
      split; [exact Hmin|]. split; [exact Hal|].
      rewrite Hlow4 by zl. split; [exact Hhdr2 | discriminate].
    + rewrite <- Hnext. exact Hpost4.
    + exact Hepi4.
  - apply free_lists_of_wf.
    + apply (lists_wf_frame m2); [exact Hwf2|]. intros y Hy.
      apply Hmem in Hy. destruct Hy as (z & Hz & <- & Hzf).
      apply elem_of_app in Hz. destruct Hz as [Hz|Hz].
      * destruct (Hn1 z Hz) as (? & ? & ?).
        rewrite !Hlow4 by zl. split; [reflexivity|]. split; [reflexivity|].
        apply get_size_same. apply Hlow4. zl.
      * exact (Hin4 z Hz).
    + intros a. rewrite Hmem. split; intros (x & Hx & Hxa & Hxf); exists x;
        (split; [|split; assumption]).
      * now apply others_in_layout.
      * apply elem_of_app in Hx. apply elem_of_app.
        destruct Hx as [Hx|Hx]; [now left|].
        apply elem_of_cons in Hx. destruct Hx as [->|Hx]; [discriminate | now right].
Qed.


(** the placement when the block is split: the front part is allocated,
    the rest becomes a free block on its list *)
Lemma place_split m m2 sl2 L sl hs pre f post e asize :
  heap_layout m hs (pre ++ f :: post) e -> blk_alloc f = false ->
  free_lists m sl L (pre ++ f :: post) ->
  let block := blk_addr f in
  lists_wf m2 sl2 (unlist block L) ->
  load m2 block = pack (blk_size f) true (last_alloc true pre) ->
  (forall t, t <> block ->
     (forall y, y ∈ concat L -> t <> y + 8 /\ t <> y + 16) ->
     load m2 t = load m t) ->
  min_block_size <= asize -> asize mod 16 = 0 ->
  asize + min_block_size <= blk_size f ->
  exists m3 sl3 L',
    split_block m2 sl2 block asize = (m3, sl3)
    /\ let next := find_next m3 block in
       let m4 := write_block m3 next (get_size m3 next) (get_alloc m3 next) true in
       let b' := {| blk_addr := block; blk_size := asize; blk_alloc := true |} in
       let rb := {| blk_addr := block + asize; blk_size := blk_size f - asize;
                    blk_alloc := false |} in
       heap_layout m4 hs (pre ++ b' :: rb :: post) e
       /\ free_lists m4 sl3 L' (pre ++ b' :: rb :: post)
       /\ outside hs e m m4.
Proof.
  intros Hlay Hf Hfl block Hwf2 Hhdr2 Hsame2 Hamin Haal Hroom.
  pose proof (listed_others _ _ _ _ _ _ _ _ Hlay Hf Hfl) as Hmem. fold block in Hmem.
  destruct (layout_neighbours _ _ _ _ _ _ Hlay)
    as (Hf0 & Hf1 & Hmin & Hal & Haddr & Hn1 & Hn3).
  fold block in Hf0, Hf1, Haddr, Hn1, Hn3.
  assert (Hout : forall x, x ∈ pre ++ post ->
            (blk_addr x + blk_size x <= block \/ block + blk_size f <= blk_addr x)
            /\ wsize <= blk_addr x /\ min_block_size <= blk_size x
            /\ blk_addr x + blk_size x <= e).
  { intros x Hx. apply elem_of_app in Hx. destruct Hx as [Hx|Hx].
    - destruct (Hn1 x Hx) as (? & ? & ?).
      pose proof (hl_low _ _ _ _ Hlay). zl.
    - destruct (Hn3 x Hx) as (? & ? & ?). zl. }
  assert (Htag : forall x, x ∈ pre ++ post ->
            load m2 (blk_addr x) = load m (blk_addr x)
            /\ load m2 (blk_addr x + blk_size x - wsize)
               = load m (blk_addr x + blk_size x - wsize)).
  { intros x Hx. destruct (Hout x Hx) as (? & ? & ? & ?).
    split; (apply Hsame2; [zl|]);
      apply (off_links m sl L hs pre f post e _ Hlay Hfl); right; left;
      exists x; (split; [exact Hx|]); [now left | now right]. }
  apply (layout_parts m hs pre [f] post e) in Hlay as Hparts.
  destruct Hparts as (Hlow & Hhigh & Hpre & _ & Hpost & Hepi).
  rewrite last_alloc_cons, last_alloc_nil, Hf in Hpost, Hepi.
  cbn [total foldr] in Hpost. rewrite Z.add_0_r, <- Haddr in Hpost.
  rewrite <- Haddr in Hpre.
  set (s := blk_size f) in *. set (pa := last_alloc true pre) in *.
  set (rs := s - asize). set (r := block + asize).
  assert (Hrs : min_block_size <= rs /\ rs mod 16 = 0 /\ r + rs = block + s).
  { unfold rs, r. split; [lia|]. split; [|lia]. sizes. zdiv. }
  destruct Hrs as (Hrs1 & Hrs2 & Hrs3).
  destruct (header_fields m2 block s true pa Hhdr2 ltac:(zl) Hal) as (Hs2 & _ & Hp2).
  (* the two [write_block]s of [split_block] *)
  set (ma := write_block m2 block asize true pa).
  assert (Hma : ma = store m2 block (pack asize true pa)) by reflexivity.
  assert (Hsa : get_size ma block = asize).
  { now destruct (header_fields ma block asize true pa
                    ltac:(rewrite Hma; apply load_store_eq) ltac:(zl) Haal)
      as (-> & _). }
  assert (Hra : find_next ma block = r).
  { unfold find_next. rewrite Hsa. apply padd_small. unfold r. zl. }
  set (mb := write_block ma r rs false true).
  assert (Hmb : mb = store (store ma r (pack rs false true)) (r + rs - wsize)
                       (pack rs false true)).
  { unfold mb. apply write_block_free; unfold r in *; zl. }
  assert (Hmb_oth : forall t, t <> block -> t <> r -> t <> r + rs - wsize ->
                      load mb t = load m2 t).
  { intros t H1 H2 H3. rewrite Hmb, Hma, !load_store_ne by congruence.
    reflexivity. }
  assert (Hwfb : lists_wf mb sl2 (unlist block L)).
  { apply (lists_wf_frame m2); [exact Hwf2|]. intros y Hy.
    apply Hmem in Hy. destruct Hy as (z & Hz & <- & Hzf).
    destruct (Hout z Hz) as (? & ? & ? & ?).
    rewrite !Hmb_oth by (unfold r in *; zl).
    split; [reflexivity|]. split; [reflexivity|].
    apply get_size_same. apply Hmb_oth; unfold r in *; zl. }
  destruct (add_listed mb sl2 (unlist block L) r Hwfb)
    as (m3 & sl3 & Hadd & Hwf3 & Hfr3).
  { unfold r. zl. }
  { unfold r in *. zl. }
  { intros y Hy. apply Hmem in Hy. destruct Hy as (z & Hz & <- & Hzf).
    destruct (Hout z Hz) as (? & ? & ? & ?). unfold r in *. zl. }
  exists m3, sl3, (enlist r (Z.to_nat (find_list_for_block mb r)) (unlist block L)).
  split.
  { unfold split_block. rewrite Hs2, Hp2. fold rs.
    rewrite (wrap_small rs) by zl.
    replace (rs >=? min_block_size) with true
      by (symmetry; rewrite Z.geb_leb; apply Z.leb_le; lia).
    fold ma. rewrite Hra. fold mb. exact Hadd. }
  (* the words of the two new blocks *)
  assert (Hm3 : forall t, t <> r + 8 -> t <> r + 16 ->
            (forall z, z ∈ pre ++ post -> blk_alloc z = false -> t <> blk_addr z + 8) ->
            load m3 t = load mb t).
  { intros t H1 H2 H3. apply Hfr3; [exact H1 | exact H2 |].
    intros y Hy. apply Hmem in Hy. destruct Hy as (z & Hz & <- & Hzf).
    now apply H3. }
  assert (Hin_ext : forall t, block <= t < block + s -> t <> r + 8 -> t <> r + 16 ->
            load m3 t = load mb t).
  { intros t Ht H1 H2. apply Hm3; [exact H1 | exact H2 |].
    intros z Hz _. destruct (Hout z Hz) as (? & ? & ? & ?). zl. }
  assert (Hb3 : load m3 block = pack asize true pa).
  { rewrite Hin_ext by (unfold r in *; zl).
    rewrite Hmb, !load_store_ne by (unfold r in *; zl).
    rewrite Hma. apply load_store_eq. }
  assert (Hr3 : load m3 r = pack rs false true).
  { rewrite Hin_ext by (unfold r in *; zl).
    rewrite Hmb, load_store_ne by (unfold r in *; zl). apply load_store_eq. }
  assert (Hrf3 : load m3 (r + rs - wsize) = pack rs false true).
  { rewrite Hin_ext by (unfold r in *; zl). rewrite Hmb. apply load_store_eq. }
  destruct (header_fields m3 block asize true pa Hb3 ltac:(zl) Haal) as (Hs3 & _ & _).
  destruct (header_fields m3 r rs false true Hr3 ltac:(zl) Hrs2)
    as (Hsr3 & Har3 & _).
  cbv zeta.
  assert (Hnext3 : find_next m3 block = r).
  { unfold find_next. rewrite Hs3. apply padd_small. unfold r. zl. }
  rewrite Hnext3, Hsr3, Har3.
  set (m4 := write_block m3 r rs false true).
  assert (Hm4 : forall t, load m4 t = load m3 t).
  { intros t. unfold m4. rewrite write_block_free by (unfold r in *; zl).
    destruct (Z.eq_dec t (r + rs - wsize)) as [->|H1].
    - rewrite load_store_eq. now rewrite Hrf3.
    - rewrite load_store_ne by congruence.
      rewrite <- Hr3. apply store_same. }
  assert (Htag4 : forall x, x ∈ pre ++ post ->
            load m4 (blk_addr x) = load m (blk_addr x)
            /\ load m4 (blk_addr x + blk_size x - wsize)
               = load m (blk_addr x + blk_size x - wsize)).
  { intros x Hx. destruct (Hout x Hx) as (? & ? & ? & ?).
    destruct (Htag x Hx) as [Ht1 Ht2].
    pose proof (hl_chain _ _ _ _ Hlay) as Hc.
    assert (Hoff : forall z, z ∈ pre ++ post ->
              blk_addr x <> blk_addr z + 8
              /\ blk_addr x + blk_size x - wsize <> blk_addr z + 8).
    { intros z Hz.
      destruct (tags_off_links _ _ _ _ _ x z Hc
                  (others_in_layout pre f post x Hx)
                  (others_in_layout pre f post z Hz)) as (? & ? & ? & ?).
      tauto. }
    rewrite !Hm4. rewrite !Hm3; try (unfold r in *; zl);
      try (intros z Hz _; now destruct (Hoff z Hz)).
    rewrite !Hmb_oth by (unfold r in *; zl). split; assumption. }
  split; [|split].
  3:{ pose proof (listed_within m sl L hs _ _ e Hlay (fun x H => H) Hfl) as Hwithin.
      destruct (chain_bounds _ _ _ _ _ Hpre) as [Hhb _].
      intros t Ht. rewrite Hm4, Hm3.
      - rewrite Hmb_oth by (unfold r in *; zl).
        apply Hsame2; [zl|]. intros y Hy. destruct (Hwithin y Hy). zl.
      - unfold r in *. zl.
      - unfold r in *. zl.
      - intros z Hz _. apply elem_of_app in Hz. destruct Hz as [Hz|Hz].
        + destruct (Hn1 z Hz) as (? & ? & ?). zl.
        + destruct (Hn3 z Hz) as (? & ? & ?). zl. }
  - apply (layout_parts m4 hs pre [_; _] post e).
    split; [exact Hlow|]. split; [exact Hhigh|].
    rewrite !last_alloc_cons, last_alloc_nil. cbn [blk_alloc].
    cbn [total foldr blk_size]. rewrite Z.add_0_r, <- Haddr.
    fold s pa rs r.
    replace (block + (asize + rs)) with (block + s) by (unfold rs; lia).
    split; [|split; [|split]].
    + apply (chain_frame m); [exact Hpre|]. intros x Hx.
      apply Htag4. apply elem_of_app. now left.
    + cbn [chain]. unfold tagged. cbn [blk_addr blk_size blk_alloc].
      fold r rs. rewrite !Hm4.
      split; [reflexivity|]. split.
      { split; [exact Hamin|]. split; [unfold dsize, wsize; exact Haal|].
        split; [exact Hb3 | discriminate]. }
      split; [reflexivity|]. split; [|unfold r, rs; lia].
      split; [exact Hrs1|]. split; [unfold dsize, wsize; exact Hrs2|].
      split; [exact Hr3 | intros _; exact Hrf3].
    + apply (chain_frame m); [exact Hpost|]. intros x Hx.
      apply Htag4. apply elem_of_app. now right.
    + rewrite Hm4, Hm3; try (unfold r in *; zl).
      * rewrite Hmb_oth by (unfold r in *; zl).
        rewrite Hsame2; [exact Hepi | zl |].
        apply (off_links m sl L hs pre f post e _ Hlay Hfl). now left.
      * intros z Hz _. destruct (Hout z Hz) as (? & ? & ? & ?). zl.
  - apply free_lists_of_wf.
    + apply (lists_wf_frame m3); [exact Hwf3|]. intros y Hy.
      rewrite !Hm4. split; [reflexivity|]. split; [reflexivity|].
      apply get_size_same. apply Hm4.
    + intros a. rewrite concat_enlist.
      2:{ unfold unlist. rewrite length_fmap, (fl_lists _ _ _ _ Hfl).
          assert (Hi : 0 <= find_list_for_block mb r < 15).
          { rewrite find_list_for_block_bits.
            pose proof (bits_nonneg (Z.shiftr (get_size mb r) 6)).
            unfold MAXLISTS. lia. }
          change (Z.to_nat MAXLISTS) with 15%nat. lia. }
      rewrite Hmem. split.
      * intros [->|(x & Hx & Hxa & Hxf)].
        -- eexists. split; [apply elem_of_app; right; right; left|].
           split; reflexivity.
        -- exists x. split; [|split; assumption].
           apply elem_of_app in Hx. apply elem_of_app.
           destruct Hx as [Hx|Hx]; [now left | right; right; now right].
      * intros (x & Hx & Hxa & Hxf).
        apply elem_of_app in Hx. destruct Hx as [Hx|Hx].
        -- right. exists x. split; [apply elem_of_app; now left|]. split; assumption.
        -- apply elem_of_cons in Hx. destruct Hx as [->|Hx]; [discriminate|].
           apply elem_of_cons in Hx. destruct Hx as [->|Hx]; [now left|].
           right. exists x. split; [apply elem_of_app; now right|]. split; assumption.
Qed.

End Place.

Section Malloc.
Import WordFacts.

(** the part of [_malloc] that follows the search, the same in every
    variant: the free block [f] becomes the allocated block [b'], split when
    at least [min_block_size] bytes are left over *)
Lemma place_core m sl L hs pre f post e asize :
  heap_layout m hs (pre ++ f :: post) e -> blk_alloc f = false ->
  free_lists m sl L (pre ++ f :: post) ->
  min_block_size <= asize -> asize mod 16 = 0 -> asize <= blk_size f ->
  let block := blk_addr f in
  let m1 := write_block m block (get_size m block) true (get_prev_alloc m block) in
  exists m2 sl2 m3 sl3 L' b' rest,
    delete_from_free_list m1 sl block = (m2, sl2)
    /\ split_block m2 sl2 block asize = (m3, sl3)
    /\ (let next := find_next m3 block in
        let m4 := write_block m3 next (get_size m3 next) (get_alloc m3 next) true in
        heap_layout m4 hs (pre ++ b' :: rest) e
        /\ free_lists m4 sl3 L' (pre ++ b' :: rest)
        /\ outside hs e m m4)
    /\ blk_addr b' = block /\ blk_alloc b' = true
    /\ asize <= blk_size b' <= blk_size f
    /\ allocated rest = allocated post
    /\ (coalesced true (pre ++ f :: post) -> coalesced true (pre ++ b' :: rest)).
Proof.
  intros Hlay Hf Hfl Hamin Haal Hfit block m1.
  destruct (place_prelude m sl L hs pre f post e Hlay Hf Hfl)
    as (m2 & sl2 & Hdel & Hwf2 & Hhdr2 & Hsame2).
  fold block m1 in Hdel, Hwf2, Hhdr2, Hsame2.
  destruct (layout_neighbours _ _ _ _ _ _ Hlay)
    as (Hf0 & Hf1 & Hmin & Hal & _ & _ & _).
  pose proof (hl_high _ _ _ _ Hlay) as Hhigh.
  destruct (Z_lt_ge_dec (blk_size f - asize) min_block_size) as [Hwhole|Hsplit].
  - destruct (place_whole m m2 sl2 L sl hs pre f post e Hlay Hf Hfl
                Hwf2 Hhdr2 Hsame2) as (Hlay4 & Hfl4 & Hout4).
    exists m2, sl2, m2, sl2, (unlist block L),
      {| blk_addr := block; blk_size := blk_size f; blk_alloc := true |}, post.
    cbn [blk_addr blk_size blk_alloc].
    split; [exact Hdel|]. split.
    { unfold split_block.
      destruct (header_fields m2 block _ _ _ Hhdr2 ltac:(zl) Hal) as (-> & _).
      rewrite wrap_small by zl.
      replace (blk_size f - asize >=? min_block_size) with false
        by (symmetry; rewrite Z.geb_leb; apply Z.leb_gt; lia).
      reflexivity. }
    split; [split; [exact Hlay4 | split; [exact Hfl4 | exact Hout4]]|].
    split; [reflexivity|]. split; [reflexivity|]. split; [lia|].
    split; [reflexivity|]. intros Hc.
    apply coalesced_app in Hc. destruct Hc as [Hc1 Hc2].
    cbn [coalesced] in Hc2. rewrite Hf in Hc2. destruct Hc2 as [_ Hc2].
    apply coalesced_app. split; [exact Hc1|]. cbn [coalesced blk_alloc].
    split; [reflexivity|]. exact (coalesced_weaken _ _ Hc2).
  - destruct (place_split m m2 sl2 L sl hs pre f post e asize Hlay Hf Hfl
                Hwf2 Hhdr2 Hsame2 Hamin Haal ltac:(lia))
      as (m3 & sl3 & L' & Hsp & Hlay4 & Hfl4 & Hout4).
    exists m2, sl2, m3, sl3, L',
      {| blk_addr := block; blk_size := asize; blk_alloc := true |},
      ({| blk_addr := block + asize; blk_size := blk_size f - asize;
          blk_alloc := false |} :: post).
    cbn [blk_addr blk_size blk_alloc].
    split; [exact Hdel|]. split; [exact Hsp|].
    split; [split; [exact Hlay4 | split; [exact Hfl4 | exact Hout4]]|].
    split; [reflexivity|]. split; [reflexivity|]. split; [lia|].
    split; [now apply allocated_free|]. intros Hc.
    apply coalesced_app in Hc. destruct Hc as [Hc1 Hc2].
    cbn [coalesced] in Hc2. rewrite Hf in Hc2. destruct Hc2 as [_ Hc2].
    apply coalesced_app. split; [exact Hc1|]. cbn [coalesced blk_alloc].
    split; [reflexivity|]. split; [discriminate | exact Hc2].
Qed.

(** what the arena [find_fit] returns is NULL or a listed block that is
    large enough *)
Lemma arena_find_fit_listed m arena L asize :
  lists_wf m (arena_seglists arena) L -> 0 <= asize ->
  Arena.find_fit m arena asize = NULL
  \/ (Arena.find_fit m arena asize ∈ concat L
      /\ asize <= get_size m (Arena.find_fit m arena asize)).
Proof.
  intros Hwf Has. rewrite arena_find_fit_two_lists. cbv zeta.
  pose proof (min_list_index_range asize) as Hc.
  set (c := min_list_index asize) in *.
  assert (Hfound : forall i, 0 <= i < MAXLISTS ->
            search_list m (seglist (arena_seglists arena) i) asize = NULL
            \/ (search_list m (seglist (arena_seglists arena) i) asize ∈ concat L
                /\ asize <= get_size m
                              (search_list m (seglist (arena_seglists arena) i) asize))).
  { intros i Hi.
    pose proof (search_listed m _ L i asize Hwf Hi Has) as Hs.
    destruct (Z.eq_dec (search_list m (seglist (arena_seglists arena) i) asize) NULL)
      as [He|Hne]; [now left|].
    right. destruct (best_fit_found _ _ _ _ Hs Hne) as (Hin & Hfit & _).
    split; [|exact Hfit].
    apply elem_of_take in Hin. destruct Hin as (k & Hk & _).
    apply elem_concat. exists (Z.to_nat i), (L !!! Z.to_nat i). split.
    - apply list_lookup_lookup_total_lt. rewrite (lw_lists _ _ _ Hwf).
      unfold MAXLISTS in *. lia.
    - eapply list_elem_of_lookup_2. exact Hk. }
  destruct (Z.eqb_spec (search_list m (seglist (arena_seglists arena) c) asize) NULL)
    as [He|Hne]; cbn [negb].
  - destruct (Z.ltb_spec (c + 1) MAXLISTS) as [Hlt|Hge]; [|now left].
    apply Hfound. lia.
  - destruct (Hfound c ltac:(unfold MAXLISTS in *; lia)) as [H|H];
      [contradiction | now right].
Qed.

End Malloc.

Section ArenaMalloc.
Import WordFacts.

(** the end of the arena [_malloc], from the block it found or made *)
Lemma arena_place m arena bs L f asize :
  arena_ok m arena bs L -> f ∈ bs -> blk_alloc f = false ->
  min_block_size <= asize -> asize mod 16 = 0 -> asize <= blk_size f ->
  let block := blk_addr f in
  exists m' sl' bs' L' b pre rest,
    (let block_size := get_size m block in
     let m := write_block m block block_size true (get_prev_alloc m block) in
     let '(m, sl) := delete_from_free_list m (arena_seglists arena) block in
     let '(m, sl) := split_block m sl block asize in
     let next := find_next m block in
     let m := write_block m next (get_size m next) (get_alloc m next) true in
     Ok (header_to_payload block, (m, set_seglists arena sl)))
    = Ok (header_to_payload block, (m', set_seglists arena sl'))
    /\ arena_ok m' (set_seglists arena sl') bs' L'
    /\ bs' = pre ++ b :: rest
    /\ blk_addr b = block /\ blk_alloc b = true
    /\ asize <= blk_size b
    /\ allocated bs = allocated pre ++ allocated rest
    /\ (coalesced true bs -> coalesced true bs')
    /\ outside (arena_heap_start arena) (arena_heap_end arena - wsize) m m'.
Proof.
  intros [Hlow Htop Hstart Hend Hlay Hfl] Hfin Hf Hamin Haal Hfit block.
  destruct (list_elem_of_split _ _ Hfin) as (pre & post & ->).
  destruct (place_core m _ L _ pre f post _ asize Hlay Hf Hfl Hamin Haal Hfit)
    as (m2 & sl2 & m3 & sl3 & L' & b' & rest & Hdel & Hsp & (Hlay4 & Hfl4 & Hout4)
        & Hb1 & Hb2 & Hb3 & Hal & Hco).
  fold block in Hdel, Hsp, Hlay4, Hfl4, Hb1, Hout4.
  eexists _, sl3, (pre ++ b' :: rest), L', b', pre, rest.
  split.
  { cbv zeta. rewrite Hdel, Hsp. reflexivity. }
  split.
  { split; cbn [set_seglists arena_low arena_size arena_heap_start
                  arena_heap_end arena_seglists]; assumption. }
  split; [reflexivity|]. split; [exact Hb1|]. split; [exact Hb2|].
  split; [lia|]. split; [|split; [exact Hco | exact Hout4]].
  now rewrite allocated_app, (allocated_free f), Hal.
Qed.


(** [extend_arena_heap] and [_malloc] leave the mapping of the arena and
    the start of its heap as they are *)
Lemma extend_arena_heap_mapping m arena size pa block m' arena' :
  Arena.extend_arena_heap m arena size pa = Ok (block, (m', arena')) ->
  arena_low arena' = arena_low arena /\ arena_size arena' = arena_size arena
  /\ arena_heap_start arena' = arena_heap_start arena.
Proof.
  unfold Arena.extend_arena_heap, extend_arena.
  destruct (_ >? _).
  - rewrite Z.eqb_refl. intros H. injection H as _ _ <-. auto.
  - destruct (arena_heap_end arena =? NULL).
    + intros H. injection H as _ _ <-. auto.
    + destruct (coalesce_block _ _ _) as [[r [m3 sl3]]|]; cbn [bind];
        [|discriminate].
      destruct (add_to_free_list m3 sl3 r) as [m4 sl4].
      intros H. injection H as _ _ <-. auto.
Qed.

Lemma arena_malloc_mapping m arena size p m' arena' :
  Arena._malloc m arena size = Ok (p, (m', arena')) ->
  arena_low arena' = arena_low arena /\ arena_size arena' = arena_size arena
  /\ arena_heap_start arena' = arena_heap_start arena.
Proof.
  unfold Arena._malloc.
  destruct (size =? 0); [intros H; injection H as _ _ <-; auto|].
  cbv zeta.
  destruct (Arena.find_fit m arena _ =? NULL).
  - destruct (Arena.extend_arena_heap _ _ _ _) as [[block [m1 arena1]]|] eqn:Hext;
      cbn [bind]; [|discriminate].
    apply extend_arena_heap_mapping in Hext. destruct Hext as (H1 & H2 & H3).
    destruct (block =? NULL); [intros H; injection H as _ _ <-; auto|].
    destruct (delete_from_free_list _ _ _) as [m2 sl2].
    destruct (split_block m2 sl2 block _) as [m3 sl3].
    intros H. injection H as _ _ <-. auto.
  - cbn [bind].
    destruct (Arena.find_fit m arena _ =? NULL);
      [intros H; injection H as _ _ <-; auto|].
    destruct (delete_from_free_list _ _ _) as [m2 sl2].
    destruct (split_block m2 sl2 _ _) as [m3 sl3].
    intros H. injection H as _ _ <-. auto.
Qed.

(** the arena [_malloc] on an arena whose heap satisfies the invariants; it
    writes within the arena's mapping *)
Lemma arena_malloc_core m arena bs L size :
  arena_ok m arena bs L -> 0 < size ->
  size + CHUNK_SIZE + 64 + arena_low arena + arena_size arena < Word.modulus ->
  let asize := round_up (Word.wrap (size + wsize)) dsize in
  exists p m' arena' bs' L',
    Arena._malloc m arena size = Ok (p, (m', arena'))
    /\ outside (arena_heap_start arena)
         (arena_low arena + arena_size arena - wsize) m m'
    /\ ((p = NULL /\ m' = m /\ arena' = arena
         /\ Arena.find_fit m arena asize = NULL
         /\ arena_heap_end arena + round_up (Z.max asize CHUNK_SIZE) dsize
            > arena_low arena + arena_size arena)
        \/ (p <> NULL
            /\ arena_ok m' arena' bs' L'
            /\ exists b pre rest,
                 bs' = pre ++ b :: rest
                 /\ p = header_to_payload (blk_addr b)
                 /\ blk_alloc b = true
                 /\ asize <= blk_size b
                 /\ size <= blk_size b - wsize
                 /\ allocated bs = allocated pre ++ allocated rest
                 /\ (coalesced true bs -> coalesced true bs'))).
Proof.
  intros Hok Hsize Hno asize.
  pose proof Hok as [Hlow Htop Hstart Hend Hlay Hfl].
  pose proof (hl_chain _ _ _ _ Hlay) as Hc0.
  destruct (chain_bounds _ _ _ _ _ Hc0) as [Hse _]. clear Hc0.
  assert (Hw : Word.wrap (size + wsize) = size + wsize).
  { apply WordFacts.wrap_small. unfold CHUNK_SIZE in Hno.
    change (Z.shiftl 1 12) with 4096 in Hno. zl. }
  assert (Hchunk : CHUNK_SIZE = 4096) by reflexivity.
  destruct (round_up_facts (size + wsize)) as (Hr & Haal & Hup);
    [zl | rewrite Hchunk in Hno; zl |].
  rewrite <- Hw in Hr, Haal, Hup. fold asize in Hr, Haal, Hup. rewrite Hw in Hup.
  assert (Hpay : forall b : blk,
            blk_addr b <> NULL -> 0 <= blk_addr b ->
            blk_addr b + wsize < Word.modulus ->
            header_to_payload (blk_addr b) <> NULL).
  { intros b _ H0 H1. unfold header_to_payload. rewrite padd_small; zl. }
  unfold Arena._malloc. fold asize.
  replace (size =? 0) with false by (symmetry; apply Z.eqb_neq; lia).
  pose proof (free_lists_wf _ _ _ _ _ _ _ Hlay (fun x H => H) Hfl) as Hwf.
  destruct (arena_find_fit_listed m arena L asize Hwf ltac:(zl))
    as [Hnone | [Hin Hfits]].
  - (* no fit: the arena has to grow *)
    rewrite Hnone, Z.eqb_refl.
    rewrite (epilogue_prev_alloc m arena bs L Hok).
    destruct (extend_arena_heap_grows m arena bs L (Z.max asize CHUNK_SIZE) Hok)
      as (block & m1 & arena1 & bs1 & L1 & Hext & Hcases).
    { lia. }
    { rewrite Hchunk in *. zl. }
    rewrite Hext. cbn [bind].
    assert (Hout1 : outside (arena_heap_start arena)
                      (arena_low arena + arena_size arena - wsize) m m1).
    { apply (extend_arena_heap_writes m arena bs L (Z.max asize CHUNK_SIZE)
               block m1 arena1 Hok); [lia | rewrite Hchunk in *; zl | exact Hext]. }
    pose proof (extend_arena_heap_mapping _ _ _ _ _ _ _ Hext)
      as (Hlow1 & Hsize1 & Hstart1).
    destruct Hcases as [(-> & -> & -> & Hfull) | (Hnz & Hok1 & _ & Hal1 & Hco1 & f & Hfin
                                              & Hfa & Hff & _ & Hfsz & _)].
    + rewrite Z.eqb_refl. exists NULL, m, arena, bs, L.
      split; [reflexivity|]. split; [apply outside_refl|].
      left. repeat split. exact Hfull.
    + replace (block =? NULL) with false by (symmetry; now apply Z.eqb_neq).
      destruct (round_up_facts (Z.max asize CHUNK_SIZE)) as (_ & _ & Hup1);
        [lia | rewrite Hchunk in *; zl |].
      destruct (arena_place m1 arena1 bs1 L1 f asize Hok1 Hfin Hff
                  ltac:(lia) Haal ltac:(lia))
        as (m' & sl' & bs' & L' & b & pre & rest & Hrun & Hok' & Hbs' & Hba
            & Hbal & Hbsz & Hal' & Hco' & Hout').
      rewrite Hfa in Hrun, Hba. cbv zeta in Hrun. rewrite Hrun.
      exists (header_to_payload block), m', (set_seglists arena1 sl'), bs', L'.
      split; [reflexivity|]. split.
      { apply (outside_trans _ _ _ m1); [exact Hout1|].
        apply (outside_wider _ _ _ _ _ _ Hout').
        - rewrite Hstart1. lia.
        - pose proof (ao_end _ _ _ _ Hok1). rewrite Hlow1, Hsize1 in *. lia. }
      right.
      pose proof (ao_layout _ _ _ _ Hok') as Hlay'.
      pose proof (hl_chain _ _ _ _ Hlay') as Hc'.
      destruct (chain_bounds _ _ _ _ _ Hc') as [_ Hin'].
      destruct (Hin' b ltac:(rewrite Hbs'; apply elem_of_app; right; left))
        as (? & ? & ? & ?).
      pose proof (hl_low _ _ _ _ Hlay'). pose proof (hl_high _ _ _ _ Hlay').
      split; [rewrite <- Hba; apply Hpay; rewrite ?Hba; zl|].
      split; [exact Hok'|].
      exists b, pre, rest. split; [exact Hbs'|]. split; [now rewrite Hba|].
      split; [exact Hbal|]. split; [exact Hbsz|]. split; [zl|].
      split; [now rewrite <- Hal1|]. intros Hc. apply Hco'. now apply Hco1.
  - (* a fit on the lists *)
    set (block := Arena.find_fit m arena asize) in *.
    apply (fl_free _ _ _ _ Hfl) in Hin. destruct Hin as (f & Hfin & Hfa & Hff).
    assert (Hnz : block <> NULL).
    { pose proof (hl_chain _ _ _ _ Hlay) as Hc.
      destruct (chain_bounds _ _ _ _ _ Hc) as [_ Hin].
      destruct (Hin f Hfin) as (? & ? & ? & ?).
      pose proof (hl_low _ _ _ _ Hlay). rewrite <- Hfa. zl. }
    replace (block =? NULL) with false by (symmetry; now apply Z.eqb_neq).
    cbn [bind].
    replace (block =? NULL) with false by (symmetry; now apply Z.eqb_neq).
    rewrite <- Hfa in Hfits.
    rewrite (layout_size m _ _ _ f Hlay Hfin) in Hfits.
    destruct (arena_place m arena bs L f asize Hok Hfin Hff
                ltac:(lia) Haal Hfits)
      as (m' & sl' & bs' & L' & b & pre & rest & Hrun & Hok' & Hbs' & Hba
          & Hbal & Hbsz & Hal' & Hco' & Hout').
    rewrite Hfa in Hrun, Hba. cbv zeta in Hrun. rewrite Hrun.
    exists (header_to_payload block), m', (set_seglists arena sl'), bs', L'.
    split; [reflexivity|]. split.
    { apply (outside_wider _ _ _ _ _ _ Hout'); lia. }
    right.
    pose proof (ao_layout _ _ _ _ Hok') as Hlay'.
    pose proof (hl_chain _ _ _ _ Hlay') as Hc'.
    destruct (chain_bounds _ _ _ _ _ Hc') as [_ Hin'].
    destruct (Hin' b ltac:(rewrite Hbs'; apply elem_of_app; right; left))
      as (? & ? & ? & ?).
    pose proof (hl_low _ _ _ _ Hlay'). pose proof (hl_high _ _ _ _ Hlay').
    split; [rewrite <- Hba; apply Hpay; rewrite ?Hba; zl|].
    split; [exact Hok'|].
    exists b, pre, rest. split; [exact Hbs'|]. split; [now rewrite Hba|].
    split; [exact Hbal|]. split; [exact Hbsz|]. split; [zl|].
    split; [exact Hal' | exact Hco'].
Qed.

End ArenaMalloc.

(** X21: [_malloc] of the arena variants keeps the heap consistent and
    returns a block that holds the request.  On an arena whose heap
    satisfies the invariants, for a positive size that does not wrap around
    the address space, [_malloc] returns normally.  It returns NULL only
    when [find_fit] finds no block and the arena's mapping has no room for
    the extension, and then changes nothing.  Otherwise the invariants hold again, the pointer is
    the payload of an allocated block of at least the adjusted size (so of
    at least [size] payload bytes), every block that was allocated before
    still is, and no two free blocks become adjacent. *)
Theorem arena_malloc_keeps_heap m arena bs L size :
  arena_ok m arena bs L -> 0 < size ->
  size + CHUNK_SIZE + 64 + arena_low arena + arena_size arena < Word.modulus ->
  let asize := round_up (Word.wrap (size + wsize)) dsize in
  exists p m' arena' bs' L',
    Arena._malloc m arena size = Ok (p, (m', arena'))
    /\ ((p = NULL /\ m' = m /\ arena' = arena
         /\ Arena.find_fit m arena asize = NULL
         /\ arena_heap_end arena + round_up (Z.max asize CHUNK_SIZE) dsize
            > arena_low arena + arena_size arena)
        \/ (p <> NULL
            /\ arena_ok m' arena' bs' L'
            /\ exists b pre rest,
                 bs' = pre ++ b :: rest
                 /\ p = header_to_payload (blk_addr b)
                 /\ blk_alloc b = true
                 /\ asize <= blk_size b
                 /\ size <= blk_size b - wsize
                 /\ allocated bs = allocated pre ++ allocated rest
                 /\ (coalesced true bs -> coalesced true bs'))).
Proof.
  intros Hok Hsize Hno asize.
  destruct (arena_malloc_core m arena bs L size Hok Hsize Hno)
    as (p & m' & arena' & bs' & L' & Hrun & _ & Hcases).
  exists p, m', arena', bs', L'. split; [exact Hrun | exact Hcases].
Qed.

Lemma arena_malloc_keeps_heap_witness :
  exists p m' arena' bs' L',
    Arena._malloc scattered_mem scattered_arena 100 = Ok (p, (m', arena'))
    /\ ((p = NULL /\ m' = scattered_mem /\ arena' = scattered_arena
         /\ Arena.find_fit scattered_mem scattered_arena
              (round_up (Word.wrap (100 + wsize)) dsize) = NULL
         /\ arena_heap_end scattered_arena
            + round_up (Z.max (round_up (Word.wrap (100 + wsize)) dsize)
                          CHUNK_SIZE) dsize
            > arena_low scattered_arena + arena_size scattered_arena)
        \/ (p <> NULL
            /\ arena_ok m' arena' bs' L'
            /\ exists b pre rest,
                 bs' = pre ++ b :: rest
                 /\ p = header_to_payload (blk_addr b)
                 /\ blk_alloc b = true
                 /\ round_up (Word.wrap (100 + wsize)) dsize <= blk_size b
                 /\ 100 <= blk_size b - wsize
                 /\ allocated scattered_blocks = allocated pre ++ allocated rest
                 /\ (coalesced true scattered_blocks -> coalesced true bs'))).
Proof.
  apply (arena_malloc_keeps_heap scattered_mem scattered_arena scattered_blocks
           Fragmented.listed 100 scattered_arena_ok).
  - lia.
  - vm_compute. reflexivity.
Defined.

(** ** The naive allocator *)

Section NaiveMalloc.
Import WordFacts.

(** [extend_heap] on a heap that satisfies the invariants: nothing changes
    when [sbrk] refuses; otherwise the new bytes end up in a free, listed
    block at the end of the heap *)
Lemma extend_heap_grows h bs L size :
  naive_ok h bs L -> 0 <= size -> Z.max size dsize + dsize <= Word.intptr_max ->
  let asize := round_up size dsize in
  exists block h' bs' L',
    Naive.extend_heap h size (last_alloc true bs) = Ok (block, h')
    /\ ((block = NULL /\ h' = h /\ Naive.brk h + asize > Naive.brk_limit h)
        \/ (block <> NULL
            /\ naive_ok h' bs' L'
            /\ Naive.heap_start h' = Naive.heap_start h
            /\ Naive.heap_end h' = Naive.heap_end h + asize
            /\ Naive.brk_limit h' = Naive.brk_limit h
            /\ allocated bs' = allocated bs
            /\ (coalesced true bs -> coalesced true bs')
            /\ exists f, f ∈ bs' /\ blk_addr f = block /\ blk_alloc f = false
                 /\ asize <= blk_size f)).
Proof.
  intros [Hbrk Hlimit Hroom Hlay Hfl] Hsize Hint asize.
  assert (Hno : size + dsize <= Word.modulus).
  { unfold Word.intptr_max, Word.modulus, dsize, wsize in *. lia. }
  pose proof (hl_low _ _ _ _ Hlay) as Hhs.
  pose proof (hl_high _ _ _ _ Hlay) as Hhigh.
  pose proof (hl_chain _ _ _ _ Hlay) as Hc.
  destruct (chain_bounds _ _ _ _ _ Hc) as [Hse _].
  destruct (round_up_facts size Hsize Hno) as (Hr & Hal & Hup).
  fold asize in Hr, Hal, Hup.
  unfold Naive.extend_heap. fold asize. unfold Naive.sbrk. cbv zeta.
  rewrite (wrap_intptr_small asize) by (unfold min_block_size, dsize, wsize in *; lia).
  replace (Naive.brk h + asize <? 0) with false
    by (symmetry; apply Z.ltb_ge; rewrite Hbrk; zl).
  rewrite orb_false_r.
  destruct (Z.gtb_spec (Naive.brk h + asize) (Naive.brk_limit h)) as [Hbig|Hfits].
  - rewrite Z.eqb_refl. exists NULL, h, bs, L.
    split; [reflexivity|]. left. repeat split. lia.
  - replace (Naive.brk h =? MAP_FAILED) with false.
    2:{ symmetry. apply Z.eqb_neq. unfold MAP_FAILED. rewrite Hbrk.
        change (Word.wrap (-1)) with 18446744073709551615. zl. }
    cbn [Naive.set_heap_end Naive.memory Naive.seglists Naive.heap_end
           Naive.heap_start Naive.brk Naive.brk_limit].
    rewrite Hbrk.
    set (e := Naive.heap_end h - wsize) in *.
    replace (payload_to_header (Naive.heap_end h)) with e
      by (unfold payload_to_header, e; rewrite psub_small; zl).
    destruct (extend_core _ _ L _ bs e asize Hlay Hfl ltac:(zl) Hal ltac:(zl))
      as (f & m3 & sl3 & m4 & sl4 & bs' & L' & Hrun & Hadd & Hlay4 & Hfl4
          & Hal4 & Hfin & Hff & Hflo & Hfhi & _ & Hco).
    cbv zeta in Hrun. rewrite Hrun. cbn [bind]. rewrite Hadd.
    eexists (blk_addr f), _, bs', L'. split; [reflexivity|]. right.
    pose proof (hl_chain _ _ _ _ Hlay4) as Hc4.
    destruct (chain_bounds _ _ _ _ _ Hc4) as [_ Hin4].
    destruct (Hin4 f Hfin) as (Hf1 & Hf2 & Hf3 & _).
    rewrite (padd_small (Naive.heap_end h) asize) by zl.
    split; [zl|]. split.
    { split; cbn [Naive.set_memory Naive.set_heap_end Naive.memory
                    Naive.seglists Naive.heap_end Naive.heap_start Naive.brk
                    Naive.brk_limit].
      - reflexivity.
      - exact Hlimit.
      - lia.
      - replace (Naive.heap_end h + asize - wsize) with (e + asize)
          by (unfold e; lia).
        exact Hlay4.
      - exact Hfl4. }
    cbn [Naive.set_memory Naive.set_heap_end Naive.heap_start Naive.heap_end
           Naive.brk_limit].
    split; [reflexivity|]. split; [reflexivity|]. split; [reflexivity|].
    split; [exact Hal4|]. split; [exact Hco|].
    exists f. split; [exact Hfin|]. split; [reflexivity|]. split; [exact Hff|].
    unfold e in *. lia.
Qed.

Lemma naive_epilogue_prev_alloc h bs L :
  naive_ok h bs L ->
  extract_prev_alloc (load (Naive.memory h) (psub (psub (Naive.heap_end h) 1) 7))
  = last_alloc true bs.
Proof.
  intros [Hbrk Hlimit Hroom Hlay Hfl].
  pose proof (hl_low _ _ _ _ Hlay) as Hhs.
  pose proof (hl_high _ _ _ _ Hlay) as Hhigh.
  pose proof (hl_chain _ _ _ _ Hlay) as Hc.
  destruct (chain_bounds _ _ _ _ _ Hc) as [Hse _].
  replace (psub (psub (Naive.heap_end h) 1) 7) with (Naive.heap_end h - wsize).
  2:{ unfold psub. rewrite wrap_sub_l. rewrite wrap_small; zl. }
  rewrite (hl_epilogue _ _ _ _ Hlay). now apply extract_prev_alloc_pack.
Qed.

(** what the naive [find_fit] returns is NULL or a listed block that is
    large enough *)
Lemma naive_find_fit_listed h L asize :
  lists_wf (Naive.memory h) (Naive.seglists h) L -> 0 <= asize ->
  Naive.find_fit h asize = NULL
  \/ (Naive.find_fit h asize ∈ concat L
      /\ asize <= get_size (Naive.memory h) (Naive.find_fit h asize)).
Proof.
  intros Hwf Has. unfold Naive.find_fit.
  pose proof (min_list_index_range asize) as Hc.
  set (c := min_list_index asize) in *.
  destruct (naive_find_fit_loop_spec (Naive.memory h) (Naive.seglists h) L asize c
              Hwf Has ltac:(unfold MAXLISTS in *; lia)
              (Z.to_nat (MAXLISTS + 1)) c ltac:(lia)
              ltac:(unfold MAXLISTS in *; lia))
    as [[Hr _] | (i & Hi & Hbest & Hnz & _)]; [now left|].
  right. destruct (best_fit_found _ _ _ _ Hbest Hnz) as (Hin & Hfit & _).
  split; [|exact Hfit].
  apply elem_of_take in Hin. destruct Hin as (k & Hk & _).
  apply elem_concat. exists (Z.to_nat i), (L !!! Z.to_nat i). split.
  - apply list_lookup_lookup_total_lt. rewrite (lw_lists _ _ _ Hwf).
    unfold MAXLISTS in *. lia.
  - eapply list_elem_of_lookup_2. exact Hk.
Qed.

(** the end of the naive [_malloc], from the block it found or made *)
Lemma naive_place h bs L f asize :
  naive_ok h bs L -> f ∈ bs -> blk_alloc f = false ->
  min_block_size <= asize -> asize mod 16 = 0 -> asize <= blk_size f ->
  let block := blk_addr f in
  exists m' sl' bs' L' b pre rest,
    (let m := Naive.memory h in
     let block_size := get_size m block in
     let m := write_block m block block_size true (get_prev_alloc m block) in
     let '(m, sl) := delete_from_free_list m (Naive.seglists h) block in
     let '(m, sl) := split_block m sl block asize in
     let next := find_next m block in
     let m := write_block m next (get_size m next) (get_alloc m next) true in
     Ok (header_to_payload block, Naive.set_memory h m sl))
    = Ok (header_to_payload block, Naive.set_memory h m' sl')
    /\ naive_ok (Naive.set_memory h m' sl') bs' L'
    /\ bs' = pre ++ b :: rest
    /\ blk_addr b = block /\ blk_alloc b = true
    /\ asize <= blk_size b
    /\ allocated bs = allocated pre ++ allocated rest
    /\ (coalesced true bs -> coalesced true bs').
Proof.
  intros [Hbrk Hlimit Hroom Hlay Hfl] Hfin Hf Hamin Haal Hfit block.
  destruct (list_elem_of_split _ _ Hfin) as (pre & post & ->).
  destruct (place_core _ _ L _ pre f post _ asize Hlay Hf Hfl Hamin Haal Hfit)
    as (m2 & sl2 & m3 & sl3 & L' & b' & rest & Hdel & Hsp & (Hlay4 & Hfl4 & _)
        & Hb1 & Hb2 & Hb3 & Hal & Hco).
  fold block in Hdel, Hsp, Hlay4, Hfl4, Hb1.
  eexists _, sl3, (pre ++ b' :: rest), L', b', pre, rest.
  split.
  { cbv zeta. rewrite Hdel, Hsp. reflexivity. }
  split.
  { split; cbn [Naive.set_memory Naive.memory Naive.seglists Naive.heap_end
                  Naive.heap_start Naive.brk Naive.brk_limit]; assumption. }
  split; [reflexivity|]. split; [exact Hb1|]. split; [exact Hb2|].
  split; [lia|]. split; [|exact Hco].
  now rewrite allocated_app, (allocated_free f), Hal.
Qed.

End NaiveMalloc.

Section NaiveInit.
Import WordFacts.

Lemma allocated_nil_free bs x : allocated bs = [] -> x ∈ bs -> blk_alloc x = false.
Proof.
  intros Hnil Hx. destruct (blk_alloc x) eqn:E; [|reflexivity].
  assert (Hin : x ∈ allocated bs) by (apply list_elem_of_filter; tauto).
  rewrite Hnil in Hin. inversion Hin.
Qed.

(** a coalesced heap without allocated blocks has at most one block *)
Lemma single_free_block m hs bs e f :
  heap_layout m hs bs e -> allocated bs = [] -> coalesced true bs -> f ∈ bs ->
  bs = [{| blk_addr := hs; blk_size := e - hs; blk_alloc := false |}].
Proof.
  intros Hlay Hnil Hco Hf.
  destruct bs as [|x [|y bs']]; [inversion Hf | |].
  - pose proof (hl_chain _ _ _ _ Hlay) as Hc. cbn [chain] in Hc.
    destruct Hc as (Ha & _ & He).
    pose proof (allocated_nil_free _ x Hnil ltac:(left)) as Hx.
    destruct x as [a s al]. cbn in *. subst. f_equal. f_equal. lia.
  - exfalso.
    pose proof (allocated_nil_free _ x Hnil ltac:(left)) as Hx.
    pose proof (allocated_nil_free _ y Hnil ltac:(right; left)) as Hy.
    cbn [coalesced] in Hco. destruct Hco as (_ & Hc2 & _).
    rewrite Hx in Hc2. specialize (Hc2 eq_refl). congruence.
Qed.

(** the lists of a heap without blocks *)
Lemma empty_lists m :
  free_lists m (replicate (Z.to_nat MAXLISTS) NULL)
    (replicate (Z.to_nat MAXLISTS) []) [].
Proof.
  split.
  - apply length_replicate.
  - apply length_replicate.
  - intros i l Hl. apply lookup_replicate in Hl. destruct Hl as [-> Hi].
    split; [|exact I]. unfold seglist. rewrite Nat2Z.id.
    now rewrite lookup_total_replicate_2.
  - intros i l x Hl Hx. apply lookup_replicate in Hl. destruct Hl as [-> _].
    inversion Hx.
  - vm_compute. constructor.
  - intros a. split.
    + intros Ha. vm_compute in Ha. inversion Ha.
    + intros (x & Hx & _). inversion Hx.
Qed.



(** the heap [mm_init] builds before it asks for the first chunk: the
    prologue and the epilogue word, and no block *)
Lemma prologue_ok h :
  0 < Naive.brk h -> Naive.brk_limit h + wsize <= Word.modulus ->
  Naive.brk h + 2 * wsize <= Naive.brk_limit h ->
  let start := Naive.brk h in
  let m0 := store (store (Naive.memory h) start (pack 0 true true))
              (start + wsize) (pack 0 true true) in
  naive_ok {| Naive.memory := m0; Naive.heap_start := start + wsize;
              Naive.heap_end := start + 2 * wsize;
              Naive.seglists := replicate (Z.to_nat MAXLISTS) NULL;
              Naive.brk := start + 2 * wsize;
              Naive.brk_limit := Naive.brk_limit h |}
    [] (replicate (Z.to_nat MAXLISTS) []).
Proof.
  intros Hbrk Hlimit Hfits start m0.
  split; cbn [Naive.memory Naive.seglists Naive.heap_end
                Naive.heap_start Naive.brk Naive.brk_limit].
  - reflexivity.
  - exact Hlimit.
  - lia.
  - split.
    + unfold start. zl.
    + unfold start. zl.
    + cbn [chain]. zl.
    + replace (start + 2 * wsize - wsize) with (start + wsize) by lia.
      unfold m0. rewrite load_store_eq. reflexivity.
  - apply empty_lists.
Qed.

(** [mm_init] up to the call of [extend_heap] *)
Lemma mm_init_prologue h :
  0 < Naive.brk h -> Naive.brk_limit h + wsize <= Word.modulus ->
  Naive.brk h + 2 * wsize <= Naive.brk_limit h ->
  let start := Naive.brk h in
  let m0 := store (store (Naive.memory h) start (pack 0 true true))
              (start + wsize) (pack 0 true true) in
  let h0 := {| Naive.memory := m0; Naive.heap_start := start + wsize;
               Naive.heap_end := start + 2 * wsize;
               Naive.seglists := replicate (Z.to_nat MAXLISTS) NULL;
               Naive.brk := start + 2 * wsize;
               Naive.brk_limit := Naive.brk_limit h |} in
  Naive.mm_init h
  = (let* (block, h1) := Naive.extend_heap h0 CHUNK_SIZE true in
     if block =? NULL then Ok (false, h1) else Ok (true, h1)).
Proof.
  intros Hbrk Hlimit Hfits start m0 h0.
  unfold Naive.mm_init, Naive.sbrk. cbv zeta.
  change (Word.wrap_intptr (2 * wsize)) with (2 * wsize).
  replace (Naive.brk h + 2 * wsize <? 0) with false
    by (symmetry; apply Z.ltb_ge; zl).
  rewrite orb_false_r.
  replace (Naive.brk h + 2 * wsize >? Naive.brk_limit h) with false
    by (symmetry; rewrite Z.gtb_ltb; apply Z.ltb_ge; exact Hfits).
  replace (Naive.brk h =? MAP_FAILED) with false.
  2:{ symmetry. apply Z.eqb_neq. unfold MAP_FAILED.
      change (Word.wrap (-1)) with 18446744073709551615. zl. }
  cbn [Naive.set_heap_end Naive.memory Naive.seglists Naive.heap_end
         Naive.heap_start Naive.brk Naive.brk_limit].
  fold start.
  rewrite (padd_small start (2 * wsize)) by (unfold start; zl).
  rewrite (padd_small start wsize) by (unfold start; zl).
  reflexivity.
Qed.

(** [mm_init] when the break can move by the 16 bytes and the first chunk *)
Lemma mm_init_grows h :
  0 < Naive.brk h -> Naive.brk_limit h + wsize <= Word.modulus ->
  Naive.brk h + 2 * wsize + CHUNK_SIZE <= Naive.brk_limit h ->
  exists h' L',
    Naive.mm_init h = Ok (true, h')
    /\ naive_ok h'
         [{| blk_addr := Naive.brk h + wsize; blk_size := CHUNK_SIZE;
             blk_alloc := false |}] L'
    /\ Naive.heap_start h' = Naive.brk h + wsize
    /\ Naive.heap_end h' = Naive.brk h + 2 * wsize + CHUNK_SIZE.
Proof.
  intros Hbrk Hlimit Hroom.
  assert (Hchunk : CHUNK_SIZE = 4096) by reflexivity.
  assert (Hfits : Naive.brk h + 2 * wsize <= Naive.brk_limit h)
    by (rewrite Hchunk in Hroom; lia).
  rewrite (mm_init_prologue h Hbrk Hlimit Hfits).
  pose proof (prologue_ok h Hbrk Hlimit Hfits) as Hok0. cbv zeta in Hok0.
  set (start := Naive.brk h) in *.
  match type of Hok0 with naive_ok ?x _ _ => set (h0 := x) in * end.
  destruct (extend_heap_grows h0 [] _ CHUNK_SIZE Hok0)
    as (block & h1 & bs1 & L1 & Hext & Hcases).
  { rewrite Hchunk. lia. }
  { rewrite Hchunk. vm_compute. discriminate. }
  change (last_alloc true []) with true in Hext. rewrite Hext. cbn [bind].
  assert (Hround : round_up CHUNK_SIZE dsize = CHUNK_SIZE) by reflexivity.
  rewrite Hround in Hcases.
  cbn [h0 Naive.brk Naive.brk_limit Naive.heap_end Naive.heap_start] in Hcases.
  destruct Hcases as [(_ & _ & Hfail) | (Hnz & Hok1 & Hs1 & He1 & _ & Hal1
                                          & Hco1 & f & Hfin & _)]; [lia|].
  replace (block =? NULL) with false by (symmetry; now apply Z.eqb_neq).
  exists h1, L1. split; [reflexivity|].
  pose proof (no_layout _ _ _ Hok1) as Hlay1.
  rewrite Hs1, He1 in Hlay1.
  rewrite (single_free_block _ _ _ _ f Hlay1 Hal1 (Hco1 I) Hfin) in Hok1.
  replace (start + 2 * wsize + CHUNK_SIZE - wsize - (start + wsize))
    with CHUNK_SIZE in Hok1 by lia.
  split; [exact Hok1|]. split; [exact Hs1 | exact He1].
Qed.

(** [mm_init] when the break cannot move that far *)
Lemma mm_init_refused h :
  0 < Naive.brk h -> Naive.brk_limit h + wsize <= Word.modulus ->
  Naive.brk_limit h < Naive.brk h + 2 * wsize + CHUNK_SIZE ->
  exists h', Naive.mm_init h = Ok (false, h').
Proof.
  intros Hbrk Hlimit Hroom.
  assert (Hchunk : CHUNK_SIZE = 4096) by reflexivity.
  destruct (Z_le_gt_dec (Naive.brk h + 2 * wsize) (Naive.brk_limit h))
    as [Hfits|Hbig].
  - rewrite (mm_init_prologue h Hbrk Hlimit Hfits).
    pose proof (prologue_ok h Hbrk Hlimit Hfits) as Hok0. cbv zeta in Hok0.
    set (start := Naive.brk h) in *.
    match type of Hok0 with naive_ok ?x _ _ => set (h0 := x) in * end.
    destruct (extend_heap_grows h0 [] _ CHUNK_SIZE Hok0)
      as (block & h1 & bs1 & L1 & Hext & Hcases).
    { rewrite Hchunk. lia. }
    { rewrite Hchunk. vm_compute. discriminate. }
    change (last_alloc true []) with true in Hext. rewrite Hext. cbn [bind].
    assert (Hround : round_up CHUNK_SIZE dsize = CHUNK_SIZE) by reflexivity.
    rewrite Hround in Hcases.
    cbn [h0 Naive.brk Naive.brk_limit Naive.heap_end Naive.heap_start] in Hcases.
    destruct Hcases as [(-> & -> & _) | (_ & Hok1 & _ & He1 & Hl1 & _)].
    + exists h0. reflexivity.
    + exfalso. pose proof (no_room _ _ _ Hok1) as Hroom1.
      rewrite He1, Hl1 in Hroom1. lia.
  - unfold Naive.mm_init, Naive.sbrk. cbv zeta.
    change (Word.wrap_intptr (2 * wsize)) with (2 * wsize).
    replace (Naive.brk h + 2 * wsize >? Naive.brk_limit h) with true
      by (symmetry; apply Z.gtb_lt; lia).
    cbn [orb]. rewrite Z.eqb_refl. eexists. reflexivity.
Qed.

End NaiveInit.

Section NaiveCore.
Import WordFacts.

Lemma naive_malloc_core h bs L size :
  naive_ok h bs L -> 0 < size -> size + CHUNK_SIZE + 64 <= Word.intptr_max ->
  let asize := round_up (Word.wrap (size + wsize)) dsize in
  exists p h' bs' L',
    Naive._malloc h size = Ok (p, h')
    /\ ((p = NULL /\ h' = h /\ Naive.find_fit h asize = NULL
         /\ Naive.brk h + round_up (Z.max asize CHUNK_SIZE) dsize
            > Naive.brk_limit h)
        \/ (p <> NULL
            /\ naive_ok h' bs' L'
            /\ exists b pre rest,
                 bs' = pre ++ b :: rest
                 /\ p = header_to_payload (blk_addr b)
                 /\ blk_alloc b = true
                 /\ asize <= blk_size b
                 /\ size <= blk_size b - wsize
                 /\ allocated bs = allocated pre ++ allocated rest
                 /\ (coalesced true bs -> coalesced true bs'))).
Proof.
  intros Hok Hsize Hint asize.
  pose proof Hok as [Hbrk Hlimit Hroom Hlay Hfl].
  assert (Hchunk : CHUNK_SIZE = 4096) by reflexivity. rewrite Hchunk in Hint.
  unfold Word.intptr_max in Hint.
  assert (Hno : size + 4096 + 64 <= Word.modulus) by (unfold Word.modulus; lia).
  assert (Hw : Word.wrap (size + wsize) = size + wsize)
    by (apply WordFacts.wrap_small; zl).
  destruct (round_up_facts (size + wsize)) as (Hr & Haal & Hup); [zl | zl |].
  rewrite <- Hw in Hr, Haal, Hup. fold asize in Hr, Haal, Hup. rewrite Hw in Hup.
  unfold Naive._malloc. fold asize.
  replace (size =? 0) with false by (symmetry; apply Z.eqb_neq; lia).
  pose proof (free_lists_wf _ _ _ _ _ _ _ Hlay (fun x H => H) Hfl) as Hwf.
  assert (Hdone : forall h1 bs1 L1 f,
            naive_ok h1 bs1 L1 -> f ∈ bs1 -> blk_alloc f = false ->
            asize <= blk_size f -> allocated bs1 = allocated bs ->
            (coalesced true bs -> coalesced true bs1) ->
            exists p h' bs' L',
              (let m := Naive.memory h1 in
               let block_size := get_size m (blk_addr f) in
               let m := write_block m (blk_addr f) block_size true
                          (get_prev_alloc m (blk_addr f)) in
               let '(m, sl) := delete_from_free_list m (Naive.seglists h1)
                                 (blk_addr f) in
               let '(m, sl) := split_block m sl (blk_addr f) asize in
               let next := find_next m (blk_addr f) in
               let m := write_block m next (get_size m next) (get_alloc m next)
                          true in
               Ok (header_to_payload (blk_addr f), Naive.set_memory h1 m sl))
              = Ok (p, h')
              /\ p <> NULL
              /\ naive_ok h' bs' L'
              /\ exists b pre rest,
                   bs' = pre ++ b :: rest
                   /\ p = header_to_payload (blk_addr b)
                   /\ blk_alloc b = true
                   /\ asize <= blk_size b
                   /\ size <= blk_size b - wsize
                   /\ allocated bs = allocated pre ++ allocated rest
                   /\ (coalesced true bs -> coalesced true bs')).
  { intros h1 bs1 L1 f Hok1 Hfin Hff Hfsz Hal1 Hco1.
    destruct (naive_place h1 bs1 L1 f asize Hok1 Hfin Hff ltac:(lia) Haal Hfsz)
      as (m' & sl' & bs' & L' & b & pre & rest & Hrun & Hok' & Hbs' & Hba
          & Hbal & Hbsz & Hal' & Hco').
    exists (header_to_payload (blk_addr f)), (Naive.set_memory h1 m' sl'), bs', L'.
    split; [exact Hrun|].
    pose proof (no_layout _ _ _ Hok') as Hlay'.
    pose proof (hl_chain _ _ _ _ Hlay') as Hc'.
    destruct (chain_bounds _ _ _ _ _ Hc') as [_ Hin'].
    destruct (Hin' b ltac:(rewrite Hbs'; apply elem_of_app; right; left))
      as (? & ? & ? & ?).
    pose proof (hl_low _ _ _ _ Hlay'). pose proof (hl_high _ _ _ _ Hlay').
    split.
    { rewrite <- Hba. unfold header_to_payload. rewrite padd_small; zl. }
    split; [exact Hok'|].
    exists b, pre, rest. split; [exact Hbs'|]. split; [now rewrite Hba|].
    split; [exact Hbal|]. split; [exact Hbsz|]. split; [zl|].
    split; [now rewrite <- Hal1|]. intros Hc. apply Hco'. now apply Hco1. }
  destruct (naive_find_fit_listed h L asize Hwf ltac:(zl))
    as [Hnone | [Hin Hfits]].
  - rewrite Hnone, Z.eqb_refl.
    rewrite (naive_epilogue_prev_alloc h bs L Hok).
    destruct (extend_heap_grows h bs L (Z.max asize CHUNK_SIZE) Hok)
      as (block & h1 & bs1 & L1 & Hext & Hcases).
    { lia. }
    { rewrite Hchunk. unfold Word.intptr_max. zl. }
    rewrite Hext. cbn [bind].
    destruct Hcases as [(-> & -> & Hfull) | (Hnz & Hok1 & _ & _ & _ & Hal1 & Hco1 & f
                                          & Hfin & Hfa & Hff & Hfsz)].
    + rewrite Z.eqb_refl. exists NULL, h, bs, L.
      split; [reflexivity|]. left. split; [reflexivity|].
      split; [reflexivity|]. split; [reflexivity | exact Hfull].
    + replace (block =? NULL) with false by (symmetry; now apply Z.eqb_neq).
      destruct (round_up_facts (Z.max asize CHUNK_SIZE)) as (_ & _ & Hup1);
        [lia | rewrite Hchunk; zl |].
      rewrite <- Hfa.
      destruct (Hdone h1 bs1 L1 f Hok1 Hfin Hff ltac:(lia) Hal1 Hco1)
        as (p & h' & bs' & L' & Hrun & Hgot).
      exists p, h', bs', L'. split; [exact Hrun | right; exact Hgot].
  - set (block := Naive.find_fit h asize) in *.
    apply (fl_free _ _ _ _ Hfl) in Hin. destruct Hin as (f & Hfin & Hfa & Hff).
    assert (Hnz : block <> NULL).
    { pose proof (hl_chain _ _ _ _ Hlay) as Hc.
      destruct (chain_bounds _ _ _ _ _ Hc) as [_ Hin].
      destruct (Hin f Hfin) as (? & ? & ? & ?).
      pose proof (hl_low _ _ _ _ Hlay). rewrite <- Hfa. zl. }
    replace (block =? NULL) with false by (symmetry; now apply Z.eqb_neq).
    cbn [bind].
    replace (block =? NULL) with false by (symmetry; now apply Z.eqb_neq).
    rewrite <- Hfa in Hfits.
    rewrite (layout_size _ _ _ _ f Hlay Hfin) in Hfits.
    rewrite <- Hfa.
    destruct (Hdone h bs L f Hok Hfin Hff Hfits eq_refl (fun H => H))
      as (p & h' & bs' & L' & Hrun & Hgot).
    exists p, h', bs', L'. split; [exact Hrun | right; exact Hgot].
Qed.


(** [_free] of the naive allocator on the payload of an allocated block *)
Lemma naive_free_core h L pre b post :
  naive_ok h (pre ++ b :: post) L -> blk_alloc b = true ->
  exists h' bs' L',
    Naive._free h (header_to_payload (blk_addr b)) = Ok h'
    /\ naive_ok h' bs' L'
    /\ Naive.heap_end h' = Naive.heap_end h
    /\ allocated bs' = allocated (pre ++ post)
    /\ (coalesced true (pre ++ b :: post) -> coalesced true bs').
Proof.
  intros [Hbrk Hlimit Hroom Hlay Hfl] Hb.
  destruct (free_core _ _ L _ pre b post _ Hlay Hb Hfl)
    as (f & m3 & sl3 & m4 & sl4 & bs' & L' & Hrun & Hadd & Hlay' & Hfl' & Hal
        & _ & _ & _ & _ & Hco).
  pose proof (hl_chain _ _ _ _ Hlay) as Hc.
  destruct (chain_bounds _ _ _ _ _ Hc) as [_ Hin].
  destruct (Hin b ltac:(apply elem_of_app; right; left)) as (Hb1 & Hb2 & Hb3 & _).
  pose proof (hl_low _ _ _ _ Hlay) as Hlow.
  pose proof (hl_high _ _ _ _ Hlay) as Hhigh.
  exists (Naive.set_memory h m4 sl4), bs', L'.
  split.
  { unfold Naive._free.
    assert (Hbp : header_to_payload (blk_addr b) = blk_addr b + 8)
      by (unfold header_to_payload, wsize; apply padd_small; zl).
    rewrite Hbp.
    replace (blk_addr b + 8 =? NULL) with false by (symmetry; apply Z.eqb_neq; zl).
    replace (payload_to_header (blk_addr b + 8)) with (blk_addr b)
      by (unfold payload_to_header, wsize; rewrite psub_small; zl).
    cbv zeta in Hrun. cbv zeta. rewrite Hrun. cbn [bind]. rewrite Hadd.
    reflexivity. }
  split.
  { split; cbn [Naive.set_memory Naive.memory Naive.seglists Naive.heap_end
                  Naive.heap_start Naive.brk Naive.brk_limit]; assumption. }
  split; [reflexivity|]. split; [exact Hal | exact Hco].
Qed.

(** the naive [find_fit] does not miss a block that is large enough and
    among the first 15 of its list *)
Lemma naive_find_fit_complete h L asize i x :
  lists_wf (Naive.memory h) (Naive.seglists h) L -> 0 <= asize < Word.modulus ->
  x ∈ take (Z.to_nat MAX_SEGLIST_SEARCH) (L !!! i) ->
  find_list_for_block (Naive.memory h) x = Z.of_nat i ->
  asize <= get_size (Naive.memory h) x ->
  Naive.find_fit h asize <> NULL.
Proof.
  intros Hwf Has Hx Hclass Hfit. unfold Naive.find_fit.
  pose proof (min_list_index_range asize) as Hc.
  assert (Hci : min_list_index asize <= Z.of_nat i).
  { rewrite <- Hclass, find_list_for_block_bits, (min_list_index_bits asize Has).
    apply Z.min_le_compat_l. apply bits_mono. split.
    - apply shiftr_nonneg. lia.
    - rewrite !Z.shiftr_div_pow2 by lia. apply Z.div_le_mono; lia. }
  set (c := min_list_index asize) in *.
  destruct (naive_find_fit_loop_spec (Naive.memory h) (Naive.seglists h) L asize c
              Hwf ltac:(lia) ltac:(unfold MAXLISTS in *; lia)
              (Z.to_nat (MAXLISTS + 1)) c ltac:(lia)
              ltac:(unfold MAXLISTS in *; lia))
    as [[_ Hnone] | (_ & _ & _ & Hnz & _)]; [|exact Hnz].
  exfalso. specialize (Hnone (Z.of_nat i) x Hci).
  rewrite Nat2Z.id in Hnone. specialize (Hnone Hx). lia.
Qed.

End NaiveCore.

Lemma scattered_naive_ok :
  naive_ok scattered_naive scattered_blocks Fragmented.listed.
Proof.
  split.
  - reflexivity.
  - vm_compute. discriminate.
  - vm_compute. discriminate.
  - exact scattered_layout.
  - exact scattered_lists.
Qed.

(** X22: [naive_malloc] keeps the heap consistent and returns a block that
    holds the request.  On a heap that satisfies the invariants, for a
    positive size with [size + CHUNK_SIZE + 64] at most the largest
    [intptr_t] (so that the size [sbrk] is called with is a positive
    increment), it returns NULL only when
    [find_fit] finds no block and [sbrk] refuses to grow the heap, and then
    changes nothing.  Otherwise the invariants hold again, the pointer is
    the payload of an allocated block of at least the adjusted size, every
    block that was allocated before still is, with its address and size,
    and no two free blocks become adjacent. *)
Theorem naive_malloc_keeps_heap h bs L size :
  naive_ok h bs L -> 0 < size -> size + CHUNK_SIZE + 64 <= Word.intptr_max ->
  let asize := round_up (Word.wrap (size + wsize)) dsize in
  exists p h' bs' L',
    Naive.naive_malloc h size = Ok (p, h')
    /\ ((p = NULL /\ h' = h /\ Naive.find_fit h asize = NULL
         /\ Naive.brk h + round_up (Z.max asize CHUNK_SIZE) dsize
            > Naive.brk_limit h)
        \/ (p <> NULL
            /\ naive_ok h' bs' L'
            /\ exists b pre rest,
                 bs' = pre ++ b :: rest
                 /\ p = header_to_payload (blk_addr b)
                 /\ blk_alloc b = true
                 /\ asize <= blk_size b
                 /\ size <= blk_size b - wsize
                 /\ allocated bs = allocated pre ++ allocated rest
                 /\ (coalesced true bs -> coalesced true bs'))).
Proof.
  intros Hok Hsize Hno asize. unfold Naive.naive_malloc.
  pose proof (hl_low _ _ _ _ (no_layout _ _ _ Hok)) as Hlow.
  replace (Naive.heap_start h =? NULL) with false
    by (symmetry; apply Z.eqb_neq; zl).
  cbn [bind]. exact (naive_malloc_core h bs L size Hok Hsize Hno).
Qed.

Lemma naive_malloc_keeps_heap_witness :
  exists p h' bs' L',
    Naive.naive_malloc scattered_naive 100 = Ok (p, h')
    /\ ((p = NULL /\ h' = scattered_naive
         /\ Naive.find_fit scattered_naive
              (round_up (Word.wrap (100 + wsize)) dsize) = NULL
         /\ Naive.brk scattered_naive
            + round_up (Z.max (round_up (Word.wrap (100 + wsize)) dsize)
                          CHUNK_SIZE) dsize
            > Naive.brk_limit scattered_naive)
        \/ (p <> NULL
            /\ naive_ok h' bs' L'
            /\ exists b pre rest,
                 bs' = pre ++ b :: rest
                 /\ p = header_to_payload (blk_addr b)
                 /\ blk_alloc b = true
                 /\ round_up (Word.wrap (100 + wsize)) dsize <= blk_size b
                 /\ 100 <= blk_size b - wsize
                 /\ allocated scattered_blocks = allocated pre ++ allocated rest
                 /\ (coalesced true scattered_blocks -> coalesced true bs'))).
Proof.
  apply (naive_malloc_keeps_heap scattered_naive scattered_blocks
           Fragmented.listed 100 scattered_naive_ok).
  - lia.
  - vm_compute. discriminate.
Defined.

(** X23: [mm_init] on a heap that has not been set up.  When [sbrk] grants
    the 16 bytes of prologue and epilogue and the first chunk, it returns
    true and leaves a heap that satisfies the invariants: one free block of
    [CHUNK_SIZE] bytes, right behind the prologue word, on its list.  When
    the break cannot move that far it returns false. *)
Theorem mm_init_heap h :
  0 < Naive.brk h -> Naive.brk_limit h + wsize <= Word.modulus ->
  exists r h',
    Naive.mm_init h = Ok (r, h')
    /\ (r = true <->
        Naive.brk h + 2 * wsize + CHUNK_SIZE <= Naive.brk_limit h)
    /\ (r = true ->
        exists L',
          naive_ok h'
            [{| blk_addr := Naive.brk h + wsize; blk_size := CHUNK_SIZE;
                blk_alloc := false |}] L'
          /\ Naive.heap_start h' = Naive.brk h + wsize
          /\ Naive.heap_end h' = Naive.brk h + 2 * wsize + CHUNK_SIZE).
Proof.
  intros Hbrk Hlimit.
  destruct (Z_le_gt_dec (Naive.brk h + 2 * wsize + CHUNK_SIZE)
              (Naive.brk_limit h)) as [Hroom|Hnone].
  - destruct (mm_init_grows h Hbrk Hlimit Hroom) as (h' & L' & Hrun & Hrest).
    exists true, h'. split; [exact Hrun|]. split; [tauto|].
    intros _. exists L'. exact Hrest.
  - destruct (mm_init_refused h Hbrk Hlimit ltac:(lia)) as (h' & Hrun).
    exists false, h'. split; [exact Hrun|].
    split; [split; [discriminate | lia] | discriminate].
Qed.

Lemma mm_init_heap_witness :
  exists r h',
    Naive.mm_init Run.fresh = Ok (r, h')
    /\ (r = true <->
        Naive.brk Run.fresh + 2 * wsize + CHUNK_SIZE
        <= Naive.brk_limit Run.fresh)
    /\ (r = true ->
        exists L',
          naive_ok h'
            [{| blk_addr := Naive.brk Run.fresh + wsize;
                blk_size := CHUNK_SIZE; blk_alloc := false |}] L'
          /\ Naive.heap_start h' = Naive.brk Run.fresh + wsize
          /\ Naive.heap_end h'
             = Naive.brk Run.fresh + 2 * wsize + CHUNK_SIZE).
Proof.
  apply (mm_init_heap Run.fresh).
  - reflexivity.
  - vm_compute. discriminate.
Defined.

(** X24: allocating and freeing again.  On a heap that satisfies the
    invariants, for a positive size with [size + CHUNK_SIZE + 64] at most
    the largest [intptr_t], [naive_free] of the pointer that [naive_malloc]
    returned succeeds and leaves a heap that satisfies the invariants, in
    which exactly the blocks are allocated that were allocated before the
    two calls, and in which no two free blocks are adjacent if none were
    before. *)
Theorem naive_malloc_then_free h bs L size :
  naive_ok h bs L -> 0 < size -> size + CHUNK_SIZE + 64 <= Word.intptr_max ->
  exists p h1 h2 bs2 L2,
    Naive.naive_malloc h size = Ok (p, h1)
    /\ Naive.naive_free h1 p = Ok h2
    /\ naive_ok h2 bs2 L2
    /\ allocated bs2 = allocated bs
    /\ (coalesced true bs -> coalesced true bs2).
Proof.
  intros Hok Hsize Hno. unfold Naive.naive_malloc, Naive.naive_free.
  pose proof (hl_low _ _ _ _ (no_layout _ _ _ Hok)) as Hlow.
  replace (Naive.heap_start h =? NULL) with false
    by (symmetry; apply Z.eqb_neq; zl).
  cbn [bind].
  destruct (naive_malloc_core h bs L size Hok Hsize Hno)
    as (p & h1 & bs1 & L1 & Hrun & Hcases).
  destruct Hcases as [(-> & -> & _) | (Hnz & Hok1 & b & pre & rest & -> & -> & Hb
                                        & _ & _ & Hal & Hco)].
  - exists NULL, h, h, bs, L. split; [exact Hrun|].
    split; [reflexivity|]. split; [exact Hok|]. split; [reflexivity | tauto].
  - destruct (naive_free_core h1 L1 pre b rest Hok1 Hb)
      as (h2 & bs2 & L2 & Hfree & Hok2 & _ & Hal2 & Hco2).
    exists (header_to_payload (blk_addr b)), h1, h2, bs2, L2.
    split; [exact Hrun|]. split; [exact Hfree|]. split; [exact Hok2|].
    split.
    + now rewrite Hal2, allocated_app, Hal.
    + intros Hc. apply Hco2, Hco, Hc.
Qed.

Lemma naive_malloc_then_free_witness :
  exists p h1 h2 bs2 L2,
    Naive.naive_malloc scattered_naive 100 = Ok (p, h1)
    /\ Naive.naive_free h1 p = Ok h2
    /\ naive_ok h2 bs2 L2
    /\ allocated bs2 = allocated scattered_blocks
    /\ (coalesced true scattered_blocks -> coalesced true bs2).
Proof.
  apply (naive_malloc_then_free scattered_naive scattered_blocks
           Fragmented.listed 100 scattered_naive_ok).
  - lia.
  - vm_compute. discriminate.
Defined.

(** X25: the first call of [naive_malloc], on a heap that was never set up
    ([heap_start] is NULL) and whose break can move by the first chunk, for
    a positive size with [size + CHUNK_SIZE + 64] at most the largest
    [intptr_t], initialises the heap and serves the request from it.  It
    returns NULL only for a request that does not fit in the first chunk;
    otherwise the heap satisfies the invariants and the returned block is
    its only allocated block. *)
Theorem naive_malloc_first_call h size :
  Naive.heap_start h = NULL -> 0 < Naive.brk h ->
  Naive.brk_limit h + wsize <= Word.modulus ->
  Naive.brk h + 2 * wsize + CHUNK_SIZE <= Naive.brk_limit h ->
  0 < size -> size + CHUNK_SIZE + 64 <= Word.intptr_max ->
  exists p h' bs' L',
    Naive.naive_malloc h size = Ok (p, h')
    /\ ((p = NULL /\ CHUNK_SIZE < size + wsize)
        \/ (p <> NULL
            /\ naive_ok h' bs' L'
            /\ coalesced true bs'
            /\ exists b,
                 allocated bs' = [b]
                 /\ p = header_to_payload (blk_addr b)
                 /\ size <= blk_size b - wsize)).
Proof.
  intros Hhs Hbrk Hlimit Hroom Hsize Hint.
  assert (Hchunk : CHUNK_SIZE = 4096) by reflexivity.
  assert (Hno : size + CHUNK_SIZE + 64 <= Word.modulus).
  { unfold Word.intptr_max, Word.modulus in *. lia. }
  destruct (mm_init_grows h Hbrk Hlimit Hroom)
    as (h0 & L0 & Hinit & Hok0 & Hs0 & He0).
  unfold Naive.naive_malloc. rewrite Hhs, Z.eqb_refl, Hinit. cbn [bind].
  set (f := {| blk_addr := Naive.brk h + wsize; blk_size := CHUNK_SIZE;
               blk_alloc := false |}) in *.
  destruct (naive_malloc_core h0 [f] L0 size Hok0 Hsize Hint)
    as (p & h' & bs' & L' & Hrun & Hcases).
  exists p, h', bs', L'. split; [exact Hrun|].
  destruct Hcases as [(-> & -> & Hnone & _) | (Hnz & Hok' & b & pre & rest & -> & -> & Hb
                                                & _ & Hfit & Hal & Hco)].
  - left. split; [reflexivity|].
    destruct (Z_lt_ge_dec CHUNK_SIZE (size + wsize)) as [Hbig|Hsmall];
      [exact Hbig | exfalso].
    pose proof (no_layout _ _ _ Hok0) as Hlay0.
    pose proof (no_lists _ _ _ Hok0) as Hfl0.
    pose proof (free_lists_wf _ _ _ _ _ _ _ Hlay0 (fun x H => H) Hfl0) as Hwf.
    assert (Hw : Word.wrap (size + wsize) = size + wsize)
      by (apply WordFacts.wrap_small; rewrite Hchunk in *; zl).
    destruct (round_up_facts (size + wsize)) as (Hr & Haal & Hup);
      [zl | rewrite Hchunk in *; zl |].
    rewrite <- Hw in Hr.
    assert (Hle : round_up (Word.wrap (size + wsize)) dsize <= CHUNK_SIZE).
    { rewrite Hw. rewrite Hchunk in *.
      destruct (Z_le_gt_dec (size + wsize) dsize) as [Hs|Hs].
      - rewrite (round_up_small _ Hs). zl.
      - rewrite (round_up_large (size + wsize)) by zl.
        unfold dsize, wsize in *. zdiv. }
    assert (Hlisted : blk_addr f ∈ concat L0).
    { apply (fl_free _ _ _ _ Hfl0). exists f. split; [left | split; reflexivity]. }
    apply elem_concat in Hlisted. destruct Hlisted as (i & l & Hl & Hin).
    assert (Hhead : exists l', l = blk_addr f :: l').
    { destruct l as [|y l']; [inversion Hin|]. exists l'. f_equal.
      assert (Hy : y ∈ concat L0)
        by (apply elem_concat; exists i, (y :: l'); split; [exact Hl | left]).
      apply (fl_free _ _ _ _ Hfl0) in Hy. destruct Hy as (x & Hx & <- & _).
      apply list_elem_of_singleton in Hx. now subst x. }
    destruct Hhead as (l' & ->).
    apply (naive_find_fit_complete h0 L0
             (round_up (Word.wrap (size + wsize)) dsize) i (blk_addr f) Hwf);
      [| | | | exact Hnone].
    + rewrite Hchunk in *. zl.
    + rewrite (list_lookup_total_correct _ _ _ Hl).
      change (Z.to_nat MAX_SEGLIST_SEARCH) with 15%nat. cbn [take]. left.
    + apply (fl_class _ _ _ _ Hfl0 i _ _ Hl). left.
    + rewrite (layout_size _ _ _ _ f Hlay0 ltac:(left)). exact Hle.
  - right. split; [exact Hnz|]. split; [exact Hok'|].
    split; [apply Hco; split; [discriminate | exact I]|].
    exists b. split; [|split; [reflexivity | exact Hfit]].
    change (allocated [f]) with (@nil blk) in Hal.
    symmetry in Hal. apply app_eq_nil in Hal. destruct Hal as [Hp Hr].
    rewrite allocated_app, Hp. cbn [app]. unfold allocated in *.
    rewrite filter_cons_True by exact Hb. now rewrite Hr.
Qed.

Lemma naive_malloc_first_call_witness :
  exists p h' bs' L',
    Naive.naive_malloc Run.fresh 100 = Ok (p, h')
    /\ ((p = NULL /\ CHUNK_SIZE < 100 + wsize)
        \/ (p <> NULL
            /\ naive_ok h' bs' L'
            /\ coalesced true bs'
            /\ exists b,
                 allocated bs' = [b]
                 /\ p = header_to_payload (blk_addr b)
                 /\ 100 <= blk_size b - wsize)).
Proof.
  apply (naive_malloc_first_call Run.fresh 100).
  - reflexivity.
  - reflexivity.
  - vm_compute. discriminate.
  - vm_compute. discriminate.
  - lia.
  - vm_compute. discriminate.
Defined.

(** ** The arenas of a state *)

Section ArenaState.
Import WordFacts.

(** the invariants of an arena only depend on the words of its mapping *)
Lemma arena_ok_inside m m' arena bs L :
  arena_ok m arena bs L ->
  (forall t, arena_low arena <= t < arena_low arena + arena_size arena ->
     load m' t = load m t) ->
  arena_ok m' arena bs L.
Proof.
  intros [Hlow Htop Hstart Hend Hlay Hfl] Hsame.
  pose proof (hl_chain _ _ _ _ Hlay) as Hc.
  destruct (chain_bounds _ _ _ _ _ Hc) as [Hse Hin].
  split; try assumption.
  - destruct Hlay as [H1 H2 H3 H4]. split; [exact H1 | exact H2 | |].
    + apply (chain_frame_range m); [exact H3|]. intros t Ht. apply Hsame. zl.
    + rewrite Hsame by zl. exact H4.
  - apply (free_lists_frame m m' _ L bs); [exact Hfl | | tauto].
    intros y Hy. destruct (listed_within m _ L _ bs bs _ Hlay (fun x H => H) Hfl y Hy).
    addr. rewrite !Hsame by zl. split; [reflexivity|]. split; [reflexivity|].
    apply get_size_same. apply Hsame. zl.
Qed.

(** the arena [_free] on the payload of an allocated block *)
Lemma arena_free_core m arena L pre b post :
  arena_ok m arena (pre ++ b :: post) L -> blk_alloc b = true ->
  exists m' sl' bs' L',
    Arena._free m arena (header_to_payload (blk_addr b))
    = Ok (m', set_seglists arena sl')
    /\ arena_ok m' (set_seglists arena sl') bs' L'
    /\ allocated bs' = allocated (pre ++ post)
    /\ (coalesced true (pre ++ b :: post) -> coalesced true bs')
    /\ outside (arena_heap_start arena) (arena_heap_end arena - wsize) m m'.
Proof.
  intros [Hlow Htop Hstart Hend Hlay Hfl] Hb.
  destruct (free_core m _ L _ pre b post _ Hlay Hb Hfl)
    as (f & m3 & sl3 & m4 & sl4 & bs' & L' & Hrun & Hadd & Hlay' & Hfl' & Hal
        & _ & _ & _ & _ & Hco).
  pose proof (free_core_writes m _ L _ pre b post _ _ m3 sl3 m4 sl4 Hlay Hb Hfl
                Hrun Hadd) as Hout.
  pose proof (hl_chain _ _ _ _ Hlay) as Hc.
  destruct (chain_bounds _ _ _ _ _ Hc) as [_ Hin].
  destruct (Hin b ltac:(apply elem_of_app; right; left)) as (Hb1 & Hb2 & Hb3 & _).
  pose proof (hl_low _ _ _ _ Hlay) as Hhs.
  pose proof (hl_high _ _ _ _ Hlay) as Hhigh.
  exists m4, sl4, bs', L'.
  split.
  { unfold Arena._free.
    assert (Hbp : header_to_payload (blk_addr b) = blk_addr b + 8)
      by (unfold header_to_payload, wsize; apply padd_small; zl).
    rewrite Hbp.
    replace (blk_addr b + 8 =? NULL) with false by (symmetry; apply Z.eqb_neq; zl).
    replace (payload_to_header (blk_addr b + 8)) with (blk_addr b)
      by (unfold payload_to_header, wsize; rewrite psub_small; zl).
    cbv zeta in Hrun. cbv zeta. rewrite Hrun. cbn [bind]. rewrite Hadd.
    reflexivity. }
  split.
  { split; cbn [set_seglists arena_low arena_size arena_heap_start
                  arena_heap_end arena_seglists]; assumption. }
  split; [exact Hal|]. split; [exact Hco | exact Hout].
Qed.

Lemma arenas_ok_length st B LL :
  arenas_ok st B LL -> length (arenas st) = Z.to_nat (max_arenas st).
Proof. intros H. rewrite (so_count _ _ _ H). lia. Qed.

Lemma arenas_ok_lookup st B LL i a :
  arenas_ok st B LL -> arenas st !! i = Some a ->
  exists bs L, B !! i = Some bs /\ LL !! i = Some L
               /\ arena_ok (heap st) a bs L.
Proof.
  intros H Ha. pose proof (lookup_lt_Some _ _ _ Ha) as Hi.
  destruct (lookup_lt_is_Some_2 B i) as [bs Hbs];
    [rewrite (so_blocks _ _ _ H); exact Hi|].
  destruct (lookup_lt_is_Some_2 LL i) as [L HL];
    [rewrite (so_lists _ _ _ H); exact Hi|].
  exists bs, L. split; [exact Hbs|]. split; [exact HL|].
  exact (so_arena _ _ _ H i a bs L Ha Hbs HL).
Qed.

(** an address between [heap_start] and [heap_end] of an arena belongs to
    no other arena, so [find_arena] finds this one *)
Lemma find_arena_owner st B LL j a p :
  arenas_ok st B LL -> arenas st !! j = Some a ->
  arena_heap_start a <= p <= arena_heap_end a ->
  find_arena st p = Ok (Some (Z.of_nat j)).
Proof.
  intros Hok Ha Hp.
  pose proof (arenas_ok_length _ _ _ Hok) as Hlen.
  pose proof (so_int _ _ _ Hok) as Hmax.
  pose proof (lookup_lt_Some _ _ _ Ha) as Hj.
  destruct (arenas_ok_lookup _ _ _ _ _ Hok Ha) as (bs & L & _ & _ & Hoka).
  assert (Hother : forall k a', k <> j -> arenas st !! k = Some a' ->
            ~ (arena_heap_start a' <= p <= arena_heap_end a')).
  { intros k a' Hne Ha' Hin.
    destruct (arenas_ok_lookup _ _ _ _ _ Hok Ha') as (bs' & L' & _ & _ & Hoka').
    pose proof (ao_start _ _ _ _ Hoka). pose proof (ao_end _ _ _ _ Hoka).
    pose proof (ao_start _ _ _ _ Hoka'). pose proof (ao_end _ _ _ _ Hoka').
    destruct (so_apart _ _ _ Hok k j a' a Hne Ha' Ha); zl. }
  unfold find_arena.
  destruct (find_arena_loop_spec st p (Z.to_nat (max_arenas st)) 0
              ltac:(lia) ltac:(lia) Hlen) as (found & Hrun & Hfound).
  rewrite Hrun. f_equal. destruct found as [k|].
  - destruct Hfound as (Hk & (a' & Ha' & Hin) & _).
    destruct (Nat.eq_dec (Z.to_nat k) j) as [<-|Hne].
    + f_equal. lia.
    + exfalso. exact (Hother _ _ Hne Ha' Hin).
  - exfalso. apply (Hfound (Z.of_nat j) a); [lia | | exact Hp].
    now rewrite Nat2Z.id.
Qed.

(** after one arena has been worked on, within its mapping, the state
    satisfies the invariants again *)
Lemma arenas_ok_update st B LL i a m' a' bs' L' lu c :
  arenas_ok st B LL -> arenas st !! i = Some a ->
  arena_ok m' a' bs' L' ->
  arena_low a' = arena_low a -> arena_size a' = arena_size a ->
  outside (arena_low a) (arena_low a + arena_size a - 1) (heap st) m' ->
  arenas_ok {| heap := m'; arenas := <[i := a']> (arenas st);
               max_arenas := max_arenas st; last_used := lu;
               local_cache := c |}
    (<[i := bs']> B) (<[i := L']> LL).
Proof.
  intros Hok Ha Hoka' Hlow' Hsize' Hout.
  pose proof (lookup_lt_Some _ _ _ Ha) as Hi.
  split; cbn [heap arenas max_arenas].
  - rewrite length_insert. exact (so_count _ _ _ Hok).
  - exact (so_int _ _ _ Hok).
  - rewrite !length_insert. exact (so_blocks _ _ _ Hok).
  - rewrite !length_insert. exact (so_lists _ _ _ Hok).
  - intros k ak bs L Hak Hbs HL.
    destruct (Nat.eq_dec k i) as [->|Hne].
    + rewrite list_lookup_insert_eq in Hak by exact Hi.
      rewrite list_lookup_insert_eq in Hbs
        by (rewrite (so_blocks _ _ _ Hok); exact Hi).
      rewrite list_lookup_insert_eq in HL
        by (rewrite (so_lists _ _ _ Hok); exact Hi).
      injection Hak as <-. injection Hbs as <-. injection HL as <-.
      exact Hoka'.
    + rewrite list_lookup_insert_ne in Hak by congruence.
      rewrite list_lookup_insert_ne in Hbs by congruence.
      rewrite list_lookup_insert_ne in HL by congruence.
      apply (arena_ok_inside (heap st)).
      * exact (so_arena _ _ _ Hok k ak bs L Hak Hbs HL).
      * intros t Ht. apply Hout.
        destruct (so_apart _ _ _ Hok k i ak a Hne Hak Ha); lia.
  - intros k j ak aj Hne Hak Haj.
    assert (Hlk : forall n x, <[i := a']> (arenas st) !! n = Some x ->
              exists y, arenas st !! n = Some y
                        /\ arena_low x = arena_low y
                        /\ arena_size x = arena_size y).
    { intros n x Hx. destruct (Nat.eq_dec n i) as [->|Hn].
      - rewrite list_lookup_insert_eq in Hx by exact Hi. injection Hx as <-.
        exists a. split; [exact Ha|]. split; assumption.
      - rewrite list_lookup_insert_ne in Hx by congruence.
        exists x. split; [exact Hx|]. split; reflexivity. }
    destruct (Hlk _ _ Hak) as (yk & Hyk & -> & ->).
    destruct (Hlk _ _ Haj) as (yj & Hyj & -> & ->).
    exact (so_apart _ _ _ Hok k j yk yj Hne Hyk Hyj).
Qed.

Lemma arena_at_lookup st i a :
  max_arenas st = Z.of_nat (length (arenas st)) ->
  arenas st !! i = Some a -> arena_at st (Z.of_nat i) = Ok a.
Proof.
  intros Hcount Ha. pose proof (lookup_lt_Some _ _ _ Ha) as Hi.
  unfold arena_at.
  replace ((0 <=? Z.of_nat i) && (Z.of_nat i <? max_arenas st)) with true
    by (symmetry; apply andb_true_iff; split;
        [apply Z.leb_le | apply Z.ltb_lt]; lia).
  now rewrite Nat2Z.id, Ha.
Qed.

(** setting up a fresh arena in the mapping at [low], as [arenas_init] does:
    the first chunk becomes its only block, and only the mapping is
    written *)
Lemma fresh_arena_ok m low :
  0 < low -> low + ARENA_MAX_SIZE + CHUNK_SIZE + dsize < Word.modulus ->
  exists block m' arena' L',
    Arena.extend_arena_heap
      (store (store m low (pack 0 true true)) (padd low wsize) (pack 0 true true))
      {| arena_low := low; arena_size := ARENA_MAX_SIZE;
         arena_heap_start := padd low wsize;
         arena_heap_end := padd low (2 * wsize);
         arena_seglists := arena_seglists zero_arena |} CHUNK_SIZE true
    = Ok (block, (m', arena'))
    /\ block <> NULL
    /\ arena_low arena' = low /\ arena_size arena' = ARENA_MAX_SIZE
    /\ arena_ok m' arena' [first_chunk low] L'
    /\ outside low (low + ARENA_MAX_SIZE - 1) m m'.
Proof.
  intros Hlow Htop.
  assert (Hchunk : CHUNK_SIZE = 4096) by reflexivity.
  assert (Hmax : ARENA_MAX_SIZE = 134217728) by reflexivity.
  rewrite Hchunk, Hmax in Htop.
  rewrite (padd_small low wsize), (padd_small low (2 * wsize)) by zl.
  set (m0 := store (store m low (pack 0 true true)) (low + wsize) (pack 0 true true)).
  set (arena0 := {| arena_low := low; arena_size := ARENA_MAX_SIZE;
                    arena_heap_start := low + wsize;
                    arena_heap_end := low + 2 * wsize;
                    arena_seglists := arena_seglists zero_arena |}).
  assert (Hok0 : arena_ok m0 arena0 [] (replicate (Z.to_nat MAXLISTS) [])).
  { split; cbn [arena0 arena_low arena_size arena_heap_start arena_heap_end
                  arena_seglists zero_arena].
    - exact Hlow.
    - rewrite Hmax. zl.
    - reflexivity.
    - rewrite Hmax. zl.
    - split.
      + zl.
      + zl.
      + cbn [chain]. zl.
      + replace (low + 2 * wsize - wsize) with (low + wsize) by lia.
        unfold m0. rewrite load_store_eq. reflexivity.
    - apply empty_lists. }
  destruct (extend_arena_heap_grows m0 arena0 [] _ CHUNK_SIZE Hok0)
    as (block & m1 & arena1 & bs1 & L1 & Hext & Hcases).
  { rewrite Hchunk. lia. }
  { cbn [arena0 arena_low arena_size]. rewrite Hchunk, Hmax. zl. }
  change (last_alloc true []) with true in Hext.
  pose proof (extend_arena_heap_writes m0 arena0 [] _ CHUNK_SIZE block m1 arena1
                Hok0 ltac:(rewrite Hchunk; lia)
                ltac:(cbn [arena0 arena_low arena_size];
                      rewrite Hchunk, Hmax; zl) Hext) as Hout1.
  pose proof (extend_arena_heap_mapping _ _ _ _ _ _ _ Hext)
    as (Hlow1 & Hsize1 & Hstart1).
  cbn [arena0 arena_low arena_size arena_heap_start] in Hlow1, Hsize1, Hstart1, Hout1.
  assert (Hround : round_up CHUNK_SIZE dsize = CHUNK_SIZE) by reflexivity.
  rewrite Hround in Hcases. cbn [arena0 arena_low arena_size arena_heap_end] in Hcases.
  destruct Hcases as [(_ & _ & _ & Hfail) | (Hnz & Hok1 & He1 & Hal1 & Hco1 & f
                                              & Hfin & _)];
    [rewrite Hchunk, Hmax in Hfail; zl|].
  exists block, m1, arena1, L1. split; [exact Hext|]. split; [exact Hnz|].
  split; [exact Hlow1|]. split; [exact Hsize1|]. split.
  - pose proof (ao_layout _ _ _ _ Hok1) as Hlay1. rewrite Hstart1, He1 in Hlay1.
    rewrite (single_free_block _ _ _ _ f Hlay1 Hal1 (Hco1 I) Hfin) in Hok1.
    replace (low + 2 * wsize + CHUNK_SIZE - wsize - (low + wsize))
      with CHUNK_SIZE in Hok1 by lia.
    exact Hok1.
  - intros t Ht. rewrite Hout1 by (rewrite Hmax in *; zl).
    unfold m0. rewrite !load_store_ne by (rewrite Hmax in *; zl). reflexivity.
Qed.

(** the loop of [arenas_init] over mappings that do not overlap *)
Lemma arenas_init_loop_ok n :
  forall m bases,
    length bases = n ->
    (forall b, b ∈ bases ->
       0 < b /\ b + ARENA_MAX_SIZE + CHUNK_SIZE + dsize < Word.modulus) ->
    (forall i j b b', i <> j -> bases !! i = Some b -> bases !! j = Some b' ->
       b + ARENA_MAX_SIZE <= b' \/ b' + ARENA_MAX_SIZE <= b) ->
    exists m' l LL,
      arenas_init_loop m bases n = Ok (m', l)
      /\ length l = n /\ length LL = n
      /\ (forall i a, l !! i = Some a ->
            exists b L, bases !! i = Some b /\ LL !! i = Some L
                        /\ arena_low a = b /\ arena_size a = ARENA_MAX_SIZE
                        /\ arena_ok m' a [first_chunk b] L)
      /\ (forall t, (forall b, b ∈ bases -> t < b \/ b + ARENA_MAX_SIZE <= t) ->
            load m' t = load m t).
Proof.
  induction n as [|n IH]; intros m bases Hlen Hrange Hapart.
  - destruct bases; [|discriminate].
    exists m, [], []. split; [reflexivity|]. split; [reflexivity|].
    split; [reflexivity|]. split; [intros i a Ha; discriminate | reflexivity].
  - destruct bases as [|low bases']; [discriminate|].
    cbn [length] in Hlen. injection Hlen as Hlen.
    destruct (Hrange low ltac:(left)) as [Hlow Htop].
    cbn [arenas_init_loop].
    replace (low =? MAP_FAILED) with false.
    2:{ symmetry. apply Z.eqb_neq. unfold MAP_FAILED.
        change (Word.wrap (-1)) with 18446744073709551615.
        assert (H0 : 0 <= ARENA_MAX_SIZE + CHUNK_SIZE) by (vm_compute; discriminate).
        zl. }
    destruct (fresh_arena_ok m low Hlow Htop)
      as (block & m1 & arena1 & L1 & Hext & Hnz & Hlow1 & Hsize1 & Hok1 & Hout1).
    rewrite Hext. cbn [bind].
    replace (block =? NULL) with false by (symmetry; now apply Z.eqb_neq).
    destruct (IH m1 bases' Hlen) as (m2 & rest & LL & Hrun & Hl & HLL & Hall & Hframe).
    { intros b Hb. apply Hrange. now right. }
    { intros i j b b' Hne Hb Hb'.
      apply (Hapart (S i) (S j) b b'); [congruence | exact Hb | exact Hb']. }
    rewrite Hrun. cbn [bind].
    exists m2, (arena1 :: rest), (L1 :: LL).
    split; [reflexivity|]. split; [cbn; lia|]. split; [cbn; lia|].
    split.
    + intros [|i] a Ha; cbn in Ha.
      * injection Ha as <-. exists low, L1.
        split; [reflexivity|]. split; [reflexivity|].
        split; [exact Hlow1|]. split; [exact Hsize1|].
        apply (arena_ok_inside m1); [exact Hok1|].
        intros t Ht. apply Hframe. intros b Hb.
        apply list_elem_of_lookup in Hb. destruct Hb as [k Hk].
        rewrite Hlow1, Hsize1 in Ht.
        destruct (Hapart 0%nat (S k) low b ltac:(lia) eq_refl Hk); lia.
      * destruct (Hall i a Ha) as (b & L & Hb & HL & Hrest).
        exists b, L. split; [exact Hb|]. split; [exact HL | exact Hrest].
    + intros t Ht. rewrite Hframe by (intros b Hb; apply Ht; now right).
      apply Hout1. destruct (Ht low ltac:(left)); lia.
Qed.

Lemma scattered_state_ok :
  arenas_ok scattered_state [scattered_blocks] [Fragmented.listed].
Proof.
  split.
  - reflexivity.
  - vm_compute. split; [reflexivity | discriminate].
  - reflexivity.
  - reflexivity.
  - intros [|i] a bs L Ha Hbs HL; [|discriminate].
    injection Ha as <-. injection Hbs as <-. injection HL as <-.
    exact scattered_arena_ok.
  - intros [|i] [|j] a a' Hne Ha Ha'; try discriminate. congruence.
Qed.

End ArenaState.

(** X26: [arenas_init] over mappings that do not overlap sets up every
    arena.  For [num_arenas] mappings at the addresses [bases], none of them
    at the very end of the address space, it returns a state with
    [num_arenas] arenas and the dispatch counter at 0 in which arena [i]
    lies in mapping [i], has the first chunk as its only block, free and on
    its list, and satisfies the invariants; no word outside the mappings is
    written. *)
Theorem arenas_init_ok m num_arenas bases :
  0 < num_arenas <= Word.int_max ->
  length bases = Z.to_nat num_arenas ->
  (forall b, b ∈ bases ->
     0 < b /\ b + ARENA_MAX_SIZE + CHUNK_SIZE + dsize < Word.modulus) ->
  (forall i j b b', i <> j -> bases !! i = Some b -> bases !! j = Some b' ->
     b + ARENA_MAX_SIZE <= b' \/ b' + ARENA_MAX_SIZE <= b) ->
  exists st LL,
    arenas_init m num_arenas bases = Ok st
    /\ arenas_ok st ((fun b => [first_chunk b]) <$> bases) LL
    /\ max_arenas st = num_arenas /\ last_used st = 0
    /\ (forall i b, bases !! i = Some b ->
          exists a, arenas st !! i = Some a
                    /\ arena_low a = b /\ arena_size a = ARENA_MAX_SIZE)
    /\ (forall t, (forall b, b ∈ bases -> t < b \/ b + ARENA_MAX_SIZE <= t) ->
          load (heap st) t = load m t).
Proof.
  intros Hn Hlen Hrange Hapart.
  destruct (arenas_init_loop_ok (Z.to_nat num_arenas) m bases Hlen Hrange Hapart)
    as (m' & l & LL & Hrun & Hl & HLL & Hall & Hframe).
  unfold arenas_init.
  replace (num_arenas >? 0) with true by (symmetry; apply Z.gtb_lt; lia).
  cbn [negb]. rewrite Hrun. cbn [bind].
  eexists _, LL. split; [reflexivity|].
  split; [|split; [reflexivity|]; split; [reflexivity|]; split].
  - split; cbn [heap arenas max_arenas].
    + rewrite Hl. lia.
    + exact Hn.
    + rewrite length_fmap. congruence.
    + congruence.
    + intros i a bs L Ha Hbs HL.
      destruct (Hall i a Ha) as (b & L0 & Hb & HL0 & _ & _ & Hok).
      rewrite list_lookup_fmap, Hb in Hbs. injection Hbs as <-.
      rewrite HL0 in HL. injection HL as <-. exact Hok.
    + intros i j a a' Hne Ha Ha'.
      destruct (Hall i a Ha) as (b & _ & Hb & _ & -> & -> & _).
      destruct (Hall j a' Ha') as (b' & _ & Hb' & _ & -> & -> & _).
      exact (Hapart i j b b' Hne Hb Hb').
  - intros i b Hb. cbn [arenas].
    destruct (lookup_lt_is_Some_2 l i) as [a Ha].
    { rewrite Hl, <- Hlen. eapply lookup_lt_Some. exact Hb. }
    exists a. split; [exact Ha|].
    destruct (Hall i a Ha) as (b0 & _ & Hb0 & _ & Hlow & Hsize & _).
    rewrite Hb in Hb0. injection Hb0 as <-. split; assumption.
  - exact Hframe.
Qed.

Lemma arenas_init_ok_witness :
  exists st LL,
    arenas_init ∅ 2 Run.bases = Ok st
    /\ arenas_ok st ((fun b => [first_chunk b]) <$> Run.bases) LL
    /\ max_arenas st = 2 /\ last_used st = 0
    /\ (forall i b, Run.bases !! i = Some b ->
          exists a, arenas st !! i = Some a
                    /\ arena_low a = b /\ arena_size a = ARENA_MAX_SIZE)
    /\ (forall t, (forall b, b ∈ Run.bases -> t < b \/ b + ARENA_MAX_SIZE <= t) ->
          load (heap st) t = load ∅ t).
Proof.
  apply (arenas_init_ok ∅ 2 Run.bases).
  - vm_compute. split; [reflexivity | discriminate].
  - reflexivity.
  - intros b Hb. unfold Run.bases in Hb.
    repeat (apply elem_of_cons in Hb; destruct Hb as [->|Hb]);
      [vm_compute; split; reflexivity | vm_compute; split; reflexivity
       | inversion Hb].
  - intros [|[|i]] [|[|j]] b b' Hne Hb Hb'; try discriminate; try congruence;
      injection Hb as <-; injection Hb' as <-; vm_compute;
      [left | right]; discriminate.
Defined.

(** X27: [arena_malloc] in a state whose arenas satisfy the invariants.  It
    takes the arena that the dispatch counter selects, advances the counter
    and allocates there: the state satisfies the invariants again, the
    blocks of every other arena are what they were, and the pointer is NULL
    with the selected arena's blocks unchanged, or the payload of an
    allocated block of that arena which holds [size] bytes, all blocks that
    were allocated before still being allocated. *)
Theorem arena_malloc_state st B LL size mmap :
  arenas_ok st B LL -> 0 <= last_used st -> 0 < size ->
  (forall a, a ∈ arenas st ->
     size + CHUNK_SIZE + 64 + arena_low a + arena_size a < Word.modulus) ->
  let i := Z.to_nat (get_arena_index st) in
  exists p st' bs bs' L',
    Arena.arena_malloc st size mmap = Ok (p, st')
    /\ B !! i = Some bs
    /\ arenas_ok st' (<[i := bs']> B) (<[i := L']> LL)
    /\ last_used st' = Word.wrap_int (last_used st + 1)
    /\ max_arenas st' = max_arenas st
    /\ local_cache st' = local_cache st
    /\ ((p = NULL /\ bs' = bs)
        \/ (p <> NULL
            /\ exists b pre rest,
                 bs' = pre ++ b :: rest
                 /\ p = header_to_payload (blk_addr b)
                 /\ blk_alloc b = true
                 /\ size <= blk_size b - wsize
                 /\ allocated bs = allocated pre ++ allocated rest
                 /\ (coalesced true bs -> coalesced true bs'))).
Proof.
  intros Hok Hlu Hsize Hno i.
  pose proof (arenas_ok_length _ _ _ Hok) as Hlen.
  pose proof (so_int _ _ _ Hok) as Hmax.
  pose proof (get_arena_index_in_range st ltac:(lia) Hlu) as Hidx.
  destruct (lookup_lt_is_Some_2 (arenas st) i) as [a Ha]; [unfold i; lia|].
  destruct (arenas_ok_lookup _ _ _ _ _ Hok Ha) as (bs & L & Hbs & HL & Hoka).
  unfold Arena.arena_malloc.
  rewrite (get_arena_ok st ltac:(lia) Hlen Hlu). cbn [bind].
  set (st1 := set_last_used st (Word.wrap_int (last_used st + 1))).
  assert (Hat : arena_at st1 (get_arena_index st) = Ok a).
  { replace (get_arena_index st) with (Z.of_nat i) by (unfold i; lia).
    apply arena_at_lookup; [exact (so_count _ _ _ Hok) | exact Ha]. }
  rewrite Hat. cbn [bind].
  pose proof (ao_start _ _ _ _ Hoka) as Hstart.
  pose proof (ao_low _ _ _ _ Hoka) as Hlow.
  replace (arena_heap_start a =? NULL) with false
    by (symmetry; apply Z.eqb_neq; zl).
  cbn [bind].
  change (heap st1) with (heap st).
  destruct (arena_malloc_core (heap st) a bs L size Hoka Hsize
              (Hno a ltac:(eapply list_elem_of_lookup_2; exact Ha)))
    as (p & m' & a' & bs' & L' & Hrun & Hout & Hcases).
  destruct (arena_malloc_mapping _ _ _ _ _ _ Hrun) as (Hlow' & Hsize' & _).
  rewrite Hrun. cbn [bind].
  pose proof (ao_end _ _ _ _ Hoka) as Hend.
  assert (Hout' : outside (arena_low a) (arena_low a + arena_size a - 1)
                    (heap st) m').
  { apply (outside_wider _ _ _ _ _ _ Hout); zl. }
  assert (Hst' : set_arena (set_heap st1 m') (get_arena_index st) a'
                 = {| heap := m'; arenas := <[i := a']> (arenas st);
                      max_arenas := max_arenas st;
                      last_used := Word.wrap_int (last_used st + 1);
                      local_cache := local_cache st |}) by reflexivity.
  rewrite Hst'.
  destruct Hcases as [(-> & -> & -> & _) | (Hnz & Hoka' & b & pre & rest & Hrest)].
  - eexists NULL, _, bs, bs, L. split; [reflexivity|]. split; [exact Hbs|].
    split.
    { apply (arenas_ok_update st B LL i a (heap st) a bs L); try assumption;
        try reflexivity. }
    cbn [last_used max_arenas local_cache].
    split; [reflexivity|]. split; [reflexivity|]. split; [reflexivity|].
    left. split; reflexivity.
  - eexists p, _, bs, bs', L'. split; [reflexivity|]. split; [exact Hbs|].
    split.
    { apply (arenas_ok_update st B LL i a m' a' bs' L'); assumption. }
    cbn [last_used max_arenas local_cache].
    split; [reflexivity|]. split; [reflexivity|]. split; [reflexivity|].
    right. split; [exact Hnz|]. exists b, pre, rest.
    destruct Hrest as (H1 & H2 & H3 & _ & H5 & H6 & H7).
    split; [exact H1|]. split; [exact H2|]. split; [exact H3|].
    split; [exact H5|]. split; [exact H6 | exact H7].
Qed.

Lemma arena_malloc_state_witness :
  exists p st' bs bs' L',
    Arena.arena_malloc scattered_state 100 0 = Ok (p, st')
    /\ [scattered_blocks] !! Z.to_nat (get_arena_index scattered_state) = Some bs
    /\ arenas_ok st'
         (<[Z.to_nat (get_arena_index scattered_state) := bs']> [scattered_blocks])
         (<[Z.to_nat (get_arena_index scattered_state) := L']> [Fragmented.listed])
    /\ last_used st' = Word.wrap_int (last_used scattered_state + 1)
    /\ max_arenas st' = max_arenas scattered_state
    /\ local_cache st' = local_cache scattered_state
    /\ ((p = NULL /\ bs' = bs)
        \/ (p <> NULL
            /\ exists b pre rest,
                 bs' = pre ++ b :: rest
                 /\ p = header_to_payload (blk_addr b)
                 /\ blk_alloc b = true
                 /\ 100 <= blk_size b - wsize
                 /\ allocated bs = allocated pre ++ allocated rest
                 /\ (coalesced true bs -> coalesced true bs'))).
Proof.
  apply (arena_malloc_state scattered_state [scattered_blocks]
           [Fragmented.listed] 100 0 scattered_state_ok).
  - vm_compute. discriminate.
  - lia.
  - intros a Ha. apply list_elem_of_singleton in Ha. subst a.
    vm_compute. reflexivity.
Defined.

(** X28: [arena_free] in a state whose arenas satisfy the invariants, on the
    payload of an allocated block [b] of arena [j].  [find_arena] finds
    arena [j], the block is freed there, and the state satisfies the
    invariants again: the allocated blocks of arena [j] are the old ones
    without [b], no two free blocks become adjacent, and the blocks of
    every other arena, the dispatch counter and the thread cache are what
    they were. *)
Theorem arena_free_state st B LL j pre b post :
  arenas_ok st B LL -> B !! j = Some (pre ++ b :: post) -> blk_alloc b = true ->
  exists st' bs' L',
    Arena.arena_free st (header_to_payload (blk_addr b)) = Ok st'
    /\ arenas_ok st' (<[j := bs']> B) (<[j := L']> LL)
    /\ allocated bs' = allocated (pre ++ post)
    /\ (coalesced true (pre ++ b :: post) -> coalesced true bs')
    /\ last_used st' = last_used st
    /\ max_arenas st' = max_arenas st
    /\ local_cache st' = local_cache st.
Proof.
  intros Hok Hbs Hb.
  pose proof (lookup_lt_Some _ _ _ Hbs) as Hj.
  rewrite (so_blocks _ _ _ Hok) in Hj.
  destruct (lookup_lt_is_Some_2 (arenas st) j Hj) as [a Ha].
  destruct (arenas_ok_lookup _ _ _ _ _ Hok Ha) as (bs0 & L & Hbs0 & HL & Hoka).
  rewrite Hbs in Hbs0. injection Hbs0 as <-.
  pose proof Hoka as [Hlow Htop Hstart Hend Hlay Hfl].
  pose proof (hl_chain _ _ _ _ Hlay) as Hc.
  destruct (chain_bounds _ _ _ _ _ Hc) as [_ Hin].
  destruct (Hin b ltac:(apply elem_of_app; right; left)) as (Hb1 & Hb2 & Hb3 & _).
  pose proof (hl_high _ _ _ _ Hlay) as Hhigh.
  assert (Hp : header_to_payload (blk_addr b) = blk_addr b + 8)
    by (unfold header_to_payload, wsize; apply padd_small; zl).
  unfold Arena.arena_free.
  rewrite (find_arena_owner st B LL j a _ Hok Ha) by (rewrite Hp; zl).
  cbn [bind].
  rewrite (arena_at_lookup st j a (so_count _ _ _ Hok) Ha). cbn [bind].
  destruct (arena_free_core (heap st) a L pre b post Hoka Hb)
    as (m' & sl' & bs' & L' & Hrun & Hoka' & Hal & Hco & Hout).
  rewrite Hrun. cbn [bind].
  assert (Hst' : set_arena (set_heap st m') (Z.of_nat j) (set_seglists a sl')
                 = {| heap := m';
                      arenas := <[j := set_seglists a sl']> (arenas st);
                      max_arenas := max_arenas st; last_used := last_used st;
                      local_cache := local_cache st |}).
  { unfold set_arena, set_heap. cbn [heap arenas max_arenas last_used local_cache].
    now rewrite Nat2Z.id. }
  rewrite Hst'.
  eexists _, bs', L'. split; [reflexivity|]. split.
  { apply (arenas_ok_update st B LL j a m' (set_seglists a sl') bs' L');
      try assumption; try reflexivity.
    apply (outside_wider _ _ _ _ _ _ Hout); zl. }
  split; [exact Hal|]. split; [exact Hco|].
  cbn [last_used max_arenas local_cache].
  split; [reflexivity|]. split; reflexivity.
Qed.

Lemma arena_free_state_witness :
  exists st' bs' L',
    Arena.arena_free scattered_state (header_to_payload 1048616) = Ok st'
    /\ arenas_ok st' (<[0%nat := bs']> [scattered_blocks])
         (<[0%nat := L']> [Fragmented.listed])
    /\ allocated bs'
       = allocated ([Fragmented.first]
                      ++ [mk_blk 1048648 32 false; Fragmented.fourth;
                          Fragmented.rest])
    /\ (coalesced true scattered_blocks -> coalesced true bs')
    /\ last_used st' = last_used scattered_state
    /\ max_arenas st' = max_arenas scattered_state
    /\ local_cache st' = local_cache scattered_state.
Proof.
  apply (arena_free_state scattered_state [scattered_blocks] [Fragmented.listed]
           0%nat [Fragmented.first] (mk_blk 1048616 32 true)
           [mk_blk 1048648 32 false; Fragmented.fourth; Fragmented.rest]
           scattered_state_ok).
  - reflexivity.
  - reflexivity.
Defined.

(** X29: [arena_free] does not accept NULL.  In a state whose arenas satisfy
    the invariants, [arena_free] of NULL, or of any address outside the
    range from [heap_start] to [heap_end] of every arena, fails the
    assertion that the pointer came from an arena; nothing is freed. *)
Theorem arena_free_foreign st B LL ptr :
  arenas_ok st B LL ->
  ptr = NULL
  \/ (forall a, a ∈ arenas st ->
        ptr < arena_heap_start a \/ arena_heap_end a < ptr) ->
  Arena.arena_free st ptr = Fault AssertionFailed.
Proof.
  intros Hok Hptr.
  pose proof (arenas_ok_length _ _ _ Hok) as Hlen.
  pose proof (so_int _ _ _ Hok) as Hmax.
  assert (Hout : forall a, a ∈ arenas st ->
            ~ (arena_heap_start a <= ptr <= arena_heap_end a)).
  { intros a Ha Hin. destruct Hptr as [->|Hptr].
    - apply list_elem_of_lookup in Ha. destruct Ha as [i Ha].
      destruct (arenas_ok_lookup _ _ _ _ _ Hok Ha) as (bs & L & _ & _ & Hoka).
      pose proof (ao_low _ _ _ _ Hoka). pose proof (ao_start _ _ _ _ Hoka). zl.
    - destruct (Hptr a Ha); lia. }
  unfold Arena.arena_free, find_arena.
  destruct (find_arena_loop_spec st ptr (Z.to_nat (max_arenas st)) 0
              ltac:(lia) ltac:(lia) Hlen) as (found & Hrun & Hfound).
  rewrite Hrun. cbn [bind]. destruct found as [k|]; [|reflexivity].
  exfalso. destruct Hfound as (_ & (a & Ha & Hin) & _).
  apply (Hout a); [|exact Hin]. eapply list_elem_of_lookup_2. exact Ha.
Qed.

Lemma arena_free_foreign_witness :
  Arena.arena_free scattered_state NULL = Fault AssertionFailed.
Proof.
  apply (arena_free_foreign scattered_state [scattered_blocks]
           [Fragmented.listed] NULL scattered_state_ok).
  left. reflexivity.
Defined.

(** ** The fast path of the cached variant *)

(** X14: the fast path of the cached variant.  In a state whose arenas
    satisfy their invariants and whose thread cache is empty,
    [arena_cached_free] of the payload of an allocated block of an arena, of
    at most [CACHE_MAX_SIZE] bytes, only puts the block into the cache: the
    heap and the arenas are untouched and the block stays allocated.  An
    [arena_cached_malloc] of up to the block's size that follows returns the
    same pointer and leaves the cache empty again. *)
Theorem cached_free_then_malloc RAND_MAX st B LL j pre b post r size mmap :
  arenas_ok st B LL -> B !! j = Some (pre ++ b :: post) -> blk_alloc b = true ->
  local_cache st = cache_init ->
  blk_size b <= CACHE_MAX_SIZE -> size <= blk_size b ->
  exists st1,
    Cached.arena_cached_free RAND_MAX st (header_to_payload (blk_addr b)) r
    = Ok st1
    /\ heap st1 = heap st /\ arenas st1 = arenas st
    /\ elems (local_cache st1)
       = [blk_addr b; NULL; NULL; NULL; NULL; NULL; NULL; NULL]
    /\ Cached.arena_cached_malloc st1 size mmap
       = Ok (header_to_payload (blk_addr b), st).
Proof.
  intros Hok Hbs Hb Hcache Hmax Hfit.
  pose proof (lookup_lt_Some _ _ _ Hbs) as Hj.
  rewrite (so_blocks _ _ _ Hok) in Hj.
  destruct (lookup_lt_is_Some_2 (arenas st) j Hj) as [a Ha].
  destruct (arenas_ok_lookup _ _ _ _ _ Hok Ha) as (bs0 & L & Hbs0 & HL & Hoka).
  rewrite Hbs in Hbs0. injection Hbs0 as <-.
  pose proof (ao_layout _ _ _ _ Hoka) as Hlay.
  assert (Hbin : b ∈ pre ++ b :: post) by (apply elem_of_app; right; left).
  destruct (chain_bounds _ _ _ _ _ (hl_chain _ _ _ _ Hlay)) as [_ Hin].
  destruct (Hin b Hbin) as (Hb1 & Hb2 & Hb3 & _).
  pose proof (hl_low _ _ _ _ Hlay) as Hlow.
  pose proof (hl_high _ _ _ _ Hlay) as Hhigh.
  pose proof (layout_size _ _ _ _ b Hlay Hbin) as Hsz.
  assert (Hbnz : blk_addr b <> NULL) by zl.
  assert (Hpay : header_to_payload (blk_addr b) = blk_addr b + wsize).
  { unfold header_to_payload. apply padd_small. zl. }
  assert (Hhdr : payload_to_header (header_to_payload (blk_addr b)) = blk_addr b).
  { rewrite Hpay. unfold payload_to_header. rewrite psub_small by zl. lia. }
  destruct (cached_hit_core RAND_MAX st (header_to_payload (blk_addr b)) r size mmap)
    as (st1 & Hfree & Hheap & Har & Hel & Hmalloc).
  - exact Hcache.
  - rewrite Hpay. zl.
  - now rewrite Hhdr.
  - now rewrite Hhdr, Hsz.
  - now rewrite Hhdr, Hsz.
  - exists st1. rewrite Hhdr in Hel. auto.
Qed.

Lemma cached_free_then_malloc_witness :
  exists st1,
    Cached.arena_cached_free Run.RAND_MAX scattered_state
      (header_to_payload 1048616) 0 = Ok st1
    /\ heap st1 = heap scattered_state /\ arenas st1 = arenas scattered_state
    /\ elems (local_cache st1)
       = [1048616; NULL; NULL; NULL; NULL; NULL; NULL; NULL]
    /\ Cached.arena_cached_malloc st1 24 MAP_FAILED
       = Ok (header_to_payload 1048616, scattered_state).
Proof.
  apply (cached_free_then_malloc Run.RAND_MAX scattered_state [scattered_blocks]
           [Fragmented.listed] 0%nat [Fragmented.first] (mk_blk 1048616 32 true)
           [mk_blk 1048648 32 false; Fragmented.fourth; Fragmented.rest]
           0 24 MAP_FAILED scattered_state_ok).
  - reflexivity.
  - reflexivity.
  - reflexivity.
  - vm_compute. discriminate.
  - vm_compute. discriminate.
Defined.

(** ** The cached variant: arenas and thread cache together *)

Section CachedState.
Import WordFacts.

Lemma arenas_ok_cache st B LL c :
  arenas_ok st B LL -> arenas_ok (set_local_cache st c) B LL.
Proof. intros [H1 H2 H3 H4 H5 H6]. split; assumption. Qed.

(** a block address names one block of one arena *)
Lemma block_unique st B LL i j bs bs' y y' :
  arenas_ok st B LL -> B !! i = Some bs -> B !! j = Some bs' ->
  y ∈ bs -> y' ∈ bs' -> blk_addr y = blk_addr y' -> i = j /\ y = y'.
Proof.
  intros Hok Hbs Hbs' Hy Hy' Haddr.
  pose proof (lookup_lt_Some _ _ _ Hbs) as Hi.
  pose proof (lookup_lt_Some _ _ _ Hbs') as Hj.
  rewrite (so_blocks _ _ _ Hok) in Hi, Hj.
  destruct (lookup_lt_is_Some_2 (arenas st) i Hi) as [a Ha].
  destruct (lookup_lt_is_Some_2 (arenas st) j Hj) as [a' Ha'].
  destruct (arenas_ok_lookup _ _ _ _ _ Hok Ha) as (bs0 & L & Hbs0 & _ & Hoka).
  destruct (arenas_ok_lookup _ _ _ _ _ Hok Ha') as (bs0' & L' & Hbs0' & _ & Hoka').
  rewrite Hbs in Hbs0. injection Hbs0 as <-.
  rewrite Hbs' in Hbs0'. injection Hbs0' as <-.
  pose proof (hl_chain _ _ _ _ (ao_layout _ _ _ _ Hoka)) as Hc.
  pose proof (hl_chain _ _ _ _ (ao_layout _ _ _ _ Hoka')) as Hc'.
  destruct (chain_bounds _ _ _ _ _ Hc) as [_ Hin].
  destruct (chain_bounds _ _ _ _ _ Hc') as [_ Hin'].
  destruct (Hin y Hy) as (? & ? & ? & ?), (Hin' y' Hy') as (? & ? & ? & ?).
  pose proof (ao_start _ _ _ _ Hoka). pose proof (ao_end _ _ _ _ Hoka).
  pose proof (ao_start _ _ _ _ Hoka'). pose proof (ao_end _ _ _ _ Hoka').
  destruct (Nat.eq_dec i j) as [->|Hne].
  - split; [reflexivity|].
    assert (Heq : bs' = bs) by congruence. subst bs'.
    destruct (chain_disjoint _ _ _ _ _ y y' Hc Hy Hy') as [->|Hd];
      [reflexivity | zl].
  - exfalso. destruct (so_apart _ _ _ Hok i j a a' Hne Ha Ha'); zl.
Qed.

Lemma sum_sizes_same m m' es :
  (forall x, x ∈ es -> x <> NULL -> get_size m' x = get_size m x) ->
  sum_sizes m' es = sum_sizes m es.
Proof.
  induction es as [|x es IH]; intros Hsame; [reflexivity|].
  cbn [sum_sizes]. rewrite IH by (intros z Hz; apply Hsame; now right).
  destruct (Z.eqb_spec x NULL) as [_|Hne]; [reflexivity|].
  rewrite (Hsame x ltac:(left) Hne). reflexivity.
Qed.

Lemma cache_inv_same m m' c :
  cache_inv m c ->
  (forall x, x ∈ elems c -> x <> NULL -> get_size m' x = get_size m x) ->
  cache_inv m' c.
Proof.
  intros [H1 H2 H3 H4] Hsame. split; try assumption.
  rewrite H3. symmetry. now apply sum_sizes_same.
Qed.

(** [truly_free] on an allocated block of arena [j] *)
Lemma truly_free_ok st B LL j pre x post :
  arenas_ok st B LL -> B !! j = Some (pre ++ x :: post) -> blk_alloc x = true ->
  exists st' bs' L',
    Cached.truly_free st (blk_addr x) = Ok st'
    /\ arenas_ok st' (<[j := bs']> B) (<[j := L']> LL)
    /\ allocated bs' = allocated (pre ++ post)
    /\ (coalesced true (pre ++ x :: post) -> coalesced true bs')
    /\ last_used st' = last_used st
    /\ max_arenas st' = max_arenas st
    /\ local_cache st' = local_cache st.
Proof.
  intros Hok Hbs Hx.
  pose proof (lookup_lt_Some _ _ _ Hbs) as Hj.
  rewrite (so_blocks _ _ _ Hok) in Hj.
  destruct (lookup_lt_is_Some_2 (arenas st) j Hj) as [a Ha].
  destruct (arenas_ok_lookup _ _ _ _ _ Hok Ha) as (bs0 & L & Hbs0 & HL & Hoka).
  rewrite Hbs in Hbs0. injection Hbs0 as <-.
  pose proof Hoka as [Hlow Htop Hstart Hend Hlay Hfl].
  pose proof (hl_chain _ _ _ _ Hlay) as Hc.
  destruct (chain_bounds _ _ _ _ _ Hc) as [_ Hin].
  destruct (Hin x ltac:(apply elem_of_app; right; left)) as (Hb1 & Hb2 & Hb3 & _).
  pose proof (hl_high _ _ _ _ Hlay) as Hhigh.
  destruct (free_core (heap st) _ L _ pre x post _ Hlay Hx Hfl)
    as (f & m3 & sl3 & m4 & sl4 & bs' & L' & Hrun & Hadd & Hlay' & Hfl' & Hal
        & _ & _ & _ & _ & Hco).
  pose proof (free_core_writes (heap st) _ L _ pre x post _ _ m3 sl3 m4 sl4
                Hlay Hx Hfl Hrun Hadd) as Hout.
  unfold Cached.truly_free.
  rewrite (find_arena_owner st B LL j a _ Hok Ha) by zl.
  cbn [bind].
  rewrite (arena_at_lookup st j a (so_count _ _ _ Hok) Ha). cbn [bind].
  cbv zeta in Hrun. rewrite Hrun. cbn [bind]. rewrite Hadd.
  assert (Hst' : set_arena (set_heap st m4) (Z.of_nat j) (set_seglists a sl4)
                 = {| heap := m4;
                      arenas := <[j := set_seglists a sl4]> (arenas st);
                      max_arenas := max_arenas st; last_used := last_used st;
                      local_cache := local_cache st |}).
  { unfold set_arena, set_heap. cbn [heap arenas max_arenas last_used local_cache].
    now rewrite Nat2Z.id. }
  rewrite Hst'.
  eexists _, bs', L'. split; [reflexivity|]. split.
  { apply (arenas_ok_update st B LL j a m4 (set_seglists a sl4) bs' L');
      try assumption; try reflexivity.
    - split; cbn [set_seglists arena_low arena_size arena_heap_start
                    arena_heap_end arena_seglists]; assumption.
    - apply (outside_wider _ _ _ _ _ _ Hout); zl. }
  split; [exact Hal|]. split; [exact Hco|].
  cbn [last_used max_arenas local_cache].
  split; [reflexivity|]. split; reflexivity.
Qed.

(** an allocated block other than the freed one is still a block of its
    arena *)
Lemma still_allocated st B LL j pre x post bs' i bs y :
  arenas_ok st B LL -> B !! j = Some (pre ++ x :: post) ->
  allocated bs' = allocated (pre ++ post) ->
  B !! i = Some bs -> y ∈ bs -> blk_alloc y = true ->
  blk_addr y <> blk_addr x ->
  exists bs2, <[j := bs']> B !! i = Some bs2 /\ y ∈ bs2.
Proof.
  intros Hok Hbs Hal Hi Hy Hya Hne.
  pose proof (lookup_lt_Some _ _ _ Hbs) as Hj.
  destruct (Nat.eq_dec i j) as [->|Hij].
  - exists bs'. split; [now apply list_lookup_insert_eq|].
    rewrite Hbs in Hi. injection Hi as <-.
    assert (Hy' : y ∈ allocated (pre ++ post)).
    { apply list_elem_of_filter. split; [exact Hya|].
      apply elem_of_app in Hy. apply elem_of_app.
      destruct Hy as [Hy|Hy]; [now left|].
      apply elem_of_cons in Hy. destruct Hy as [->|Hy]; [congruence | now right]. }
    rewrite <- Hal in Hy'. apply list_elem_of_filter in Hy'. tauto.
  - exists bs. split; [|exact Hy]. now rewrite list_lookup_insert_ne by congruence.
Qed.

(** freeing an allocated block that is not in the cache keeps the state of
    the cached variant consistent *)
Lemma cached_ok_free st B LL j pre x post :
  cached_ok st B LL -> B !! j = Some (pre ++ x :: post) -> blk_alloc x = true ->
  (forall k, elems (local_cache st) !! k <> Some (blk_addr x)) ->
  exists st' bs' L',
    Cached.truly_free st (blk_addr x) = Ok st'
    /\ cached_ok st' (<[j := bs']> B) (<[j := L']> LL)
    /\ allocated bs' = allocated (pre ++ post)
    /\ last_used st' = last_used st
    /\ max_arenas st' = max_arenas st
    /\ local_cache st' = local_cache st.
Proof.
  intros [Hok Hcache Hblocks Honce] Hbs Hx Hnot.
  destruct (truly_free_ok st B LL j pre x post Hok Hbs Hx)
    as (st' & bs' & L' & Hrun & Hok' & Hal & _ & Hlu & Hmax & Hc).
  exists st', bs', L'. split; [exact Hrun|].
  split; [|split; [exact Hal|]; split; [exact Hlu|]; split; [exact Hmax | exact Hc]].
  assert (Hkeep : forall k z, elems (local_cache st) !! k = Some z -> z <> NULL ->
            exists i bs2 y, <[j := bs']> B !! i = Some bs2 /\ y ∈ bs2
                            /\ blk_addr y = z /\ blk_alloc y = true
                            /\ get_size (heap st) z = blk_size y).
  { intros k z Hz Hnz. destruct (Hblocks k z Hz Hnz) as (i & bs & y & Hi & Hy & Hya & Hyal).
    destruct (still_allocated st B LL j pre x post bs' i bs y Hok Hbs Hal Hi Hy Hyal)
      as (bs2 & Hbs2 & Hy2).
    { rewrite Hya. intros Heq. apply (Hnot k). now rewrite <- Heq. }
    exists i, bs2, y. split; [exact Hbs2|]. split; [exact Hy2|].
    split; [exact Hya|]. split; [exact Hyal|].
    pose proof (lookup_lt_Some _ _ _ Hi) as Hlt.
    rewrite (so_blocks _ _ _ Hok) in Hlt.
    destruct (lookup_lt_is_Some_2 (arenas st) i Hlt) as [a Ha].
    destruct (arenas_ok_lookup _ _ _ _ _ Hok Ha) as (bs0 & L0 & Hbs0 & _ & Hoka).
    rewrite Hi in Hbs0. injection Hbs0 as <-.
    rewrite <- Hya. exact (layout_size _ _ _ _ y (ao_layout _ _ _ _ Hoka) Hy). }
  split.
  - exact Hok'.
  - rewrite Hc. apply (cache_inv_same (heap st)); [exact Hcache|].
    intros z Hz Hnz. apply list_elem_of_lookup in Hz. destruct Hz as [k Hk].
    destruct (Hkeep k z Hk Hnz) as (i & bs2 & y & Hbs2 & Hy2 & Hya & _ & Hsz).
    rewrite Hsz, <- Hya.
    pose proof (lookup_lt_Some _ _ _ Hbs2) as Hlt.
    rewrite (so_blocks _ _ _ Hok') in Hlt.
    destruct (lookup_lt_is_Some_2 (arenas st') i Hlt) as [a' Ha'].
    destruct (arenas_ok_lookup _ _ _ _ _ Hok' Ha') as (bs0 & L0 & Hbs0 & _ & Hoka').
    rewrite Hbs2 in Hbs0. injection Hbs0 as <-.
    exact (layout_size _ _ _ _ y (ao_layout _ _ _ _ Hoka') Hy2).
  - rewrite Hc. intros k z Hz Hnz.
    destruct (Hkeep k z Hz Hnz) as (i & bs2 & y & Hbs2 & Hy2 & Hya & Hyal & _).
    exists i, bs2, y. split; [exact Hbs2|]. split; [exact Hy2|].
    split; [exact Hya | exact Hyal].
  - rewrite Hc. exact Honce.
Qed.

(** putting an allocated block into the cache *)
Lemma cached_ok_add st B LL c' k x j bs y :
  cached_ok st B LL ->
  elems c' = <[k := x]> (elems (local_cache st)) ->
  cache_inv (heap st) c' -> x <> NULL ->
  B !! j = Some bs -> y ∈ bs -> blk_addr y = x -> blk_alloc y = true ->
  (forall n, elems (local_cache st) !! n <> Some x) ->
  cached_ok (set_local_cache st c') B LL.
Proof.
  intros [Hok Hcache Hblocks Honce] Hel Hinv Hnz Hbs Hy Hya Hyal Hnot.
  split; cbn [set_local_cache heap local_cache].
  - now apply arenas_ok_cache.
  - exact Hinv.
  - intros n z Hz Hzn. rewrite Hel in Hz.
    destruct (Nat.eq_dec n k) as [->|Hne].
    + pose proof (lookup_lt_Some _ _ _ Hz) as Hlt. rewrite length_insert in Hlt.
      rewrite list_lookup_insert_eq in Hz by exact Hlt. injection Hz as <-.
      exists j, bs, y. split; [exact Hbs|]. split; [exact Hy|].
      split; [exact Hya | exact Hyal].
    + rewrite list_lookup_insert_ne in Hz by congruence.
      exact (Hblocks n z Hz Hzn).
  - intros n n' z Hz Hz' Hzn. rewrite Hel in Hz, Hz'.
    assert (Hcase : forall n0, <[k := x]> (elems (local_cache st)) !! n0 = Some z ->
              (n0 = k /\ z = x) \/ (n0 <> k /\ elems (local_cache st) !! n0 = Some z)).
    { intros n0 H0. destruct (Nat.eq_dec n0 k) as [->|Hne].
      - left. split; [reflexivity|].
        pose proof (lookup_lt_Some _ _ _ H0) as Hlt. rewrite length_insert in Hlt.
        rewrite list_lookup_insert_eq in H0 by exact Hlt. congruence.
      - right. split; [exact Hne|].
        now rewrite list_lookup_insert_ne in H0 by congruence. }
    destruct (Hcase n Hz) as [[-> ->]|[Hn Hzn0]],
             (Hcase n' Hz') as [[-> Hzx]|[Hn' Hzn0']].
    + reflexivity.
    + exfalso. exact (Hnot n' Hzn0').
    + exfalso. subst z. exact (Hnot n Hzn0).
    + exact (Honce n n' z Hzn0 Hzn0' Hzn).
Qed.

(** taking a block out of the cache *)
Lemma cached_ok_evict st B LL c' k :
  cached_ok st B LL ->
  elems c' = <[k := NULL]> (elems (local_cache st)) ->
  cache_inv (heap st) c' ->
  cached_ok (set_local_cache st c') B LL.
Proof.
  intros [Hok Hcache Hblocks Honce] Hel Hinv.
  assert (Hcase : forall n z, elems c' !! n = Some z -> z <> NULL ->
            elems (local_cache st) !! n = Some z).
  { intros n z Hz Hzn. rewrite Hel in Hz.
    destruct (Nat.eq_dec n k) as [->|Hne].
    - pose proof (lookup_lt_Some _ _ _ Hz) as Hlt. rewrite length_insert in Hlt.
      rewrite list_lookup_insert_eq in Hz by exact Hlt. congruence.
    - now rewrite list_lookup_insert_ne in Hz by congruence. }
  split; cbn [set_local_cache heap local_cache].
  - now apply arenas_ok_cache.
  - exact Hinv.
  - intros n z Hz Hzn. exact (Hblocks n z (Hcase n z Hz Hzn) Hzn).
  - intros n n' z Hz Hz' Hzn.
    exact (Honce n n' z (Hcase n z Hz Hzn) (Hcase n' z Hz' Hzn) Hzn).
Qed.

Lemma occupied_none m es : occupied es = 0 -> sum_sizes m es = 0.
Proof.
  induction es as [|b es IH]; cbn [occupied sum_sizes]; [reflexivity|].
  pose proof (occupied_range es).
  destruct (b =? NULL); intros H0; [apply IH; lia | lia].
Qed.

(** [cache_add] refuses a block of at most [CACHE_MAX_SIZE] bytes only when
    the cache holds something *)
Lemma cache_add_refused m c b :
  cache_inv m c -> get_size m b <= CACHE_MAX_SIZE ->
  cache_add m c b = Ok (false, c) -> num_entries c > 0.
Proof.
  intros [H1 H2 H3 H4] Hsz. unfold cache_add.
  destruct (Z.eqb_spec (num_entries c) CACHE_MAX_ENTRIES) as [->|Hne];
    [intros _; reflexivity|].
  destruct (Z.gtb_spec (Word.wrap (total_size c + get_size m b)) CACHE_MAX_SIZE)
    as [Hbig|Hfits].
  - intros _. pose proof (occupied_range (elems c)) as Hr.
    destruct (Z.eq_dec (num_entries c) 0) as [H0|H0]; [|lia].
    exfalso. rewrite H2 in H0. rewrite H3, (occupied_none m _ H0) in Hbig.
    pose proof (get_size_range m b).
    rewrite Z.add_0_l, wrap_small in Hbig by lia. lia.
  - destruct (cache_add_scan _ _ _ _ _); cbn [bind]; discriminate.
Qed.

Lemma set_local_cache_same st : set_local_cache st (local_cache st) = st.
Proof. now destruct st. Qed.

(** after its [truly_free] no allocated block has the address of the block *)
Lemma freed_block_gone st B LL j pre b post bs' :
  arenas_ok st B LL -> B !! j = Some (pre ++ b :: post) ->
  allocated bs' = allocated (pre ++ post) ->
  forall i bs y, <[j := bs']> B !! i = Some bs -> y ∈ bs ->
    blk_addr y = blk_addr b -> blk_alloc y = false.
Proof.
  intros Hok Hbs Hal i bs y Hi Hy Haddr.
  destruct (blk_alloc y) eqn:Hya; [exfalso | reflexivity].
  pose proof (lookup_lt_Some _ _ _ Hbs) as Hj.
  destruct (Nat.eq_dec i j) as [->|Hne].
  - rewrite list_lookup_insert_eq in Hi by exact Hj. injection Hi as <-.
    assert (Hy' : y ∈ allocated bs') by (apply list_elem_of_filter; tauto).
    rewrite Hal in Hy'. apply list_elem_of_filter in Hy'. destruct Hy' as [_ Hy'].
    pose proof Hj as Hj'. rewrite (so_blocks _ _ _ Hok) in Hj'.
    destruct (lookup_lt_is_Some_2 (arenas st) j Hj') as [a Ha].
    destruct (arenas_ok_lookup _ _ _ _ _ Hok Ha) as (bs0 & L & Hbs0 & _ & Hoka).
    rewrite Hbs in Hbs0. injection Hbs0 as <-.
    destruct (layout_neighbours _ _ _ _ _ _ (ao_layout _ _ _ _ Hoka))
      as (_ & _ & Hmin & _ & _ & H1 & H3).
    apply elem_of_app in Hy'. destruct Hy' as [Hy'|Hy'].
    + destruct (H1 y Hy') as (? & ? & ?). zl.
    + destruct (H3 y Hy') as (? & ? & ?). zl.
  - rewrite list_lookup_insert_ne in Hi by congruence.
    destruct (block_unique st B LL i j bs _ y b Hok Hi Hbs Hy
                ltac:(apply elem_of_app; right; left) Haddr) as [Heq _].
    contradiction.
Qed.

Lemma scattered_cached_ok :
  cached_ok scattered_state [scattered_blocks] [Fragmented.listed].
Proof.
  split.
  - exact scattered_state_ok.
  - apply cache_init_inv.
  - intros k x Hx Hnz. exfalso. apply Hnz.
    cbn [scattered_state local_cache cache_init elems] in Hx.
    apply lookup_replicate in Hx. tauto.
  - intros k k' x Hx _ Hnz. exfalso. apply Hnz.
    cbn [scattered_state local_cache cache_init elems] in Hx.
    apply lookup_replicate in Hx. tauto.
Qed.

End CachedState.

(** X30: [arena_cached_free] keeps the state of the cached variant
    consistent.  In a state whose arenas and thread cache satisfy their
    invariants and whose cache holds allocated blocks only, each once,
    freeing the payload of an allocated block [b] of at most
    [CACHE_MAX_SIZE] bytes that is not in the cache returns normally,
    whatever [rand()] gives: the block is put into the cache, after an
    eviction and the [truly_free] of the evicted block if the cache refused
    it first, or it is given back to its arena.  Afterwards the invariants
    hold again, and [b] is in the cache or no allocated block has its
    address. *)
Theorem arena_cached_free_state RAND_MAX st B LL j pre b post r :
  cached_ok st B LL -> B !! j = Some (pre ++ b :: post) -> blk_alloc b = true ->
  (forall k, elems (local_cache st) !! k <> Some (blk_addr b)) ->
  blk_size b <= CACHE_MAX_SIZE ->
  exists st' B' LL',
    Cached.arena_cached_free RAND_MAX st (header_to_payload (blk_addr b)) r
    = Ok st'
    /\ cached_ok st' B' LL'
    /\ last_used st' = last_used st /\ max_arenas st' = max_arenas st
    /\ ((exists k, elems (local_cache st') !! k = Some (blk_addr b))
        \/ (forall i bs y, B' !! i = Some bs -> y ∈ bs ->
              blk_addr y = blk_addr b -> blk_alloc y = false)).
Proof.
  intros Hco Hbs Hb Hnot Hsize.
  pose proof Hco as [Hok Hcache Hblocks Honce].
  pose proof (lookup_lt_Some _ _ _ Hbs) as Hj.
  rewrite (so_blocks _ _ _ Hok) in Hj.
  destruct (lookup_lt_is_Some_2 (arenas st) j Hj) as [a Ha].
  destruct (arenas_ok_lookup _ _ _ _ _ Hok Ha) as (bs0 & L & Hbs0 & HL & Hoka).
  rewrite Hbs in Hbs0. injection Hbs0 as <-.
  pose proof (ao_layout _ _ _ _ Hoka) as Hlay.
  assert (Hbin : b ∈ pre ++ b :: post) by (apply elem_of_app; right; left).
  destruct (chain_bounds _ _ _ _ _ (hl_chain _ _ _ _ Hlay)) as [_ Hin].
  destruct (Hin b Hbin) as (Hb1 & Hb2 & Hb3 & _).
  pose proof (hl_low _ _ _ _ Hlay) as Hlow.
  pose proof (hl_high _ _ _ _ Hlay) as Hhigh.
  pose proof (layout_size _ _ _ _ b Hlay Hbin) as Hsz.
  assert (Hbnz : blk_addr b <> NULL) by zl.
  assert (Hhdr : payload_to_header (header_to_payload (blk_addr b)) = blk_addr b).
  { unfold header_to_payload, payload_to_header.
    rewrite padd_small by zl. rewrite psub_small by zl. lia. }
  assert (Hadded : forall st0 B0 LL0 c' k bs0 y,
            cached_ok st0 B0 LL0 ->
            elems (local_cache st0) !! Z.to_nat k = Some NULL ->
            elems c' = <[Z.to_nat k := blk_addr b]> (elems (local_cache st0)) ->
            cache_inv (heap st0) c' ->
            B0 !! j = Some bs0 -> y ∈ bs0 -> blk_addr y = blk_addr b ->
            blk_alloc y = true ->
            (forall n, elems (local_cache st0) !! n <> Some (blk_addr b)) ->
            cached_ok (set_local_cache st0 c') B0 LL0
            /\ exists n, elems (local_cache (set_local_cache st0 c')) !! n
                         = Some (blk_addr b)).
  { intros st0 B0 LL0 c' k bs0 y Hco0 Hslot Hel Hinv Hbs0 Hy Hya Hyal Hnot0.
    split.
    - exact (cached_ok_add st0 B0 LL0 c' (Z.to_nat k) (blk_addr b) j bs0 y
               Hco0 Hel Hinv Hbnz Hbs0 Hy Hya Hyal Hnot0).
    - exists (Z.to_nat k). cbn [set_local_cache local_cache]. rewrite Hel.
      apply list_lookup_insert_eq. eapply lookup_lt_Some. exact Hslot. }
  unfold Cached.arena_cached_free. cbv zeta. rewrite Hhdr.
  destruct (cache_add_spec (heap st) (local_cache st) (blk_addr b) Hcache Hbnz)
    as [Hrefused | (k & c' & Hk & Hslot & _ & Hel & _ & Hadd & Hinv')].
  - rewrite Hrefused. cbn [bind]. rewrite set_local_cache_same.
    destruct (Cached.evict_guard RAND_MAX r).
    + (* the cache is full: a block is evicted and freed *)
      pose proof (cache_add_refused _ _ _ Hcache ltac:(rewrite Hsz; exact Hsize)
                    Hrefused) as Hpos.
      destruct (cache_evict_spec (heap st) (local_cache st) Hcache Hpos)
        as (e & c1 & He & Henz & Hel1 & Hev & Hinv1).
      rewrite Hev. cbn [bind].
      pose proof (cached_ok_evict st B LL c1 _ Hco Hel1 Hinv1) as Hco1.
      set (st1 := set_local_cache st c1) in *.
      destruct (Hblocks _ e He Henz) as (je & bse & ye & Hbse & Hye & Hyea & Hyeal).
      destruct (list_elem_of_split _ _ Hye) as (pre_e & post_e & ->).
      assert (Hgone : forall n, elems (local_cache st1) !! n <> Some (blk_addr ye)).
      { intros n Hn. cbn [st1 set_local_cache local_cache] in Hn.
        rewrite Hel1, Hyea in Hn.
        destruct (Nat.eq_dec n (Z.to_nat (front (local_cache st)))) as [->|Hne].
        - rewrite list_lookup_insert_eq in Hn by (eapply lookup_lt_Some; exact He).
          congruence.
        - rewrite list_lookup_insert_ne in Hn by congruence.
          apply Hne. exact (Honce _ _ e Hn He Henz). }
      destruct (cached_ok_free st1 B LL je pre_e ye post_e Hco1 Hbse Hyeal Hgone)
        as (st2 & bs2 & L2 & Hrun2 & Hco2 & Hal2 & Hlu2 & Hmax2 & Hc2).
      rewrite Hyea in Hrun2. rewrite Hrun2. cbn [bind].
      assert (Hne : blk_addr b <> blk_addr ye).
      { intros Heq. apply (Hnot (Z.to_nat (front (local_cache st)))).
        now rewrite Heq, Hyea. }
      destruct (still_allocated st1 B LL je pre_e ye post_e bs2 j _ b
                  (co_arenas _ _ _ Hco1) Hbse Hal2 Hbs Hbin Hb Hne)
        as (bsj & Hbsj & Hbj).
      assert (Hnot2 : forall n, elems (local_cache st2) !! n <> Some (blk_addr b)).
      { intros n Hn. rewrite Hc2 in Hn. cbn [st1 set_local_cache local_cache] in Hn.
        rewrite Hel1 in Hn.
        destruct (Nat.eq_dec n (Z.to_nat (front (local_cache st)))) as [->|Hn'].
        - rewrite list_lookup_insert_eq in Hn by (eapply lookup_lt_Some; exact He).
          congruence.
        - rewrite list_lookup_insert_ne in Hn by congruence. exact (Hnot n Hn). }
      destruct (cache_add_spec (heap st2) (local_cache st2) (blk_addr b)
                  (co_cache _ _ _ Hco2) Hbnz)
        as [Hrefused2 | (k & c3 & Hk & Hslot & _ & Hel3 & _ & Hadd3 & Hinv3)].
      * rewrite Hrefused2. cbn [bind]. rewrite set_local_cache_same.
        destruct (list_elem_of_split _ _ Hbj) as (pre2 & post2 & ->).
        destruct (cached_ok_free st2 _ _ j pre2 b post2 Hco2 Hbsj Hb Hnot2)
          as (st3 & bs3 & L3 & Hrun3 & Hco3 & Hal3 & Hlu3 & Hmax3 & _).
        rewrite Hrun3. eexists st3, _, _. split; [reflexivity|].
        split; [exact Hco3|]. split; [now rewrite Hlu3, Hlu2|].
        split; [now rewrite Hmax3, Hmax2|]. right.
        exact (freed_block_gone st2 _ _ j pre2 b post2 bs3
                 (co_arenas _ _ _ Hco2) Hbsj Hal3).
      * rewrite Hadd3. cbn [bind].
        destruct (Hadded st2 _ _ c3 k bsj b Hco2 Hslot Hel3 Hinv3 Hbsj Hbj
                    eq_refl Hb Hnot2) as [Hco3 Hin3].
        eexists _, _, _. split; [reflexivity|]. split; [exact Hco3|].
        cbn [set_local_cache last_used max_arenas].
        split; [exact Hlu2|]. split; [exact Hmax2|]. left. exact Hin3.
    + (* the block goes back to its arena *)
      destruct (cached_ok_free st B LL j pre b post Hco Hbs Hb Hnot)
        as (st' & bs' & L' & Hrun & Hco' & Hal & Hlu & Hmax & _).
      rewrite Hrun. eexists st', _, _. split; [reflexivity|].
      split; [exact Hco'|]. split; [exact Hlu|]. split; [exact Hmax|]. right.
      exact (freed_block_gone st B LL j pre b post bs' Hok Hbs Hal).
  - (* the cache takes the block *)
    rewrite Hadd. cbn [bind].
    destruct (Hadded st B LL c' k _ b Hco Hslot Hel Hinv' Hbs Hbin eq_refl Hb Hnot)
      as [Hco' Hin'].
    eexists _, B, LL. split; [reflexivity|]. split; [exact Hco'|].
    cbn [set_local_cache last_used max_arenas].
    split; [reflexivity|]. split; [reflexivity|]. left. exact Hin'.
Qed.

Lemma arena_cached_free_state_witness :
  exists st' B' LL',
    Cached.arena_cached_free Run.RAND_MAX scattered_state
      (header_to_payload 1048616) 0
    = Ok st'
    /\ cached_ok st' B' LL'
    /\ last_used st' = last_used scattered_state
    /\ max_arenas st' = max_arenas scattered_state
    /\ ((exists k, elems (local_cache st') !! k = Some 1048616)
        \/ (forall i bs y, B' !! i = Some bs -> y ∈ bs ->
              blk_addr y = 1048616 -> blk_alloc y = false)).
Proof.
  apply (arena_cached_free_state Run.RAND_MAX scattered_state [scattered_blocks]
           [Fragmented.listed] 0%nat [Fragmented.first] (mk_blk 1048616 32 true)
           [mk_blk 1048648 32 false; Fragmented.fourth; Fragmented.rest] 0
           scattered_cached_ok).
  - reflexivity.
  - reflexivity.
  - intros k Hk. cbn [scattered_state local_cache cache_init elems] in Hk.
    apply lookup_replicate in Hk. destruct Hk as [Hk _]. discriminate Hk.
  - vm_compute. discriminate.
Defined.
